(** * Forward-scattering dipole kernel (src/subsurface/fwdscat_impl.h)

    A shallow embedding of the parameter core, the virtual source
    constructor, the kernel evaluator and the length sampler of
    [FwdScat], together with the properties stated about them.

    Numbers.  The C++ types [Float] and [double] are modelled by one type
    [Float]: a real number, one of the two infinities, or NaN.  Arithmetic
    on finite values is exact (no rounding, no overflow, one unsigned
    zero); on the special values it follows IEEE-754 (x/0, inf-inf, 0*inf,
    comparisons with NaN are false, ...). *)

From Stdlib Require Import Reals Lra Lia Bool Psatz.
From Stdlib Require Import Arith.Factorial.

Open Scope R_scope.

(** ** Floating-point values *)

Inductive Float : Type :=
| Fin (x : R)
| PInf
| NInf
| NaN.

Coercion Fin : R >-> Float.

Definition Rsgn (x : R) : comparison :=
  if Rlt_dec x 0 then Lt else if Rlt_dec 0 x then Gt else Eq.

Definition fneg (a : Float) : Float :=
  match a with
  | Fin x => Fin (- x)
  | PInf => NInf
  | NInf => PInf
  | NaN => NaN
  end.

Definition fadd (a b : Float) : Float :=
  match a, b with
  | NaN, _ | _, NaN => NaN
  | Fin x, Fin y => Fin (x + y)
  | PInf, NInf | NInf, PInf => NaN
  | PInf, _ | _, PInf => PInf
  | NInf, _ | _, NInf => NInf
  end.

Definition fsub (a b : Float) : Float := fadd a (fneg b).

(** Sign of an infinite product or quotient. *)
Definition inf_of_sign (c : comparison) : Float :=
  match c with
  | Gt => PInf
  | Lt => NInf
  | Eq => NaN
  end.

Definition fmul (a b : Float) : Float :=
  match a, b with
  | NaN, _ | _, NaN => NaN
  | Fin x, Fin y => Fin (x * y)
  | PInf, Fin y | Fin y, PInf => inf_of_sign (Rsgn y)
  | NInf, Fin y | Fin y, NInf => inf_of_sign (CompOpp (Rsgn y))
  | PInf, PInf | NInf, NInf => PInf
  | PInf, NInf | NInf, PInf => NInf
  end.

Definition fdiv (a b : Float) : Float :=
  match a, b with
  | NaN, _ | _, NaN => NaN
  | Fin x, Fin y =>
      if Req_EM_T y 0 then inf_of_sign (Rsgn x) else Fin (x / y)
  | Fin _, (PInf | NInf) => Fin 0
  | PInf, Fin y =>
      if Req_EM_T y 0 then PInf else inf_of_sign (Rsgn y)
  | NInf, Fin y =>
      if Req_EM_T y 0 then NInf else inf_of_sign (CompOpp (Rsgn y))
  | (PInf | NInf), (PInf | NInf) => NaN
  end.

Definition fsqrt (a : Float) : Float :=
  match a with
  | Fin x => if Rlt_dec x 0 then NaN else Fin (sqrt x)
  | PInf => PInf
  | NInf | NaN => NaN
  end.

(** [exp] and [log].  On a finite argument these are the real functions:
    [exp] of a number neither overflows to [+inf] nor underflows to 0, as
    it does in binary64 above about 709 and below about -745, and the
    same holds for [fpow] below.  The statements that rest on this are
    stated for exact real arithmetic. *)
Definition fexp (a : Float) : Float :=
  match a with
  | Fin x => Fin (exp x)
  | PInf => PInf
  | NInf => Fin 0
  | NaN => NaN
  end.

Definition flog (a : Float) : Float :=
  match a with
  | Fin x =>
      match Rsgn x with
      | Gt => Fin (ln x)
      | Eq => NInf
      | Lt => NaN
      end
  | PInf => PInf
  | NInf | NaN => NaN
  end.

(** [std::pow] with a constant exponent [y].  Every exponent used in this
    file is a non-zero, non-integral constant, for which a negative finite
    base gives NaN and both infinities behave alike. *)
Definition fpow (a : Float) (y : R) : Float :=
  match a with
  | Fin x =>
      match Rsgn x with
      | Gt => Fin (Rpower x y)
      | Eq => if Rlt_dec y 0 then PInf else Fin 0
      | Lt => NaN
      end
  | PInf | NInf => if Rlt_dec y 0 then Fin 0 else PInf
  | NaN => NaN
  end.

(** [cbrt]: the real cube root, odd in its argument. *)
Definition Rcbrt (x : R) : R :=
  match Rsgn x with
  | Gt => Rpower x (1 / 3)
  | Eq => 0
  | Lt => - Rpower (- x) (1 / 3)
  end.

Definition fcbrt (a : Float) : Float :=
  match a with
  | Fin x => Fin (Rcbrt x)
  | PInf => PInf
  | NInf => NInf
  | NaN => NaN
  end.

Definition fabs (a : Float) : Float :=
  match a with
  | Fin x => Fin (Rabs x)
  | PInf | NInf => PInf
  | NaN => NaN
  end.

(** Comparisons: false as soon as one side is NaN. *)
Definition fltb (a b : Float) : bool :=
  match a, b with
  | Fin x, Fin y => if Rlt_dec x y then true else false
  | NInf, (Fin _ | PInf) => true
  | Fin _, PInf => true
  | _, _ => false
  end.

Definition feqb (a b : Float) : bool :=
  match a, b with
  | Fin x, Fin y => if Req_EM_T x y then true else false
  | PInf, PInf | NInf, NInf => true
  | _, _ => false
  end.

Definition fleb (a b : Float) : bool := fltb a b || feqb a b.
Definition fgtb (a b : Float) : bool := fltb b a.
Definition fgeb (a b : Float) : bool := fleb b a.
Definition fneb (a b : Float) : bool := negb (feqb a b).

Definition isfinite (a : Float) : bool :=
  match a with
  | Fin _ => true
  | _ => false
  end.

Definition isinf (a : Float) : bool :=
  match a with
  | PInf | NInf => true
  | _ => false
  end.

Declare Scope float_scope.
Delimit Scope float_scope with flt.
Bind Scope float_scope with Float.

Notation "a .+ b" := (fadd a b) (at level 50, left associativity) : float_scope.
Notation "a .- b" := (fsub a b) (at level 50, left associativity) : float_scope.
Notation "a .* b" := (fmul a b) (at level 40, left associativity) : float_scope.
Notation "a ./ b" := (fdiv a b) (at level 40, left associativity) : float_scope.
Notation ".- a" := (fneg a) (at level 35, right associativity) : float_scope.
Notation "a .< b" := (fltb a b) (at level 70, no associativity) : float_scope.
Notation "a .<= b" := (fleb a b) (at level 70, no associativity) : float_scope.
Notation "a .> b" := (fgtb a b) (at level 70, no associativity) : float_scope.
Notation "a .>= b" := (fgeb a b) (at level 70, no associativity) : float_scope.
Notation "a .== b" := (feqb a b) (at level 70, no associativity) : float_scope.
Notation "a .!= b" := (fneb a b) (at level 70, no associativity) : float_scope.

Open Scope float_scope.

(** [std::max(a, b)] and [std::min(a, b)] as the C++ library defines
    them, and Mitsuba's [math::clamp(value, min, max)], which is
    [std::min(max, std::max(min, value))]. *)
Definition std_max (a b : Float) : Float := if a .< b then b else a.
Definition std_min (a b : Float) : Float := if b .< a then b else a.
Definition clamp (value lo hi : Float) : Float :=
  std_min hi (std_max lo value).

Definition square (a : Float) : Float := a .* a.

(** ** Vectors and normals (Mitsuba's [Vector], [Normal], [Vector3d]) *)

Record Vector : Type := mkVector { vx : Float; vy : Float; vz : Float }.

Definition Normal := Vector.

(** [Vector(c)]: all three components equal to [c]. *)
Definition vconst (c : Float) : Vector := mkVector c c c.

Definition vadd (a b : Vector) : Vector :=
  mkVector (vx a .+ vx b) (vy a .+ vy b) (vz a .+ vz b).
Definition vsub (a b : Vector) : Vector :=
  mkVector (vx a .- vx b) (vy a .- vy b) (vz a .- vz b).
Definition vneg (a : Vector) : Vector :=
  mkVector (.- vx a) (.- vy a) (.- vz a).
(** [f * v] and [v * f]. *)
Definition vscale (f : Float) (a : Vector) : Vector :=
  mkVector (vx a .* f) (vy a .* f) (vz a .* f).
(** [v / f] multiplies by the reciprocal. *)
Definition vdivf (a : Vector) (f : Float) : Vector :=
  let recip := 1 ./ f in
  mkVector (vx a .* recip) (vy a .* recip) (vz a .* recip).

Definition dot (a b : Vector) : Float :=
  vx a .* vx b .+ vy a .* vy b .+ vz a .* vz b.
Definition cross (a b : Vector) : Vector :=
  mkVector (vy a .* vz b .- vz a .* vy b)
           (vz a .* vx b .- vx a .* vz b)
           (vx a .* vy b .- vy a .* vx b).
Definition lengthSquared (a : Vector) : Float :=
  vx a .* vx a .+ vy a .* vy a .+ vz a .* vz a.
Definition vlength (a : Vector) : Float := fsqrt (lengthSquared a).
Definition normalize (a : Vector) : Vector := vdivf a (vlength a).
Definition visFinite (a : Vector) : bool :=
  isfinite (vx a) && isfinite (vy a) && isfinite (vz a).
Definition visZero (a : Vector) : bool :=
  (vx a .== 0) && (vy a .== 0) && (vz a .== 0).

(** ** Mode selectors (declared in fwdscat.h)

    Each enumeration has one more constructor for an integer outside the
    named values, which the [default:] arms of the switches handle.  Those
    arms call [Log(EError, ...)], which throws in Mitsuba; the functions
    below keep only the value of the [return] that follows the call, so
    the results of this development say nothing about what a caller
    observes for a selector outside the named values. *)

Inductive TangentPlaneMode : Type :=
| EFrisvadEtAl
| EFrisvadEtAlWithMeanNormal
| EUnmodifiedIncoming
| EUnmodifiedOutgoing
| EUnknownTangentPlaneMode.

Inductive ZvMode : Type :=
| EFrisvadEtAlZv
| EBetterDipoleZv
| EClassicDiffusion
| EUnknownZvMode.

(** [DipoleMode] is a bit mask: [EReal = 1], [EVirt = 2],
    [ERealAndVirt = EReal | EVirt]; [EDipoleOther r v] is any other
    integer, with its two low bits. *)
Inductive DipoleMode : Type :=
| EReal
| EVirt
| ERealAndVirt
| EDipoleOther (realBit virtBit : bool).

Definition hasReal (m : DipoleMode) : bool :=
  match m with
  | EReal | ERealAndVirt => true
  | EVirt => false
  | EDipoleOther r _ => r
  end.

Definition hasVirt (m : DipoleMode) : bool :=
  match m with
  | EVirt | ERealAndVirt => true
  | EReal => false
  | EDipoleOther _ v => v
  end.

(** ** The medium: the data members of [FwdScat] read by this file *)

Record FwdScat : Type := mkFwdScat {
  sigma_s : Float;
  sigma_a : Float;
  mu : Float;
  m_eta : Float
}.

Definition M_PI_DBL : Float := Fin PI.
Definition SQRT_TWO_DBL : Float := Fin (sqrt 2).

(** ** Parameter core *)

(** The outputs [C], [D], [E], [F] and [*Z_ptr] of [calcValues]. *)
Record ShapeParameters : Type := mkShape {
  sp_C : Float;
  sp_D : Float;
  sp_E : Float;
  sp_F : Float;
  sp_Z : Float
}.

(** The dimensionless [(D, E, F, Z)] of the three arms of [calcValues]. *)
Record DimensionlessShape : Type := mkDimless {
  dl_D : Float;
  dl_E : Float;
  dl_F : Float;
  dl_Z : Float
}.

(** Arm [ps < 0.3]: power series, "at least 8 digits accuracy". *)
Definition calcValues_series (ps : Float) : DimensionlessShape :=
  let ps2 := ps .* ps in
  let ps3 := ps2 .* ps in
  let ps5 := ps2 .* ps3 in
  let D := 1.5 ./ ps .- 0.1 .* ps .+ Fin (13 / 1050) .* ps3
           .- Fin (11 / 7875) .* ps5 in
  let E := (4.5 ./ ps .+ 0.3 .* ps .- Fin (3 / 350) .* ps3) ./ ps in
  let F := (4.5 ./ ps .+ 1.8 .* ps .- Fin (3 / 350) .* ps3) ./ ps2 in
  let Z := E .* E ./ F .- 2 .* D in
  mkDimless D E F Z.

(** Arm [ps > 9]: [t = exp(-2ps)] set to 0, except in [Z]. *)
Definition calcValues_asymptotic (ps : Float) : DimensionlessShape :=
  let t := fexp ((-2) .* ps) in
  let t2 := t .* t in
  let tmp := 1.0 ./ (ps .- 1.0) in
  let D := 0.75 .* tmp in
  let E := 1.50 .* tmp in
  let F := 1.50 .* tmp in
  let Z := 6 .* t ./ (1 .- t2) in
  mkDimless D E F Z.

(** Remaining arm: exact solutions. *)
Definition calcValues_exact (ps : Float) : DimensionlessShape :=
  let t := fexp ((-2) .* ps) in
  let t2 := t .* t in
  let D := 0.75 .* (1 .- 4 .* ps .* t .- t2)
           ./ (ps .- 1 .+ 2 .* t .- (ps .+ 1) .* t2) in
  let E := 1.50 .* (1 .- t) ./ (ps .- 1 .+ (ps .+ 1) .* t) in
  let F := 1.50 .* (1 .+ t) ./ (ps .- 1 .+ (ps .+ 1) .* t) in
  let Z := 6 .* t ./ (1 .- t2) in
  mkDimless D E F Z.

(** From dimensionless to dimensionful: [C = 3/ps], [E *= p],
    [F *= p*p]. *)
Definition calcValues_finish (p ps : Float) (d : DimensionlessShape)
  : ShapeParameters :=
  mkShape (3 ./ ps) (dl_D d) (dl_E d .* p) (dl_F d .* (p .* p)) (dl_Z d).

(** [calcValues] with the arm left open: [p], [ps], the arm at [ps],
    then the rescaling. *)
Definition calcValues_arm (arm : Float -> DimensionlessShape)
    (self : FwdScat) (length : Float) : ShapeParameters :=
  let p := 0.5 .* mu self .* sigma_s self in
  let s := length in
  let ps := p .* s in
  calcValues_finish p ps (arm ps).

(** The choice of the arm: [if (ps < 0.3) ... else if (ps > 9) ... else]. *)
Definition calcValues_select (ps : Float) : DimensionlessShape :=
  if ps .< 0.3 then calcValues_series ps
  else if ps .> 9 then calcValues_asymptotic ps
  else calcValues_exact ps.

Definition calcValues (self : FwdScat) (length : Float) : ShapeParameters :=
  calcValues_arm calcValues_select self length.

(** The factor named [ZoverExpMinOne] ("= Z / (exp(Z) - 1)") in
    [absorptionAndNormalizationConstant]: its two arms, then the choice. *)
Definition ZoverExpMinOne_series (Z : Float) : Float :=
  1 .+ 0.5 .* Z .+ Fin (1 / 12) .* Z .* Z .- Fin (1 / 720) .* Z .* Z .* Z .* Z.

Definition ZoverExpMinOne_closed (Z : Float) : Float :=
  Z ./ (fexp Z .- 1).

Definition ZoverExpMinOne (Z : Float) : Float :=
  if Z .< 0.002 then ZoverExpMinOne_series Z else ZoverExpMinOne_closed Z.

Definition absorptionAndNormalizationConstant (self : FwdScat)
    (theLength : Float) : Float :=
  let p := 0.5 .* sigma_s self .* mu self in
  let ps := p .* theLength in
  if ps .< 0.006 then
    let c0 := Fin (81 / 32) in
    let c1 := Fin (891 / 320) in
    let c2 := Fin (8721 / 6400) in
    let c3 := Fin (-374841 / 448000) in
    p .* p .* p .* SQRT_TWO_DBL .* fpow M_PI_DBL (-2.5)
      .* fexp ((.- sigma_a self) .* theLength)
      .* fpow ps (-11 / 2)
      .* (c0 .+ c1 .* ps .+ c2 .* ps .* ps .+ c3 .* ps .* ps .* ps)
  else
    let v := calcValues self theLength in
    0.25 ./ fpow M_PI_DBL 2.5
      .* fexp (sp_C v .- sp_D v .- sigma_a self .* theLength)
      .* fsqrt (sp_F v) .* sp_F v .* ZoverExpMinOne (sp_Z v).

(** ** Real-valued readings of the arms of [calcValues]

    What the three arms compute on a finite [ps = x], written over the
    reals; [calcValues_series_fin] and its siblings below prove that the
    arms return exactly these values. *)

Definition series_D (x : R) : R :=
  (1.5 / x - 0.1 * x + 13 / 1050 * (x * x * x)
   - 11 / 7875 * (x * x * (x * x * x)))%R.
Definition series_E (x : R) : R :=
  ((4.5 / x + 0.3 * x - 3 / 350 * (x * x * x)) / x)%R.
Definition series_F (x : R) : R :=
  ((4.5 / x + 1.8 * x - 3 / 350 * (x * x * x)) / (x * x))%R.
Definition series_Z (x : R) : R :=
  (series_E x * series_E x / series_F x - 2 * series_D x)%R.

Definition asym_D (x : R) : R := (0.75 * (1.0 / (x - 1.0)))%R.
Definition asym_E (x : R) : R := (1.50 * (1.0 / (x - 1.0)))%R.
Definition asym_F (x : R) : R := (1.50 * (1.0 / (x - 1.0)))%R.

Definition exact_D (x : R) : R :=
  let t := exp (-2 * x) in
  (0.75 * (1 - 4 * x * t - t * t) / (x - 1 + 2 * t - (x + 1) * (t * t)))%R.
Definition exact_E (x : R) : R :=
  let t := exp (-2 * x) in
  (1.50 * (1 - t) / (x - 1 + (x + 1) * t))%R.
Definition exact_F (x : R) : R :=
  let t := exp (-2 * x) in
  (1.50 * (1 + t) / (x - 1 + (x + 1) * t))%R.
Definition exact_Z (x : R) : R :=
  let t := exp (-2 * x) in
  (6 * t / (1 - t * t))%R.

(** A finite, nonnegative value. *)
Definition nonneg_fin (a : Float) : Prop :=
  exists x : R, a = Fin x /\ (0 <= x)%R.

(** Partial sums [sum_{i <= n} y^(k+i) / (k+i)!] of the exponential
    series, carrying the current term; used to bound [exp] at the arm
    boundaries. *)
Fixpoint exp_psum (y term : R) (k n : nat) : R :=
  match n with
  | O => term
  | S n' => (term + exp_psum y (term * y / INR (S k)) (S k) n')%R
  end.

(** Agreement of two finite values within a relative error [tol],
    measured against the second one. *)
Definition rel_close (tol : R) (a b : Float) : Prop :=
  exists x y : R,
    a = Fin x /\ b = Fin y /\ (Rabs (x - y) <= tol * Rabs y)%R.

Definition shapes_close (tol : R) (v w : ShapeParameters) : Prop :=
  rel_close tol (sp_C v) (sp_C w)
  /\ rel_close tol (sp_D v) (sp_D w)
  /\ rel_close tol (sp_E v) (sp_E w)
  /\ rel_close tol (sp_F v) (sp_F w)
  /\ rel_close tol (sp_Z v) (sp_Z w).

(** ** Collaborators

    Functions and constants that this file uses and that are defined
    elsewhere (Mitsuba core, dipoleUtil.h, fwdscat.h, truncnorm.h, boost):
    they are parameters of the development. *)

(** The random source: a stream of numbers; [next1D] takes its head. *)
Definition Sampler : Type := nat -> Float.

Definition next1D (sampler : Sampler) : Float * Sampler :=
  (sampler 0%nat, fun n => sampler (S n)).

Class Collaborators : Type := {
  (** [refract(wi, n, eta, cosThetaT, F)]: the refracted direction (the
      zero vector on total internal reflection), [cosThetaT] and the
      Fresnel reflectance [F]. *)
  refract : Vector -> Normal -> Float -> Vector * Float * Float;
  fresnelDiffuseReflectance : Float -> Float;
  dEon_A : Float -> Float;
  (** The constant [MTS_FWDSCAT_DIRECTION_MIN_MU] of fwdscat.h. *)
  MTS_FWDSCAT_DIRECTION_MIN_MU : Float;
  (** [truncnorm(mean, stddev, lo, hi, sampler)] and its density. *)
  truncnorm : Float -> Float -> Float -> Float -> Sampler -> Float * Sampler;
  truncnormPdf : Float -> Float -> Float -> Float -> Float -> Float;
  (** [boost::math::erf]. *)
  erf : Float -> Float;
  (** [boost::math::tools::toms748_solve(f, lo, hi, eps_tolerance(bits),
      max_iter)]: the final bracket, or [None] when it throws. *)
  toms748_solve :
    (Float -> Float) -> Float -> Float -> nat -> nat -> option (Float * Float);
  (** [meanTailCutoff]: -1e4 under [SINGLE_PRECISION], -1e7 under
      [DOUBLE_PRECISION]. *)
  meanTailCutoff : Float
}.

Section Kernel.

Context {collab : Collaborators}.
Variable self : FwdScat.

(** ** Virtual source constructor *)

(** The first switch of [getVirtualDipoleSource]: the effective normal, or
    [None] where the code returns false. *)
Definition effectiveNormal (n0 nL : Normal) (R : Vector)
    (tangentMode : TangentPlaneMode) : option Normal :=
  match tangentMode with
  | EFrisvadEtAl =>
      if vlength R .== 0 then Some n0
      else if vlength (cross n0 R) .== 0 then None
      else Some (cross (normalize R) (normalize (cross n0 R)))
  | EFrisvadEtAlWithMeanNormal =>
      let sumNormal := vadd n0 nL in
      if vlength R .== 0 then Some n0
      else if vlength (cross sumNormal R) .== 0 then None
      else Some (cross (normalize R) (normalize (cross sumNormal R)))
  | EUnmodifiedIncoming => Some n0
  | EUnmodifiedOutgoing => Some nL
  | EUnknownTangentPlaneMode => None
  end.

(** The second switch: the height [zv] of the virtual source. *)
Definition virtualSourceHeight (zvMode : ZvMode) : option Float :=
  let sigma_sp := sigma_s self .* mu self in
  let sigma_tp := sigma_sp .+ sigma_a self in
  match zvMode with
  | EFrisvadEtAlZv =>
      if (sigma_tp .== 0) || (sigma_sp .== 0) then None
      else
        let D := 1 ./ (3 .* sigma_tp) in
        let alpha_p := sigma_sp ./ sigma_tp in
        let d_e := 2.131 .* D ./ fsqrt alpha_p in
        let A := dEon_A (m_eta self) in
        Some (2 .* A .* d_e)
  | EBetterDipoleZv =>
      if sigma_tp .== 0 then None
      else
        let D := (2 .* sigma_a self .+ sigma_sp) ./ (3 .* square sigma_tp) in
        let A := dEon_A (m_eta self) in
        Some (4 .* A .* D)
  | EClassicDiffusion =>
      if sigma_tp .== 0 then None
      else
        let Fdr := fresnelDiffuseReflectance (1 ./ m_eta self) in
        let A := (1 .+ Fdr) ./ (1 .- Fdr) in
        let D := 1 ./ (3 .* sigma_tp) in
        Some (4 .* A .* D)
  | EUnknownZvMode => None
  end.

(** [getVirtualDipoleSource]: [None] for [return false], otherwise
    [(u0_virt, R_virt, n0_effective)]. *)
Definition getVirtualDipoleSource
    (n0 : Normal) (u0 : Vector) (nL : Normal) (uL : Vector)
    (R : Vector) (length : Float)
    (rejectInternalIncoming : bool)
    (tangentMode : TangentPlaneMode) (zvMode : ZvMode)
  : option (Vector * Vector * Vector) :=
  match effectiveNormal n0 nL R tangentMode with
  | None => None
  | Some n0_effective =>
      if negb (visFinite n0_effective) then None
      else if rejectInternalIncoming && (dot n0_effective u0 .> 0) then None
      else
        match virtualSourceHeight zvMode with
        | None => None
        | Some zv =>
            let R_virt := vsub R (vscale zv n0_effective) in
            let u0_virt :=
              vsub u0 (vscale (2 .* dot n0_effective u0) n0_effective) in
            Some (u0_virt, R_virt, n0_effective)
        end
  end.

(** The weight computed at the end of
    [getTentativeIndexMatchedVirtualSourceDisp]. *)
Definition realSourceRatio (uL R R_virt : Vector) (s : Float) : Float :=
  let v := calcValues self s in
  fexp (sp_E v .* dot (vsub R R_virt) uL
        .- sp_F v .* (lengthSquared R .- lengthSquared R_virt)).

Definition realSourceWeightOf (ratio : Float) : Float :=
  if isinf (ratio .+ 1) then 1.0 else ratio ./ (ratio .+ 1).

(** [getTentativeIndexMatchedVirtualSourceDisp]: [None] for
    [return false], otherwise [(R_virt, n0_effective, weight)], the weight
    being computed only when [optional_realSourceRelativeWeight] is
    non-null ([wantWeight]). *)
Definition getTentativeIndexMatchedVirtualSourceDisp
    (n0 nL : Normal) (uL R : Vector) (s : Float)
    (tangentMode : TangentPlaneMode) (wantWeight : bool)
  : option (Vector * Vector * option Float) :=
  let _u0 := vconst NaN in
  let rejectInternalIncoming := false in
  let zvMode := EClassicDiffusion in
  match getVirtualDipoleSource n0 _u0 nL uL R s
          rejectInternalIncoming tangentMode zvMode with
  | None => None
  | Some (_u0_virt, R_virt, n0_effective) =>
      if negb wantWeight then Some (R_virt, n0_effective, None)
      else
        let ratio := realSourceRatio uL R R_virt s in
        let realSourceWeight := realSourceWeightOf ratio in
        Some (R_virt, n0_effective, Some realSourceWeight)
  end.

(** ** Kernel evaluator *)

Definition roundCosThetaForStability (cosTheta minCosTheta maxCosTheta : Float)
  : Float :=
  clamp cosTheta minCosTheta maxCosTheta.

(** [evalMonopole].  The [CancellationCheck] calls only log and the
    [MTS_FWDSCAT_DEBUG] block is compiled out. *)
Definition evalMonopole (u0 uL R : Vector) (length : Float) : Float :=
  let v := calcValues self length in
  let H := vsub (vscale (sp_E v) R) (vscale (sp_D v) uL) in
  let lHl := vlength H in
  let Hnorm := vdivf H lHl in
  let lHlreg :=
    if lHl .> 1 ./ MTS_FWDSCAT_DIRECTION_MIN_MU
    then 1 ./ MTS_FWDSCAT_DIRECTION_MIN_MU else lHl in
  let cosTheta := roundCosThetaForStability (dot u0 Hnorm) (-1) 1 in
  let N := absorptionAndNormalizationConstant self length in
  let G := N .* fexp ((.- sp_C v) .+ sp_E v .* dot R uL .+ lHlreg .* cosTheta
                      .- sp_F v .* lengthSquared R) in
  G.

Definition evalPlaneSource (u0 uL n : Vector) (Rz length : Float) : Float :=
  let v := calcValues self length in
  let u0z := dot u0 n in
  let uLz := dot uL n in
  let result :=
    absorptionAndNormalizationConstant self length
    .* M_PI_DBL ./ sp_F v
    .* fexp (sp_E v .* sp_E v ./ 4 ./ sp_F v
               .* (2 .+ 2 .* dot u0 uL .- square (u0z .+ uLz))
             .- sp_D v .* dot u0 uL
             .- sp_C v
             .+ sp_E v .* Rz .* (u0z .+ uLz)
             .- sp_F v .* Rz .* Rz) in
  if negb (isfinite result) then 0 else result.

(** The type of [evalDipole], used for its recursive call. *)
Definition evalDipoleType : Type :=
  Normal -> Vector -> Normal -> Vector -> Vector -> Float ->
  bool -> bool -> TangentPlaneMode -> ZvMode -> bool -> DipoleMode -> Float.

(** The body of [evalDipole], with the recursive call left open.
    [MTS_FWDSCAT_DIPOLE_REJECT_INCOMING_WRT_TRUE_SURFACE_NORMAL] is true. *)
Definition evalDipole_body (recurse : evalDipoleType) : evalDipoleType :=
  fun n0 u0_external nL uL_external R length
      rejectInternalIncoming reciprocal tangentMode zvMode
      useEffectiveBRDF dipoleMode =>
  if visFinite nL && (dot uL_external nL .<= 0) then 0
  else if dot u0_external n0 .>= 0 then 0
  else
    let '(r0, _, F0) := refract (vneg u0_external) n0 (m_eta self) in
    let '(rL, _, FL) := refract uL_external nL (m_eta self) in
    let u0 := r0 in
    let uL := vneg rL in
    let fresnelTransmittance := (1 .- F0) .* (1 .- FL) in
    if visZero u0 || visZero uL then 0
    else
      match getVirtualDipoleSource n0 u0 nL uL R length
              rejectInternalIncoming tangentMode zvMode with
      | None => 0
      | Some (u0_virt, R_virt, _) =>
          if useEffectiveBRDF then
            let Rv_z := dot R_virt nL in
            fresnelTransmittance
            .* (evalPlaneSource u0 uL nL 0 length
                .- evalPlaneSource u0_virt uL nL Rv_z length)
          else
            let real :=
              if hasReal dipoleMode then evalMonopole u0 uL R length
              else 0 in
            let virt :=
              if hasVirt dipoleMode
              then evalMonopole u0_virt uL R_virt length else 0 in
            let transport :=
              match dipoleMode with
              | ERealAndVirt => Some (real .- virt)
              | EReal => Some real
              | EVirt => Some virt
              | EDipoleOther _ _ => None
              end in
            match transport with
            | None => 0
            | Some transport =>
                if reciprocal then
                  let transportRev :=
                    recurse nL (vneg uL) n0 (vneg u0) (vneg R) length
                      rejectInternalIncoming false
                      tangentMode zvMode useEffectiveBRDF dipoleMode in
                  0.5 .* (transport .+ transportRev) .* fresnelTransmittance
                else transport .* fresnelTransmittance
            end
      end.

(** [evalDipole]: the recursive call passes [reciprocal = false], so the
    recursion stops after one level; below that the recursive call is
    never made. *)
Definition evalDipole : evalDipoleType :=
  evalDipole_body (evalDipole_body (fun _ _ _ _ _ _ _ _ _ _ _ _ => NaN)).

(** ** Length sampler *)

Definition lengthSample_w1 : Float := 0.5.
Definition lengthSample_w2 : Float := 0.5.
Definition lengthSample_w3 : Float := 0.0.

(** [sampleLengthAbsorption(s, sampler)]: the pdf, the length [s] (left
    as it was when nothing is sampled) and the advanced sampler. *)
Definition sampleLengthAbsorption (s : Float) (sampler : Sampler)
  : Float * Float * Sampler :=
  if sigma_a self .== 0 then (Fin 0.0, s, sampler)
  else
    let '(u, sampler) := next1D sampler in
    let s := (.- flog u) ./ sigma_a self in
    let pdf := sigma_a self .* fexp ((.- sigma_a self) .* s) in
    (pdf, s, sampler).

Definition pdfLengthAbsorption (s : Float) : Float :=
  if sigma_a self .== 0 then 0.0
  else sigma_a self .* fexp ((.- sigma_a self) .* s).

(** [do { t = truncnorm(mean, stddev, 0.0, 1.0/0.0, sampler); }
    while (t == 0);] with a bound on the number of draws; [None] when the
    bound is reached. *)
Fixpoint truncnorm_nonzero (fuel : nat) (mean stddev : Float)
    (sampler : Sampler) : option (Float * Sampler) :=
  match fuel with
  | O => None
  | S fuel' =>
      let '(t, sampler) := truncnorm mean stddev 0.0 PInf sampler in
      if t .== 0 then truncnorm_nonzero fuel' mean stddev sampler
      else Some (t, sampler)
  end.

(** The mean of the gaussian in [t = (ps)^(-3)] fitted by
    [implLengthShortLimitKnownU0], before the fallback. *)
Definition shortLimitKnownU0_mean (r cosTheta0L u0dotuL : Float) : Float :=
  if r .> 1e-4 then
    let t1 := 1 ./ r in
    let t2 := cosTheta0L .* cosTheta0L in
    let t3 := t2 .* cosTheta0L in
    let t5 := fsqrt 3 in
    let t8 := u0dotuL .* u0dotuL in
    let t18 := r .* r in
    let t25 := (-108) .* r .* u0dotuL .* cosTheta0L .+ 96 .* t3 .* r
               .- 216 .* r .* cosTheta0L .- 4 .* t2 .* t8
               .- 16 .* t2 .* u0dotuL
               .+ 4 .* t8 .* u0dotuL .+ 243 .* t18 .- 16 .* t2 .+ 24 .* t8
               .+ 48 .* u0dotuL .+ 32 in
    let t26 := fsqrt t25 in
    let t34 := fcbrt (12 .* t26 .* t5 .- (72 .* cosTheta0L .* u0dotuL)
                      .+ (324 .* r) .+ (64 .* t3) .- (144 .* cosTheta0L)) in
    let t35 := t34 .* t1 in
    let t42 := 1 ./ t34 .* t1 .* ((-4) .* t2 .+ 3 .* u0dotuL .+ 6) in
    let t44 := cosTheta0L .* t1 in
    let t46 := t35 ./ 18 .+ Fin (2 / 9) .* (t44 .- t42) in
    let t47 := t46 .* t46 in
    Fin (1 / 9) ./ t18
      .* (6 .* cosTheta0L .* t47 .* r .- u0dotuL .* t46
          .- t35 ./ 9 .+ Fin (4 / 9) .* (t42 .- t44) .+ 1)
  else
    let t1 := fsqrt 3 in
    let t3 := (u0dotuL .+ 2) .* (u0dotuL .+ 2) in
    let t4 := cosTheta0L .* cosTheta0L in
    let t7 := fsqrt (t3 .* ((.- t4) .+ u0dotuL .+ 2)) in
    let t14 := 24 .* t1 .* t7
               .- 72 .* cosTheta0L .* (Fin (-8 / 9) .* t4 .+ u0dotuL .+ 2) in
    let t15 := fcbrt t14 in
    let t16 := t15 .* t15 in
    let t28 := Fin (-8 / 3) .* t4 .+ u0dotuL .+ 2 in
    let t35 := t4 .* t4 in
    let t41 := u0dotuL .* u0dotuL in
    let t48 := r .* r in
    ((48 .* t4 .* cosTheta0L .+ ((-36) .* u0dotuL .- 72) .* cosTheta0L) .* t16
     .+ 36 .* (Fin (-4 / 3) .* t4 .+ u0dotuL .+ 2) .* t28 .* t15
     .- 72 .* t1 .* t28 .* t7
     .+ cosTheta0L .* ((768 .* t35) .+ (((-1152) .* u0dotuL .- 2304) .* t4)
                       .+ t15 .* t14 .+ (360 .* t41) .+ (1440 .* u0dotuL)
                       .+ 1440))
    ./ (t16 .* t48 .* r .* 486).

(** The standard deviation fitted for a given (final) [mean]. *)
Definition shortLimitKnownU0_realStddev (r cosTheta0L u0dotuL mean : Float)
  : Float :=
  let mean113 := fpow mean (11 / 3) in
  let mean53 := fpow mean (5 / 3) in
  let mean73 := fpow mean (7 / 3) in
  let mean2 := mean .* mean in
  if r .< 1e-4 then
    fsqrt (((-54) .* r .* cosTheta0L .+ 12 .* u0dotuL .* u0dotuL
            .+ 48 .* u0dotuL .+ 48) .* fpow mean (8 / 3) ./ 27
           .+ (18 .* u0dotuL .+ 36) .* mean73 ./ 27
           .+ (8 .* u0dotuL .* u0dotuL .* u0dotuL
               .+ 48 .* u0dotuL .* u0dotuL
               .+ ((-72) .* r .* cosTheta0L .+ 96) .* u0dotuL
               .- 144 .* r .* cosTheta0L .+ 64) .* mean .* mean .* mean ./ 27
           .+ mean .* mean)
  else
    fsqrt ((3 .* mean113)
           ./ (3 .* mean53 .+ 6 .* mean73 .* r .* cosTheta0L
               .- (2 .* u0dotuL .+ 4) .* mean2)).

(** The end of [implLengthShortLimitKnownU0], once [mean] and [stddev]
    are fitted: [t] and [ps] are drawn (or recomputed from [s] when the
    sampler is null), then the pdf is evaluated. *)
Definition shortLimitKnownU0_finish (fuel : nat)
    (p mean stddev s : Float) (sampler : option Sampler)
  : option (Float * Float * option Sampler) :=
  let sampled :=
    match sampler with
    | Some smp =>
        match truncnorm_nonzero fuel mean stddev smp with
        | None => None
        | Some (t, smp) =>
            let ps := fpow t (-1 / 3) in
            Some (t, ps, ps ./ p, Some smp)
        end
    | None =>
        let ps := p .* s in
        Some (1 ./ (ps .* ps .* ps), ps, s, None)
    end in
  match sampled with
  | None => None
  | Some (t, ps, s, sampler) =>
      let tPdf := truncnormPdf mean stddev 0.0 PInf t in
      Some (s, tPdf .* 3 ./ (ps .* ps .* ps .* ps) .* p, sampler)
  end.

(** [implLengthShortLimitKnownU0].  [sampler] is [None] for a null
    pointer; [pdf] is never null at the call sites.  The result is the
    length [s] and the pdf, with the advanced sampler. *)
Definition implLengthShortLimitKnownU0 (fuel : nat)
    (R u0 uL : Vector) (s : Float) (sampler : option Sampler)
  : option (Float * Float * option Sampler) :=
  let p := 0.5 .* sigma_s self .* mu self in
  let lRl := vlength R in
  let r := lRl .* p in
  if r .== 0 then
    Some (match sampler with Some _ => Fin 0 | None => s end, Fin 0, sampler)
  else
    let cosTheta0L := clamp (dot R u0 ./ lRl) (-1.0) 1.0
                      .+ clamp (dot R uL ./ lRl) (-1.0) 1.0 in
    let u0dotuL := dot u0 uL in
    let mean := shortLimitKnownU0_mean r cosTheta0L u0dotuL in
    let mean :=
      if negb (isfinite mean) || (mean .<= 0) then 1 ./ (r .* r .* r)
      else mean in
    let realStddev := shortLimitKnownU0_realStddev r cosTheta0L u0dotuL mean in
    let stddevSafetyFactor := Fin 2 in
    let stddev := stddevSafetyFactor .* realStddev in
    let stddev :=
      if negb (isfinite stddev) || (stddev .<= 0) then mean else stddev in
    shortLimitKnownU0_finish fuel p mean stddev s sampler.

(** The block [do { ... } while (false)] of
    [implLengthShortLimitMargOverU0_internal]: the uniform backup weight
    and the fitted [t_mean] and [t_stddev] (both start at -1). *)
Definition shortLimitMargOverU0_fit (r cosTheta safetyFac : Float)
  : Float * Float * Float :=
  let r2 := r .* r in
  let D := (25 .* cosTheta .* (cosTheta .+ 1) .- 25 .- 30 .* r2) ./ 225.0 in
  if D .<= 0 then (Fin 1, Fin (-1), Fin (-1))
  else
    let t_mean25 := ((cosTheta .+ 1) ./ 3.0 .+ fsqrt D) ./ r in
    if t_mean25 .<= 0 then (Fin 1, Fin (-1), Fin (-1))
    else
      let t_mean := t_mean25 .* t_mean25 .* fsqrt t_mean25 in
      let t_mean45 := square t_mean25 in
      let t_mean85 := square t_mean45 in
      let t_var := 125 .* t_mean85
                   ./ (135 .* r2 .* t_mean45
                       .+ 90 .* r .* (cosTheta .+ 1) .* t_mean25
                       .- 54 .* r2 .- 45 .* (cosTheta .+ 2)) in
      if negb (t_var .> 0) then (Fin 1, t_mean, Fin (-1))
      else if safetyFac .== 1.0 then (Fin 1e-2, t_mean, fsqrt t_var)
      else
        let t_mean2 := t_mean .* t_mean in
        let t_mean4 := t_mean2 .* t_mean2 in
        let tmp2 := 1764 .* square ((safetyFac .- Fin (7 / 6)) .* t_var)
                    .+ (2450 .- 2800 .* safetyFac) .* t_var .* t_mean2
                    .+ 625 .* t_mean4 in
        let tmp := if tmp2 .> 0 then fsqrt tmp2 else 0 in
        let newMean := t_mean
                       .* (475 .* t_mean2 .- 868 .* safetyFac .* t_var
                           .+ 931 .* t_var .- 19 .* tmp)
                       ./ (350 .* t_mean2 .+ (686 .- 588 .* safetyFac) .* t_var
                           .- 14 .* tmp) in
        let newVar := t_var .* (Fin (7 / 2) .- 3 .* safetyFac)
                      .+ Fin (25 / 14) .* t_mean2 .- tmp ./ 14 in
        if negb (isfinite tmp) || negb (isfinite newMean)
           || negb (newVar .> 0)
        then (Fin 0.3, t_mean, fsqrt t_var)
        else (Fin 1e-2, newMean, fsqrt newVar).

(** The end of [implLengthShortLimitMargOverU0_internal], once the
    backup weight and the fit are known: [ps] and [t] are drawn (or
    recomputed from [s]), then the pdf is evaluated. *)
Definition shortLimitMargOverU0_finish (fuel : nat)
    (p uniformBackupWeight t_mean t_stddev s : Float)
    (sampler : option Sampler)
  : option (Float * Float * option Sampler) :=
  let uniformSpan := Fin 2 in
  let sampled :=
    match sampler with
    | Some smp =>
        let '(useUniform, smp) :=
          if uniformBackupWeight .== 1 then (true, smp)
          else
            let '(u, smp) := next1D smp in
            (u .< uniformBackupWeight, smp) in
        if useUniform then
          let '(u, smp) := next1D smp in
          let ps := uniformSpan .* u in
          Some (fpow ps (-5 / 2), ps, ps ./ p, Some smp)
        else
          match truncnorm_nonzero fuel t_mean t_stddev smp with
          | None => None
          | Some (t, smp) =>
              let ps := fpow t (-2 / 5) in
              Some (t, ps, ps ./ p, Some smp)
          end
    | None =>
        let ps := s .* p in
        Some (fpow ps (-5 / 2), ps, s, None)
    end in
  match sampled with
  | None => None
  | Some (t, ps, s, sampler) =>
      let tPdf :=
        if uniformBackupWeight .== 1 then Fin 0
        else truncnormPdf t_mean t_stddev 0.0 PInf t in
      let unifPdf := if ps .< uniformSpan then 1.0 ./ uniformSpan else 0 in
      let psPdf := uniformBackupWeight .* unifPdf
                   .+ (1 .- uniformBackupWeight) .* tPdf .* 5.0 ./ 2.0
                      .* fpow ps (-7 / 2) in
      Some (s, psPdf .* p, sampler)
  end.

(** [implLengthShortLimitMargOverU0_internal]; [pdf] is never null at the
    call sites. *)
Definition implLengthShortLimitMargOverU0_internal (fuel : nat)
    (R uL : Vector) (s : Float) (sampler : option Sampler)
    (safetyFac : Float)
  : option (Float * Float * option Sampler) :=
  let p := 0.5 .* sigma_s self .* mu self in
  let lRl := vlength R in
  let r := lRl .* p in
  let cosTheta := clamp (dot R uL ./ lRl) (-1) 1 in
  if r .== 0 then
    Some (match sampler with Some _ => Fin 0 | None => s end, Fin 0, sampler)
  else
    let '(uniformBackupWeight, t_mean, t_stddev) :=
      shortLimitMargOverU0_fit r cosTheta safetyFac in
    let uniformBackupWeight :=
      if t_mean ./ t_stddev .< meanTailCutoff then Fin 1
      else uniformBackupWeight in
    shortLimitMargOverU0_finish fuel p uniformBackupWeight t_mean t_stddev
      s sampler.

Definition implLengthShortLimitMargOverU0 (fuel : nat)
    (R uL : Vector) (s : Float) (sampler : option Sampler)
  : option (Float * Float * option Sampler) :=
  let safetyFac := Fin 3 in
  let safetyWeight := Fin 0.3 in
  let internal := implLengthShortLimitMargOverU0_internal fuel R uL in
  let both :=
    match sampler with
    | Some smp =>
        let '(u, smp) := next1D smp in
        if u .> safetyWeight then
          match internal s (Some smp) safetyFac with
          | None => None
          | Some (s, pdfSafety, sampler) =>
              match internal s None 1.0 with
              | None => None
              | Some (_, pdfOrig, _) => Some (s, pdfOrig, pdfSafety, sampler)
              end
          end
        else
          match internal s (Some smp) 1.0 with
          | None => None
          | Some (s, pdfOrig, sampler) =>
              match internal s None safetyFac with
              | None => None
              | Some (_, pdfSafety, _) => Some (s, pdfOrig, pdfSafety, sampler)
              end
          end
    | None =>
        match internal s None 1.0 with
        | None => None
        | Some (_, pdfOrig, _) =>
            match internal s None safetyFac with
            | None => None
            | Some (_, pdfSafety, _) => Some (s, pdfOrig, pdfSafety, None)
            end
        end
    end in
  match both with
  | None => None
  | Some (s, pdfOrig, pdfSafety, sampler) =>
      Some (s,
            safetyWeight .* pdfSafety .+ (1 .- safetyWeight) .* pdfOrig,
            sampler)
  end.

(** [implLengthShortLimit]: [u0] is [None] for a null pointer. *)
Definition implLengthShortLimit (fuel : nat)
    (R : Vector) (u0 : option Vector) (uL : Vector) (s : Float)
    (sampler : option Sampler)
  : option (Float * Float * option Sampler) :=
  match u0 with
  | None => implLengthShortLimitMargOverU0 fuel R uL s sampler
  | Some u0 => implLengthShortLimitKnownU0 fuel R u0 uL s sampler
  end.

(** [sampleLengthShortLimit]: the pdf, the sampled [s], the sampler. *)
Definition sampleLengthShortLimit (fuel : nat)
    (R : Vector) (u0 : option Vector) (uL : Vector) (s : Float)
    (sampler : Sampler) : option (Float * Float * Sampler) :=
  match implLengthShortLimit fuel R u0 uL s (Some sampler) with
  | Some (s, pdf, Some sampler) => Some (pdf, s, sampler)
  | Some (s, pdf, None) => Some (pdf, s, sampler)
  | None => None
  end.

(** [pdfLengthShortLimit]: with a null sampler no loop is entered, so the
    bound on the draws plays no role ([implLengthShortLimit_pdf_fuel]) and
    the [None] arm is not reached ([implLengthShortLimit_pdf_some]). *)
Definition pdfLengthShortLimit
    (R : Vector) (u0 : option Vector) (uL : Vector) (s : Float) : Float :=
  match implLengthShortLimit 0 R u0 uL s None with
  | Some (_, pdf, _) => pdf
  | None => NaN
  end.

(** [math::fastexp] computes the exponential. *)
Definition fastexp (x : Float) : Float := fexp x.

Definition pdfLengthLongLimit (R uL : Vector) (s : Float) : Float :=
  let p := 0.5 .* sigma_s self .* mu self in
  if p .== 0 then 0
  else
    let s_p1 := s .* p in
    let R_p1 := vscale p R in
    let R2minusRdotUL_p1 := lengthSquared R_p1 .- dot R_p1 uL in
    let beta := Fin (3 / 2) .* R2minusRdotUL_p1 in
    if beta .<= 0 then pdfLengthAbsorption s
    else
      let a_p1 := sigma_a self ./ p in
      let pdf_p1 := fsqrt (beta ./ M_PI_DBL) ./ (s_p1 .* fsqrt s_p1)
                    .* fastexp ((.- beta) ./ s_p1 .- a_p1 .* s_p1
                                .+ 2 .* fsqrt (beta .* a_p1)) in
      if negb (isfinite pdf_p1) then 0
      else pdf_p1 .* p.

(** The lambda [cdf] of [sampleLengthLongLimit] (the warning it logs is
    left out). *)
Definition longLimit_cdf (sA sB C : Float) (ps : Float) : Float :=
  let erfDiffArg := (sA .* ps .+ sB) ./ fsqrt ps in
  let erfSumArg := (sA .* ps .- sB) ./ fsqrt ps in
  let erfDiff :=
    if erfDiffArg .> 3 then
      let x := erfDiffArg in
      let x2 := x .* x in
      let x3 := x2 .* x in
      let x5 := x3 .* x2 in
      (1 ./ x .- 0.5 ./ x3 .+ 0.75 ./ x5) .* fexp (4 .* sA .* sB .- x2)
      ./ fsqrt M_PI_DBL
    else C .* (1 .- erf erfDiffArg) in
  let erfSum :=
    if erfSumArg .< (-3) then
      let x := erfSumArg in
      let x2 := x .* x in
      let x3 := x2 .* x in
      let x5 := x3 .* x2 in
      ((-1) ./ x .+ 0.5 ./ x3 .- 0.75 ./ x5) ./ fexp x2 ./ fsqrt M_PI_DBL
    else 1 .+ erf erfSumArg in
  let theCdf := 0.5 .* (erfDiff .+ erfSum) in
  clamp theCdf 0 1.

(** [while (target(hi) < 0 && hi < 1e4*1000/A) hi *= 3;] with a bound on
    the number of iterations; [None] when the bound is reached. *)
Fixpoint longLimit_expand (fuel : nat) (target : Float -> Float)
    (A hi : Float) : option Float :=
  match fuel with
  | O => None
  | S fuel' =>
      if (target hi .< 0) && (hi .< 1e4 .* 1000 ./ A)
      then longLimit_expand fuel' target A (hi .* 3)
      else Some hi
  end.

(** The part of [sampleLengthLongLimit] after [u] is drawn: bracketing and
    root search.  The result is the returned pdf and the length [s]. *)
Definition longLimit_invert (fuel : nat) (R uL : Vector) (s : Float)
    (p A : Float) (target : Float -> Float) : option (Float * Float) :=
  let lo := Fin 0 in
  if negb (isfinite (target lo)) || (target lo .> 0) then Some (Fin 0, s)
  else
    let hi := 1000 ./ A in
    if negb (isfinite (target hi)) then Some (Fin 0, s)
    else
      match longLimit_expand fuel target A hi with
      | None => None
      | Some hi =>
          if negb (isfinite (target hi)) || (target hi .< 0)
          then Some (Fin 0, s)
          else
            let max_iter := 1000%nat in
            match toms748_solve target lo hi 15 max_iter with
            | Some (first, second) =>
                let s_p1 := 0.5 .* (first .+ second) in
                let s := s_p1 ./ p in
                if negb (isfinite s) then Some (Fin 0, s)
                else Some (pdfLengthLongLimit R uL s, s)
            | None => Some (Fin 0, s)
            end
      end.

(** The quantities [beta] and [A] and the lambda [target] of
    [sampleLengthLongLimit], for the drawn number [u]. *)
Definition longLimit_beta (R uL : Vector) : Float :=
  let p := 0.5 .* sigma_s self .* mu self in
  let R_p1 := vscale p R in
  let R2minusRdotUL_p1 := lengthSquared R_p1 .- dot R_p1 uL in
  Fin (3 / 2) .* R2minusRdotUL_p1.

Definition longLimit_A : Float :=
  let p := 0.5 .* sigma_s self .* mu self in
  sigma_a self ./ p.

Definition longLimit_target (R uL : Vector) (u : Float) : Float -> Float :=
  let B := longLimit_beta R uL in
  let A := longLimit_A in
  let sA := fsqrt A in
  let sB := fsqrt B in
  let C := fexp (4 .* sA .* sB) in
  let cdf := longLimit_cdf sA sB C in
  fun ps => cdf ps .- u.

(** [sampleLengthLongLimit]: the pdf, the length [s], the sampler. *)
Definition sampleLengthLongLimit (fuel : nat) (R uL : Vector) (s : Float)
    (sampler : Sampler) : option (Float * Float * Sampler) :=
  let p := 0.5 .* sigma_s self .* mu self in
  if p .== 0 then Some (Fin 0, s, sampler)
  else
    let beta := longLimit_beta R uL in
    if beta .<= 0 then Some (sampleLengthAbsorption s sampler)
    else
      let A := longLimit_A in
      let '(u, sampler) := next1D sampler in
      let target := longLimit_target R uL u in
      match longLimit_invert fuel R uL s p A target with
      | None => None
      | Some (pdf, s) => Some (pdf, s, sampler)
      end.

(** [sampleLengthDipole]: the returned importance weight, the length [s]
    and the sampler; [None] only when a bound on a loop is reached. *)
Definition sampleLengthDipole (fuel : nat)
    (uL nL R : Vector) (u0 : option Vector) (n0 : Vector)
    (tangentMode : TangentPlaneMode) (s : Float) (sampler : Sampler)
  : option (Float * Float * Sampler) :=
  match getTentativeIndexMatchedVirtualSourceDisp
          n0 nL uL R NaN tangentMode false with
  | None => Some (Fin 0.0, s, sampler)
  | Some (R_virt, _, _) =>
      let '(u, sampler) := next1D sampler in
      let '(R_effective, R_other) :=
        if u .< 0.5 then (R, R_virt) else (R_virt, R) in
      let '(u, sampler) := next1D sampler in
      let none := Fin (-1) in
      (** the three arms [if (u < w1) ... else if ... else if ...]; the
          last component tells whether the arm ended in [return 0.0f] *)
      let drawn :=
        if u .< lengthSample_w1 then
          match sampleLengthShortLimit fuel R u0 uL s sampler with
          | None => None
          | Some (p1, s, sampler) =>
              Some (p1, none, none, s, sampler, p1 .== 0)
          end
        else if u .< lengthSample_w1 .+ lengthSample_w2 then
          match sampleLengthLongLimit fuel R_effective uL s sampler with
          | None => None
          | Some (p2, s, sampler) =>
              Some (none, p2, none, s, sampler, p2 .== 0)
          end
        else if u .< lengthSample_w1 .+ lengthSample_w2 .+ lengthSample_w3
        then
          let '(p3, s, sampler) := sampleLengthAbsorption s sampler in
          Some (none, none, p3, s, sampler, p3 .== 0)
        else Some (none, none, none, s, sampler, false) in
      match drawn with
      | None => None
      | Some (p1, p2, p3, s, sampler, returnsZero) =>
          if returnsZero then Some (Fin 0.0, s, sampler)
          else
            let p1 :=
              if p1 .== (-1) then
                (if lengthSample_w1 .== 0 then Fin 0
                 else pdfLengthShortLimit R u0 uL s)
              else p1 in
            let p2 :=
              if p2 .== (-1) then
                (if lengthSample_w2 .== 0 then Fin 0
                 else pdfLengthLongLimit R_effective uL s)
              else p2 in
            let p3 :=
              if p3 .== (-1) then
                (if lengthSample_w3 .== 0 then Fin 0
                 else pdfLengthAbsorption s)
              else p3 in
            let p2 :=
              if lengthSample_w2 .!= 0
              then 0.5 .* (p2 .+ pdfLengthLongLimit R_other uL s)
              else p2 in
            Some (1.0 ./ (lengthSample_w1 .* p1
                          .+ lengthSample_w2 .* p2
                          .+ lengthSample_w3 .* p3),
                  s, sampler)
      end
  end.

Definition pdfLengthDipole
    (uL nL R : Vector) (u0 : option Vector) (n0 : Vector)
    (tangentMode : TangentPlaneMode) (s : Float) : Float :=
  match getTentativeIndexMatchedVirtualSourceDisp
          n0 nL uL R NaN tangentMode false with
  | None => 0.0
  | Some (R_virt, _, _) =>
      let p1 :=
        if lengthSample_w1 .== 0 then Fin 0
        else pdfLengthShortLimit R u0 uL s in
      let p2 :=
        if lengthSample_w2 .== 0 then Fin 0
        else 0.5 .* (pdfLengthLongLimit R uL s
                     .+ pdfLengthLongLimit R_virt uL s) in
      let p3 :=
        if lengthSample_w3 .== 0 then Fin 0 else pdfLengthAbsorption s in
      lengthSample_w1 .* p1 .+ lengthSample_w2 .* p2 .+ lengthSample_w3 .* p3
  end.

End Kernel.

(** The interface of the truncated normal restricted to [0, +inf]: it
    never returns a value below 0. *)
Definition truncnorm_in_range {collab : Collaborators} : Prop :=
  forall (mean stddev : Float) (smp : Sampler),
    (fst (truncnorm mean stddev 0.0 PInf smp) .< 0) = false.

(** ** A sample instance of the collaborators

    Used to exhibit concrete inputs.  For [eta = 1] refraction passes the
    direction straight through with reflectance 0 (what [evalDipole]
    asserts for [m_eta == 1]); for any other [eta] this instance reports
    total internal reflection. *)

Definition sample_refract (wi : Vector) (n : Normal) (eta : Float)
  : Vector * Float * Float :=
  if eta .== 1 then (vneg wi, .- dot wi n, Fin 0)
  else (vconst 0, Fin 0, Fin 1).

Definition sample_truncnorm (mean stddev lo hi : Float) (sampler : Sampler)
  : Float * Sampler :=
  let '(u, sampler) := next1D sampler in
  (clamp (mean .+ stddev .* u) lo hi, sampler).

Definition sample_truncnormPdf (mean stddev lo hi x : Float) : Float :=
  if (x .< lo) || (x .> hi) then 0 else 1 ./ stddev.

Definition sample_collaborators : Collaborators := {|
  refract := sample_refract;
  fresnelDiffuseReflectance := fun _ => Fin 0;
  dEon_A := fun _ => Fin 1;
  MTS_FWDSCAT_DIRECTION_MIN_MU := Fin 1e-4;
  truncnorm := sample_truncnorm;
  truncnormPdf := sample_truncnormPdf;
  erf := fun x => clamp x (-1) 1;
  toms748_solve := fun _ lo hi _ _ => Some (lo, hi);
  meanTailCutoff := Fin (-1e7)
|}.

(** A sample random stream: 0.25, 0.75, then 0.5 for ever. *)
Definition sample_stream : Sampler :=
  fun n =>
    match n with
    | O => Fin 0.25
    | S O => Fin 0.75
    | _ => Fin 0.5
    end.

(** ** Interface assumptions used by further properties *)

(** The medium is index-matched for the collaborator [refract]: every
    direction passes straight through, with Fresnel reflectance 0 (what
    [evalDipole] asserts for [m_eta == 1]). *)
Definition index_matched {collab : Collaborators} (self : FwdScat) : Prop :=
  forall (wi : Vector) (n : Normal),
    exists c : Float, refract wi n (m_eta self) = (vneg wi, c, Fin 0).

(** * Direction sampler (second half of fwdscat_impl.h) *)

(** ** Further numbers and collaborators *)

(** [sin] and [cos] of [math::sincos], exact on finite values. *)
Definition fsin (a : Float) : Float :=
  match a with
  | Fin x => Fin (sin x)
  | _ => NaN
  end.

Definition fcos (a : Float) : Float :=
  match a with
  | Fin x => Fin (cos x)
  | _ => NaN
  end.

(** Mitsuba's constants [M_PI], [HALF_PI], [TWO_PI_DBL], [INV_PI] and
    [INV_TWOPI]. *)
Definition M_PI : Float := Fin PI.
Definition HALF_PI : Float := Fin (PI / 2).
Definition TWO_PI_DBL : Float := Fin (2 * PI).
Definition INV_PI : Float := Fin (/ PI).
Definition INV_TWOPI : Float := Fin (/ (2 * PI)).

(** [sampler->next2D()]: the next two numbers of the stream. *)
Definition next2D (sampler : Sampler) : (Float * Float) * Sampler :=
  ((sampler 0%nat, sampler 1%nat), fun n => sampler (S (S n))).

(** Functions and constants used by the direction sampler and defined
    elsewhere (Mitsuba core: constants.h, math.h, frame.h, warp.h; libm). *)
Class DirectionCollaborators : Type := {
  (** [Epsilon] and [LOG_REDUCED_PRECISION]. *)
  Epsilon : Float;
  LOG_REDUCED_PRECISION : Float;
  (** [math::safe_sqrt] and [math::safe_asin]. *)
  safe_sqrt : Float -> Float;
  safe_asin : Float -> Float;
  (** [atan2(y, x)]. *)
  atan2 : Float -> Float -> Float;
  (** [warp::squareToCosineHemisphere] and its density. *)
  squareToCosineHemisphere : Float * Float -> Vector;
  squareToCosineHemispherePdf : Vector -> Float;
  (** [Frame(n)]: its tangents [s] and [t], and [toWorld]. *)
  frame_s : Vector -> Vector;
  frame_t : Vector -> Vector;
  frame_toWorld : Vector -> Vector -> Vector;
  (** [warp::uniformToTruncatedExponential(a, lo, hi, u)] and its
      density at [x]. *)
  uniformToTruncatedExponential : Float -> Float -> Float -> Float -> Float;
  uniformToTruncatedExponentialPdf : Float -> Float -> Float -> Float -> Float
}.

(** [directionSampler_origWeight] and [directionSampler_dipoleHemiWeight]. *)
Definition directionSampler_origWeight : Float := 0.5.
Definition directionSampler_dipoleHemiWeight : Float := 0.05.

(** [roundCosThetaBoundsForStability] leaves both bounds as they are
    ([_reducePrecisionForCosTheta] returns its argument). *)
Definition _reducePrecisionForCosTheta (x : Float) : Float := x.

Definition roundCosThetaBoundsForStability (minCosTheta maxCosTheta : Float)
  : Float * Float :=
  (_reducePrecisionForCosTheta minCosTheta,
   _reducePrecisionForCosTheta maxCosTheta).

Section DirectionSampler.

Context {collab : Collaborators} {dcollab : DirectionCollaborators}.
Variable self : FwdScat.

(** [_sampleHemisphere]: the pdf, the direction [d_in], the sampler. *)
Definition _sampleHemisphere (n_in : Vector) (sampler : Sampler)
  : Float * Vector * Sampler :=
  let '(uv, sampler) := next2D sampler in
  let hemiSamp := squareToCosineHemisphere uv in
  let pdf := squareToCosineHemispherePdf hemiSamp in
  let hemiSamp := mkVector (vx hemiSamp) (vy hemiSamp) (.- vz hemiSamp) in
  let d_in := frame_toWorld n_in hemiSamp in
  (pdf, d_in, sampler).

Definition _pdfHemisphere (n_in d_in : Vector) : Float :=
  INV_PI .* fabs (dot d_in n_in).


(** ** Samplers of the polar and of the azimuthal angle *)

(** The local [enum {ELaplace, EExp, EUniform, ENone} strategy] of
    [sampleExpSinCos_dCos]. *)
Inductive ExpSinCosStrategy : Type :=
| ELaplace
| EExp
| EUniform
| ENone.

(** [sampleExpSinCos_dCos(a, b, cosTheta, sampler)]: the returned pdf, the
    value left in [cosTheta], the sampler.  [sampler] is [None] for a
    null pointer, in which case [cosTheta] is only read. *)
Definition sampleExpSinCos_dCos (a b cosTheta : Float)
    (sampler : option Sampler) : Float * Float * option Sampler :=
  let laplaceWeight := if a .< Epsilon then Fin 0.00 else Fin 0.49 in
  let expWeight := if a .< Epsilon then Fin 0.98 else Fin 0.49 in
  let uniformWeight := Fin 0.02 in
  let '(strategy, sampler) :=
    match sampler with
    | Some smp =>
        let '(u, smp) := next1D smp in
        (if u .< laplaceWeight then ELaplace
         else if u .< laplaceWeight .+ expWeight then EExp
         else EUniform,
         Some smp)
    | None => (ENone, None)
    end in
  let mean := b ./ fsqrt (a .* a .+ b .* b) in
  let var := 0.5 .* fpow (1 .- mean .* mean) 1.5 ./ a in
  let stddevSafetyFactor := Fin 2 in
  let stddev := stddevSafetyFactor .* fsqrt var in
  let '(cosTheta, sampler) :=
    match sampler, strategy with
    | Some smp, ELaplace =>
        let '(c, smp) := truncnorm mean stddev (-1.0) 0.0 smp in
        (c, Some smp)
    | Some smp, EExp =>
        let '(u, smp) := next1D smp in
        (uniformToTruncatedExponential b (-1.0) 0.0 u, Some smp)
    | Some smp, EUniform =>
        let '(u, smp) := next1D smp in
        (.- u, Some smp)
    | _, _ => (cosTheta, sampler)
    end in
  let laplacePdf :=
    if laplaceWeight .== 0 then Fin 0
    else truncnormPdf mean stddev (-1.0) 0.0 cosTheta in
  let expPdf := uniformToTruncatedExponentialPdf b (-1.0) 0.0 cosTheta in
  let uniformPdf := Fin 1 in
  (laplaceWeight .* laplacePdf .+ expWeight .* expPdf
   .+ uniformWeight .* uniformPdf,
   cosTheta, sampler).

(** [sampleExpCos_dPhi(a, phi, sampler)]: the returned pdf, the value left
    in [phi], the sampler. *)
Definition sampleExpCos_dPhi (a phi : Float) (sampler : option Sampler)
  : Float * Float * option Sampler :=
  let uniformWeight := Fin 0.10 in
  let truncnormWeight := Fin 0.90 in
  let '(doUniformSamplingInstead, sampler) :=
    match sampler with
    | Some smp =>
        let '(u, smp) := next1D smp in
        (u .< uniformWeight, Some smp)
    | None => (false, None)
    end in
  let phiOrigSd := 1.0 ./ fsqrt (fabs a) in
  let stddevSafetyFactor := if phiOrigSd .> 1.5 then Fin 1.8 else Fin 1.1 in
  let phiSd := stddevSafetyFactor .* phiOrigSd in
  if phiSd .== 0 then (Fin 0, phi, sampler)
  else
    let '(phiMean, phiLo, phiHi) :=
      if a .> 0 then (Fin 0, .- M_PI_DBL, M_PI_DBL)
      else (M_PI_DBL, Fin 0, TWO_PI_DBL) in
    let '(phi, sampler) :=
      match sampler with
      | Some smp =>
          if doUniformSamplingInstead then
            let '(u, smp) := next1D smp in
            (phiLo .+ u .* (phiHi .- phiLo), Some smp)
          else
            let '(ph, smp) := truncnorm phiMean phiSd phiLo phiHi smp in
            (ph, Some smp)
      | None => (phi, None)
      end in
    let phiForPdf := if phi .< phiLo then phi .+ TWO_PI_DBL else phi in
    (truncnormWeight .* truncnormPdf phiMean phiSd phiLo phiHi phiForPdf
     .+ uniformWeight .* INV_TWOPI,
     phi, sampler).


(** ** The monopole direction sampler, version "_bis" *)

(** [implDirectionBoundaryAwareMonopole_bis]: the pdf written to [*pdf]
    (never null at the call sites), the value left in [u0], the sampler.
    With a sampler, [cosTheta] and [phi] are uninitialised when they are
    handed to the two angle samplers, which overwrite them before any
    use; NaN stands for their content. *)
Definition implDirectionBoundaryAwareMonopole_bis
    (u0 n0 uL R : Vector) (s : Float) (sampler : option Sampler)
  : Float * Vector * option Sampler :=
  let v := calcValues self s in
  let z := n0 in
  let H := vsub (vscale (sp_E v) R) (vscale (sp_D v) uL) in
  let H :=
    if vlength H .> 1 ./ MTS_FWDSCAT_DIRECTION_MIN_MU
    then vscale (1 ./ MTS_FWDSCAT_DIRECTION_MIN_MU ./ vlength H) H
    else H in
  let x_unnorm := vsub H (vscale (dot z H) z) in
  let x_unnorm :=
    if vlength x_unnorm .<= Epsilon .* vlength H then frame_s n0
    else x_unnorm in
  let x := normalize x_unnorm in
  let y := cross x z in
  let a := dot H x in
  let b := dot H z in
  let a := if a .< 0 then Fin 0 else a in
  let a := if fabs a .< 1e-4 then Fin 0 else a in
  let u0d := u0 in
  let '(cosThetaPdf, cosTheta, sampler) :=
    match sampler with
    | Some _ => sampleExpSinCos_dCos a b NaN sampler
    | None =>
        let cosTheta := clamp (dot u0d z) (-1.0) 0.0 in
        sampleExpSinCos_dCos a b cosTheta None
    end in
  let sinTheta := safe_sqrt (1 .- square cosTheta) in
  let phiCte := fabs a .* sinTheta in
  let '(phiPdf, phi, sampler) :=
    match sampler with
    | Some _ => sampleExpCos_dPhi phiCte NaN sampler
    | None =>
        let phi := atan2 (dot u0d y) (dot u0d x) in
        sampleExpCos_dPhi phiCte phi None
    end in
  if phiPdf .== 0 then (Fin 0, u0, sampler)
  else
    let sinPhi := fsin phi in
    let cosPhi := fcos phi in
    let constructed_u0 :=
      vadd (vadd (vscale sinTheta (vscale cosPhi x))
                 (vscale sinTheta (vscale sinPhi y)))
           (vscale cosTheta z) in
    let u0 := match sampler with Some _ => constructed_u0 | None => u0 end in
    let thePdf := cosThetaPdf .* phiPdf in
    if negb (isfinite thePdf) || (thePdf .< 0) then (Fin 0, u0, sampler)
    else (thePdf, u0, sampler).

(** [sampleDirectionBoundaryAwareMonopole_bis]; the [MTS_FWDSCAT_DEBUG]
    block is compiled out. *)
Definition sampleDirectionBoundaryAwareMonopole_bis
    (u0 n0 uL R : Vector) (s : Float) (sampler : Sampler)
  : Float * Vector * Sampler :=
  match implDirectionBoundaryAwareMonopole_bis u0 n0 uL R s (Some sampler) with
  | (pdf, u0, Some sampler) => (pdf, u0, sampler)
  | (pdf, u0, None) => (pdf, u0, sampler)
  end.

Definition pdfDirectionBoundaryAwareMonopole_bis
    (u0 n0 uL R : Vector) (s : Float) : Float :=
  let '(pdf, _, _) :=
    implDirectionBoundaryAwareMonopole_bis u0 n0 uL R s None in
  pdf.


(** ** The monopole direction sampler for the effective BRDF *)

(** [implDirectionBoundaryAwareMonopole_BRDF]: the pdf written to [*pdf]
    (never null at the call sites), the value left in [u0], the sampler.
    [CancellationCheck] only logs. *)
Definition implDirectionBoundaryAwareMonopole_BRDF
    (u0 n0 uL R : Vector) (s : Float) (sampler : option Sampler)
  : Float * Vector * option Sampler :=
  let z := n0 in
  let x_unnorm := vsub uL (vscale (dot z uL) z) in
  let x_unnorm :=
    if vlength x_unnorm .<= Epsilon then frame_s z else x_unnorm in
  let x := normalize x_unnorm in
  let y := cross x z in
  let woi := vneg uL in
  let v := calcValues self s in
  let a := 0.5 .* sp_Z v .* dot woi x in
  let b := sp_D v .* dot woi z .+ sp_E v .* dot R z in
  let c := 0.25 .* sp_E v .* sp_E v ./ sp_F v in
  let a := if fabs a .< 1e-4 then Fin 0 else a in
  let cosThetaSd := 1 ./ fsqrt (2 .* c .+ fabs a) in
  if cosThetaSd .== 0 then (Fin 0, u0, sampler)
  else
    let cosThetaMean := b .* square cosThetaSd in
    let '(cosTheta, sampler) :=
      match sampler with
      | Some smp =>
          let '(ct, smp) :=
            truncnorm cosThetaMean cosThetaSd (-1.0) 0.0 smp in
          (ct, Some smp)
      | None => (clamp (dot u0 z) (-1.0) 0.0, None)
      end in
    let cosThetaPdf :=
      truncnormPdf cosThetaMean cosThetaSd (-1.0) 0.0 cosTheta in
    let sinTheta := safe_sqrt (1 .- square cosTheta) in
    let phiSd := 1.0 ./ fsqrt (fabs a .* sinTheta) in
    if phiSd .== 0 then (Fin 0, u0, sampler)
    else
      let '(phiMean, phiLo, phiHi) :=
        if a .> 0 then (Fin 0, .- M_PI_DBL, M_PI_DBL)
        else (M_PI_DBL, Fin 0, TWO_PI_DBL) in
      let '(phi, sampler) :=
        match sampler with
        | Some smp =>
            let '(ph, smp) := truncnorm phiMean phiSd phiLo phiHi smp in
            (ph, Some smp)
        | None =>
            let phi := atan2 (dot u0 y) (dot u0 x) in
            (if phi .< phiLo then phi .+ TWO_PI_DBL else phi, None)
        end in
      let phiPdf := truncnormPdf phiMean phiSd phiLo phiHi phi in
      let sinPhi := fsin phi in
      let cosPhi := fcos phi in
      let constructed_u0 :=
        vadd (vadd (vscale sinTheta (vscale cosPhi x))
                   (vscale sinTheta (vscale sinPhi y)))
             (vscale cosTheta z) in
      let u0 := match sampler with Some _ => constructed_u0 | None => u0 end in
      let thePdf := cosThetaPdf .* phiPdf in
      if negb (isfinite thePdf) || (thePdf .< 0) then (Fin 0, u0, sampler)
      else (thePdf, u0, sampler).

Definition pdfDirectionBoundaryAwareMonopole_BRDF
    (u0 n0 uL R : Vector) (s : Float) : Float :=
  let '(pdf, _, _) :=
    implDirectionBoundaryAwareMonopole_BRDF u0 n0 uL R s None in
  pdf.

(** [sampleDirectionBoundaryAwareMonopole_BRDF]; the [MTS_FWDSCAT_DEBUG]
    block is compiled out. *)
Definition sampleDirectionBoundaryAwareMonopole_BRDF
    (u0 n0 uL R : Vector) (s : Float) (sampler : Sampler)
  : Float * Vector * Sampler :=
  match implDirectionBoundaryAwareMonopole_BRDF u0 n0 uL R s (Some sampler)
  with
  | (pdf, u0, Some sampler) => (pdf, u0, sampler)
  | (pdf, u0, None) => (pdf, u0, sampler)
  end.


(** ** The monopole direction sampler, version "_orig"

    [sampleDirectionBoundaryAwareMonopole_orig] and
    [pdfDirectionBoundaryAwareMonopole_orig] repeat the same blocks; each
    block is written once here. *)

(** [H = E R - D uL], its length before and after regularization, and
    [Hnorm]. *)
Definition orig_H (uL R : Vector) (s : Float) : Float * Vector :=
  let v := calcValues self s in
  let H := vsub (vscale (sp_E v) R) (vscale (sp_D v) uL) in
  let lHl := vlength H in
  let Hnorm := vdivf H lHl in
  let lHl :=
    if lHl .> 1 ./ MTS_FWDSCAT_DIRECTION_MIN_MU
    then 1 ./ MTS_FWDSCAT_DIRECTION_MIN_MU else lHl in
  (lHl, Hnorm).

Definition orig_badlyConditioned (n0 Hnorm : Vector) : bool :=
  fabs (dot n0 Hnorm) .> 1 .- Epsilon.

(** The bounds on [cosTheta] and [phiCutoffSlope] (NaN when badly
    conditioned), with [projectionDir]. *)
Definition orig_bounds (n0 Hnorm : Vector)
  : Float * Float * Float * Vector :=
  if orig_badlyConditioned n0 Hnorm then (Fin (-1), Fin 0, NaN, n0)
  else
    let exactSin := dot n0 Hnorm in
    let tmpCos :=
      roundCosThetaForStability (safe_sqrt (1 .- square exactSin)) (-1) 1 in
    let tmpSin := safe_sqrt (1 .- square tmpCos) in
    if dot Hnorm n0 .< 0 then
      let '(minCosTheta, maxCosTheta) :=
        roundCosThetaBoundsForStability (.- tmpCos) 1.0 in
      (minCosTheta, maxCosTheta, tmpSin ./ minCosTheta, Hnorm)
    else
      let '(minCosTheta, maxCosTheta) :=
        roundCosThetaBoundsForStability (-1.0) tmpCos in
      (minCosTheta, maxCosTheta, tmpSin ./ maxCosTheta, Hnorm).

(** The pdf of [cosTheta] in the arm [lHl < Epsilon]. *)
Definition orig_cosThetaPdf_small (lHl minCosTheta maxCosTheta cosTheta : Float)
  : Float :=
  let d := maxCosTheta .- minCosTheta in
  (1 .+ 0.5 .* (2 .* cosTheta .- minCosTheta .- maxCosTheta) .* lHl
   .+ Fin (1 / 12)
      .* (square maxCosTheta .+ square minCosTheta
          .+ 4 .* minCosTheta .* maxCosTheta
          .+ 6 .* cosTheta .* (cosTheta .- minCosTheta .- maxCosTheta))
      .* lHl .* lHl)
  ./ d.

(** The pdf of [cosTheta], in its three arms. *)
Definition orig_cosThetaPdf (lHl minCosTheta maxCosTheta cosTheta : Float)
  : Float :=
  if lHl .< Epsilon then
    orig_cosThetaPdf_small lHl minCosTheta maxCosTheta cosTheta
  else if lHl .> LOG_REDUCED_PRECISION ./ 2 then
    lHl .* fexp (lHl .* (cosTheta .- maxCosTheta))
  else
    lHl ./ (fexp (maxCosTheta .* lHl) .- fexp (minCosTheta .* lHl))
    .* fexp (lHl .* cosTheta).

(** The bounds on [phi] for a given [cosTheta]. *)
Definition orig_phiBounds (badlyConditioned : bool)
    (phiCutoffSlope cosTheta sinTheta : Float) : Float * Float :=
  if badlyConditioned then (.- HALF_PI, M_PI .+ HALF_PI)
  else
    let h := phiCutoffSlope .* cosTheta in
    let hUnitCircle := if sinTheta .== 0 then Fin (-1) else h ./ sinTheta in
    let minPhi := safe_asin hUnitCircle in
    (minPhi, M_PI .- minPhi).

(** The draw of [cosTheta], in its three arms. *)
Definition orig_sampleCosTheta (lHl minCosTheta maxCosTheta : Float)
    (sampler : Sampler) : Float * Sampler :=
  if lHl .< Epsilon then
    let d := maxCosTheta .- minCosTheta in
    let d2 := d .* d in
    let d3 := d .* d2 in
    let '(u, sampler) := next1D sampler in
    (roundCosThetaForStability
       (minCosTheta .+ d .* u .- 0.5 .* u .* (u .- 1) .* d2 .* lHl
        .+ Fin (1 / 6) .* (2 .* u .- 1) .* (u .- 1) .* u .* d3 .* lHl .* lHl)
       minCosTheta maxCosTheta,
     sampler)
  else if lHl .> LOG_REDUCED_PRECISION ./ 2 then
    let '(u, sampler) := next1D sampler in
    let cosTheta :=
      roundCosThetaForStability (maxCosTheta .+ flog u ./ lHl)
        minCosTheta maxCosTheta in
    let cosTheta :=
      if cosTheta .< minCosTheta
      then roundCosThetaForStability minCosTheta minCosTheta maxCosTheta
      else cosTheta in
    (cosTheta, sampler)
  else
    let '(u, sampler) := next1D sampler in
    (roundCosThetaForStability
       (flog ((1 .- u) .* fexp (minCosTheta .* lHl)
              .+ u .* fexp (maxCosTheta .* lHl)) ./ lHl)
       minCosTheta maxCosTheta,
     sampler).


(** [sampleDirectionBoundaryAwareMonopole_orig]: the returned pdf, the
    value left in [u0], the sampler.  The [MTS_FWDSCAT_DEBUG] blocks are
    compiled out. *)
Definition sampleDirectionBoundaryAwareMonopole_orig
    (u0 n0 uL R : Vector) (s : Float) (sampler : Sampler)
  : Float * Vector * Sampler :=
  let '(lHl, Hnorm) := orig_H uL R s in
  let badlyConditioned := orig_badlyConditioned n0 Hnorm in
  let '(minCosTheta, maxCosTheta, phiCutoffSlope, projectionDir) :=
    orig_bounds n0 Hnorm in
  let '(cosTheta, sampler) :=
    orig_sampleCosTheta lHl minCosTheta maxCosTheta sampler in
  let cosThetaPdf := orig_cosThetaPdf lHl minCosTheta maxCosTheta cosTheta in
  let sinTheta := safe_sqrt (1 .- cosTheta .* cosTheta) in
  let '(minPhi, maxPhi) :=
    orig_phiBounds badlyConditioned phiCutoffSlope cosTheta sinTheta in
  let '(u, sampler) := next1D sampler in
  let phi := minPhi .+ (maxPhi .- minPhi) .* u in
  if maxPhi .== minPhi then (Fin 0.0, u0, sampler)
  else
    let phiPdf := 1.0 ./ (maxPhi .- minPhi) in
    let '(upDir, zeroPhiDir) :=
      if badlyConditioned then (frame_s projectionDir, frame_t projectionDir)
      else
        let upDir :=
          vneg (normalize (vsub n0 (vscale (dot n0 Hnorm) Hnorm))) in
        (upDir, cross upDir Hnorm) in
    let sinPhi := fsin phi in
    let cosPhi := fcos phi in
    let u0 :=
      vadd (vscale sinTheta
              (vadd (vscale sinPhi upDir) (vscale cosPhi zeroPhiDir)))
           (vscale cosTheta projectionDir) in
    if dot u0 n0 .>= 0 then (Fin 0.0, u0, sampler)
    else
      let pdf := cosThetaPdf .* phiPdf in
      if pdf .== 0 then (Fin 0.0, u0, sampler)
      else (pdf, u0, sampler).

Definition pdfDirectionBoundaryAwareMonopole_orig
    (u0 n0 uL R : Vector) (s : Float) : Float :=
  if dot u0 n0 .>= 0 then Fin 0.0
  else
    let '(lHl, Hnorm) := orig_H uL R s in
    let badlyConditioned := orig_badlyConditioned n0 Hnorm in
    let '(minCosTheta, maxCosTheta, phiCutoffSlope, projectionDir) :=
      orig_bounds n0 Hnorm in
    let cosTheta := roundCosThetaForStability (dot projectionDir u0) (-1) 1 in
    let sinTheta := safe_sqrt (1 .- cosTheta .* cosTheta) in
    let '(minPhi, maxPhi) :=
      orig_phiBounds badlyConditioned phiCutoffSlope cosTheta sinTheta in
    let cosThetaPdf :=
      orig_cosThetaPdf lHl minCosTheta maxCosTheta cosTheta in
    let phiPdf := 1.0 ./ (maxPhi .- minPhi) in
    cosThetaPdf .* phiPdf.

(** ** The monopole direction sampler: mixture of "_orig" and "_bis" *)

Definition sampleDirectionBoundaryAwareMonopole
    (u0 n0 uL R : Vector) (s : Float) (useEffectiveBRDF : bool)
    (sampler : Sampler) : Float * Vector * Sampler :=
  if useEffectiveBRDF then
    sampleDirectionBoundaryAwareMonopole_BRDF u0 n0 uL R s sampler
  else
    let '(u, sampler) := next1D sampler in
    if u .< directionSampler_origWeight then
      let '(p1, u0, sampler) :=
        sampleDirectionBoundaryAwareMonopole_orig u0 n0 uL R s sampler in
      if p1 .== 0 then (Fin 0, u0, sampler)
      else
        let p2 := pdfDirectionBoundaryAwareMonopole_bis u0 n0 uL R s in
        (p1 .* directionSampler_origWeight
         .+ p2 .* (1 .- directionSampler_origWeight),
         u0, sampler)
    else
      let '(p2, u0, sampler) :=
        sampleDirectionBoundaryAwareMonopole_bis u0 n0 uL R s sampler in
      if p2 .== 0 then (Fin 0, u0, sampler)
      else
        let p1 := pdfDirectionBoundaryAwareMonopole_orig u0 n0 uL R s in
        (p1 .* directionSampler_origWeight
         .+ p2 .* (1 .- directionSampler_origWeight),
         u0, sampler).

Definition pdfDirectionBoundaryAwareMonopole
    (u0 n0 uL R : Vector) (s : Float) (useEffectiveBRDF : bool) : Float :=
  if useEffectiveBRDF then
    pdfDirectionBoundaryAwareMonopole_BRDF u0 n0 uL R s
  else
    let p1 := pdfDirectionBoundaryAwareMonopole_orig u0 n0 uL R s in
    let p2 := pdfDirectionBoundaryAwareMonopole_bis u0 n0 uL R s in
    p1 .* directionSampler_origWeight
    .+ p2 .* (1 .- directionSampler_origWeight).


(** ** The dipole direction sampler *)

(** [sampleDirectionDipole]: the returned pdf, the value left in [u0], the
    sampler.  The local [u0_virt] is uninitialised when it is handed to
    the monopole sampler; NaN stands for its content.  The weight is
    requested from [getTentativeIndexMatchedVirtualSourceDisp], so it is
    always written. *)
Definition sampleDirectionDipole
    (u0 n0 uL nL R : Vector) (s : Float) (tangentMode : TangentPlaneMode)
    (useEffectiveBRDF : bool) (sampler : Sampler)
  : Float * Vector * Sampler :=
  match getTentativeIndexMatchedVirtualSourceDisp self n0 nL uL R s
          tangentMode true with
  | None => (Fin 0.0, u0, sampler)
  | Some (R_virt, n0_effective, weight) =>
      let realSourceWeight :=
        match weight with Some w => w | None => NaN end in
      let none := Fin (-1) in
      let '(u, sampler) := next1D sampler in
      (** the three arms; the last component tells whether the arm ended
          in [return 0.0f] *)
      let '(pReal, pVirt, u0, sampler, returnsZero) :=
        if u .<= (1 .- directionSampler_dipoleHemiWeight) .* realSourceWeight
        then
          let '(pReal, u0, sampler) :=
            sampleDirectionBoundaryAwareMonopole u0 n0 uL R s
              useEffectiveBRDF sampler in
          (pReal, none, u0, sampler, pReal .== 0)
        else if u .<= 1 .- directionSampler_dipoleHemiWeight then
          let n0_virt :=
            vsub n0 (vscale (2 .* dot n0_effective n0) n0_effective) in
          let '(pVirt, u0_virt, sampler) :=
            sampleDirectionBoundaryAwareMonopole (vconst NaN) n0_virt uL
              R_virt s useEffectiveBRDF sampler in
          if pVirt .== 0 then (none, pVirt, u0, sampler, true)
          else
            (none, pVirt,
             vsub u0_virt
               (vscale (2 .* dot n0_effective u0_virt) n0_effective),
             sampler, false)
        else
          let '(_, u0, sampler) := _sampleHemisphere n0 sampler in
          (none, none, u0, sampler, false) in
      if returnsZero then (Fin 0.0, u0, sampler)
      else
        let pReal :=
          if pReal .== (-1) then
            pdfDirectionBoundaryAwareMonopole u0 n0 uL R s useEffectiveBRDF
          else pReal in
        let pVirt :=
          if pVirt .== (-1) then
            let u0_virt :=
              vsub u0 (vscale (2 .* dot n0_effective u0) n0_effective) in
            let n0_virt :=
              vsub n0 (vscale (2 .* dot n0_effective n0) n0_effective) in
            pdfDirectionBoundaryAwareMonopole u0_virt n0_virt uL R_virt s
              useEffectiveBRDF
          else pVirt in
        let pHemi := _pdfHemisphere n0 u0 in
        ((1 .- directionSampler_dipoleHemiWeight)
         .* (realSourceWeight .* pReal .+ (1.0 .- realSourceWeight) .* pVirt)
         .+ directionSampler_dipoleHemiWeight .* pHemi,
         u0, sampler)
  end.

Definition pdfDirectionDipole
    (u0 n0 uL nL R : Vector) (s : Float) (tangentMode : TangentPlaneMode)
    (useEffectiveBRDF : bool) : Float :=
  match getTentativeIndexMatchedVirtualSourceDisp self n0 nL uL R s
          tangentMode true with
  | None => Fin 0.0
  | Some (R_virt, n0_effective, weight) =>
      let realSourceWeight :=
        match weight with Some w => w | None => NaN end in
      let pReal :=
        pdfDirectionBoundaryAwareMonopole u0 n0 uL R s useEffectiveBRDF in
      let u0_virt :=
        vsub u0 (vscale (2 .* dot n0_effective u0) n0_effective) in
      let n0_virt :=
        vsub n0 (vscale (2 .* dot n0_effective n0) n0_effective) in
      let pVirt :=
        pdfDirectionBoundaryAwareMonopole u0_virt n0_virt uL R_virt s
          useEffectiveBRDF in
      let pHemi := _pdfHemisphere n0 u0 in
      (1 .- directionSampler_dipoleHemiWeight)
      .* (realSourceWeight .* pReal .+ (1.0 .- realSourceWeight) .* pVirt)
      .+ directionSampler_dipoleHemiWeight .* pHemi
  end.

End DirectionSampler.

(** ** Interface assumptions on the collaborators of the direction sampler *)

(** [truncnorm(mean, stddev, lo, hi, sampler)] returns a number of the
    interval [[lo, hi]] it is given. *)
Definition truncnorm_within {collab : Collaborators} : Prop :=
  forall (mean stddev : Float) (lo hi : R) (smp : Sampler),
    (lo <= hi)%R ->
    exists t : R,
      fst (truncnorm mean stddev (Fin lo) (Fin hi) smp) = Fin t
      /\ (lo <= t <= hi)%R.

(** [warp::uniformToTruncatedExponential(a, lo, hi, u)] maps a number [u]
    of [[0, 1]] into [[lo, hi]]. *)
Definition truncatedExponential_within {dcollab : DirectionCollaborators}
  : Prop :=
  forall (a : Float) (lo hi u : R),
    (lo <= hi)%R -> (0 <= u <= 1)%R ->
    exists t : R,
      uniformToTruncatedExponential a (Fin lo) (Fin hi) (Fin u) = Fin t
      /\ (lo <= t <= hi)%R.

(** Every number of the random stream lies in [0, 1]. *)
Definition stream_in_unit (sampler : Sampler) : Prop :=
  forall n : nat, exists u : R, sampler n = Fin u /\ (0 <= u <= 1)%R.

(** A pdf value that is a number and not negative. *)
Definition sane_pdf (pdf : Float) : Prop :=
  exists p : R, pdf = Fin p /\ (0 <= p)%R.

(** ** A sample instance of the collaborators of the direction sampler

    Used to exhibit concrete inputs: the frame is the one of the normal
    (0,0,1), the truncated exponential is replaced by a uniform variate
    and [atan2] by a constant. *)

Definition sample_safe_sqrt (x : Float) : Float := fsqrt (std_max 0 x).

Definition sample_safe_asin (x : Float) : Float :=
  match clamp x (-1) 1 with
  | Fin y => Fin (asin y)
  | _ => NaN
  end.

Definition sample_toWorld (n v : Vector) : Vector :=
  vadd (vadd (vscale (vx v) (mkVector 1 0 0)) (vscale (vy v) (mkVector 0 1 0)))
       (vscale (vz v) n).

Definition sample_direction_collaborators : DirectionCollaborators := {|
  Epsilon := Fin 1e-4;
  LOG_REDUCED_PRECISION := Fin 10;
  safe_sqrt := sample_safe_sqrt;
  safe_asin := sample_safe_asin;
  atan2 := fun _ _ => Fin 0;
  squareToCosineHemisphere := fun _ => mkVector 0 0 1;
  squareToCosineHemispherePdf := fun v => INV_PI .* vz v;
  frame_s := fun _ => mkVector 1 0 0;
  frame_t := fun _ => mkVector 0 1 0;
  frame_toWorld := sample_toWorld;
  uniformToTruncatedExponential :=
    fun _ lo hi u => clamp (lo .+ u .* (hi .- lo)) lo hi;
  uniformToTruncatedExponentialPdf := fun _ _ _ _ => Fin 1
|}.

(** ** Exact collaborators of the direction sampler

    A second instance, with the libm and frame functions computed on
    real numbers, and the interface assumptions it meets. *)

(** A vector of three finite numbers with Euclidean length 1. *)
Definition unit_vector (v : Vector) : Prop :=
  exists a b c : R,
    v = mkVector (Fin a) (Fin b) (Fin c) /\ (a * a + b * b + c * c = 1)%R.

(** A vector of three finite numbers. *)
Definition finite_vector (v : Vector) : Prop :=
  exists a b c : R, v = mkVector (Fin a) (Fin b) (Fin c).

(** [truncnorm] returns a number strictly inside the interval it is
    given. *)
Definition truncnorm_strictly_within {collab : Collaborators} : Prop :=
  forall (mean stddev : Float) (lo hi : R) (smp : Sampler),
    (lo < hi)%R ->
    exists t : R,
      fst (truncnorm mean stddev (Fin lo) (Fin hi) smp) = Fin t
      /\ (lo < t < hi)%R.

(** [atan2(y, x)] is the angle in (-pi, pi] of the point (x, y). *)
Definition atan2_exact {dcollab : DirectionCollaborators} : Prop :=
  forall r phi : R,
    (0 < r)%R -> (- PI < phi <= PI)%R ->
    atan2 (Fin (r * sin phi)) (Fin (r * cos phi)) = Fin phi.

(** [math::safe_sqrt] is the square root on numbers that are not
    negative. *)
Definition safe_sqrt_exact {dcollab : DirectionCollaborators} : Prop :=
  forall v : R, (0 <= v)%R -> safe_sqrt (Fin v) = Fin (sqrt v).

(** The tangent [s] of [Frame(n)] is a finite vector, orthogonal to [n]
    and not zero, for every unit normal [n]. *)
Definition frame_tangent_ok {dcollab : DirectionCollaborators} : Prop :=
  forall n : Vector,
    unit_vector n ->
    exists a b c : R,
      frame_s n = mkVector (Fin a) (Fin b) (Fin c)
      /\ dot (frame_s n) n = Fin 0
      /\ (0 < a * a + b * b + c * c)%R.

(** The angle in (-pi, pi] of the point (x, y). *)
Definition Ratan2 (y x : R) : R :=
  if Rlt_dec 0 x then atan (y / x)
  else if Rlt_dec x 0 then
    (if Rle_dec 0 y then atan (y / x) + PI else atan (y / x) - PI)
  else if Rlt_dec 0 y then PI / 2
  else if Rlt_dec y 0 then - (PI / 2)
  else 0.

Definition exact_atan2 (y x : Float) : Float :=
  match y, x with
  | Fin y, Fin x => Fin (Ratan2 y x)
  | _, _ => NaN
  end.

(** A tangent of [a], as [coordinateSystem] builds its first one. *)
Definition exact_frame_s (a : Vector) : Vector :=
  if fabs (vx a) .> fabs (vy a) then
    let invLen := 1 ./ fsqrt (vx a .* vx a .+ vz a .* vz a) in
    mkVector (vz a .* invLen) 0 (.- vx a .* invLen)
  else
    let invLen := 1 ./ fsqrt (vy a .* vy a .+ vz a .* vz a) in
    mkVector 0 (vz a .* invLen) (.- vy a .* invLen).

Definition exact_direction_collaborators : DirectionCollaborators := {|
  Epsilon := Fin 1e-4;
  LOG_REDUCED_PRECISION := Fin 10;
  safe_sqrt := sample_safe_sqrt;
  safe_asin := sample_safe_asin;
  atan2 := exact_atan2;
  squareToCosineHemisphere := fun _ => mkVector 0 0 1;
  squareToCosineHemispherePdf := fun v => INV_PI .* vz v;
  frame_s := exact_frame_s;
  frame_t := fun a => cross a (exact_frame_s a);
  frame_toWorld :=
    fun n v =>
      vadd (vadd (vscale (vx v) (exact_frame_s n))
                 (vscale (vy v) (cross n (exact_frame_s n))))
           (vscale (vz v) n);
  uniformToTruncatedExponential :=
    fun _ lo hi u => clamp (lo .+ u .* (hi .- lo)) lo hi;
  uniformToTruncatedExponentialPdf := fun _ _ _ _ => Fin 1
|}.

(** A truncated normal replaced by the middle of its interval, and the
    instance of the collaborators that uses it. *)
Definition midpoint_truncnorm (mean stddev lo hi : Float) (sampler : Sampler)
  : Float * Sampler :=
  let '(_, sampler) := next1D sampler in
  ((lo .+ hi) .* 0.5, sampler).

Definition midpoint_collaborators : Collaborators := {|
  refract := sample_refract;
  fresnelDiffuseReflectance := fun _ => Fin 0;
  dEon_A := fun _ => Fin 1;
  MTS_FWDSCAT_DIRECTION_MIN_MU := Fin 1e-4;
  truncnorm := midpoint_truncnorm;
  truncnormPdf := sample_truncnormPdf;
  erf := fun x => clamp x (-1) 1;
  toms748_solve := fun _ lo hi _ _ => Some (lo, hi);
  meanTailCutoff := Fin (-1e7)
|}.

(** Further interface assumptions, used by the "_orig" sampler. *)

(** A vector of three finite numbers that is not the zero vector. *)
Definition nonzero_vector (v : Vector) : Prop :=
  exists a b c : R,
    v = mkVector (Fin a) (Fin b) (Fin c) /\ (0 < a * a + b * b + c * c)%R.

(** [math::safe_asin] clamps its argument and returns a number. *)
Definition safe_asin_finite {dcollab : DirectionCollaborators} : Prop :=
  forall x : Float, exists r : R, safe_asin x = Fin r.

(** The tangent [t] of [Frame(n)] is a finite vector orthogonal to [n],
    for every unit normal [n]. *)
Definition frame_bitangent_ok {dcollab : DirectionCollaborators} : Prop :=
  forall n : Vector,
    unit_vector n ->
    exists a b c : R,
      frame_t n = mkVector (Fin a) (Fin b) (Fin c)
      /\ dot (frame_t n) n = Fin 0.

(** Further interface assumptions, used by the "_bis" sampler. *)

(** Every number of the random stream lies strictly between 0 and 1. *)
Definition stream_strictly_in_unit (sampler : Sampler) : Prop :=
  forall n : nat, exists u : R, sampler n = Fin u /\ (0 < u < 1)%R.

(** Fed with such random numbers, [truncnorm] returns a number strictly
    inside the interval it is given and leaves such random numbers. *)
Definition truncnorm_well_behaved {collab : Collaborators} : Prop :=
  forall (mean stddev : Float) (lo hi : R) (smp : Sampler),
    (lo < hi)%R -> stream_strictly_in_unit smp ->
    exists (t : R) (smp' : Sampler),
      truncnorm mean stddev (Fin lo) (Fin hi) smp = (Fin t, smp')
      /\ (lo < t < hi)%R /\ stream_strictly_in_unit smp'.

(** [warp::uniformToTruncatedExponential(a, lo, hi, u)] maps a number
    [u] strictly between 0 and 1 strictly inside [[lo, hi]]. *)
Definition truncatedExponential_strictly_within
    {dcollab : DirectionCollaborators} : Prop :=
  forall (a : Float) (lo hi u : R),
    (lo < hi)%R -> (0 < u < 1)%R ->
    exists t : R,
      uniformToTruncatedExponential a (Fin lo) (Fin hi) (Fin u) = Fin t
      /\ (lo < t < hi)%R.

(** ** Random streams used to exhibit runs of the length sampler *)

(** The constant stream 0.25. *)
Definition quarter_stream : Sampler := fun _ => Fin 0.25.

(** 0.25 for ever, except for the fourth number, which is exactly 0. *)
Definition zero_draw_stream : Sampler :=
  fun n =>
    match n with
    | 3%nat => Fin 0
    | _ => Fin 0.25
    end.

(** * Properties *)

(** ** Arithmetic of [Float] on finite values *)

Lemma fdiv_fin (x y : R) : y <> 0%R -> Fin x ./ Fin y = Fin (x / y).
Proof.
  intros Hy. unfold fdiv. destruct (Req_EM_T y 0) as [E|_]; [contradiction|reflexivity].
Qed.

Lemma fltb_fin (x y : R) : (Fin x .< Fin y) = true <-> (x < y)%R.
Proof.
  unfold fltb. destruct (Rlt_dec x y); split; intros; try easy.
Qed.

Lemma fltb_fin_true (x y : R) : (x < y)%R -> (Fin x .< Fin y) = true.
Proof. apply fltb_fin. Qed.

Lemma fltb_fin_false (x y : R) : (y <= x)%R -> (Fin x .< Fin y) = false.
Proof.
  intros H. unfold fltb. destruct (Rlt_dec x y); [lra|reflexivity].
Qed.

Lemma feqb_fin (x y : R) : (Fin x .== Fin y) = true <-> x = y.
Proof.
  unfold feqb. destruct (Req_EM_T x y); split; intros; try easy.
Qed.

Lemma feqb_fin_false (x y : R) : x <> y -> (Fin x .== Fin y) = false.
Proof.
  intros H. unfold feqb. destruct (Req_EM_T x y); [contradiction|reflexivity].
Qed.

Lemma fsqrt_fin (x : R) : (0 <= x)%R -> fsqrt (Fin x) = Fin (sqrt x).
Proof.
  intros H. unfold fsqrt. destruct (Rlt_dec x 0); [lra|reflexivity].
Qed.

Lemma Rsgn_pos (x : R) : (0 < x)%R -> Rsgn x = Gt.
Proof.
  intros H. unfold Rsgn.
  destruct (Rlt_dec x 0); [lra|]. destruct (Rlt_dec 0 x); [reflexivity|lra].
Qed.

Lemma Rsgn_neg (x : R) : (x < 0)%R -> Rsgn x = Lt.
Proof.
  intros H. unfold Rsgn. destruct (Rlt_dec x 0); [reflexivity|lra].
Qed.

Lemma Rsgn_zero : Rsgn 0 = Eq.
Proof.
  unfold Rsgn. destruct (Rlt_dec 0 0); [lra|reflexivity].
Qed.

Lemma fpow_fin (x y : R) : (0 < x)%R -> fpow (Fin x) y = Fin (Rpower x y).
Proof. intros H. unfold fpow. now rewrite Rsgn_pos. Qed.

(** ** Calculus helpers *)

Lemma dlim_ext (f g : R -> R) (c l l' : R) :
  (forall x, f x = g x) -> l = l' ->
  derivable_pt_lim f c l -> derivable_pt_lim g c l'.
Proof.
  intros Hfg Hl Hd eps Heps. subst l'.
  destruct (Hd eps Heps) as [delta Hdelta].
  exists delta. intros h Hh Hlt. rewrite <- !Hfg. now apply Hdelta.
Qed.

Lemma dlim_exp_lin (a c : R) :
  derivable_pt_lim (fun x => exp (a * x)) c (a * exp (a * c)).
Proof.
  apply (dlim_ext (comp exp (mult_real_fct a id)) _ c (exp (a * c) * (a * 1))).
  - reflexivity.
  - ring.
  - apply derivable_pt_lim_comp.
    + apply derivable_pt_lim_scal. apply derivable_pt_lim_id.
    + apply derivable_pt_lim_exp.
Qed.

(** A function vanishing at 0 with a positive derivative on the positive
    half-line is positive there (mean value theorem). *)
Lemma pos_from_deriv (f f' : R -> R) :
  (forall c, (0 <= c)%R -> derivable_pt_lim f c (f' c)) ->
  f 0%R = 0%R ->
  (forall c, (0 < c)%R -> (0 < f' c)%R) ->
  forall x, (0 < x)%R -> (0 < f x)%R.
Proof.
  intros Hd H0 Hp x Hx.
  destruct (MVT_cor2 f f' 0 x Hx) as [c [Hc Hc']].
  - intros c Hc. apply Hd. lra.
  - rewrite H0 in Hc. specialize (Hp c (proj1 Hc')). nra.
Qed.

Lemma exp_neg_inv (x : R) : (exp (- x) * exp x = 1)%R.
Proof. rewrite <- exp_plus. replace (- x + x)%R with 0%R by ring. apply exp_0. Qed.

Lemma exp_m2_inv (x : R) : (exp (-2 * x) * exp (2 * x) = 1)%R.
Proof.
  replace (-2 * x)%R with (- (2 * x))%R by ring. apply exp_neg_inv.
Qed.

Lemma exp_m2_lt_1 (x : R) : (0 < x)%R -> (0 < exp (-2 * x) < 1)%R.
Proof.
  intros Hx. split; [apply exp_pos|].
  rewrite <- exp_0. apply exp_increasing. lra.
Qed.

(** The common denominator [ps - 1 + (ps + 1) t] of the exact arm is
    positive for every [ps > 0]. *)
Lemma exact_den_pos (x : R) :
  (0 < x)%R -> (0 < x - 1 + (x + 1) * exp (-2 * x))%R.
Proof.
  apply (pos_from_deriv (fun x => x - 1 + (x + 1) * exp (-2 * x))%R
           (fun x => 1 - (2 * x + 1) * exp (-2 * x))%R).
  - intros c _.
    apply (dlim_ext
             (plus_fct (minus_fct id (fct_cte 1))
                (mult_fct (plus_fct id (fct_cte 1)) (fun x => exp (-2 * x))))
             _ c
             ((1 - 0) + ((1 + 0) * exp (-2 * c)
                         + (c + 1) * (-2 * exp (-2 * c))))%R).
    + reflexivity.
    + ring.
    + apply derivable_pt_lim_plus.
      * apply derivable_pt_lim_minus;
          [apply derivable_pt_lim_id | apply derivable_pt_lim_const].
      * apply (derivable_pt_lim_mult (plus_fct id (fct_cte 1))
                 (fun x => exp (-2 * x))).
        -- apply derivable_pt_lim_plus;
             [apply derivable_pt_lim_id | apply derivable_pt_lim_const].
        -- apply dlim_exp_lin.
  - replace (-2 * 0)%R with 0%R by ring. rewrite exp_0. ring.
  - intros c Hc.
    assert (H1 : (1 + 2 * c < exp (2 * c))%R) by (apply exp_ineq1; lra).
    assert (H2 := exp_m2_inv c).
    assert (H3 := exp_pos (-2 * c)).
    nra.
Qed.

(** [sinh y > y]: the numerator [1 - 4 ps t - t^2] of the exact [D],
    divided by [t]. *)
Lemma sinh_gt_id (y : R) : (0 < y)%R -> (0 < exp y - exp (- y) - 2 * y)%R.
Proof.
  apply (pos_from_deriv (fun y => exp y - exp (- y) - 2 * y)%R
           (fun y => exp y + exp (- y) - 2)%R).
  - intros c _.
    apply (dlim_ext
             (minus_fct (minus_fct (fun x => exp (1 * x))
                                   (fun x => exp (-1 * x)))
                        (mult_real_fct 2 id))
             _ c
             (1 * exp (1 * c) - (-1 * exp (-1 * c)) - 2 * 1)%R).
    + intros x. unfold minus_fct, mult_real_fct, id.
      replace (1 * x)%R with x by ring.
      replace (-1 * x)%R with (- x)%R by ring. reflexivity.
    + replace (1 * c)%R with c by ring.
      replace (-1 * c)%R with (- c)%R by ring. ring.
    + apply derivable_pt_lim_minus.
      * apply derivable_pt_lim_minus; apply dlim_exp_lin.
      * apply derivable_pt_lim_scal. apply derivable_pt_lim_id.
  - rewrite Ropp_0, exp_0. ring.
  - intros c Hc.
    assert (H1 : (1 < exp c)%R) by (rewrite <- exp_0; apply exp_increasing; lra).
    assert (H2 := exp_neg_inv c).
    assert (H3 := exp_pos (- c)).
    nra.
Qed.

Lemma exact_D_num_pos (x : R) :
  (0 < x)%R ->
  (0 < 1 - 4 * x * exp (-2 * x) - exp (-2 * x) * exp (-2 * x))%R.
Proof.
  intros Hx.
  assert (H := sinh_gt_id (2 * x) ltac:(lra)).
  assert (H2 := exp_m2_inv x).
  assert (H3 := exp_pos (-2 * x)).
  replace (- (2 * x))%R with (-2 * x)%R in H by ring.
  nra.
Qed.

(** ** The arms of [calcValues] on finite arguments *)

Lemma series_num_E_big (x : R) :
  (0 < x < 0.3)%R -> (15 < 4.5 / x + 0.3 * x - 3 / 350 * (x * x * x))%R.
Proof.
  intros Hx. unfold Rdiv.
  assert (H : (/ 0.3 < / x)%R) by (apply Rinv_lt_contravar; nra).
  assert ((x * x * x < 0.027)%R) by nra. nra.
Qed.

Lemma series_num_F_big (x : R) :
  (0 < x < 0.3)%R -> (15 < 4.5 / x + 1.8 * x - 3 / 350 * (x * x * x))%R.
Proof.
  intros Hx. unfold Rdiv.
  assert (H : (/ 0.3 < / x)%R) by (apply Rinv_lt_contravar; nra).
  assert ((x * x * x < 0.027)%R) by nra. nra.
Qed.

Lemma series_D_pos (x : R) : (0 < x < 0.3)%R -> (0 < series_D x)%R.
Proof.
  intros Hx. unfold series_D, Rdiv.
  assert (H : (/ 0.3 < / x)%R) by (apply Rinv_lt_contravar; nra).
  assert ((0 <= x * x * x)%R) by nra.
  assert ((x * x * (x * x * x) < 0.3 * 0.3 * 0.3 * 0.3 * 0.3)%R).
  { assert ((x * x < 0.09)%R) by nra. assert ((x * x * x < 0.027)%R) by nra. nra. }
  nra.
Qed.

Lemma series_E_pos (x : R) : (0 < x < 0.3)%R -> (0 < series_E x)%R.
Proof.
  intros Hx. unfold series_E.
  apply Rdiv_lt_0_compat; [pose proof (series_num_E_big x Hx)|]; lra.
Qed.

Lemma series_F_pos (x : R) : (0 < x < 0.3)%R -> (0 < series_F x)%R.
Proof.
  intros Hx. unfold series_F.
  apply Rdiv_lt_0_compat; [pose proof (series_num_F_big x Hx); lra|nra].
Qed.

Lemma series_Z_pos (x : R) : (0 < x < 0.3)%R -> (0 < series_Z x)%R.
Proof.
  intros Hx. unfold series_Z.
  set (u := (4.5 / x + 0.3 * x - 3 / 350 * (x * x * x))%R).
  set (w := (4.5 / x + 1.8 * x - 3 / 350 * (x * x * x))%R).
  assert (Hw : (15 < w)%R) by (apply series_num_F_big; exact Hx).
  assert (HE : (series_E x * series_E x / series_F x = u * u / w)%R).
  { unfold series_E, series_F. fold u w. field. lra. }
  rewrite HE.
  assert (Hgoal : (2 * series_D x * w < u * u)%R).
  { set (y := (x * x)%R).
    assert (Hy : (0 < y < 0.09)%R) by (unfold y; nra).
    assert (Hxu : (x * u = 4.5 + 0.3 * y - 3 / 350 * (y * y))%R).
    { unfold u, y. field. lra. }
    assert (Hxw : (x * w = 4.5 + 1.8 * y - 3 / 350 * (y * y))%R).
    { unfold w, y. field. lra. }
    assert (HxD : (x * series_D x
                   = 1.5 - 0.1 * y + 13 / 1050 * (y * y)
                     - 11 / 7875 * (y * y * y))%R).
    { unfold series_D, y. field. lra. }
    assert (Hp : (2 * (x * series_D x) * (x * w) < (x * u) * (x * u))%R).
    { rewrite Hxu, Hxw, HxD.
      assert ((0 < y * y < 0.0081)%R) by nra.
      assert ((0 < y * y * y < 0.000729)%R) by nra.
      nra. }
    assert (Hxx : (0 < x * x)%R) by nra.
    nra. }
  assert ((2 * series_D x < u * u / w)%R).
  { apply Rmult_lt_reg_r with w; [lra|].
    replace (u * u / w * w)%R with (u * u)%R by (field; lra). lra. }
  lra.
Qed.

Lemma calcValues_series_fin (x : R) :
  (0 < x)%R -> series_F x <> 0%R ->
  calcValues_series (Fin x)
  = mkDimless (Fin (series_D x)) (Fin (series_E x))
              (Fin (series_F x)) (Fin (series_Z x)).
Proof.
  intros Hx HF. unfold calcValues_series.
  cbn [fmul].
  rewrite !(fdiv_fin _ x) by lra. cbn [fmul fadd fsub fneg].
  rewrite !(fdiv_fin _ x) by lra.
  rewrite (fdiv_fin _ (x * x)) by nra.
  cbn [fmul].
  fold (series_E x) (series_F x).
  rewrite fdiv_fin by exact HF.
  reflexivity.
Qed.

Lemma exact_D_den_pos (x : R) :
  (0 < x)%R ->
  (0 < x - 1 + 2 * exp (-2 * x)
       - (x + 1) * (exp (-2 * x) * exp (-2 * x)))%R.
Proof.
  intros Hx.
  assert (Ht := exp_m2_lt_1 x Hx). assert (Hd := exact_den_pos x Hx).
  replace (x - 1 + 2 * exp (-2 * x)
           - (x + 1) * (exp (-2 * x) * exp (-2 * x)))%R
    with ((1 - exp (-2 * x)) * (x - 1 + (x + 1) * exp (-2 * x)))%R by ring.
  apply Rmult_lt_0_compat; lra.
Qed.

Lemma exact_Z_den_pos (x : R) :
  (0 < x)%R -> (0 < 1 - exp (-2 * x) * exp (-2 * x))%R.
Proof. intros Hx. assert (Ht := exp_m2_lt_1 x Hx). nra. Qed.

Lemma exact_D_pos (x : R) : (0 < x)%R -> (0 < exact_D x)%R.
Proof.
  intros Hx. unfold exact_D. cbv zeta.
  apply Rdiv_lt_0_compat; [|apply exact_D_den_pos; exact Hx].
  pose proof (exact_D_num_pos x Hx). lra.
Qed.

Lemma exact_E_pos (x : R) : (0 < x)%R -> (0 < exact_E x)%R.
Proof.
  intros Hx. unfold exact_E. cbv zeta.
  apply Rdiv_lt_0_compat; [|apply exact_den_pos; exact Hx].
  pose proof (exp_m2_lt_1 x Hx). lra.
Qed.

Lemma exact_F_pos (x : R) : (0 < x)%R -> (0 < exact_F x)%R.
Proof.
  intros Hx. unfold exact_F. cbv zeta.
  apply Rdiv_lt_0_compat; [|apply exact_den_pos; exact Hx].
  pose proof (exp_m2_lt_1 x Hx). lra.
Qed.

Lemma exact_Z_pos (x : R) : (0 < x)%R -> (0 < exact_Z x)%R.
Proof.
  intros Hx. unfold exact_Z. cbv zeta.
  apply Rdiv_lt_0_compat; [|apply exact_Z_den_pos; exact Hx].
  pose proof (exp_m2_lt_1 x Hx). lra.
Qed.

Lemma calcValues_exact_fin (x : R) :
  (0 < x)%R ->
  calcValues_exact (Fin x)
  = mkDimless (Fin (exact_D x)) (Fin (exact_E x))
              (Fin (exact_F x)) (Fin (exact_Z x)).
Proof.
  intros Hx. unfold calcValues_exact.
  cbn [fmul fadd fsub fneg fexp].
  pose proof (exact_D_den_pos x Hx) as H1.
  pose proof (exact_den_pos x Hx) as H2.
  pose proof (exact_Z_den_pos x Hx) as H3.
  rewrite !fdiv_fin by (unfold Rminus in *; lra).
  reflexivity.
Qed.

Lemma calcValues_asymptotic_fin (x : R) :
  (1 < x)%R ->
  calcValues_asymptotic (Fin x)
  = mkDimless (Fin (asym_D x)) (Fin (asym_E x))
              (Fin (asym_F x)) (Fin (exact_Z x)).
Proof.
  intros Hx. unfold calcValues_asymptotic.
  cbn [fmul fadd fsub fneg fexp].
  pose proof (exact_Z_den_pos x ltac:(lra)) as H3.
  rewrite !fdiv_fin by (unfold Rminus in *; lra).
  reflexivity.
Qed.

Lemma asym_D_pos (x : R) : (1 < x)%R -> (0 < asym_D x)%R.
Proof.
  intros Hx. unfold asym_D.
  assert ((0 < 1.0 / (x - 1.0))%R) by (apply Rdiv_lt_0_compat; lra). lra.
Qed.

Lemma asym_E_pos (x : R) : (1 < x)%R -> (0 < asym_E x)%R.
Proof.
  intros Hx. unfold asym_E.
  assert ((0 < 1.0 / (x - 1.0))%R) by (apply Rdiv_lt_0_compat; lra). lra.
Qed.

Lemma nonneg_fin_intro (x : R) : (0 <= x)%R -> nonneg_fin (Fin x).
Proof. intros H. exists x. split; [reflexivity|exact H]. Qed.

(** The dimensionless values of the arm that [calcValues] takes at a
    finite [ps > 0] are finite and positive. *)
Lemma calcValues_arm_pos (x : R) :
  (0 < x)%R ->
  exists d e f z : R,
    calcValues_select (Fin x) = mkDimless (Fin d) (Fin e) (Fin f) (Fin z)
    /\ (0 < d)%R /\ (0 < e)%R /\ (0 < f)%R /\ (0 < z)%R.
Proof.
  intros Hx. unfold calcValues_select.
  destruct (Rlt_dec x 0.3) as [Hs|Hs].
  - rewrite fltb_fin_true by exact Hs.
    rewrite calcValues_series_fin
      by (try (pose proof (series_F_pos x)); lra).
    do 4 eexists. split; [reflexivity|].
    repeat split;
      [apply series_D_pos|apply series_E_pos|apply series_F_pos|apply series_Z_pos];
      lra.
  - rewrite fltb_fin_false by lra.
    unfold fgtb. destruct (Rlt_dec 9 x) as [Ha|Ha].
    + rewrite fltb_fin_true by exact Ha.
      rewrite calcValues_asymptotic_fin by lra.
      do 4 eexists. split; [reflexivity|].
      repeat split;
        [apply asym_D_pos|apply asym_E_pos|apply asym_E_pos|apply exact_Z_pos];
        lra.
    + rewrite fltb_fin_false by lra.
      rewrite calcValues_exact_fin by lra.
      do 4 eexists. split; [reflexivity|].
      repeat split;
        [apply exact_D_pos|apply exact_E_pos|apply exact_F_pos|apply exact_Z_pos];
        lra.
Qed.

(** The shape parameters at a finite [s > 0] are finite and positive. *)
Lemma calcValues_pos (self : FwdScat) (m ss s : R) :
  mu self = Fin m -> sigma_s self = Fin ss ->
  (0 < m <= 1)%R -> (0 < ss)%R -> (0 < s)%R ->
  exists c d e f z : R,
    calcValues self (Fin s) = mkShape (Fin c) (Fin d) (Fin e) (Fin f) (Fin z)
    /\ (0 < c)%R /\ (0 < d)%R /\ (0 < e)%R /\ (0 < f)%R /\ (0 < z)%R.
Proof.
  intros Hmu Hss Hm Hs0 Hs.
  unfold calcValues, calcValues_arm. rewrite Hmu, Hss. cbn [fmul].
  set (p := (0.5 * m * ss)%R).
  assert (Hp : (0 < p)%R) by (unfold p; nra).
  assert (Hps : (0 < p * s)%R) by nra.
  destruct (calcValues_arm_pos (p * s) Hps)
    as (d & e & f & z & Harm & Hd & He & Hf & Hz).
  rewrite Harm. unfold calcValues_finish. cbn [dl_D dl_E dl_F dl_Z fmul].
  rewrite fdiv_fin by lra.
  exists (3 / (p * s))%R, d, (e * p)%R, (f * (p * p))%R, z.
  split; [reflexivity|].
  repeat split; try assumption.
  - apply Rdiv_lt_0_compat; lra.
  - nra.
  - assert ((0 < p * p)%R) by nra. nra.
Qed.

(** C4.  For every [mu] in (0,1], [sigma_s > 0] and [s > 0], the shape
    parameters C, D, E, F and Z returned by [calcValues] are finite and
    nonnegative, whichever of the three arms ([ps < 0.3], [ps > 9],
    otherwise) is taken; arithmetic on finite values is exact. *)
Theorem calcValues_nonneg (self : FwdScat) (m ss s : R) :
  mu self = Fin m -> sigma_s self = Fin ss ->
  (0 < m <= 1)%R -> (0 < ss)%R -> (0 < s)%R ->
  nonneg_fin (sp_C (calcValues self (Fin s)))
  /\ nonneg_fin (sp_D (calcValues self (Fin s)))
  /\ nonneg_fin (sp_E (calcValues self (Fin s)))
  /\ nonneg_fin (sp_F (calcValues self (Fin s)))
  /\ nonneg_fin (sp_Z (calcValues self (Fin s))).
Proof.
  intros Hmu Hss Hm Hs0 Hs.
  destruct (calcValues_pos self m ss s Hmu Hss Hm Hs0 Hs)
    as (c & d & e & f & z & Hv & Hc & Hd & He & Hf & Hz).
  rewrite Hv. cbn [sp_C sp_D sp_E sp_F sp_Z].
  repeat split; apply nonneg_fin_intro; lra.
Qed.

Lemma calcValues_nonneg_witness :
  nonneg_fin (sp_C (calcValues (mkFwdScat 1 0 1 1) (Fin 1)))
  /\ nonneg_fin (sp_D (calcValues (mkFwdScat 1 0 1 1) (Fin 1)))
  /\ nonneg_fin (sp_E (calcValues (mkFwdScat 1 0 1 1) (Fin 1)))
  /\ nonneg_fin (sp_F (calcValues (mkFwdScat 1 0 1 1) (Fin 1)))
  /\ nonneg_fin (sp_Z (calcValues (mkFwdScat 1 0 1 1) (Fin 1))).
Proof.
  apply (calcValues_nonneg (mkFwdScat 1 0 1 1) 1 1 1);
    try reflexivity; lra.
Defined.

(** ** Bounds on the exponential from its series *)

Lemma exp_psum_sum (y : R) (n k : nat) :
  exp_psum y (/ INR (fact k) * y ^ k) k n
  = sum_f_R0 (fun i => / INR (fact (k + i)) * y ^ (k + i)) n.
Proof.
  revert k. induction n as [|n IH]; intros k.
  - simpl. rewrite Nat.add_0_r. reflexivity.
  - cbn [exp_psum].
    replace (/ INR (fact k) * y ^ k * y / INR (S k))
      with (/ INR (fact (S k)) * y ^ (S k)).
    + rewrite IH. rewrite (decomp_sum _ (S n)) by lia.
      rewrite Nat.add_0_r. f_equal. cbn [pred].
      apply sum_eq. intros i _. replace (k + S i)%nat with (S k + i)%nat by lia.
      reflexivity.
    + rewrite fact_simpl, mult_INR. cbn [pow].
      field. split; [apply INR_fact_neq_0 | apply not_0_INR; lia].
Qed.

Lemma E1_psum (y : R) (n : nat) : E1 y n = exp_psum y 1 0 n.
Proof.
  unfold E1.
  replace 1 with (/ INR (fact 0) * y ^ 0) by (simpl; field).
  rewrite exp_psum_sum. reflexivity.
Qed.

Lemma exp_lower (x : R) (n : nat) : 0 <= x -> E1 x n <= exp x.
Proof.
  intros Hx. apply (growing_ineq (E1 x)).
  - intros k. unfold E1. cbn [sum_f_R0].
    assert (0 <= / INR (fact (S k)) * x ^ S k).
    { apply Rmult_le_pos.
      - apply Rlt_le, Rinv_0_lt_compat, INR_fact_lt_0.
      - apply pow_le. exact Hx. }
    lra.
  - apply E1_cvg.
Qed.

Lemma exp_neg_alt (x : R) (N : nat) :
  0 <= x <= 1 ->
  E1 (- x) (S (2 * N)) <= exp (- x) <= E1 (- x) (2 * N).
Proof.
  intros Hx.
  assert (Heq : forall n, E1 (- x) n
                 = sum_f_R0 (tg_alt (fun i => x ^ i / INR (fact i))) n).
  { intros n. unfold E1. apply sum_eq. intros i _. unfold tg_alt.
    replace (- x) with (-1 * x) by ring. rewrite Rpow_mult_distr.
    unfold Rdiv. ring. }
  rewrite !Heq.
  apply alternated_series_ineq.
  - intros n. cbn [pow]. rewrite fact_simpl, mult_INR.
    assert (Hf := INR_fact_lt_0 n).
    assert (Hn : 1 <= INR (S n)) by (rewrite S_INR; pose proof (pos_INR n); lra).
    assert (Hp : 0 <= x ^ n) by (apply pow_le; lra).
    unfold Rdiv. rewrite Rinv_mult.
    assert (Hi : 0 < / INR (fact n)) by (apply Rinv_0_lt_compat; exact Hf).
    assert (Hi2 : 0 < / INR (S n) <= 1).
    { split; [apply Rinv_0_lt_compat; lra|].
      rewrite <- Rinv_1. apply Rinv_le_contravar; lra. }
    assert (H1 : x * / INR (S n) <= 1) by nra.
    assert (H2 : 0 <= x ^ n * / INR (fact n)) by nra.
    replace (x * x ^ n * (/ INR (S n) * / INR (fact n)))
      with ((x * / INR (S n)) * (x ^ n * / INR (fact n))) by ring.
    assert (0 <= x * / INR (S n)) by nra.
    nra.
  - apply cv_speed_pow_fact.
  - intros eps Heps. destruct (E1_cvg (- x) eps Heps) as [n0 Hn0].
    exists n0. intros n Hn. rewrite <- Heq. apply Hn0. exact Hn.
Qed.


Lemma exp_nat_mul (n : nat) (x : R) : exp (INR n * x) = exp x ^ n.
Proof.
  induction n as [|n IH].
  - simpl. rewrite Rmult_0_l. apply exp_0.
  - rewrite S_INR. replace ((INR n + 1) * x) with (x + INR n * x) by ring.
    rewrite exp_plus, IH. reflexivity.
Qed.

Lemma exp_m1_bounds : 0.3678 <= exp (- (1)) <= 0.3679.
Proof.
  destruct (exp_neg_alt 1 4 ltac:(lra)) as [Hl Hu].
  rewrite !E1_psum in Hl, Hu.
  cbn [Nat.mul Nat.add exp_psum] in Hl, Hu.
  simpl INR in Hl, Hu.
  split; lra.
Qed.

(** ** The factor [ZoverExpMinOne] *)

(** On [0 < Z < 0.002] the series arm is chosen; it lies above
    [1 + Z/2], while the closed form [Z / (exp(Z) - 1)] lies below 1. *)
Lemma ZoverExpMinOne_small (z : R) :
  (0 < z < 0.002)%R ->
  exists a b : R,
    ZoverExpMinOne (Fin z) = Fin a
    /\ ZoverExpMinOne_closed (Fin z) = Fin b
    /\ (b < 1)%R /\ (1 + z / 2 < a)%R.
Proof.
  intros Hz.
  assert (He : (1 + z < exp z)%R) by (apply exp_ineq1; lra).
  exists (1 + 0.5 * z + 1 / 12 * z * z - 1 / 720 * z * z * z * z)%R,
         (z / (exp z - 1))%R.
  repeat split.
  - unfold ZoverExpMinOne. rewrite fltb_fin_true by lra. reflexivity.
  - unfold ZoverExpMinOne_closed. cbn [fexp fsub fneg fadd].
    rewrite fdiv_fin by lra. reflexivity.
  - apply Rmult_lt_reg_r with (exp z - 1)%R; [lra|].
    replace (z / (exp z - 1) * (exp z - 1))%R with z by (field; lra). lra.
  - assert ((0 < z * z < 0.000004)%R) by nra.
    assert ((z * z * z * z < 0.000004 * (z * z))%R) by nra.
    nra.
Qed.

Lemma exp_m10_small : (0 < exp (-2 * 5) < 0.0001)%R.
Proof.
  split; [apply exp_pos|].
  replace (-2 * 5)%R with (INR 10 * - (1))%R by (simpl; lra).
  rewrite exp_nat_mul.
  assert (H := exp_m1_bounds). assert (Hp := exp_pos (- (1))).
  set (e := exp (- (1))) in *.
  assert (H2 : (e ^ 2 < 0.14)%R) by (simpl; nra).
  assert (H4 : (e ^ 4 < 0.02)%R).
  { replace (e ^ 4)%R with (e ^ 2 * e ^ 2)%R by ring.
    assert ((0 < e ^ 2)%R) by (apply pow_lt; exact Hp). nra. }
  assert (H8 : (e ^ 8 < 0.0004)%R).
  { replace (e ^ 8)%R with (e ^ 4 * e ^ 4)%R by ring.
    assert ((0 < e ^ 4)%R) by (apply pow_lt; exact Hp). nra. }
  replace (e ^ 10)%R with (e ^ 8 * e ^ 2)%R by ring.
  assert ((0 < e ^ 8)%R) by (apply pow_lt; exact Hp).
  assert ((0 < e ^ 2)%R) by (apply pow_lt; exact Hp).
  nra.
Qed.

(** C5.  At sigma_s = 2, mu = 1 and length 5 (so ps = 5),
    [absorptionAndNormalizationConstant] reaches the factor
    [ZoverExpMinOne] with [0 < Z < 0.002], where the polynomial
    1 + Z/2 + Z^2/12 - Z^4/720 is evaluated: its value exceeds [1 + Z/2],
    whereas [Z / (exp(Z) - 1)] is below 1.  The two differ by more than
    [Z/2], so the polynomial is not the truncated expansion of
    [Z / (exp(Z) - 1)]. *)
Theorem ZoverExpMinOne_series_not_expansion :
  exists z a b : R,
    sp_Z (calcValues (mkFwdScat 2 0 1 1) (Fin 5)) = Fin z
    /\ (0 < z < 0.002)%R
    /\ ZoverExpMinOne (Fin z) = Fin a
    /\ ZoverExpMinOne_closed (Fin z) = Fin b
    /\ (b < 1)%R /\ (1 + z / 2 < a)%R.
Proof.
  assert (Ht := exp_m10_small).
  assert (Hz : (0 < exact_Z 5 < 0.002)%R).
  { unfold exact_Z. cbv zeta. set (t := exp (-2 * 5)) in *.
    assert (Hd : (0 < 1 - t * t)%R) by nra.
    split.
    - apply Rdiv_lt_0_compat; lra.
    - apply Rmult_lt_reg_r with (1 - t * t)%R; [lra|].
      replace (6 * t / (1 - t * t) * (1 - t * t))%R with (6 * t)%R
        by (field; lra).
      nra. }
  destruct (ZoverExpMinOne_small (exact_Z 5) Hz) as (a & b & Ha & Hb & Hb1 & Ha1).
  exists (exact_Z 5), a, b.
  repeat split; try assumption; try apply Hz.
  unfold calcValues, calcValues_arm, calcValues_select. cbn [mu sigma_s fmul].
  replace (0.5 * 1 * 2 * 5)%R with 5%R by lra.
  rewrite fltb_fin_false by lra. unfold fgtb.
  rewrite fltb_fin_false by lra.
  rewrite calcValues_exact_fin by lra. reflexivity.
Qed.

(** ** Agreement of the arms at [ps = 0.3] and [ps = 9] *)

Lemma exp_m06_bounds :
  0.548811636094 <= exp (-2 * 0.3) <= 0.548811636095.
Proof.
  replace (-2 * 0.3) with (- (0.6)) by lra.
  destruct (exp_neg_alt 0.6 7 ltac:(lra)) as [Hl Hu].
  rewrite !E1_psum in Hl, Hu.
  cbn [Nat.mul Nat.add exp_psum] in Hl, Hu.
  simpl INR in Hl, Hu.
  split; lra.
Qed.

Lemma rel_close_ratio (c n d tol : R) :
  0 < d -> 0 <= n -> - tol * n <= c * d - n <= tol * n ->
  Rabs (c - n / d) <= tol * Rabs (n / d).
Proof.
  intros Hd Hn H.
  assert (Hq : 0 <= n / d) by (apply Rle_mult_inv_pos; lra).
  rewrite (Rabs_right (n / d)) by lra.
  assert (Hi : 0 < / d) by (apply Rinv_0_lt_compat; lra).
  assert (E1 : c - n / d = (c * d - n) * / d) by (field; lra).
  assert (E2 : tol * (n / d) = (tol * n) * / d) by (field; lra).
  rewrite E1, E2. apply Rabs_le. split.
  - replace (- (tol * n * / d)) with ((- tol * n) * / d) by ring.
    apply Rmult_le_compat_r; lra.
  - apply Rmult_le_compat_r; lra.
Qed.

Lemma series_exact_D_03 :
  Rabs (series_D 0.3 - exact_D 0.3) <= 1e-6 * Rabs (exact_D 0.3).
Proof.
  unfold exact_D. cbv zeta.
  assert (Ht := exp_m06_bounds). set (t := exp (-2 * 0.3)) in *.
  assert (Ht2 : 0.548811636094 * 0.548811636094 <= t * t <= 0.548811636095 * 0.548811636095) by nra.
  set (t2 := t * t) in *.
  apply rel_close_ratio.
  - lra.
  - lra.
  - unfold series_D. lra.
Qed.

Ltac close_at_03 :=
  cbv zeta;
  let Ht := fresh "Ht" in
  assert (Ht := exp_m06_bounds); set (t := exp (-2 * 0.3)) in *;
  assert (0.548811636094 * 0.548811636094 <= t * t
          <= 0.548811636095 * 0.548811636095) by nra;
  set (t2 := t * t) in *;
  apply rel_close_ratio; [lra | lra | ].

Lemma series_exact_E_03 :
  Rabs (series_E 0.3 - exact_E 0.3) <= 1e-6 * Rabs (exact_E 0.3).
Proof. unfold exact_E. close_at_03. unfold series_E. lra. Qed.

Lemma series_exact_F_03 :
  Rabs (series_F 0.3 - exact_F 0.3) <= 1e-6 * Rabs (exact_F 0.3).
Proof. unfold exact_F. close_at_03. unfold series_F. lra. Qed.

Lemma series_exact_Z_03 :
  Rabs (series_Z 0.3 - exact_Z 0.3) <= 1e-6 * Rabs (exact_Z 0.3).
Proof.
  unfold exact_Z. close_at_03.
  unfold series_Z, series_E, series_F, series_D. lra.
Qed.

Lemma exp_m18_small : 0 < exp (-2 * 9) < 1.6e-8.
Proof.
  split; [apply exp_pos|].
  replace (-2 * 9) with (INR 18 * - (1)) by (simpl; lra).
  rewrite exp_nat_mul.
  assert (H := exp_m1_bounds). assert (Hp := exp_pos (- (1))).
  set (e := exp (- (1))) in *.
  assert (H2 : 0 < e ^ 2 < 0.1354) by (simpl; nra).
  assert (H4 : 0 < e ^ 4 < 0.01834).
  { replace (e ^ 4) with (e ^ 2 * e ^ 2) by ring. nra. }
  assert (H8 : 0 < e ^ 8 < 0.000337).
  { replace (e ^ 8) with (e ^ 4 * e ^ 4) by ring. nra. }
  assert (H16 : 0 < e ^ 16 < 1.14e-7).
  { replace (e ^ 16) with (e ^ 8 * e ^ 8) by ring. nra. }
  replace (e ^ 18) with (e ^ 16 * e ^ 2) by ring.
  nra.
Qed.

Ltac close_at_9 :=
  cbv zeta;
  let Ht := fresh "Ht" in
  assert (Ht := exp_m18_small); set (t := exp (-2 * 9)) in *;
  assert (0 <= t * t <= 1.6e-8 * 1.6e-8) by nra;
  set (t2 := t * t) in *;
  apply rel_close_ratio; [lra | lra | ].

Lemma asym_exact_D_9 :
  Rabs (asym_D 9 - exact_D 9) <= 1e-6 * Rabs (exact_D 9).
Proof. unfold exact_D. close_at_9. unfold asym_D. lra. Qed.

Lemma asym_exact_E_9 :
  Rabs (asym_E 9 - exact_E 9) <= 1e-6 * Rabs (exact_E 9).
Proof. unfold exact_E. close_at_9. unfold asym_E. lra. Qed.

Lemma asym_exact_F_9 :
  Rabs (asym_F 9 - exact_F 9) <= 1e-6 * Rabs (exact_F 9).
Proof. unfold exact_F. close_at_9. unfold asym_F. lra. Qed.

Lemma rel_close_refl (tol x : R) : 0 <= tol -> rel_close tol (Fin x) (Fin x).
Proof.
  intros Htol. exists x, x. repeat split.
  replace (x - x) with 0 by ring. rewrite Rabs_R0.
  apply Rmult_le_pos; [exact Htol | apply Rabs_pos].
Qed.

Lemma rel_close_fin (tol x y : R) :
  Rabs (x - y) <= tol * Rabs y -> rel_close tol (Fin x) (Fin y).
Proof. intros H. exists x, y. repeat split. exact H. Qed.

Lemma rel_close_scale (tol x y k : R) :
  0 < k -> Rabs (x - y) <= tol * Rabs y ->
  Rabs (x * k - y * k) <= tol * Rabs (y * k).
Proof.
  intros Hk H.
  replace (x * k - y * k) with ((x - y) * k) by ring.
  rewrite !Rabs_mult, (Rabs_right k) by lra.
  rewrite <- Rmult_assoc. apply Rmult_le_compat_r; lra.
Qed.

(** C6.  Over exact arithmetic, for every mu in (0,1] and sigma_s > 0:
    at ps = 0.3 the series arm and the exact arm of [calcValues] agree
    within 1e-6 relative error on each of C, D, E, F and Z, and at ps = 9
    so do the asymptotic arm and the exact arm. *)
Theorem calcValues_arms_agree (self : FwdScat) (m ss s : R) :
  mu self = Fin m -> sigma_s self = Fin ss ->
  0 < m <= 1 -> 0 < ss ->
  (0.5 * m * ss * s = 0.3 ->
   shapes_close 1e-6 (calcValues_arm calcValues_series self (Fin s))
                     (calcValues_arm calcValues_exact self (Fin s)))
  /\ (0.5 * m * ss * s = 9 ->
      shapes_close 1e-6 (calcValues_arm calcValues_asymptotic self (Fin s))
                        (calcValues_arm calcValues_exact self (Fin s))).
Proof.
  intros Hmu Hss Hm Hs0.
  unfold calcValues_arm. rewrite Hmu, Hss. cbn [fmul].
  set (p := 0.5 * m * ss).
  assert (Hp : 0 < p) by (unfold p; nra).
  assert (Hpp : 0 < p * p) by nra.
  split; intros Hps; rewrite Hps.
  - rewrite calcValues_series_fin by (unfold series_F; lra).
    rewrite calcValues_exact_fin by lra.
    unfold calcValues_finish, shapes_close.
    cbn [dl_D dl_E dl_F dl_Z fmul sp_C sp_D sp_E sp_F sp_Z].
    rewrite fdiv_fin by lra.
    repeat split.
    + apply rel_close_refl. lra.
    + apply rel_close_fin, series_exact_D_03.
    + apply rel_close_fin, rel_close_scale, series_exact_E_03. exact Hp.
    + apply rel_close_fin, rel_close_scale, series_exact_F_03. exact Hpp.
    + apply rel_close_fin, series_exact_Z_03.
  - rewrite calcValues_asymptotic_fin by lra.
    rewrite calcValues_exact_fin by lra.
    unfold calcValues_finish, shapes_close.
    cbn [dl_D dl_E dl_F dl_Z fmul sp_C sp_D sp_E sp_F sp_Z].
    rewrite fdiv_fin by lra.
    repeat split.
    + apply rel_close_refl. lra.
    + apply rel_close_fin, asym_exact_D_9.
    + apply rel_close_fin, rel_close_scale, asym_exact_E_9. exact Hp.
    + apply rel_close_fin, rel_close_scale, asym_exact_F_9. exact Hpp.
    + apply rel_close_refl. lra.
Qed.

Lemma calcValues_arms_agree_witness :
  shapes_close 1e-6
    (calcValues_arm calcValues_series (mkFwdScat 1 0 1 1) (Fin 0.6))
    (calcValues_arm calcValues_exact (mkFwdScat 1 0 1 1) (Fin 0.6))
  /\ shapes_close 1e-6
       (calcValues_arm calcValues_asymptotic (mkFwdScat 1 0 1 1) (Fin 18))
       (calcValues_arm calcValues_exact (mkFwdScat 1 0 1 1) (Fin 18)).
Proof.
  split.
  - apply (proj1 (calcValues_arms_agree (mkFwdScat 1 0 1 1) 1 1 0.6
                    eq_refl eq_refl ltac:(lra) ltac:(lra))).
    lra.
  - apply (proj2 (calcValues_arms_agree (mkFwdScat 1 0 1 1) 1 1 18
                    eq_refl eq_refl ltac:(lra) ltac:(lra))).
    lra.
Defined.

(** ** Virtual source constructor *)

(** C9.  The result of [getVirtualDipoleSource] (success, [u0_virt],
    [R_virt] and the effective normal) is the same for any two values of
    the [length] argument, NaN included, the other inputs being equal; so
    is the result of [getTentativeIndexMatchedVirtualSourceDisp] when no
    weight is requested, which is how [sampleLengthDipole] and
    [pdfLengthDipole] call it with NaN as the length. *)
Theorem getVirtualDipoleSource_length_independent
    {collab : Collaborators} (self : FwdScat)
    (n0 : Normal) (u0 : Vector) (nL : Normal) (uL R : Vector)
    (length1 length2 : Float) (rejectInternalIncoming : bool)
    (tangentMode : TangentPlaneMode) (zvMode : ZvMode) :
  getVirtualDipoleSource self n0 u0 nL uL R length1
    rejectInternalIncoming tangentMode zvMode
  = getVirtualDipoleSource self n0 u0 nL uL R length2
      rejectInternalIncoming tangentMode zvMode
  /\ getVirtualDipoleSource self n0 u0 nL uL R length1
       rejectInternalIncoming tangentMode zvMode
     = getVirtualDipoleSource self n0 u0 nL uL R NaN
         rejectInternalIncoming tangentMode zvMode
  /\ getTentativeIndexMatchedVirtualSourceDisp self n0 nL uL R length1
       tangentMode false
     = getTentativeIndexMatchedVirtualSourceDisp self n0 nL uL R NaN
         tangentMode false.
Proof.
  split; [reflexivity|]. split; [reflexivity|].
  unfold getTentativeIndexMatchedVirtualSourceDisp, getVirtualDipoleSource.
  destruct (effectiveNormal n0 nL R tangentMode) as [ne|]; [|reflexivity].
  destruct (negb (visFinite ne)); [reflexivity|].
  cbn [andb].
  destruct (virtualSourceHeight self EClassicDiffusion); reflexivity.
Qed.

(** ** Kernel evaluator *)

Lemma feqb_neg_zero (a : Float) : ((.- a) .== 0) = (a .== 0).
Proof.
  destruct a as [x| | |]; try reflexivity.
  cbn [fneg]. unfold feqb.
  destruct (Req_EM_T (- x) 0), (Req_EM_T x 0); try reflexivity; lra.
Qed.

Lemma visZero_vneg (v : Vector) : visZero (vneg v) = visZero v.
Proof.
  unfold visZero, vneg. cbn [vx vy vz]. now rewrite !feqb_neg_zero.
Qed.

(** C3.  [evalDipole] returns exactly 0 whenever the external entry
    direction does not point inward through the entry normal
    ([dot(u0_external, n0) >= 0]), and whenever one of the two refracted
    directions is the zero vector (total internal reflection), whatever
    the other arguments and the medium are. *)
Theorem evalDipole_rejects
    {collab : Collaborators} (self : FwdScat)
    (n0 : Normal) (u0_external : Vector) (nL : Normal)
    (uL_external R : Vector) (length : Float)
    (rejectInternalIncoming reciprocal : bool)
    (tangentMode : TangentPlaneMode) (zvMode : ZvMode)
    (useEffectiveBRDF : bool) (dipoleMode : DipoleMode) :
  ((dot u0_external n0 .>= 0) = true ->
   evalDipole self n0 u0_external nL uL_external R length
     rejectInternalIncoming reciprocal tangentMode zvMode
     useEffectiveBRDF dipoleMode = Fin 0)
  /\ (visZero (fst (fst (refract (vneg u0_external) n0 (m_eta self)))) = true
      \/ visZero (fst (fst (refract uL_external nL (m_eta self)))) = true ->
      evalDipole self n0 u0_external nL uL_external R length
        rejectInternalIncoming reciprocal tangentMode zvMode
        useEffectiveBRDF dipoleMode = Fin 0).
Proof.
  split.
  - intros H. unfold evalDipole, evalDipole_body at 1. rewrite H.
    destruct (visFinite nL && (dot uL_external nL .<= 0)); reflexivity.
  - intros H. unfold evalDipole, evalDipole_body at 1.
    destruct (visFinite nL && (dot uL_external nL .<= 0)); [reflexivity|].
    destruct (dot u0_external n0 .>= 0); [reflexivity|].
    destruct (refract (vneg u0_external) n0 (m_eta self)) as [[r0 c0] F0].
    destruct (refract uL_external nL (m_eta self)) as [[rL cL] FL].
    cbn [fst] in H. rewrite visZero_vneg.
    destruct H as [H|H]; rewrite H; [reflexivity|].
    rewrite orb_true_r. reflexivity.
Qed.

Lemma evalDipole_rejects_witness :
  evalDipole (collab := sample_collaborators) (mkFwdScat 1 0 1 1)
    (mkVector 0 0 1) (mkVector 0 0 1) (mkVector 0 0 1) (mkVector 0 0 1)
    (mkVector 1 0 0) 1 false true EUnmodifiedIncoming EClassicDiffusion
    false ERealAndVirt = Fin 0
  /\ evalDipole (collab := sample_collaborators) (mkFwdScat 1 0 1 0.5)
       (mkVector 0 0 1) (mkVector 0 0 (-1)) (mkVector 0 0 1) (mkVector 0 0 1)
       (mkVector 1 0 0) 1 false true EUnmodifiedIncoming EClassicDiffusion
       false ERealAndVirt = Fin 0.
Proof.
  split.
  - apply (proj1 (evalDipole_rejects (collab := sample_collaborators)
                    (mkFwdScat 1 0 1 1)
                    (mkVector 0 0 1) (mkVector 0 0 1) (mkVector 0 0 1)
                    (mkVector 0 0 1) (mkVector 1 0 0) 1 false true
                    EUnmodifiedIncoming EClassicDiffusion false ERealAndVirt)).
    unfold fgeb, fleb, dot. cbn [vx vy vz fmul fadd].
    rewrite fltb_fin_true by lra. reflexivity.
  - apply (proj2 (evalDipole_rejects (collab := sample_collaborators)
                    (mkFwdScat 1 0 1 0.5)
                    (mkVector 0 0 1) (mkVector 0 0 (-1)) (mkVector 0 0 1)
                    (mkVector 0 0 1) (mkVector 1 0 0) 1 false true
                    EUnmodifiedIncoming EClassicDiffusion false ERealAndVirt)).
    left. cbn [refract sample_collaborators m_eta]. unfold sample_refract.
    rewrite feqb_fin_false by lra. cbn [fst].
    unfold visZero, vconst. cbn [vx vy vz].
    assert (H : (Fin 0 .== Fin 0) = true) by (apply feqb_fin; reflexivity).
    rewrite H. reflexivity.
Defined.

(** ** Length sampler: the ShortLimit strategy at zero displacement *)

Lemma feqb_zero_mul (x : R) : (Fin (0 * x) .== 0) = true.
Proof. apply feqb_fin. ring. Qed.

Lemma shortLimitKnownU0_zero {collab : Collaborators} (self : FwdScat)
    (ss m : R) (fuel : nat) (R u0 uL : Vector) (s : Float)
    (sampler : option Sampler) :
  sigma_s self = Fin ss -> mu self = Fin m -> vlength R = Fin 0 ->
  implLengthShortLimitKnownU0 self fuel R u0 uL s sampler
  = Some (match sampler with Some _ => Fin 0 | None => s end, Fin 0, sampler).
Proof.
  intros Hs Hm HR. unfold implLengthShortLimitKnownU0.
  rewrite Hs, Hm, HR. cbn [fmul]. rewrite feqb_zero_mul. reflexivity.
Qed.

Lemma shortLimitMargOverU0_internal_zero {collab : Collaborators}
    (self : FwdScat) (ss m : R) (fuel : nat) (R uL : Vector) (s : Float)
    (sampler : option Sampler) (safetyFac : Float) :
  sigma_s self = Fin ss -> mu self = Fin m -> vlength R = Fin 0 ->
  implLengthShortLimitMargOverU0_internal self fuel R uL s sampler safetyFac
  = Some (match sampler with Some _ => Fin 0 | None => s end, Fin 0, sampler).
Proof.
  intros Hs Hm HR. unfold implLengthShortLimitMargOverU0_internal.
  rewrite Hs, Hm, HR. cbn [fmul]. rewrite feqb_zero_mul. reflexivity.
Qed.

Lemma mix_zero_pdf : 0.3 .* Fin 0 .+ (1 .- 0.3) .* Fin 0 = Fin 0.
Proof. cbn [fmul fadd fsub fneg]. f_equal. ring. Qed.

(** C10.  When [|R| = 0] (so that [r = p |R| = 0], the medium parameters
    being finite), the ShortLimit strategy signals "cannot sample": with a
    known entry direction ([u0 = Some _]) as well as marginalized over it
    ([u0 = None]), [sampleLengthShortLimit] returns pdf 0 and sets
    [s = 0], and [pdfLengthShortLimit] returns 0. *)
Theorem shortLimit_zero_displacement {collab : Collaborators}
    (self : FwdScat) (ss m : R) (fuel : nat)
    (R : Vector) (u0 : option Vector) (uL : Vector) (s : Float)
    (sampler : Sampler) :
  sigma_s self = Fin ss -> mu self = Fin m -> vlength R = Fin 0 ->
  (exists sampler',
      sampleLengthShortLimit self fuel R u0 uL s sampler
      = Some (Fin 0, Fin 0, sampler'))
  /\ pdfLengthShortLimit self R u0 uL s = Fin 0.
Proof.
  intros Hs Hm HR.
  unfold sampleLengthShortLimit, pdfLengthShortLimit, implLengthShortLimit.
  destruct u0 as [u0|].
  - rewrite !(shortLimitKnownU0_zero self ss m) by assumption.
    split; [eexists|]; reflexivity.
  - unfold implLengthShortLimitMargOverU0. cbv zeta.
    destruct (next1D sampler) as [u smp].
    destruct (u .> 0.3);
      rewrite !(shortLimitMargOverU0_internal_zero self ss m) by assumption;
      rewrite mix_zero_pdf; (split; [eexists|]; reflexivity).
Qed.

Lemma vlength_zero : vlength (mkVector 0 0 0) = Fin 0.
Proof.
  unfold vlength, lengthSquared. cbn [vx vy vz fmul fadd].
  rewrite fsqrt_fin by lra. f_equal.
  replace (0 * 0 + 0 * 0 + 0 * 0)%R with 0%R by ring. apply sqrt_0.
Qed.

Lemma shortLimit_zero_displacement_witness :
  ((exists sampler',
       sampleLengthShortLimit (collab := sample_collaborators)
         (mkFwdScat 1 0 1 1) 0 (mkVector 0 0 0) (Some (mkVector 0 0 (-1)))
         (mkVector 0 0 1) 1 (fun _ => Fin 0.5)
       = Some (Fin 0, Fin 0, sampler'))
   /\ pdfLengthShortLimit (collab := sample_collaborators)
        (mkFwdScat 1 0 1 1) (mkVector 0 0 0) (Some (mkVector 0 0 (-1)))
        (mkVector 0 0 1) 1 = Fin 0)
  /\ ((exists sampler',
          sampleLengthShortLimit (collab := sample_collaborators)
            (mkFwdScat 1 0 1 1) 0 (mkVector 0 0 0) None
            (mkVector 0 0 1) 1 (fun _ => Fin 0.5)
          = Some (Fin 0, Fin 0, sampler'))
      /\ pdfLengthShortLimit (collab := sample_collaborators)
           (mkFwdScat 1 0 1 1) (mkVector 0 0 0) None
           (mkVector 0 0 1) 1 = Fin 0).
Proof.
  split.
  - apply (shortLimit_zero_displacement (collab := sample_collaborators)
             (mkFwdScat 1 0 1 1) 1 1 0 (mkVector 0 0 0)
             (Some (mkVector 0 0 (-1))) (mkVector 0 0 1) 1 (fun _ => Fin 0.5)
             eq_refl eq_refl vlength_zero).
  - apply (shortLimit_zero_displacement (collab := sample_collaborators)
             (mkFwdScat 1 0 1 1) 1 1 0 (mkVector 0 0 0)
             None (mkVector 0 0 1) 1 (fun _ => Fin 0.5)
             eq_refl eq_refl vlength_zero).
Defined.

(** ** Length sampler: the root search of the LongLimit strategy *)

Lemma longLimit_expand_stops (target : Float -> Float) (A hi : Float)
    (fuel : nat) :
  (hi .< 1e4 .* 1000 ./ A) = false ->
  longLimit_expand (S fuel) target A hi = Some hi.
Proof.
  intros H. cbn [longLimit_expand]. rewrite H, andb_false_r. reflexivity.
Qed.

Lemma pow3_9_le (k : nat) : (9 <= k)%nat -> (1e4 <= 3 ^ k)%R.
Proof.
  intros Hk. replace k with (9 + (k - 9))%nat by lia.
  rewrite pow_add.
  assert (H1 : (1 <= 3 ^ (k - 9))%R) by (apply pow_R1_Rle; lra).
  assert (H2 : (3 ^ 9 = 19683)%R) by (simpl; lra).
  rewrite H2. nra.
Qed.

(** For [A > 0] the bracket [1000/A * 3^k] leaves the loop after at most
    nine multiplications by 3. *)
Lemma longLimit_expand_pos (target : Float -> Float) (a : R) :
  (0 < a)%R ->
  forall (f k : nat), (9 <= k + f)%nat ->
    exists hi, longLimit_expand (S f) target (Fin a) (Fin (1000 / a * 3 ^ k))
               = Some hi.
Proof.
  intros Ha. induction f as [|f IH]; intros k Hk.
  - exists (Fin (1000 / a * 3 ^ k)). apply longLimit_expand_stops.
    cbn [fmul]. rewrite fdiv_fin by lra. apply fltb_fin_false.
    assert (H := pow3_9_le k ltac:(lia)).
    assert (Hi : (0 < / a)%R) by (apply Rinv_0_lt_compat; lra).
    unfold Rdiv. nra.
  - cbn [longLimit_expand].
    destruct ((target (Fin (1000 / a * 3 ^ k)) .< 0)
              && (Fin (1000 / a * 3 ^ k) .< 1e4 .* 1000 ./ Fin a)).
    + cbn [fmul].
      replace (1000 / a * 3 ^ k * 3)%R with (1000 / a * 3 ^ (S k))%R
        by (simpl; ring).
      apply IH. lia.
    + eexists. reflexivity.
Qed.

(** The bracket expansion ends within ten evaluations of its condition,
    whatever [A] and [target] are. *)
Lemma longLimit_expand_total (target : Float -> Float) (A : Float)
    (fuel : nat) :
  (10 <= fuel)%nat ->
  exists hi, longLimit_expand fuel target A (1000 ./ A) = Some hi.
Proof.
  intros Hf. destruct fuel as [|f]; [lia|].
  destruct A as [a| | |].
  - destruct (Req_EM_T a 0) as [Ha0|Ha0].
    + subst a. eexists. apply longLimit_expand_stops.
      unfold fdiv. cbn [fmul].
      destruct (Req_EM_T 0 0) as [_|N]; [|contradiction].
      rewrite !Rsgn_pos by lra. reflexivity.
    + destruct (Rlt_dec 0 a) as [Hpos|Hneg].
      * rewrite fdiv_fin by exact Ha0.
        replace (1000 / a)%R with (1000 / a * 3 ^ 0)%R by (simpl; ring).
        apply longLimit_expand_pos; [exact Hpos|lia].
      * eexists. apply longLimit_expand_stops.
        cbn [fmul]. rewrite !fdiv_fin by exact Ha0. apply fltb_fin_false.
        assert (Hi : (/ a < 0)%R) by (apply Rinv_lt_0_compat; lra).
        unfold Rdiv. nra.
  - eexists. apply longLimit_expand_stops. cbn. apply fltb_fin_false. lra.
  - eexists. apply longLimit_expand_stops. cbn. apply fltb_fin_false. lra.
  - eexists. apply longLimit_expand_stops. reflexivity.
Qed.

(** C8.  [sampleLengthLongLimit] always returns: ten evaluations of the
    bracket-expansion condition (nine multiplications of [hi] by 3, which
    stop once [hi >= 1e4*1000/A]) are enough, and the solver is called
    with an iteration cap of 1000.  When the root search is reached
    ([p != 0], [beta > 0]), each failure mode (a non-finite or positive
    target at [lo], a non-finite target at [hi], a root that is not
    bracketed, an exception from the solver, a non-finite resulting [s])
    makes the returned pdf 0. *)
Theorem sampleLengthLongLimit_bounded {collab : Collaborators}
    (self : FwdScat) (fuel : nat) (R uL : Vector) (s : Float)
    (sampler : Sampler) :
  (10 <= fuel)%nat ->
  let p := 0.5 .* sigma_s self .* mu self in
  let A := longLimit_A self in
  let target := longLimit_target self R uL (fst (next1D sampler)) in
  exists (pdf s' : Float) (sampler' : Sampler) (hi : Float),
    sampleLengthLongLimit self fuel R uL s sampler = Some (pdf, s', sampler')
    /\ longLimit_expand fuel target A (1000 ./ A) = Some hi
    /\ ((p .== 0) = false -> (longLimit_beta self R uL .<= 0) = false ->
        (isfinite (target 0) = false
         \/ (target 0 .> 0) = true
         \/ isfinite (target (1000 ./ A)) = false
         \/ isfinite (target hi) = false
         \/ (target hi .< 0) = true
         \/ toms748_solve target 0 hi 15 1000 = None
         \/ (exists first second,
                toms748_solve target 0 hi 15 1000 = Some (first, second)
                /\ isfinite (0.5 .* (first .+ second) ./ p) = false)) ->
        pdf = Fin 0).
Proof.
  intros Hfuel p A target.
  destruct (longLimit_expand_total target A fuel Hfuel) as [hi Hhi].
  unfold sampleLengthLongLimit. fold p. fold A.
  destruct (p .== 0) eqn:Hp0.
  { exists (Fin 0), s, sampler, hi. repeat split; assumption. }
  destruct (longLimit_beta self R uL .<= 0) eqn:Hbeta.
  { destruct (sampleLengthAbsorption self s sampler) as [[pdf s'] smp'].
    exists pdf, s', smp', hi. split; [reflexivity|]. split; [assumption|].
    intros _ H; discriminate H. }
  destruct (next1D sampler) as [u smp] eqn:Hnext. cbn [fst] in target.
  fold target. unfold longLimit_invert. rewrite Hhi.
  destruct (negb (isfinite (target 0)) || (target 0 .> 0)) eqn:Hlo.
  { exists (Fin 0), s, smp, hi. repeat split; assumption. }
  destruct (negb (isfinite (target (1000 ./ A)))) eqn:Hhi0.
  { exists (Fin 0), s, smp, hi. repeat split; assumption. }
  destruct (negb (isfinite (target hi)) || (target hi .< 0)) eqn:Hbr.
  { exists (Fin 0), s, smp, hi. repeat split; assumption. }
  apply orb_false_elim in Hlo, Hbr.
  destruct Hlo as [Hlo1 Hlo2]. destruct Hbr as [Hbr1 Hbr2].
  apply negb_false_iff in Hlo1, Hhi0, Hbr1.
  destruct (toms748_solve target 0 hi 15 1000) as [[first second]|] eqn:Hsol.
  - destruct (negb (isfinite (0.5 .* (first .+ second) ./ p))) eqn:Hs.
    + eexists (Fin 0), _, smp, hi. repeat split; assumption.
    + apply negb_false_iff in Hs.
      eexists _, _, smp, hi. split; [reflexivity|]. split; [reflexivity|].
      intros _ _ [H|[H|[H|[H|[H|[H|H]]]]]]; try congruence.
      destruct H as (a & b & Hab & Hnf).
      rewrite Hsol in Hab. injection Hab as <- <-. congruence.
  - exists (Fin 0), s, smp, hi. repeat split; assumption.
Qed.

Lemma sampleLengthLongLimit_bounded_witness :
  exists (pdf s' : Float) (sampler' : Sampler),
    sampleLengthLongLimit (collab := sample_collaborators)
      (mkFwdScat 2 1 1 1) 10 (mkVector 1 0 0) (mkVector 0 0 1) 1
      (fun _ => Fin 0.5)
    = Some (pdf, s', sampler').
Proof.
  destruct (sampleLengthLongLimit_bounded (collab := sample_collaborators)
              (mkFwdScat 2 1 1 1) 10 (mkVector 1 0 0) (mkVector 0 0 1) 1
              (fun _ => Fin 0.5) (le_n 10))
    as (pdf & s' & smp' & hi & H & _).
  exists pdf, s', smp'. exact H.
Defined.

(** ** The real-source blending weight *)

(** The displacement vector is called [R], as in the source; [real]
    names the type of real numbers where both occur. *)
Abbreviation real := Rdefinitions.R (only parsing).

Lemma visFinite_inv (v : Vector) :
  visFinite v = true ->
  exists x y z : R, v = mkVector (Fin x) (Fin y) (Fin z).
Proof.
  destruct v as [[x| | |] [y| | |] [z| | |]]; cbn; intros H;
    try discriminate H.
  now exists x, y, z.
Qed.

Lemma realSourceWeightOf_fin (r : R) :
  (0 <= r)%R ->
  realSourceWeightOf (Fin r) = Fin (r / (r + 1))
  /\ (0 <= r / (r + 1) <= 1)%R.
Proof.
  intros Hr. unfold realSourceWeightOf. cbn [fadd isinf].
  rewrite fdiv_fin by lra. split; [reflexivity|].
  split.
  - apply Rle_mult_inv_pos; lra.
  - apply Rmult_le_reg_r with (r + 1)%R; [lra|].
    replace (r / (r + 1) * (r + 1))%R with r by (field; lra). lra.
Qed.

(** The ratio is an exponential: never negative, never minus infinity. *)
Lemma fexp_cases (x : Float) :
  (exists r : R, fexp x = Fin r /\ (0 <= r)%R)
  \/ fexp x = PInf \/ fexp x = NaN.
Proof.
  destruct x as [x| | |]; cbn [fexp].
  - left. exists (exp x). split; [reflexivity|]. left. apply exp_pos.
  - right. left. reflexivity.
  - left. exists 0%R. split; [reflexivity|]. lra.
  - right. right. reflexivity.
Qed.

(** Whenever [getTentativeIndexMatchedVirtualSourceDisp] succeeds and
    a weight is requested, the weight returned is computed from
    [ratio = exp(E dot(R - R_virt, uL) - F (|R|^2 - |R_virt|^2))], with E
    and F the shape parameters at the given [s]: it is exactly 1 when the
    ratio is infinite and [ratio/(ratio+1)] otherwise, and it lies in
    [0,1] as soon as the ratio is a number.  The ratio is a positive
    number for every valid medium, finite [s > 0] and finite [R], [uL] and
    [R_virt]. *)
Lemma realSourceWeight_spec {collab : Collaborators} (self : FwdScat)
    (n0 nL : Normal) (uL R : Vector) (s : Float)
    (tangentMode : TangentPlaneMode)
    (R_virt n0_effective : Vector) (w : Float) :
  getTentativeIndexMatchedVirtualSourceDisp self n0 nL uL R s tangentMode true
  = Some (R_virt, n0_effective, Some w) ->
  let v := calcValues self s in
  let ratio :=
    fexp (sp_E v .* dot (vsub R R_virt) uL
          .- sp_F v .* (lengthSquared R .- lengthSquared R_virt)) in
  (isinf ratio = true -> w = Fin 1)
  /\ (isinf ratio = false -> w = ratio ./ (ratio .+ 1))
  /\ (ratio <> NaN -> exists x : real, w = Fin x /\ (0 <= x <= 1)%R)
  /\ (forall m ss s0 : real,
         mu self = Fin m -> sigma_s self = Fin ss -> s = Fin s0 ->
         (0 < m <= 1)%R -> (0 < ss)%R -> (0 < s0)%R ->
         visFinite R = true -> visFinite uL = true ->
         visFinite R_virt = true ->
         exists r : real, ratio = Fin r /\ (0 < r)%R
                          /\ w = Fin (r / (r + 1))).
Proof.
  intros Hcall v ratio.
  assert (Hw : w = realSourceWeightOf ratio).
  { unfold getTentativeIndexMatchedVirtualSourceDisp in Hcall.
    destruct (getVirtualDipoleSource self n0 (vconst NaN) nL uL R s false
                tangentMode EClassicDiffusion) as [[[u0v Rv] ne]|];
      [|discriminate Hcall].
    cbn [negb] in Hcall. injection Hcall as <- <- <-. reflexivity. }
  assert (Hnum : forall r, ratio = Fin r -> (0 <= r)%R ->
                   w = Fin (r / (r + 1)) /\ (0 <= r / (r + 1) <= 1)%R).
  { intros r Hr Hr0. rewrite Hw, Hr. apply realSourceWeightOf_fin. exact Hr0. }
  repeat split.
  - intros Hinf. rewrite Hw. unfold realSourceWeightOf.
    destruct ratio; try discriminate Hinf; cbn; f_equal; lra.
  - intros Hinf. rewrite Hw. unfold realSourceWeightOf.
    destruct ratio; try discriminate Hinf; reflexivity.
  - intros Hnan.
    destruct (fexp_cases (sp_E v .* dot (vsub R R_virt) uL
                          .- sp_F v .* (lengthSquared R
                                        .- lengthSquared R_virt)))
      as [(r & Hr & Hr0)|[Hr|Hr]].
    + destruct (Hnum r Hr Hr0) as [Hwr Hb]. eexists. split; eassumption.
    + exists 1%R. split; [|lra]. rewrite Hw. unfold ratio. rewrite Hr.
      cbn. f_equal. lra.
    + contradiction.
  - intros m ss s0 Hmu Hss Hs Hm Hss0 Hs0 HR HuL HRv.
    destruct (calcValues_pos self m ss s0 Hmu Hss Hm Hss0 Hs0)
      as (c & d & e & f & z & Hv & _).
    destruct (visFinite_inv R HR) as (rx & ry & rz & ->).
    destruct (visFinite_inv uL HuL) as (ux & uy & uz & ->).
    destruct (visFinite_inv R_virt HRv) as (vx' & vy' & vz' & ->).
    unfold ratio, v. rewrite Hs, Hv.
    cbn [sp_E sp_F dot vsub lengthSquared vx vy vz fmul fadd fsub fneg fexp].
    eexists. split; [reflexivity|]. split; [apply exp_pos|].
    apply Hnum.
    + unfold ratio, v. rewrite Hs, Hv. reflexivity.
    + left. apply exp_pos.
Qed.

(** A concrete call: index-matched medium with sigma_s = 1, mu = 1,
    sigma_a = 0, unmodified incoming normal (0,0,1), R = (1,0,0),
    uL = (0,0,1), s = 1. *)
Lemma tentative_sample_call :
  exists (Rv ne : Vector) (w : Float),
    getTentativeIndexMatchedVirtualSourceDisp (collab := sample_collaborators)
      (mkFwdScat 1 0 1 1) (mkVector 0 0 1) (mkVector 0 0 1) (mkVector 0 0 1)
      (mkVector 1 0 0) (Fin 1) EUnmodifiedIncoming true
    = Some (Rv, ne, Some w)
    /\ visFinite Rv = true.
Proof.
  unfold getTentativeIndexMatchedVirtualSourceDisp, getVirtualDipoleSource,
    effectiveNormal, virtualSourceHeight.
  cbn [visFinite isfinite vx vy vz andb negb sigma_s mu sigma_a m_eta fmul fadd
       fresnelDiffuseReflectance sample_collaborators fsub fneg].
  rewrite feqb_fin_false by lra.
  rewrite !fdiv_fin by lra.
  cbn [fmul vscale vsub vx vy vz fsub fadd fneg negb].
  eexists _, _, _. split; reflexivity.
Qed.

Lemma realSourceWeight_spec_witness :
  exists (Rv ne : Vector) (x : real),
    getTentativeIndexMatchedVirtualSourceDisp (collab := sample_collaborators)
      (mkFwdScat 1 0 1 1) (mkVector 0 0 1) (mkVector 0 0 1) (mkVector 0 0 1)
      (mkVector 1 0 0) (Fin 1) EUnmodifiedIncoming true
    = Some (Rv, ne, Some (Fin x))
    /\ (0 <= x <= 1)%R.
Proof.
  destruct tentative_sample_call as (Rv & ne & w & Hcall & HRv).
  destruct (realSourceWeight_spec (collab := sample_collaborators)
              (mkFwdScat 1 0 1 1) (mkVector 0 0 1) (mkVector 0 0 1)
              (mkVector 0 0 1) (mkVector 1 0 0) (Fin 1) EUnmodifiedIncoming
              Rv ne w Hcall) as (_ & _ & Hrange & Hvalid).
  destruct (Hvalid 1%R 1%R 1%R eq_refl eq_refl eq_refl
              ltac:(lra) ltac:(lra) ltac:(lra) eq_refl eq_refl HRv)
    as (r & Hr & Hr0 & Hw).
  destruct Hrange as (x & Hx & Hb).
  - rewrite Hr. discriminate.
  - exists Rv, ne, x. rewrite <- Hx. split; [exact Hcall|exact Hb].
Defined.

(** ** The real-source weight at length 0 *)

Lemma fdiv_pos_zero (x z : real) :
  (0 < x)%R -> z = 0%R -> Fin x ./ Fin z = PInf.
Proof.
  intros Hx ->. unfold fdiv.
  destruct (Req_EM_T 0 0) as [_|H]; [|contradiction].
  rewrite Rsgn_pos by exact Hx. reflexivity.
Qed.

Lemma fdiv_PInf_zero (z : real) : z = 0%R -> PInf ./ Fin z = PInf.
Proof.
  intros ->. unfold fdiv.
  destruct (Req_EM_T 0 0) as [_|H]; [reflexivity|contradiction].
Qed.

Lemma fmul_PInf_pos (y : real) : (0 < y)%R -> PInf .* Fin y = PInf.
Proof. intros Hy. cbn [fmul]. rewrite Rsgn_pos by exact Hy. reflexivity. Qed.

(** At [length = 0] the series arm of [calcValues] divides by [ps = 0]:
    [E] and [F] are [+inf]. *)
Lemma calcValues_zero_length (self : FwdScat) (m ss : real) :
  mu self = Fin m -> sigma_s self = Fin ss -> (0 < m)%R -> (0 < ss)%R ->
  sp_E (calcValues self (Fin 0)) = PInf
  /\ sp_F (calcValues self (Fin 0)) = PInf.
Proof.
  intros Hmu Hss Hm Hs.
  unfold calcValues, calcValues_arm. rewrite Hmu, Hss. cbn [fmul].
  replace (0.5 * m * ss * 0)%R with 0%R by ring.
  unfold calcValues_select. rewrite fltb_fin_true by lra.
  unfold calcValues_finish, calcValues_series.
  cbn [sp_E sp_F dl_E dl_F fmul].
  rewrite (fdiv_pos_zero 4.5 0) by lra.
  cbn [fadd fsub fneg].
  rewrite !fdiv_PInf_zero by ring.
  assert (Hp : (0 < 0.5 * m * ss)%R) by nra.
  rewrite !fmul_PInf_pos by nra.
  split; reflexivity.
Qed.

(** C7.  The weight is not always in [0, 1]: at the length [s = 0], which
    [calcValues] accepts ([FSAssert(length >= 0)]), the shape parameters
    [E] and [F] are both [+inf]; with the real source above the virtual one
    along [uL] the exponent [E dot(R - R_virt, uL) - F (|R|^2 - |R_virt|^2)]
    is [inf - inf], the ratio is NaN and so is the weight handed back,
    which fails the test [realSourceWeight >= 0 && realSourceWeight <= 1]
    that the function asserts on it.  Medium: [sigma_s = 1], [mu = 1],
    [sigma_a = 0], [eta = 1]; [n0 = nL = uL = R = (0,0,1)], unmodified
    incoming normal. *)
Theorem realSourceWeight_nan_at_zero_length :
  getTentativeIndexMatchedVirtualSourceDisp (collab := sample_collaborators)
    (mkFwdScat 1 0 1 1) (mkVector 0 0 1) (mkVector 0 0 1) (mkVector 0 0 1)
    (mkVector 0 0 1) (Fin 0) EUnmodifiedIncoming true
  = Some (vsub (mkVector 0 0 1) (vscale (Fin (4 / 3)) (mkVector 0 0 1)),
          mkVector 0 0 1, Some NaN)
  /\ realSourceRatio (mkFwdScat 1 0 1 1) (mkVector 0 0 1) (mkVector 0 0 1)
       (vsub (mkVector 0 0 1) (vscale (Fin (4 / 3)) (mkVector 0 0 1)))
       (Fin 0) = NaN
  /\ ((NaN .>= 0) && (NaN .<= 1)) = false.
Proof.
  destruct (calcValues_zero_length (mkFwdScat 1 0 1 1) 1 1
              eq_refl eq_refl ltac:(lra) ltac:(lra)) as [HE HF].
  assert (Hratio :
            realSourceRatio (mkFwdScat 1 0 1 1) (mkVector 0 0 1)
              (mkVector 0 0 1)
              (vsub (mkVector 0 0 1) (vscale (Fin (4 / 3)) (mkVector 0 0 1)))
              (Fin 0) = NaN).
  { unfold realSourceRatio. rewrite HE, HF.
    cbn [fmul vscale vsub vx vy vz fsub fadd fneg dot lengthSquared].
    rewrite !Rsgn_pos by lra. reflexivity. }
  split; [|split; [exact Hratio|reflexivity]].
  unfold getTentativeIndexMatchedVirtualSourceDisp, getVirtualDipoleSource,
    effectiveNormal, virtualSourceHeight.
  cbn [visFinite isfinite vx vy vz andb negb sigma_s mu sigma_a m_eta fmul fadd
       fresnelDiffuseReflectance sample_collaborators fsub fneg].
  rewrite feqb_fin_false by lra.
  rewrite !fdiv_fin by lra.
  cbn [fmul fsub fadd fneg negb].
  replace (4 * ((1 + 0) / (1 + - 0)) * (1 / (3 * (1 * 1 + 0))))%R
    with (4 / 3)%R by (field; lra).
  rewrite Hratio. reflexivity.
Qed.

(** ** Positivity of the normalization constant and of the monopole *)

Lemma ZoverExpMinOne_pos (z : real) :
  (0 < z)%R -> exists a : real, ZoverExpMinOne (Fin z) = Fin a /\ (0 < a)%R.
Proof.
  intros Hz. unfold ZoverExpMinOne.
  destruct (Rlt_dec z 0.002) as [Hs|Hs].
  - rewrite fltb_fin_true by exact Hs.
    unfold ZoverExpMinOne_series. cbn [fmul fadd fsub fneg].
    eexists. split; [reflexivity|].
    assert ((0 < z * z < 0.000004)%R) by nra.
    assert ((z * z * z * z < 0.000004 * (z * z))%R) by nra.
    nra.
  - rewrite fltb_fin_false by lra.
    assert (He : (1 + z < exp z)%R) by (apply exp_ineq1; lra).
    unfold ZoverExpMinOne_closed. cbn [fexp fsub fneg fadd].
    rewrite fdiv_fin by lra.
    eexists. split; [reflexivity|].
    apply Rdiv_lt_0_compat; lra.
Qed.

Lemma Rpower_pos (x y : real) : (0 < Rpower x y)%R.
Proof. unfold Rpower. apply exp_pos. Qed.

(** Positivity of a product of factors known to be positive. *)
Ltac pos_prod :=
  first [ assumption
        | apply exp_pos
        | apply Rpower_pos
        | apply Rmult_lt_0_compat; pos_prod ].

(** The normalization constant is a positive number for a valid medium
    and a finite [s > 0]. *)
Lemma absorptionAndNormalizationConstant_pos (self : FwdScat)
    (m ss sa s : real) :
  mu self = Fin m -> sigma_s self = Fin ss -> sigma_a self = Fin sa ->
  (0 < m <= 1)%R -> (0 < ss)%R -> (0 < s)%R ->
  exists n : real,
    absorptionAndNormalizationConstant self (Fin s) = Fin n /\ (0 < n)%R.
Proof.
  intros Hmu Hss Hsa Hm Hs0 Hs.
  unfold absorptionAndNormalizationConstant.
  destruct (calcValues_pos self m ss s Hmu Hss Hm Hs0 Hs)
    as (c & d & e & f & z & Hv & Hc & Hd & He & Hf & Hz).
  rewrite Hv, Hmu, Hss, Hsa. cbn [fmul fneg sp_C sp_D sp_F sp_Z].
  set (p := (0.5 * ss * m)%R).
  assert (Hp : (0 < p)%R) by (unfold p; nra).
  clearbody p.
  assert (Hps : (0 < p * s)%R) by nra.
  unfold M_PI_DBL, SQRT_TWO_DBL.
  rewrite !fpow_fin by (try apply PI_RGT_0; lra).
  destruct (Rlt_dec (p * s) 0.006) as [Hb|Hb].
  - rewrite fltb_fin_true by exact Hb.
    cbn [fmul fadd fexp].
    eexists. split; [reflexivity|].
    assert (H2 : (0 < sqrt 2)%R) by (apply sqrt_lt_R0; lra).
    assert (Hpoly : (0 < 81 / 32 + 891 / 320 * (p * s)
                         + 8721 / 6400 * (p * s) * (p * s)
                         + -374841 / 448000 * (p * s) * (p * s) * (p * s))%R).
    { assert ((0 < (p * s) * (p * s) < 0.000036)%R) by nra.
      assert ((0 < (p * s) * (p * s) * (p * s) < 0.000036 * 0.006)%R) by nra.
      nra. }
    pos_prod.
  - rewrite fltb_fin_false by lra.
    destruct (ZoverExpMinOne_pos z Hz) as (a & Ha & Ha0).
    rewrite Ha. cbn [fexp fsub fneg fadd].
    rewrite fsqrt_fin by lra.
    assert (HP := Rpower_pos PI 2.5).
    rewrite fdiv_fin by lra. cbn [fmul].
    eexists. split; [reflexivity|].
    assert (Hsq : (0 < sqrt f)%R) by (apply sqrt_lt_R0; lra).
    assert (Hq : (0 < 0.25 / Rpower PI 2.5)%R)
      by (apply Rdiv_lt_0_compat; lra).
    pos_prod.
Qed.

Lemma clamp_fin (x a b : real) :
  exists c : real, clamp (Fin x) (Fin a) (Fin b) = Fin c.
Proof.
  unfold clamp, std_min, std_max.
  destruct (Fin a .< Fin x); destruct (_ .< Fin b); eexists; reflexivity.
Qed.

(** The monopole is a positive number for a valid medium, a finite
    [s > 0], finite vectors and [H = E R - D uL] different from zero. *)
Lemma evalMonopole_pos {collab : Collaborators} (self : FwdScat)
    (m ss sa s k : real) (u0 uL R : Vector) :
  mu self = Fin m -> sigma_s self = Fin ss -> sigma_a self = Fin sa ->
  (0 < m <= 1)%R -> (0 < ss)%R -> (0 < s)%R ->
  MTS_FWDSCAT_DIRECTION_MIN_MU = Fin k -> (0 < k)%R ->
  visFinite u0 = true -> visFinite uL = true -> visFinite R = true ->
  (forall e d : real, (0 < e)%R -> (0 < d)%R ->
     exists h : real,
       vlength (vsub (vscale (Fin e) R) (vscale (Fin d) uL)) = Fin h
       /\ (0 < h)%R) ->
  exists g : real, evalMonopole self u0 uL R (Fin s) = Fin g /\ (0 < g)%R.
Proof.
  intros Hmu Hss Hsa Hm Hs0 Hs Hk Hk0 Hu0 HuL HR HH.
  unfold evalMonopole.
  destruct (calcValues_pos self m ss s Hmu Hss Hm Hs0 Hs)
    as (c & d & e & f & z & Hv & Hc & Hd & He & Hf & Hz).
  destruct (absorptionAndNormalizationConstant_pos self m ss sa s
              Hmu Hss Hsa Hm Hs0 Hs) as (n & Hn & Hn0).
  destruct (HH e d He Hd) as (h & Hh & Hh0).
  rewrite Hv, Hn, Hk. cbn [sp_C sp_D sp_E sp_F]. rewrite Hh.
  destruct (visFinite_inv u0 Hu0) as (ax & ay & az & ->).
  destruct (visFinite_inv uL HuL) as (bx & by' & bz & ->).
  destruct (visFinite_inv R HR) as (rx & ry & rz & ->).
  rewrite !fdiv_fin by lra.
  unfold vdivf. rewrite !fdiv_fin by lra.
  cbn [vsub vscale dot lengthSquared vx vy vz fmul fadd fsub fneg].
  unfold roundCosThetaForStability.
  match goal with
  | |- context [clamp (Fin ?x) (Fin ?a) (Fin ?b)] =>
      destruct (clamp_fin x a b) as (ct & ->)
  end.
  destruct (Fin h .> Fin (1 / k));
    cbn [fmul fadd fsub fneg fexp];
    (eexists; split; [reflexivity|]);
    apply Rmult_lt_0_compat; try assumption; apply exp_pos.
Qed.

(** ** The reciprocal evaluation *)

(** Where no effective normal can be built, [evalDipole] returns 0 before
    the reversed configuration is looked at. *)
Lemma evalDipole_body_no_normal {collab : Collaborators} (self : FwdScat)
    (recurse : evalDipoleType)
    (n0 : Normal) (u0_external : Vector) (nL : Normal)
    (uL_external R : Vector) (length : Float)
    (rejectInternalIncoming reciprocal : bool)
    (tangentMode : TangentPlaneMode) (zvMode : ZvMode)
    (useEffectiveBRDF : bool) (dipoleMode : DipoleMode) :
  effectiveNormal n0 nL R tangentMode = None ->
  evalDipole_body self recurse n0 u0_external nL uL_external R length
    rejectInternalIncoming reciprocal tangentMode zvMode
    useEffectiveBRDF dipoleMode = Fin 0.
Proof.
  intros Hn. unfold evalDipole_body.
  destruct (visFinite nL && (dot uL_external nL .<= 0)); [reflexivity|].
  destruct (dot u0_external n0 .>= 0); [reflexivity|].
  destruct (refract (vneg u0_external) n0 (m_eta self)) as [[r0 c0] F0].
  destruct (refract uL_external nL (m_eta self)) as [[rL cL] FL].
  destruct (visZero r0 || visZero (vneg rL)); [reflexivity|].
  unfold getVirtualDipoleSource. rewrite Hn. reflexivity.
Qed.

(** The path of [evalDipole] through the real monopole with
    [reciprocal = true]. *)
Lemma evalDipole_body_real_reciprocal {collab : Collaborators}
    (self : FwdScat) (recurse : evalDipoleType)
    (n0 : Normal) (u0_external : Vector) (nL : Normal)
    (uL_external R : Vector) (length : Float)
    (rejectInternalIncoming : bool)
    (tangentMode : TangentPlaneMode) (zvMode : ZvMode)
    (r0 rL : Vector) (c0 F0 cL FL : Float) :
  (visFinite nL && (dot uL_external nL .<= 0)) = false ->
  (dot u0_external n0 .>= 0) = false ->
  refract (vneg u0_external) n0 (m_eta self) = (r0, c0, F0) ->
  refract uL_external nL (m_eta self) = (rL, cL, FL) ->
  (visZero r0 || visZero (vneg rL)) = false ->
  getVirtualDipoleSource self n0 r0 nL (vneg rL) R length
    rejectInternalIncoming tangentMode zvMode <> None ->
  evalDipole_body self recurse n0 u0_external nL uL_external R length
    rejectInternalIncoming true tangentMode zvMode false EReal
  = 0.5 .* (evalMonopole self r0 (vneg rL) R length
            .+ recurse nL (vneg (vneg rL)) n0 (vneg r0) (vneg R) length
                 rejectInternalIncoming false tangentMode zvMode false EReal)
    .* ((1 .- F0) .* (1 .- FL)).
Proof.
  intros H1 H2 H3 H4 H5 H6. unfold evalDipole_body.
  rewrite H1, H2, H3, H4, H5.
  destruct (getVirtualDipoleSource self n0 r0 nL (vneg rL) R length
              rejectInternalIncoming tangentMode zvMode)
    as [[[u0v Rv] ne]|]; [reflexivity|contradiction].
Qed.

(** Entry normal and displacement both along the z axis: the tangent
    plane of Frisvad et al. is undefined. *)
Lemma effectiveNormal_parallel (a b c x y z : real) (nL : Normal) :
  a = 0%R -> b = 0%R -> x = 0%R -> y = 0%R -> z <> 0%R ->
  effectiveNormal (mkVector (Fin a) (Fin b) (Fin c)) nL
    (mkVector (Fin x) (Fin y) (Fin z)) EFrisvadEtAl = None.
Proof.
  intros -> -> -> -> Hz. unfold effectiveNormal, vlength, lengthSquared, cross.
  cbn [vx vy vz fmul fadd fsub fneg].
  rewrite !fsqrt_fin by nra.
  rewrite feqb_fin_false.
  - replace (_ + _ + _)%R with 0%R by ring.
    rewrite sqrt_0.
    assert (H : (Fin 0 .== 0) = true) by (apply feqb_fin; reflexivity).
    rewrite H. reflexivity.
  - intros H. apply sqrt_eq_0 in H; nra.
Qed.

(** Entry normal along the x axis, displacement along the z axis: the
    tangent plane exists and is finite. *)
Lemma effectiveNormal_orthogonal (a b c x y z : real) (nL : Normal) :
  a <> 0%R -> b = 0%R -> c = 0%R -> x = 0%R -> y = 0%R -> z <> 0%R ->
  exists ne : Vector,
    effectiveNormal (mkVector (Fin a) (Fin b) (Fin c)) nL
      (mkVector (Fin x) (Fin y) (Fin z)) EFrisvadEtAl = Some ne
    /\ visFinite ne = true.
Proof.
  intros Ha -> -> -> -> Hz.
  unfold effectiveNormal, normalize, vdivf, vlength, lengthSquared, cross.
  cbn [vx vy vz fmul fadd fsub fneg].
  rewrite !fsqrt_fin by nra.
  assert (Hzz : (0 < z * z)%R) by nra.
  assert (Haz0 : (a * z)%R <> 0%R)
    by (apply Rmult_integral_contrapositive_currified; assumption).
  assert (Haz : (0 < (a * z) * (a * z))%R) by nra.
  rewrite !feqb_fin_false.
  - assert (H1 : sqrt (0 * 0 + 0 * 0 + z * z) <> 0%R).
    { intros H. apply sqrt_eq_0 in H; nra. }
    assert (H2 : sqrt ((0 * z + - (0 * 0)) * (0 * z + - (0 * 0))
                       + (0 * 0 + - (a * z)) * (0 * 0 + - (a * z))
                       + (a * 0 + - (0 * 0)) * (a * 0 + - (0 * 0))) <> 0%R).
    { intros H. apply sqrt_eq_0 in H; nra. }
    rewrite !fdiv_fin by assumption.
    cbn [vx vy vz fmul fadd fsub fneg].
    eexists. split; reflexivity.
  - intros H. apply sqrt_eq_0 in H; nra.
  - intros H. apply sqrt_eq_0 in H; nra.
Qed.

Lemma feqb_refl_fin (x : real) : (Fin x .== Fin x) = true.
Proof. apply feqb_fin. reflexivity. Qed.

(** The same asymmetry with the real source alone ([EReal]): index-matched
    medium (eta = 1, sigma_s = 1, mu = 1), tangent plane of Frisvad et
    al.  Configuration A has its entry normal n0 = (0,0,1) parallel to
    R = (0,0,-1), u0 = (-0.6,0,-0.8), nL = uL = (1,0,0).  With
    [reciprocal = true], [evalDipole] returns 0 on A and a positive value
    on the time-reversed configuration (nL, -uL, n0, -u0, -R). *)
Lemma evalDipole_real_source_asymmetric :
  evalDipole (collab := sample_collaborators) (mkFwdScat 1 0 1 1)
    (mkVector 0 0 1) (mkVector (-0.6) 0 (-0.8))
    (mkVector 1 0 0) (mkVector 1 0 0)
    (mkVector 0 0 (-1)) (Fin 1)
    false true EFrisvadEtAl EClassicDiffusion false EReal
  = Fin 0
  /\ exists g : real,
       evalDipole (collab := sample_collaborators) (mkFwdScat 1 0 1 1)
         (mkVector 1 0 0) (vneg (mkVector 1 0 0))
         (mkVector 0 0 1) (vneg (mkVector (-0.6) 0 (-0.8)))
         (vneg (mkVector 0 0 (-1))) (Fin 1)
         false true EFrisvadEtAl EClassicDiffusion false EReal
       = Fin g
       /\ (0 < g)%R.
Proof.
  split.
  - unfold evalDipole. apply evalDipole_body_no_normal.
    apply (effectiveNormal_parallel 0 0 1 0 0 (-1)); lra.
  - unfold evalDipole.
    set (self := mkFwdScat 1 0 1 1).
    erewrite (evalDipole_body_real_reciprocal (collab := sample_collaborators)
                self) with (F0 := Fin 0) (FL := Fin 0).
    + (* the reversed evaluation inside is rejected *)
      rewrite (evalDipole_body_no_normal (collab := sample_collaborators)).
      2:{ cbn [vneg vx vy vz fneg].
          apply effectiveNormal_parallel; lra. }
      destruct (evalMonopole_pos (collab := sample_collaborators) self
                  1 1 0 1 1e-4
                  (vneg (vneg (vneg (mkVector 1 0 0))))
                  (vneg (vneg (vneg (mkVector (-0.6) 0 (-0.8)))))
                  (vneg (mkVector 0 0 (-1))))
        as (g & Hg & Hg0); try reflexivity; try lra.
      { intros e d He Hd.
        unfold vlength, lengthSquared.
        cbn [vneg vsub vscale vx vy vz fmul fadd fsub fneg].
        match goal with
        | |- context [fsqrt (Fin (?a * ?a + ?b * ?b + ?c * ?c))] =>
            assert (Ha : (a < 0)%R) by lra;
            generalize dependent a; generalize b; generalize c
        end.
        intros c b a Ha.
        rewrite fsqrt_fin by nra.
        eexists. split; [reflexivity|].
        apply sqrt_lt_R0. nra. }
      rewrite Hg. cbn [fmul fadd fsub fneg].
      eexists. split; [reflexivity|]. nra.
    + cbn [vneg vx vy vz fneg dot fmul fadd visFinite isfinite andb].
      unfold fleb. rewrite fltb_fin_false, feqb_fin_false by lra.
      reflexivity.
    + cbn [vneg vx vy vz fneg dot fmul fadd].
      unfold fgeb, fleb. rewrite fltb_fin_false, feqb_fin_false by lra.
      reflexivity.
    + cbn [refract sample_collaborators m_eta self]. unfold sample_refract.
      rewrite feqb_refl_fin. reflexivity.
    + cbn [refract sample_collaborators m_eta self]. unfold sample_refract.
      rewrite feqb_refl_fin. reflexivity.
    + unfold visZero, vneg. cbn [vx vy vz fneg].
      rewrite !(feqb_fin_false (- - - (1)) 0) by lra.
      rewrite !(feqb_fin_false (- - - (-0.6)) 0) by lra.
      reflexivity.
    + unfold getVirtualDipoleSource.
      change (vneg (mkVector 0 0 (-1)))
        with (mkVector (Fin (- 0)) (Fin (- 0)) (Fin (- (-1)))).
      destruct (effectiveNormal_orthogonal 1 0 0 (- 0) (- 0) (- (-1))
                  (mkVector 0 0 1)) as (ne & Hne & Hfin); try lra.
      rewrite Hne, Hfin. cbn [negb andb].
      unfold virtualSourceHeight.
      cbn [sigma_s mu sigma_a m_eta self fmul fadd].
      rewrite feqb_fin_false by lra.
      discriminate.
Qed.

(** ** The full dipole on a configuration and on its reverse *)

Lemma clamp_sign (x : real) :
  exists c : real,
    clamp (Fin x) (-1) 1 = Fin c
    /\ ((0 < x)%R -> (0 < c)%R) /\ ((x < 0)%R -> (c < 0)%R).
Proof.
  unfold clamp, std_min, std_max.
  destruct (Rlt_dec (-1) x) as [H1|H1].
  - rewrite (fltb_fin_true (-1) x) by exact H1.
    destruct (Rlt_dec x 1) as [H2|H2].
    + rewrite (fltb_fin_true x 1) by exact H2.
      exists x. repeat split; trivial.
    + rewrite (fltb_fin_false x 1) by lra.
      exists 1%R. repeat split; intros; lra.
  - rewrite (fltb_fin_false (-1) x) by lra.
    rewrite (fltb_fin_true (-1) 1) by lra.
    exists (-1)%R. repeat split; intros; lra.
Qed.

(** The value of [evalMonopole] on finite arguments: the normalization
    constant times the exponential of
    [-C + E dot(R,uL) + |H|reg cosTheta - F |R|^2], where [|H|reg > 0] and
    [cosTheta] has the sign of [dot(u0, H)], [H = E R - D uL]. *)
Lemma evalMonopole_form {collab : Collaborators} (self : FwdScat)
    (s k n c d e f z : real) (ax ay az bx by' bz rx ry rz : real)
    (hx hy hz : real) :
  calcValues self (Fin s)
  = mkShape (Fin c) (Fin d) (Fin e) (Fin f) (Fin z) ->
  absorptionAndNormalizationConstant self (Fin s) = Fin n ->
  MTS_FWDSCAT_DIRECTION_MIN_MU = Fin k -> (0 < k)%R ->
  hx = (rx * e + - (bx * d))%R ->
  hy = (ry * e + - (by' * d))%R ->
  hz = (rz * e + - (bz * d))%R ->
  (0 < hx * hx + hy * hy + hz * hz)%R ->
  exists l ct : real,
    evalMonopole self (mkVector (Fin ax) (Fin ay) (Fin az))
      (mkVector (Fin bx) (Fin by') (Fin bz))
      (mkVector (Fin rx) (Fin ry) (Fin rz)) (Fin s)
    = Fin (n * exp (- c + e * (rx * bx + ry * by' + rz * bz) + l * ct
                    + - (f * (rx * rx + ry * ry + rz * rz))))
    /\ (0 < l)%R
    /\ ((0 < ax * hx + ay * hy + az * hz)%R -> (0 < ct)%R)
    /\ ((ax * hx + ay * hy + az * hz < 0)%R -> (ct < 0)%R).
Proof.
  intros Hv Hn Hk Hk0 Hhx Hhy Hhz HH.
  unfold evalMonopole. rewrite Hv, Hn, Hk.
  cbn [sp_C sp_D sp_E sp_F].
  unfold vlength, lengthSquared.
  cbn [vsub vscale dot vx vy vz fmul fadd fsub fneg].
  rewrite <- Hhx, <- Hhy, <- Hhz.
  rewrite fsqrt_fin by lra.
  set (h := sqrt (hx * hx + hy * hy + hz * hz)).
  assert (Hh : (0 < h)%R) by (apply sqrt_lt_R0; exact HH).
  rewrite !fdiv_fin by lra.
  unfold vdivf. rewrite !fdiv_fin by lra.
  cbn [vsub vscale dot vx vy vz fmul fadd fsub fneg].
  unfold roundCosThetaForStability.
  assert (Hi : (0 < / h)%R) by (apply Rinv_0_lt_compat; exact Hh).
  match goal with
  | |- context [clamp (Fin ?x0) _ _] =>
      set (x := x0);
      assert (Hx : x = ((ax * hx + ay * hy + az * hz) * / h)%R)
        by (unfold x; rewrite <- ?Hhx, <- ?Hhy, <- ?Hhz; field; lra);
      destruct (clamp_sign x) as (ct & Hct & Hpos & Hneg)
  end.
  rewrite Hct.
  assert (Hkinv : (0 < 1 / k)%R) by (apply Rdiv_lt_0_compat; lra).
  assert (Hsign : ((0 < ax * hx + ay * hy + az * hz)%R -> (0 < ct)%R)
                  /\ ((ax * hx + ay * hy + az * hz < 0)%R -> (ct < 0)%R)).
  { split; intros Hs.
    - apply Hpos. rewrite Hx. apply Rmult_lt_0_compat; assumption.
    - apply Hneg. rewrite Hx. nra. }
  destruct (Fin h .> Fin (1 / k)); cbn [fmul fadd fsub fneg fexp].
  - exists (1 / k)%R, ct. split; [|split; [exact Hkinv|exact Hsign]].
    reflexivity.
  - exists h, ct. split; [|split; [exact Hh|exact Hsign]].
    reflexivity.
Qed.

(** The path of [evalDipole] through both monopoles with
    [reciprocal = true]. *)
Lemma evalDipole_body_dipole_reciprocal {collab : Collaborators}
    (self : FwdScat) (recurse : evalDipoleType)
    (n0 : Normal) (u0_external : Vector) (nL : Normal)
    (uL_external R : Vector) (length : Float)
    (rejectInternalIncoming : bool)
    (tangentMode : TangentPlaneMode) (zvMode : ZvMode)
    (r0 rL u0_virt R_virt ne : Vector) (c0 F0 cL FL : Float) :
  (visFinite nL && (dot uL_external nL .<= 0)) = false ->
  (dot u0_external n0 .>= 0) = false ->
  refract (vneg u0_external) n0 (m_eta self) = (r0, c0, F0) ->
  refract uL_external nL (m_eta self) = (rL, cL, FL) ->
  (visZero r0 || visZero (vneg rL)) = false ->
  getVirtualDipoleSource self n0 r0 nL (vneg rL) R length
    rejectInternalIncoming tangentMode zvMode = Some (u0_virt, R_virt, ne) ->
  evalDipole_body self recurse n0 u0_external nL uL_external R length
    rejectInternalIncoming true tangentMode zvMode false ERealAndVirt
  = 0.5 .* ((evalMonopole self r0 (vneg rL) R length
             .- evalMonopole self u0_virt (vneg rL) R_virt length)
            .+ recurse nL (vneg (vneg rL)) n0 (vneg r0) (vneg R) length
                 rejectInternalIncoming false tangentMode zvMode false
                 ERealAndVirt)
    .* ((1 .- F0) .* (1 .- FL)).
Proof.
  intros H1 H2 H3 H4 H5 H6. unfold evalDipole_body.
  rewrite H1, H2, H3, H4, H5, H6. reflexivity.
Qed.

(** The tangent plane of Frisvad et al. for an entry normal along +x and
    a displacement along +z: the effective normal is the x axis. *)
Lemma effectiveNormal_orthogonal_value (a b c x y z : real) (nL : Normal) :
  (0 < a)%R -> b = 0%R -> c = 0%R -> x = 0%R -> y = 0%R -> (0 < z)%R ->
  exists nx ny nz : real,
    effectiveNormal (mkVector (Fin a) (Fin b) (Fin c)) nL
      (mkVector (Fin x) (Fin y) (Fin z)) EFrisvadEtAl
    = Some (mkVector (Fin nx) (Fin ny) (Fin nz))
    /\ nx = 1%R /\ ny = 0%R /\ nz = 0%R.
Proof.
  intros Ha -> -> -> -> Hz.
  unfold effectiveNormal, normalize, vdivf, vlength, lengthSquared, cross.
  cbn [vx vy vz fmul fadd fsub fneg].
  replace (0 * 0 + 0 * 0 + z * z)%R with (z * z)%R by ring.
  replace ((0 * z + - (0 * 0)) * (0 * z + - (0 * 0))
           + (0 * 0 + - (a * z)) * (0 * 0 + - (a * z))
           + (a * 0 + - (0 * 0)) * (a * 0 + - (0 * 0)))%R
    with ((a * z) * (a * z))%R by ring.
  assert (Haz : (0 < a * z)%R) by (apply Rmult_lt_0_compat; assumption).
  rewrite !fsqrt_fin by nra.
  rewrite !sqrt_square by lra.
  rewrite !feqb_fin_false by lra.
  rewrite !fdiv_fin by lra.
  cbn [vx vy vz fmul fadd fsub fneg].
  do 3 eexists. split; [reflexivity|].
  repeat split; field; lra.
Qed.

(** The virtual source of the reversed configuration used below: the real
    source mirrored in the plane through the entry point with normal
    (1,0,0), displaced by zv = 4/3. *)
Lemma reversed_virtual_source :
  exists ux uy uz qx qy qz : real, exists ne : Vector,
    getVirtualDipoleSource (collab := sample_collaborators)
      (mkFwdScat 1 0 1 1)
      (mkVector 1 0 0) (vneg (vneg (vneg (mkVector 1 0 0))))
      (mkVector 0 0 1) (vneg (vneg (vneg (mkVector (-0.6) 0 (-0.8)))))
      (vneg (mkVector 0 0 (-1))) (Fin 1)
      false EFrisvadEtAl EClassicDiffusion
    = Some (mkVector (Fin ux) (Fin uy) (Fin uz),
            mkVector (Fin qx) (Fin qy) (Fin qz), ne)
    /\ ux = 1%R /\ uy = 0%R /\ uz = 0%R
    /\ qx = (- (4 / 3))%R /\ qy = 0%R /\ qz = 1%R.
Proof.
  unfold getVirtualDipoleSource.
  change (vneg (mkVector 0 0 (-1)))
    with (mkVector (Fin (- 0)) (Fin (- 0)) (Fin (- (-1)))).
  destruct (effectiveNormal_orthogonal_value 1 0 0 (- 0) (- 0) (- (-1))
              (mkVector 0 0 1))
    as (nx & ny & nz & Hne & Hnx & Hny & Hnz); try lra.
  rewrite Hne. cbn [visFinite vx vy vz isfinite andb negb].
  unfold virtualSourceHeight.
  cbn [sigma_s mu sigma_a m_eta fmul fadd fsub fneg
       fresnelDiffuseReflectance sample_collaborators].
  rewrite feqb_fin_false by lra.
  rewrite !fdiv_fin by lra.
  cbn [vneg vsub vscale dot vx vy vz fmul fadd fsub fneg].
  do 6 eexists. exists (mkVector (Fin nx) (Fin ny) (Fin nz)).
  split; [reflexivity|].
  subst nx ny nz. repeat split; field.
Qed.

Ltac first_square_neg :=
  match goal with
  | |- (0 < ?a * ?a + ?b * ?b + ?c * ?c)%R =>
      let Ha := fresh "Ha" in
      assert (Ha : (a < 0)%R) by lra;
      revert Ha; generalize a, b, c; intros; nra
  end.

(** C2.  Index-matched medium (eta = 1, sigma_s = 1, mu = 1, no
    absorption), tangent plane of Frisvad et al., classic diffusion
    height, real and virtual source ([ERealAndVirt]), length 1.
    Configuration A has its entry normal n0 = (0,0,1) parallel to
    R = (0,0,-1), u0 = (-0.6,0,-0.8), nL = uL = (1,0,0).  With
    [reciprocal = true], [evalDipole] returns 0 on A: no tangent plane
    can be built, and the function returns before the reversed
    configuration is evaluated.  On the time-reversed configuration
    (nL, -uL, n0, -u0, -R) the virtual source exists, the real monopole
    exceeds the virtual one, and [evalDipole] returns a positive value.
    The two values differ: the evaluation with [reciprocal = true] is
    not symmetric under time reversal. *)
Theorem evalDipole_reciprocal_asymmetric :
  evalDipole (collab := sample_collaborators) (mkFwdScat 1 0 1 1)
    (mkVector 0 0 1) (mkVector (-0.6) 0 (-0.8))
    (mkVector 1 0 0) (mkVector 1 0 0)
    (mkVector 0 0 (-1)) (Fin 1)
    false true EFrisvadEtAl EClassicDiffusion false ERealAndVirt
  = Fin 0
  /\ exists g : real,
       evalDipole (collab := sample_collaborators) (mkFwdScat 1 0 1 1)
         (mkVector 1 0 0) (vneg (mkVector 1 0 0))
         (mkVector 0 0 1) (vneg (mkVector (-0.6) 0 (-0.8)))
         (vneg (mkVector 0 0 (-1))) (Fin 1)
         false true EFrisvadEtAl EClassicDiffusion false ERealAndVirt
       = Fin g
       /\ (0 < g)%R.
Proof.
  split.
  - unfold evalDipole. apply evalDipole_body_no_normal.
    apply (effectiveNormal_parallel 0 0 1 0 0 (-1)); lra.
  - unfold evalDipole.
    destruct reversed_virtual_source
      as (ux & uy & uz & qx & qy & qz & ne & Hsrc
          & Hux & Huy & Huz & Hqx & Hqy & Hqz).
    set (self := mkFwdScat 1 0 1 1) in *.
    erewrite (evalDipole_body_dipole_reciprocal
                (collab := sample_collaborators) self)
      with (F0 := Fin 0) (FL := Fin 0)
           (r0 := vneg (vneg (vneg (mkVector 1 0 0))))
           (rL := vneg (vneg (mkVector (-0.6) 0 (-0.8))))
           (u0_virt := mkVector (Fin ux) (Fin uy) (Fin uz))
           (R_virt := mkVector (Fin qx) (Fin qy) (Fin qz)) (ne := ne).
    + rewrite (evalDipole_body_no_normal (collab := sample_collaborators)).
      2:{ cbn [vneg vx vy vz fneg].
          apply effectiveNormal_parallel; lra. }
      destruct (calcValues_pos self 1 1 1)
        as (c & d & e & f & z & Hv & Hc & Hd & He & Hf & Hz);
        try reflexivity; try lra.
      destruct (absorptionAndNormalizationConstant_pos self 1 1 0 1)
        as (n & Hn & Hn0); try reflexivity; try lra.
      unfold vneg. cbn [vx vy vz fneg].
      assert (Hk0 : (0 < 1e-4)%R) by lra.
      destruct (evalMonopole_form (collab := sample_collaborators) self
                  1 1e-4 n c d e f z
                  (- - - (1)) (- - - 0) (- - - 0)
                  (- - - (-0.6)) (- - - 0) (- - - (-0.8))
                  (- 0) (- 0) (- (-1)) _ _ _ Hv Hn eq_refl Hk0
                  eq_refl eq_refl eq_refl)
        as (lr & cr & -> & Hlr & Hcr & _);
        [first_square_neg|].
      destruct (evalMonopole_form (collab := sample_collaborators) self
                  1 1e-4 n c d e f z
                  ux uy uz
                  (- - - (-0.6)) (- - - 0) (- - - (-0.8))
                  qx qy qz _ _ _ Hv Hn eq_refl Hk0
                  eq_refl eq_refl eq_refl)
        as (lv & cv & -> & Hlv & _ & Hcv);
        [subst; first_square_neg|].
      assert (Hcr0 : (0 < cr)%R) by (apply Hcr; lra).
      assert (Hcv0 : (cv < 0)%R) by (apply Hcv; subst; lra).
      clear Hcr Hcv Hsrc. subst ux uy uz qx qy qz.
      assert (Hr : (0 < lr * cr)%R) by (apply Rmult_lt_0_compat; assumption).
      assert (Hw : (lv * cv < 0)%R) by nra.
      set (lc := (lr * cr)%R) in *. set (lw := (lv * cv)%R) in *.
      cbn [fmul fadd fsub fneg].
      eexists. split; [reflexivity|].
      match goal with
      | |- context [(n * exp ?xr + - (n * exp ?xv))%R] =>
          assert (Hexp : (exp xv < exp xr)%R)
            by (apply exp_increasing; nra);
          generalize dependent (exp xr); generalize dependent (exp xv)
      end.
      intros a b Hab. nra.
    + cbn [vneg vx vy vz fneg dot fmul fadd visFinite isfinite andb].
      unfold fleb. rewrite fltb_fin_false, feqb_fin_false by lra.
      reflexivity.
    + cbn [vneg vx vy vz fneg dot fmul fadd].
      unfold fgeb, fleb. rewrite fltb_fin_false, feqb_fin_false by lra.
      reflexivity.
    + cbn [refract sample_collaborators m_eta self]. unfold sample_refract.
      rewrite feqb_refl_fin. reflexivity.
    + cbn [refract sample_collaborators m_eta self]. unfold sample_refract.
      rewrite feqb_refl_fin. reflexivity.
    + unfold visZero, vneg. cbn [vx vy vz fneg].
      rewrite !(feqb_fin_false (- - - (1)) 0) by lra.
      rewrite !(feqb_fin_false (- - - (-0.6)) 0) by lra.
      reflexivity.
    + exact Hsrc.
Qed.

(** ** Sample/pdf consistency of the length mixture *)

Lemma fadd_comm (a b : Float) : a .+ b = b .+ a.
Proof.
  destruct a, b; cbn [fadd]; try reflexivity. f_equal. ring.
Qed.

Lemma fdiv_inf_pos (p : real) :
  (0 < p)%R -> PInf ./ Fin p = PInf /\ NInf ./ Fin p = NInf.
Proof.
  intros Hp. unfold fdiv.
  destruct (Req_EM_T p 0); [lra|]. rewrite Rsgn_pos by exact Hp.
  split; reflexivity.
Qed.

Lemma fmul_inf_pos (p : real) :
  (0 < p)%R ->
  PInf .* Fin p = PInf /\ NInf .* Fin p = NInf
  /\ Fin p .* PInf = PInf /\ Fin p .* NInf = NInf.
Proof.
  intros Hp. unfold fmul. rewrite Rsgn_pos by exact Hp.
  repeat split; reflexivity.
Qed.

Lemma fdiv_fmul_cancel (a : Float) (p : real) :
  (0 < p)%R -> (a ./ Fin p) .* Fin p = a.
Proof.
  intros Hp.
  destruct (fdiv_inf_pos p Hp) as [H1 H2].
  destruct (fmul_inf_pos p Hp) as (H3 & H4 & _ & _).
  destruct a as [x| | |].
  - rewrite fdiv_fin by lra. cbn [fmul]. f_equal. field. lra.
  - rewrite H1. exact H3.
  - rewrite H2. exact H4.
  - reflexivity.
Qed.

Lemma fmul_fdiv_cancel (a : Float) (p : real) :
  (0 < p)%R -> Fin p .* (a ./ Fin p) = a.
Proof.
  intros Hp.
  destruct (fdiv_inf_pos p Hp) as [H1 H2].
  destruct (fmul_inf_pos p Hp) as (_ & _ & H3 & H4).
  destruct a as [x| | |].
  - rewrite fdiv_fin by lra. cbn [fmul]. f_equal. field. lra.
  - rewrite H1. exact H3.
  - rewrite H2. exact H4.
  - reflexivity.
Qed.

(** The loop [do ... while (t == 0)] ends on a non-zero draw. *)
Lemma truncnorm_nonzero_spec {collab : Collaborators} (fuel : nat)
    (mean stddev : Float) (sampler : Sampler) (t : Float) (smp : Sampler) :
  truncnorm_in_range ->
  truncnorm_nonzero fuel mean stddev sampler = Some (t, smp) ->
  (t .== 0) = false /\ (t .< 0) = false.
Proof.
  intros Hrange. revert sampler.
  induction fuel as [|fuel IH]; intros sampler H; [discriminate H|].
  cbn [truncnorm_nonzero] in H.
  specialize (Hrange mean stddev sampler).
  destruct (truncnorm mean stddev 0.0 PInf sampler) as [t' smp'].
  cbn [fst] in Hrange.
  destruct (t' .== 0) eqn:Hz.
  - apply (IH smp'). exact H.
  - injection H as <- <-. split; assumption.
Qed.

(** [t -> ps = t^(-1/3) -> t = 1/ps^3] on the values the loop can
    return. *)
Lemma cube_root_roundtrip (t : Float) :
  (t .== 0) = false -> (t .< 0) = false ->
  let ps := fpow t (-1 / 3) in
  1 ./ (ps .* ps .* ps) = t.
Proof.
  intros Hz Hneg. destruct t as [x| | |]; cbn zeta.
  - assert (Hx : (0 < x)%R).
    { destruct (Rtotal_order x 0) as [H|[H|H]]; [|subst x|exact H].
      - rewrite fltb_fin_true in Hneg by exact H. discriminate Hneg.
      - rewrite feqb_refl_fin in Hz. discriminate Hz. }
    rewrite fpow_fin by exact Hx. cbn [fmul].
    assert (Hq := Rpower_pos x (-1 / 3)).
    set (q := Rpower x (-1 / 3)) in *.
    assert (Hq3 : (q * q * q = / x)%R).
    { unfold q. rewrite <- !Rpower_plus.
      replace (-1 / 3 + -1 / 3 + -1 / 3)%R with (- (1))%R by lra.
      rewrite Rpower_Ropp, Rpower_1 by exact Hx. reflexivity. }
    assert (Hqqq : (0 < q * q * q)%R) by pos_prod.
    rewrite fdiv_fin by lra. f_equal. rewrite Hq3. field. lra.
  - cbn [fpow]. destruct (Rlt_dec (-1 / 3) 0); [|lra].
    cbn [fmul]. unfold fdiv.
    destruct (Req_EM_T (0 * 0 * 0) 0) as [_|N]; [|exfalso; apply N; ring].
    rewrite Rsgn_pos by lra. reflexivity.
  - discriminate Hneg.
  - reflexivity.
Qed.

Lemma shortLimitKnownU0_finish_roundtrip {collab : Collaborators}
    (fuel : nat) (p : real) (mean stddev s0 : Float) (smp : Sampler)
    (s pdf : Float) (sampler' : option Sampler) :
  (0 < p)%R -> truncnorm_in_range ->
  shortLimitKnownU0_finish fuel (Fin p) mean stddev s0 (Some smp)
  = Some (s, pdf, sampler') ->
  shortLimitKnownU0_finish 0 (Fin p) mean stddev s None
  = Some (s, pdf, None).
Proof.
  intros Hp Hrange H. unfold shortLimitKnownU0_finish in *.
  destruct (truncnorm_nonzero fuel mean stddev smp) as [[t smp1]|] eqn:Ht;
    [|discriminate H].
  destruct (truncnorm_nonzero_spec fuel mean stddev smp t smp1 Hrange Ht)
    as [Hz Hneg].
  injection H as <- <- <-.
  rewrite fmul_fdiv_cancel by exact Hp.
  rewrite (cube_root_roundtrip t Hz Hneg). reflexivity.
Qed.

Lemma power_roundtrip (t : Float) :
  (t .== 0) = false -> (t .< 0) = false ->
  fpow (fpow t (-2 / 5)) (-5 / 2) = t.
Proof.
  intros Hz Hneg. destruct t as [x| | |].
  - assert (Hx : (0 < x)%R).
    { destruct (Rtotal_order x 0) as [H|[H|H]]; [|subst x|exact H].
      - rewrite fltb_fin_true in Hneg by exact H. discriminate Hneg.
      - rewrite feqb_refl_fin in Hz. discriminate Hz. }
    rewrite fpow_fin by exact Hx.
    rewrite fpow_fin by apply Rpower_pos.
    f_equal. rewrite Rpower_mult.
    replace (-2 / 5 * (-5 / 2))%R with 1%R by lra.
    apply Rpower_1. exact Hx.
  - cbn [fpow]. destruct (Rlt_dec (-2 / 5) 0); [|lra].
    cbn [fpow]. rewrite Rsgn_zero.
    destruct (Rlt_dec (-5 / 2) 0); [reflexivity|lra].
  - discriminate Hneg.
  - reflexivity.
Qed.

Lemma shortLimitMargOverU0_finish_roundtrip {collab : Collaborators}
    (fuel : nat) (p : real) (w t_mean t_stddev s0 : Float) (smp : Sampler)
    (s pdf : Float) (sampler' : option Sampler) :
  (0 < p)%R -> truncnorm_in_range ->
  shortLimitMargOverU0_finish fuel (Fin p) w t_mean t_stddev s0 (Some smp)
  = Some (s, pdf, sampler') ->
  shortLimitMargOverU0_finish 0 (Fin p) w t_mean t_stddev s None
  = Some (s, pdf, None).
Proof.
  intros Hp Hrange H. unfold shortLimitMargOverU0_finish in *.
  destruct (if w .== 1 then (true, smp)
            else let '(u, smp1) := next1D smp in (u .< w, smp1))
    as [useUniform smp1].
  destruct useUniform.
  - destruct (next1D smp1) as [u smp2].
    injection H as <- <- <-.
    rewrite fdiv_fmul_cancel by exact Hp. reflexivity.
  - destruct (truncnorm_nonzero fuel t_mean t_stddev smp1)
      as [[t smp2]|] eqn:Ht; [|discriminate H].
    destruct (truncnorm_nonzero_spec fuel t_mean t_stddev smp1 t smp2
                Hrange Ht) as [Hz Hneg].
    injection H as <- <- <-.
    rewrite fdiv_fmul_cancel by exact Hp.
    rewrite (power_roundtrip t Hz Hneg). reflexivity.
Qed.

Lemma implLengthShortLimitKnownU0_roundtrip {collab : Collaborators}
    (self : FwdScat) (ss m : real) (fuel : nat) (R u0 uL : Vector)
    (s0 : Float) (smp : Sampler) (s pdf : Float)
    (sampler' : option Sampler) :
  sigma_s self = Fin ss -> mu self = Fin m -> (0 < ss)%R -> (0 < m)%R ->
  truncnorm_in_range ->
  implLengthShortLimitKnownU0 self fuel R u0 uL s0 (Some smp)
  = Some (s, pdf, sampler') ->
  implLengthShortLimitKnownU0 self 0 R u0 uL s None = Some (s, pdf, None).
Proof.
  intros Hs Hm Hss0 Hm0 Hrange H.
  unfold implLengthShortLimitKnownU0 in *. rewrite Hs, Hm in *.
  cbn [fmul] in *.
  assert (Hp : (0 < 0.5 * ss * m)%R) by nra.
  destruct (vlength R .* Fin (0.5 * ss * m) .== 0).
  - injection H as <- <- <-. reflexivity.
  - cbv zeta in *.
    eapply shortLimitKnownU0_finish_roundtrip; eassumption.
Qed.

Lemma implLengthShortLimitMargOverU0_internal_roundtrip
    {collab : Collaborators}
    (self : FwdScat) (ss m : real) (fuel : nat) (R uL : Vector)
    (s0 : Float) (smp : Sampler) (safetyFac s pdf : Float)
    (sampler' : option Sampler) :
  sigma_s self = Fin ss -> mu self = Fin m -> (0 < ss)%R -> (0 < m)%R ->
  truncnorm_in_range ->
  implLengthShortLimitMargOverU0_internal self fuel R uL s0 (Some smp)
    safetyFac = Some (s, pdf, sampler') ->
  implLengthShortLimitMargOverU0_internal self 0 R uL s None safetyFac
  = Some (s, pdf, None).
Proof.
  intros Hs Hm Hss0 Hm0 Hrange H.
  unfold implLengthShortLimitMargOverU0_internal in *. rewrite Hs, Hm in *.
  cbn [fmul] in *.
  assert (Hp : (0 < 0.5 * ss * m)%R) by nra.
  destruct (vlength R .* Fin (0.5 * ss * m) .== 0).
  - injection H as <- <- <-. reflexivity.
  - cbv zeta in *.
    destruct (shortLimitMargOverU0_fit _ _ safetyFac) as [[w tm] ts].
    eapply shortLimitMargOverU0_finish_roundtrip; eassumption.
Qed.

(** With a null sampler the bound on the draws is not used. *)
Lemma implLengthShortLimit_pdf_fuel {collab : Collaborators}
    (self : FwdScat) (fuel : nat) (R : Vector) (u0 : option Vector)
    (uL : Vector) (s : Float) :
  implLengthShortLimit self fuel R u0 uL s None
  = implLengthShortLimit self 0 R u0 uL s None.
Proof. reflexivity. Qed.

(** With a null sampler a result is always produced. *)
Lemma implLengthShortLimit_pdf_some {collab : Collaborators}
    (self : FwdScat) (fuel : nat) (R : Vector) (u0 : option Vector)
    (uL : Vector) (s : Float) :
  exists pdf : Float,
    implLengthShortLimit self fuel R u0 uL s None = Some (s, pdf, None).
Proof.
  assert (Hint : forall sf,
             exists pdf,
               implLengthShortLimitMargOverU0_internal self fuel R uL s None sf
               = Some (s, pdf, None)).
  { intros sf. unfold implLengthShortLimitMargOverU0_internal.
    cbv zeta. destruct (_ .== 0); [eexists; reflexivity|].
    destruct (shortLimitMargOverU0_fit _ _ sf) as [[w tm] ts].
    eexists. reflexivity. }
  unfold implLengthShortLimit. destruct u0 as [u0|].
  - unfold implLengthShortLimitKnownU0. cbv zeta.
    destruct (_ .== 0); eexists; reflexivity.
  - unfold implLengthShortLimitMargOverU0. cbv zeta.
    destruct (Hint 1.0) as [p1 ->]. destruct (Hint 3) as [p2 ->].
    eexists. reflexivity.
Qed.

Lemma implLengthShortLimit_roundtrip {collab : Collaborators}
    (self : FwdScat) (ss m : real) (fuel : nat) (R : Vector)
    (u0 : option Vector) (uL : Vector)
    (s0 : Float) (smp : Sampler) (s pdf : Float)
    (sampler' : option Sampler) :
  sigma_s self = Fin ss -> mu self = Fin m -> (0 < ss)%R -> (0 < m)%R ->
  truncnorm_in_range ->
  implLengthShortLimit self fuel R u0 uL s0 (Some smp)
  = Some (s, pdf, sampler') ->
  exists s', implLengthShortLimit self 0 R u0 uL s None = Some (s', pdf, None).
Proof.
  intros Hs Hm Hss0 Hm0 Hrange H.
  unfold implLengthShortLimit in *. destruct u0 as [u0|].
  - exists s.
    eapply implLengthShortLimitKnownU0_roundtrip; eassumption.
  - unfold implLengthShortLimitMargOverU0 in *. cbv zeta in *.
    destruct (next1D smp) as [u smp1].
    destruct (u .> 0.3).
    + destruct (implLengthShortLimitMargOverU0_internal self fuel R uL s0
                  (Some smp1) 3) as [[[s1 pdfSafety] o1]|] eqn:H1;
        [|discriminate H].
      destruct (implLengthShortLimitMargOverU0_internal self fuel R uL s1
                  None 1.0) as [[[s2 pdfOrig] o2]|] eqn:H2;
        [|discriminate H].
      injection H as <- <- <-.
      change (implLengthShortLimitMargOverU0_internal self fuel R uL s1
                None 1.0)
        with (implLengthShortLimitMargOverU0_internal self 0 R uL s1
                None 1.0) in H2.
      rewrite H2.
      rewrite (implLengthShortLimitMargOverU0_internal_roundtrip
                 self ss m fuel R uL s0 smp1 3 s1 pdfSafety o1
                 Hs Hm Hss0 Hm0 Hrange H1).
      exists s1. reflexivity.
    + destruct (implLengthShortLimitMargOverU0_internal self fuel R uL s0
                  (Some smp1) 1.0) as [[[s1 pdfOrig] o1]|] eqn:H1;
        [|discriminate H].
      destruct (implLengthShortLimitMargOverU0_internal self fuel R uL s1
                  None 3) as [[[s2 pdfSafety] o2]|] eqn:H2;
        [|discriminate H].
      injection H as <- <- <-.
      change (implLengthShortLimitMargOverU0_internal self fuel R uL s1
                None 3)
        with (implLengthShortLimitMargOverU0_internal self 0 R uL s1
                None 3) in H2.
      rewrite H2.
      rewrite (implLengthShortLimitMargOverU0_internal_roundtrip
                 self ss m fuel R uL s0 smp1 1.0 s1 pdfOrig o1
                 Hs Hm Hss0 Hm0 Hrange H1).
      exists s1. reflexivity.
Qed.

(** What [sampleLengthShortLimit] returns as pdf is what
    [pdfLengthShortLimit] computes at the sampled length. *)
Lemma sampleLengthShortLimit_pdf {collab : Collaborators}
    (self : FwdScat) (ss m : real) (fuel : nat) (R : Vector)
    (u0 : option Vector) (uL : Vector)
    (s0 : Float) (smp : Sampler) (pdf s : Float) (smp' : Sampler) :
  sigma_s self = Fin ss -> mu self = Fin m -> (0 < ss)%R -> (0 < m)%R ->
  truncnorm_in_range ->
  sampleLengthShortLimit self fuel R u0 uL s0 smp = Some (pdf, s, smp') ->
  pdf = pdfLengthShortLimit self R u0 uL s.
Proof.
  intros Hs Hm Hss0 Hm0 Hrange H.
  unfold sampleLengthShortLimit in H.
  destruct (implLengthShortLimit self fuel R u0 uL s0 (Some smp))
    as [[[s1 pdf1] o]|] eqn:Himpl; [|discriminate H].
  destruct (implLengthShortLimit_roundtrip self ss m fuel R u0 uL s0 smp
              s1 pdf1 o Hs Hm Hss0 Hm0 Hrange Himpl) as [s' Hpdf].
  unfold pdfLengthShortLimit.
  destruct o; injection H as <- <- <-; rewrite Hpdf; reflexivity.
Qed.

Lemma feqb_zero_lit : (Fin 0.0 .== 0) = true.
Proof. apply feqb_fin. lra. Qed.

(** What [sampleLengthLongLimit] returns is 0 or what
    [pdfLengthLongLimit] computes at the sampled length. *)
Lemma sampleLengthLongLimit_pdf {collab : Collaborators}
    (self : FwdScat) (fuel : nat) (R uL : Vector)
    (s0 : Float) (smp : Sampler) (pdf s : Float) (smp' : Sampler) :
  sampleLengthLongLimit self fuel R uL s0 smp = Some (pdf, s, smp') ->
  (pdf .== 0) = true \/ pdf = pdfLengthLongLimit self R uL s.
Proof.
  unfold sampleLengthLongLimit, pdfLengthLongLimit.
  fold (longLimit_beta self R uL).
  destruct (0.5 .* sigma_s self .* mu self .== 0) eqn:Hp.
  { intros H. injection H as <- <- <-. left. apply feqb_refl_fin. }
  destruct (longLimit_beta self R uL .<= 0) eqn:Hb.
  { unfold sampleLengthAbsorption, pdfLengthAbsorption.
    destruct (sigma_a self .== 0) eqn:Ha.
    - intros H. injection H as <- <- <-. left. apply feqb_zero_lit.
    - destruct (next1D smp) as [u smp1].
      intros H. injection H as <- <- <-. right. reflexivity. }
  destruct (next1D smp) as [u smp1].
  unfold longLimit_invert.
  set (target := longLimit_target self R uL u).
  destruct (negb (isfinite (target 0)) || (target 0 .> 0)).
  { intros H. injection H as <- <- <-. left. apply feqb_refl_fin. }
  destruct (negb (isfinite (target (1000 ./ longLimit_A self)))).
  { intros H. injection H as <- <- <-. left. apply feqb_refl_fin. }
  destruct (longLimit_expand fuel target (longLimit_A self)
              (1000 ./ longLimit_A self)) as [hi|]; [|discriminate].
  destruct (negb (isfinite (target hi)) || (target hi .< 0)).
  { intros H. injection H as <- <- <-. left. apply feqb_refl_fin. }
  destruct (toms748_solve target 0 hi 15 1000) as [[first second]|].
  - destruct (negb (isfinite (0.5 .* (first .+ second)
                             ./ (0.5 .* sigma_s self .* mu self)))).
    + intros H. injection H as <- <- <-. left. apply feqb_refl_fin.
    + intros H. injection H as <- <- <-. right.
      unfold pdfLengthLongLimit. fold (longLimit_beta self R uL).
      rewrite Hp, Hb. reflexivity.
  - intros H. injection H as <- <- <-. left. apply feqb_refl_fin.
Qed.

Lemma lengthSample_weights :
  (lengthSample_w1 .== 0) = false
  /\ (lengthSample_w2 .== 0) = false
  /\ (lengthSample_w3 .== 0) = true
  /\ (lengthSample_w2 .!= 0) = true.
Proof.
  unfold lengthSample_w1, lengthSample_w2, lengthSample_w3, fneb.
  rewrite !(feqb_fin_false 0.5 0) by lra. rewrite feqb_zero_lit.
  repeat split; reflexivity.
Qed.

(** The third arm [u < w1 + w2 + w3] is not reached after
    [u < w1 + w2] has failed, since [w3 = 0]. *)
Lemma lengthSample_third_arm (u : Float) :
  (u .< lengthSample_w1 .+ lengthSample_w2) = false ->
  (u .< lengthSample_w1 .+ lengthSample_w2 .+ lengthSample_w3) = false.
Proof.
  unfold lengthSample_w1, lengthSample_w2, lengthSample_w3.
  cbn [fadd]. replace (0.5 + 0.5 + 0.0)%R with (0.5 + 0.5)%R by lra.
  trivial.
Qed.

(** The mixture w1 p1 + w2 p2 + w3 p3 formed by [sampleLengthDipole]
    while sampling, with the LongLimit pdf averaged over [R] and
    [R_virt], is the expression that [pdfLengthDipole] forms at the
    sampled [s]: the two sides are the same value of [Float], which for a
    NaN says nothing about the comparison [==] of the code.  Arithmetic
    on finite values is exact, and the truncated normal stays in its
    range [0, +inf]. *)
Lemma sampleLengthDipole_weight_mixture {collab : Collaborators}
    (self : FwdScat) (ss m : real) (fuel : nat)
    (uL nL R : Vector) (u0 : option Vector) (n0 : Vector)
    (tangentMode : TangentPlaneMode) (s0 : Float) (sampler : Sampler)
    (w s : Float) (sampler' : Sampler) :
  sigma_s self = Fin ss -> mu self = Fin m -> (0 < ss)%R -> (0 < m)%R ->
  truncnorm_in_range ->
  sampleLengthDipole self fuel uL nL R u0 n0 tangentMode s0 sampler
  = Some (w, s, sampler') ->
  (w .== 0) = false ->
  w = 1.0 ./ pdfLengthDipole self uL nL R u0 n0 tangentMode s.
Proof.
  intros Hs Hm Hss0 Hm0 Hrange Hcall Hw.
  destruct lengthSample_weights as (Hw1 & Hw2 & Hw3 & Hw2').
  assert (Hnone0 : (Fin (-1) .== 0) = false) by (apply feqb_fin_false; lra).
  assert (Hnone : (Fin (-1) .== Fin (-1)) = true) by apply feqb_refl_fin.
  unfold sampleLengthDipole, pdfLengthDipole in *.
  destruct (getTentativeIndexMatchedVirtualSourceDisp self n0 nL uL R NaN
              tangentMode false) as [[[R_virt ne] o]|].
  2:{ injection Hcall as <- <- <-. rewrite feqb_zero_lit in Hw.
      discriminate Hw. }
  destruct (next1D sampler) as [u1 smp1].
  destruct (next1D smp1) as [u2 smp2].
  rewrite Hw1, Hw2, Hw3.
  set (PLL := pdfLengthLongLimit self) in *.
  assert (Hmix : forall Re Ro : Vector,
             (Re, Ro) = (if u1 .< 0.5 then (R, R_virt) else (R_virt, R)) ->
             PLL Re uL s .+ PLL Ro uL s = PLL R uL s .+ PLL R_virt uL s).
  { intros Re Ro HR. destruct (u1 .< 0.5); injection HR as -> ->;
      [reflexivity|apply fadd_comm]. }
  destruct (if u1 .< 0.5 then (R, R_virt) else (R_virt, R))
    as [R_effective R_other] eqn:HReff.
  specialize (Hmix R_effective R_other eq_refl).
  cbv zeta in Hcall.
  destruct (u2 .< lengthSample_w1).
  - (* ShortLimit *)
    destruct (sampleLengthShortLimit self fuel R u0 uL s0 smp2)
      as [[[p1 s1] smp3]|] eqn:Hsl; [|discriminate Hcall].
    pose proof (sampleLengthShortLimit_pdf self ss m fuel R u0 uL s0 smp2
                  p1 s1 smp3 Hs Hm Hss0 Hm0 Hrange Hsl) as Hp1.
    destruct (p1 .== 0) eqn:Hz.
    + injection Hcall as <- <- <-. rewrite feqb_zero_lit in Hw.
      discriminate Hw.
    + rewrite Hnone, Hw1, Hw2, Hw3, Hw2' in Hcall.
      injection Hcall as <- <- <-.
      rewrite Hmix.
      destruct (p1 .== -1); rewrite <- ?Hp1; reflexivity.
  - destruct (u2 .< lengthSample_w1 .+ lengthSample_w2) eqn:Hu2.
    + (* LongLimit *)
      destruct (sampleLengthLongLimit self fuel R_effective uL s0 smp2)
        as [[[p2 s1] smp3]|] eqn:Hll; [|discriminate Hcall].
      destruct (sampleLengthLongLimit_pdf self fuel R_effective uL s0 smp2
                  p2 s1 smp3 Hll) as [Hz|Hp2].
      * rewrite Hz in Hcall. injection Hcall as <- <- <-.
        rewrite feqb_zero_lit in Hw. discriminate Hw.
      * destruct (p2 .== 0) eqn:Hz.
        -- injection Hcall as <- <- <-. rewrite feqb_zero_lit in Hw.
           discriminate Hw.
        -- rewrite Hnone, Hw1, Hw2, Hw3, Hw2' in Hcall.
           injection Hcall as <- <- <-.
           fold PLL in Hp2. rewrite <- Hmix.
           destruct (p2 .== -1); rewrite <- ?Hp2; reflexivity.
    + rewrite (lengthSample_third_arm u2 Hu2) in Hcall.
      rewrite Hnone, Hw1, Hw2, Hw3, Hw2' in Hcall.
      injection Hcall as <- <- <-.
      rewrite Hmix. reflexivity.
Qed.

(** ** A concrete run of [sampleLengthDipole] *)

Lemma sample_truncnorm_in_range :
  truncnorm_in_range (collab := sample_collaborators).
Proof.
  intros mean stddev smp. cbn [truncnorm sample_collaborators].
  unfold sample_truncnorm. destruct (next1D smp) as [u smp1]. cbn [fst].
  unfold clamp, std_min, std_max.
  destruct (mean .+ stddev .* u) as [x| | |].
  - destruct (Rlt_dec 0.0 x) as [H|H].
    + rewrite (fltb_fin_true 0.0 x) by exact H. cbn [fltb].
      destruct (Rlt_dec x 0); [lra|reflexivity].
    + rewrite (fltb_fin_false 0.0 x) by lra. cbn [fltb].
      destruct (Rlt_dec 0.0 0); [lra|reflexivity].
  - reflexivity.
  - cbn [fltb]. destruct (Rlt_dec 0.0 0); [lra|reflexivity].
  - cbn [fltb]. destruct (Rlt_dec 0.0 0); [lra|reflexivity].
Qed.

Lemma pdfLengthLongLimit_finite {collab : Collaborators} (self : FwdScat)
    (ss m sa s : real) (R uL : Vector) :
  sigma_s self = Fin ss -> mu self = Fin m -> sigma_a self = Fin sa ->
  exists b : real, pdfLengthLongLimit self R uL (Fin s) = Fin b.
Proof.
  intros Hs Hm Ha. unfold pdfLengthLongLimit, pdfLengthAbsorption.
  rewrite Hs, Hm, Ha. cbn [fmul].
  destruct (Fin (0.5 * ss * m) .== 0); [eexists; reflexivity|].
  destruct (_ .<= 0).
  - destruct (Fin sa .== 0); [eexists; reflexivity|].
    cbn [fneg fmul fexp]. eexists. reflexivity.
  - match goal with
    | |- context [isfinite ?x] => destruct x; cbn [isfinite negb fmul]
    end; eexists; reflexivity.
Qed.

Lemma inverse_nonzero (y : real) : (1.0 ./ Fin y .== 0) = false.
Proof.
  unfold fdiv. destruct (Req_EM_T y 0) as [H|H].
  - rewrite Rsgn_pos by lra. reflexivity.
  - apply feqb_fin_false. intros E.
    apply (Rmult_eq_compat_r y) in E.
    unfold Rdiv in E. rewrite Rmult_assoc, Rinv_l in E by exact H. lra.
Qed.

Lemma pdfLengthShortLimit_zero {collab : Collaborators} (self : FwdScat)
    (ss m : real) (R uL : Vector) (s : Float) :
  sigma_s self = Fin ss -> mu self = Fin m -> vlength R = Fin 0 ->
  pdfLengthShortLimit self R None uL s = Fin 0.
Proof.
  intros Hs Hm HR.
  unfold pdfLengthShortLimit, implLengthShortLimit,
    implLengthShortLimitMargOverU0.
  cbv zeta.
  rewrite !(shortLimitMargOverU0_internal_zero self ss m) by assumption.
  apply mix_zero_pdf.
Qed.


(** * Further properties of the code *)

(** ** Parameter core *)

(** X1.  [absorptionAndNormalizationConstant], in exact real arithmetic
    (the operations of [Float] on numbers: no rounding, no overflow and
    no underflow of [exp] and [pow]): for a medium with [mu] in (0,1],
    [sigma_s > 0] and a finite [sigma_a], and a finite length [s > 0],
    the result is a finite, strictly positive number, in the small-[ps]
    arm ([ps < 0.006]) as in the other one.  Nothing is said of the
    binary64 value, which underflows to 0 or overflows for extreme
    [sigma_a s] and [ps]. *)
Theorem absorptionAndNormalizationConstant_positive (self : FwdScat)
    (m ss sa s : real) :
  mu self = Fin m -> sigma_s self = Fin ss -> sigma_a self = Fin sa ->
  (0 < m <= 1)%R -> (0 < ss)%R -> (0 < s)%R ->
  exists n : real,
    absorptionAndNormalizationConstant self (Fin s) = Fin n /\ (0 < n)%R.
Proof.
  intros Hmu Hss Hsa Hm Hs0 Hs.
  exact (absorptionAndNormalizationConstant_pos self m ss sa s
           Hmu Hss Hsa Hm Hs0 Hs).
Qed.

Lemma absorptionAndNormalizationConstant_positive_witness :
  exists n : real,
    absorptionAndNormalizationConstant (mkFwdScat 1 0.5 1 1) (Fin 0.001)
    = Fin n /\ (0 < n)%R.
Proof.
  apply (absorptionAndNormalizationConstant_positive
           (mkFwdScat 1 0.5 1 1) 1 1 0.5 0.001);
    try reflexivity; lra.
Defined.

(** The closed forms of the exact arm satisfy the relation documented for
    [Z]: [6t/(1-t^2) = E^2/F - 2D]. *)
Lemma exact_Z_identity (x : real) :
  (0 < x)%R ->
  exact_Z x = (exact_E x * exact_E x / exact_F x - 2 * exact_D x)%R.
Proof.
  intros Hx. unfold exact_Z, exact_E, exact_F, exact_D. cbv zeta.
  pose proof (exp_m2_lt_1 x Hx) as Ht.
  pose proof (exact_den_pos x Hx) as Hq.
  pose proof (exact_D_den_pos x Hx) as Hd.
  pose proof (exact_Z_den_pos x Hx) as Hz.
  set (t := exp (-2 * x)) in *. clearbody t.
  replace 1.50%R with (3 / 2)%R by lra.
  replace 0.75%R with (3 / 4)%R by lra.
  field. repeat split; lra.
Qed.

(** In the asymptotic arm [E^2/F - 2D] vanishes: [t] is set to 0
    everywhere but in [Z]. *)
Lemma asym_Z_defect (x : real) :
  (1 < x)%R ->
  (asym_E x * asym_E x / asym_F x - 2 * asym_D x = 0)%R.
Proof.
  intros Hx. unfold asym_E, asym_F, asym_D.
  replace 1.50%R with (3 / 2)%R by lra.
  replace 0.75%R with (3 / 4)%R by lra.
  replace 1.0%R with 1%R by lra.
  field. lra.
Qed.

(** X2.  [calcValues], in exact real arithmetic (no rounding, no
    underflow of [exp]): the relation [Z = E^2/F - 2 D] stated in the
    comment of the function holds between the returned values whenever
    [ps = 0.5 mu sigma_s s <= 9] (series arm and exact arm); for
    [ps > 9] the returned [E], [F], [D] give [E^2/F - 2 D = 0], while the
    returned [Z] is strictly positive.  In binary64 the relation holds
    up to rounding only and [Z] underflows to 0 for large [ps]. *)
Theorem calcValues_Z_relation (self : FwdScat) (m ss s : real) :
  mu self = Fin m -> sigma_s self = Fin ss ->
  (0 < m <= 1)%R -> (0 < ss)%R -> (0 < s)%R ->
  exists c d e f z : real,
    calcValues self (Fin s) = mkShape (Fin c) (Fin d) (Fin e) (Fin f) (Fin z)
    /\ ((0.5 * m * ss * s <= 9)%R -> z = (e * e / f - 2 * d)%R)
    /\ ((9 < 0.5 * m * ss * s)%R ->
        (e * e / f - 2 * d)%R = 0%R /\ (0 < z)%R).
Proof.
  intros Hmu Hss Hm Hs0 Hs.
  unfold calcValues, calcValues_arm. rewrite Hmu, Hss. cbn [fmul].
  set (p := (0.5 * m * ss)%R).
  assert (Hp : (0 < p)%R) by (unfold p; nra).
  assert (Hps : (0 < p * s)%R) by nra.
  assert (Hpp : (0 < p * p)%R) by nra.
  unfold calcValues_select, calcValues_finish.
  destruct (Rlt_dec (p * s) 0.3) as [Hser|Hser].
  - rewrite fltb_fin_true by exact Hser.
    pose proof (series_F_pos (p * s)) as HF.
    pose proof (series_E_pos (p * s)) as HE.
    rewrite calcValues_series_fin by lra.
    cbn [dl_D dl_E dl_F dl_Z fmul]. rewrite fdiv_fin by lra.
    do 5 eexists. split; [reflexivity|]. split.
    + intros _. unfold series_Z. field. lra.
    + intros H. lra.
  - rewrite fltb_fin_false by lra. unfold fgtb.
    destruct (Rlt_dec 9 (p * s)) as [Ha|Ha].
    + rewrite fltb_fin_true by exact Ha.
      rewrite calcValues_asymptotic_fin by lra.
      cbn [dl_D dl_E dl_F dl_Z fmul]. rewrite fdiv_fin by lra.
      do 5 eexists. split; [reflexivity|]. split.
      * intros H. lra.
      * intros _. split; [|apply exact_Z_pos; lra].
        pose proof (asym_Z_defect (p * s)) as Hdef.
        pose proof (asym_E_pos (p * s)) as HF.
        unfold asym_F in *. unfold asym_E in HF.
        rewrite <- Hdef by lra. unfold asym_E, asym_F. field. lra.
    + rewrite fltb_fin_false by lra.
      rewrite calcValues_exact_fin by lra.
      cbn [dl_D dl_E dl_F dl_Z fmul]. rewrite fdiv_fin by lra.
      do 5 eexists. split; [reflexivity|]. split.
      * intros _. rewrite exact_Z_identity by lra.
        pose proof (exact_F_pos (p * s)) as HF. field. lra.
      * intros H. lra.
Qed.

Lemma calcValues_Z_relation_witness :
  exists c d e f z : real,
    calcValues (mkFwdScat 1 0 1 1) (Fin 2)
    = mkShape (Fin c) (Fin d) (Fin e) (Fin f) (Fin z)
    /\ ((0.5 * 1 * 1 * 2 <= 9)%R -> z = (e * e / f - 2 * d)%R)
    /\ ((9 < 0.5 * 1 * 1 * 2)%R ->
        (e * e / f - 2 * d)%R = 0%R /\ (0 < z)%R).
Proof.
  apply (calcValues_Z_relation (mkFwdScat 1 0 1 1) 1 1 2);
    try reflexivity; lra.
Defined.

(** X3.  In exact real arithmetic (no rounding), [calcValues] depends
    on the medium and the length only through
    [p = 0.5 mu sigma_s] and [ps]: multiplying [sigma_s] by [k > 0] and
    dividing the length by [k] leaves [C], [D] and [Z] unchanged,
    multiplies [E] by [k] and [F] by [k^2] (the values are dimensionful
    in [E] and [F] only). *)
Theorem calcValues_rescale (m ss s k : real) (sa sa' eta eta' : Float) :
  (0 < m <= 1)%R -> (0 < ss)%R -> (0 < s)%R -> (0 < k)%R ->
  exists c d e f z : real,
    calcValues (mkFwdScat (Fin ss) sa (Fin m) eta) (Fin s)
    = mkShape (Fin c) (Fin d) (Fin e) (Fin f) (Fin z)
    /\ calcValues (mkFwdScat (Fin (k * ss)) sa' (Fin m) eta') (Fin (s / k))
       = mkShape (Fin c) (Fin d) (Fin (k * e)) (Fin (k * k * f)) (Fin z).
Proof.
  intros Hm Hs0 Hs Hk.
  unfold calcValues, calcValues_arm. cbn [mu sigma_s fmul].
  set (p := (0.5 * m * ss)%R).
  assert (Hp : (0 < p)%R) by (unfold p; nra).
  assert (Hps : (0 < p * s)%R) by nra.
  replace (0.5 * m * (k * ss) * (s / k))%R with (p * s)%R
    by (unfold p; field; lra).
  destruct (calcValues_arm_pos (p * s) Hps)
    as (d & e & f & z & Harm & _).
  rewrite Harm. unfold calcValues_finish. cbn [dl_D dl_E dl_F dl_Z fmul].
  rewrite fdiv_fin by lra.
  exists (3 / (p * s))%R, d, (e * p)%R, (f * (p * p))%R, z.
  split; [reflexivity|].
  f_equal; f_equal; unfold p; ring.
Qed.

Lemma calcValues_rescale_witness :
  exists c d e f z : real,
    calcValues (mkFwdScat (Fin 1) 0 (Fin 1) 1) (Fin 4)
    = mkShape (Fin c) (Fin d) (Fin e) (Fin f) (Fin z)
    /\ calcValues (mkFwdScat (Fin (2 * 1)) 0 (Fin 1) 1) (Fin (4 / 2))
       = mkShape (Fin c) (Fin d) (Fin (2 * e)) (Fin (2 * 2 * f)) (Fin z).
Proof.
  apply (calcValues_rescale 1 1 4 2 0 0 1 1); lra.
Defined.

(** ** Virtual source constructor *)

Lemma feqb_zero_inv (x : real) : (Fin x .== 0) = false -> x <> 0%R.
Proof.
  intros H Hx. subst x. rewrite feqb_refl_fin in H. discriminate H.
Qed.

Lemma sqrt_sqr_eq (q : real) : (0 <= q)%R -> (sqrt q * sqrt q = q)%R.
Proof. intros H. apply sqrt_sqrt. exact H. Qed.

Lemma sumsq_nonneg (u v w : real) : (0 <= u * u + v * v + w * w)%R.
Proof. nra. Qed.

Lemma vlength_fin (x y z : real) :
  vlength (mkVector (Fin x) (Fin y) (Fin z))
  = Fin (sqrt (x * x + y * y + z * z)).
Proof.
  unfold vlength, lengthSquared. cbn [vx vy vz fmul fadd].
  apply fsqrt_fin. nra.
Qed.

Lemma cross_fin (a b c x y z : real) :
  cross (mkVector (Fin a) (Fin b) (Fin c)) (mkVector (Fin x) (Fin y) (Fin z))
  = mkVector (Fin (b * z + - (c * y))) (Fin (c * x + - (a * z)))
             (Fin (a * y + - (b * x))).
Proof. reflexivity. Qed.

Lemma vdivf_fin (x y z l : real) :
  l <> 0%R ->
  vdivf (mkVector (Fin x) (Fin y) (Fin z)) (Fin l)
  = mkVector (Fin (x * (1 / l))) (Fin (y * (1 / l))) (Fin (z * (1 / l))).
Proof.
  intros Hl. unfold vdivf. rewrite fdiv_fin by exact Hl. reflexivity.
Qed.

(** X4.  The tangent plane of Frisvad et al. ([tangentMode =
    EFrisvadEtAl]): for a finite normal [n0] and a finite displacement
    [R] of non-zero length, whenever [getVirtualDipoleSource] obtains an
    effective normal [cross(normalize(R), normalize(cross(n0, R)))], it
    has unit length, is orthogonal to [R], and lies on the side of [n0]
    ([dot(n0_effective, n0) > 0], which the function asserts up to
    [Epsilon]). *)
Theorem effectiveNormal_frisvad_geometry (n0 nL R ne : Vector) :
  visFinite n0 = true -> visFinite R = true ->
  (vlength R .== 0) = false ->
  effectiveNormal n0 nL R EFrisvadEtAl = Some ne ->
  exists l dR d0 : real,
    lengthSquared ne = Fin l /\ l = 1%R
    /\ dot ne R = Fin dR /\ dR = 0%R
    /\ dot ne n0 = Fin d0 /\ (0 < d0)%R.
Proof.
  intros Hn0 HR HlR Hne.
  destruct (visFinite_inv n0 Hn0) as (a & b & c & ->).
  destruct (visFinite_inv R HR) as (x & y & z & ->).
  unfold effectiveNormal in Hne. rewrite HlR in Hne.
  rewrite cross_fin in Hne. unfold normalize in Hne.
  rewrite !vlength_fin in *.
  destruct (Fin (sqrt _) .== 0) eqn:Hc in Hne; [discriminate Hne|].
  apply feqb_zero_inv in HlR. apply feqb_zero_inv in Hc.
  rewrite !vdivf_fin in Hne by assumption.
  rewrite cross_fin in Hne. injection Hne as <-.
  match type of HlR with sqrt ?q <> _ =>
    assert (HL : (sqrt q * sqrt q = q)%R) by (apply sqrt_sqr_eq; apply sumsq_nonneg);
    assert (HL0 : (0 <= sqrt q)%R) by apply sqrt_pos;
    set (L := sqrt q) in *
  end.
  match type of Hc with sqrt ?q <> _ =>
    assert (HM : (sqrt q * sqrt q = q)%R) by (apply sqrt_sqr_eq; apply sumsq_nonneg);
    assert (HM0 : (0 <= sqrt q)%R) by apply sqrt_pos;
    set (M := sqrt q) in *
  end.
  clearbody L M.
  unfold lengthSquared, dot. cbn [vx vy vz fmul fadd].
  assert (HLp : (0 < L)%R) by lra.
  assert (HMp : (0 < M)%R) by lra.
  do 3 eexists.
  split; [reflexivity|]. split.
  { match type of HM with _ = ?q =>
      transitivity ((x * x + y * y + z * z) * q / ((L * L) * (M * M)))%R
    end.
    - field. split; assumption.
    - rewrite <- HL, <- HM. field. split; assumption. }
  split; [reflexivity|]. split.
  { field. split; assumption. }
  split; [reflexivity|].
  match type of HM with _ = ?q =>
    match goal with |- (0 < ?e)%R =>
      replace e with (q / (L * M))%R by (field; split; assumption)
    end
  end.
  rewrite <- HM. apply Rdiv_lt_0_compat; nra.
Qed.

Lemma effectiveNormal_frisvad_geometry_witness :
  exists l dR d0 : real,
    lengthSquared (cross (normalize (mkVector 0 0 1))
                     (normalize (cross (mkVector 1 0 0) (mkVector 0 0 1))))
    = Fin l /\ l = 1%R
    /\ dot (cross (normalize (mkVector 0 0 1))
              (normalize (cross (mkVector 1 0 0) (mkVector 0 0 1))))
          (mkVector 0 0 1) = Fin dR /\ dR = 0%R
    /\ dot (cross (normalize (mkVector 0 0 1))
              (normalize (cross (mkVector 1 0 0) (mkVector 0 0 1))))
          (mkVector 1 0 0) = Fin d0 /\ (0 < d0)%R.
Proof.
  assert (H1 : (vlength (mkVector 0 0 1) .== 0) = false).
  { rewrite vlength_fin. apply feqb_fin_false.
    intros H. apply sqrt_eq_0 in H; lra. }
  apply (effectiveNormal_frisvad_geometry (mkVector 1 0 0) (mkVector 0 0 1)
           (mkVector 0 0 1)); try reflexivity; try exact H1.
  unfold effectiveNormal. rewrite H1.
  rewrite cross_fin, vlength_fin, feqb_fin_false; [reflexivity|].
  intros H. apply sqrt_eq_0 in H; lra.
Defined.

Lemma vneg_fin (x y z : real) :
  vneg (mkVector (Fin x) (Fin y) (Fin z))
  = mkVector (Fin (- x)) (Fin (- y)) (Fin (- z)).
Proof. reflexivity. Qed.

Lemma vadd_fin (a b c x y z : real) :
  vadd (mkVector (Fin a) (Fin b) (Fin c)) (mkVector (Fin x) (Fin y) (Fin z))
  = mkVector (Fin (a + x)) (Fin (b + y)) (Fin (c + z)).
Proof. reflexivity. Qed.

Lemma mkVector_fin_ext (a b c x y z : real) :
  a = x -> b = y -> c = z ->
  mkVector (Fin a) (Fin b) (Fin c) = mkVector (Fin x) (Fin y) (Fin z).
Proof. intros -> -> ->. reflexivity. Qed.

(** X5.  The tangent plane built on the mean normal ([tangentMode =
    EFrisvadEtAlWithMeanNormal]) is the same for a configuration and for
    its reverse (normals swapped, [R] negated) as long as [R] has
    non-zero length; at [|R| = 0] the function falls back on its first
    normal argument, so the forward call yields [n0] and the reversed
    call yields [nL]. *)
Theorem effectiveNormal_meanNormal_reversal (n0 nL R : Vector) :
  visFinite n0 = true -> visFinite nL = true -> visFinite R = true ->
  ((vlength R .== 0) = false ->
   effectiveNormal nL n0 (vneg R) EFrisvadEtAlWithMeanNormal
   = effectiveNormal n0 nL R EFrisvadEtAlWithMeanNormal)
  /\ ((vlength R .== 0) = true ->
      effectiveNormal n0 nL R EFrisvadEtAlWithMeanNormal = Some n0
      /\ effectiveNormal nL n0 (vneg R) EFrisvadEtAlWithMeanNormal
         = Some nL).
Proof.
  intros Hn0 HnL HR.
  destruct (visFinite_inv n0 Hn0) as (a & b & c & ->).
  destruct (visFinite_inv nL HnL) as (a' & b' & c' & ->).
  destruct (visFinite_inv R HR) as (x & y & z & ->).
  unfold effectiveNormal, normalize.
  rewrite !vneg_fin, !vadd_fin, !cross_fin, !vlength_fin.
  replace (sqrt (- x * - x + - y * - y + - z * - z))
    with (sqrt (x * x + y * y + z * z)) by (f_equal; ring).
  split.
  - intros HlR. rewrite HlR. cbv iota.
    match goal with
    | |- (if Fin (sqrt ?q1) .== Fin 0 then _ else _)
         = (if Fin (sqrt ?q2) .== Fin 0 then _ else _) =>
        replace (sqrt q1) with (sqrt q2) by (f_equal; ring)
    end.
    apply feqb_zero_inv in HlR.
    destruct (Fin (sqrt _) .== 0) eqn:Hc; [reflexivity|].
    apply feqb_zero_inv in Hc.
    rewrite !vdivf_fin by assumption. rewrite !cross_fin.
    f_equal. apply mkVector_fin_ext; field; split; assumption.
  - intros HlR. rewrite HlR. split; reflexivity.
Qed.

Lemma effectiveNormal_meanNormal_reversal_witness :
  ((vlength (mkVector 0 0 1) .== 0) = false ->
   effectiveNormal (mkVector 0 1 0) (mkVector 1 0 0)
     (vneg (mkVector 0 0 1)) EFrisvadEtAlWithMeanNormal
   = effectiveNormal (mkVector 1 0 0) (mkVector 0 1 0) (mkVector 0 0 1)
       EFrisvadEtAlWithMeanNormal)
  /\ ((vlength (mkVector 0 0 1) .== 0) = true ->
      effectiveNormal (mkVector 1 0 0) (mkVector 0 1 0) (mkVector 0 0 1)
        EFrisvadEtAlWithMeanNormal = Some (mkVector 1 0 0)
      /\ effectiveNormal (mkVector 0 1 0) (mkVector 1 0 0)
           (vneg (mkVector 0 0 1)) EFrisvadEtAlWithMeanNormal
         = Some (mkVector 0 1 0)).
Proof.
  apply (effectiveNormal_meanNormal_reversal
           (mkVector 1 0 0) (mkVector 0 1 0) (mkVector 0 0 1));
    reflexivity.
Defined.

(** X6.  In exact real arithmetic (no rounding), the virtual direction
    returned by [getVirtualDipoleSource] is
    the mirror image of [u0] in the plane orthogonal to the effective
    normal: when that normal has unit length and [u0] is finite, the
    component along the normal changes sign, the length is preserved,
    and applying the same reflection [v - 2 dot(n, v) n] to [u0_virt]
    gives [u0] back (the step [sampleDirectionDipole] relies on to
    return from a virtual direction to the real one). *)
Theorem getVirtualDipoleSource_mirror {collab : Collaborators}
    (self : FwdScat) (n0 u0 nL uL R : Vector) (length : Float)
    (rejectInternalIncoming : bool) (tangentMode : TangentPlaneMode)
    (zvMode : ZvMode) (u0_virt R_virt ne : Vector) :
  getVirtualDipoleSource self n0 u0 nL uL R length rejectInternalIncoming
    tangentMode zvMode = Some (u0_virt, R_virt, ne) ->
  visFinite u0 = true ->
  lengthSquared ne = Fin 1 ->
  (exists a b : real,
     dot ne u0 = Fin a /\ dot ne u0_virt = Fin b /\ b = (- a)%R)
  /\ lengthSquared u0_virt = lengthSquared u0
  /\ vsub u0_virt (vscale (2 .* dot ne u0_virt) ne) = u0.
Proof.
  intros Hsrc Hu0 Hunit.
  unfold getVirtualDipoleSource in Hsrc.
  destruct (effectiveNormal n0 nL R tangentMode) as [ne'|];
    [|discriminate Hsrc].
  destruct (visFinite ne') eqn:Hfin; cbn [negb] in Hsrc;
    [|discriminate Hsrc].
  destruct (rejectInternalIncoming && (dot ne' u0 .> 0));
    [discriminate Hsrc|].
  destruct (virtualSourceHeight self zvMode) as [zv|];
    [|discriminate Hsrc].
  injection Hsrc as <- _ <-.
  destruct (visFinite_inv u0 Hu0) as (ux & uy & uz & ->).
  destruct (visFinite_inv ne' Hfin) as (nx & ny & nz & ->).
  unfold lengthSquared, dot, vsub, vscale in *.
  cbn [vx vy vz fmul fadd fsub fneg] in *.
  injection Hunit as Hunit.
  set (d := (nx * ux + ny * uy + nz * uz)%R).
  split; [|split].
  - do 2 eexists. split; [reflexivity|]. split; [reflexivity|].
    transitivity (d - 2 * d * (nx * nx + ny * ny + nz * nz))%R;
      [unfold d; ring|].
    rewrite Hunit. ring.
  - f_equal.
    transitivity (ux * ux + uy * uy + uz * uz - 4 * d * d
                  + 4 * d * d * (nx * nx + ny * ny + nz * nz))%R;
      [unfold d; ring|].
    rewrite Hunit. ring.
  - apply mkVector_fin_ext.
    + transitivity (ux - 4 * d * nx
                    + 4 * d * nx * (nx * nx + ny * ny + nz * nz))%R;
        [unfold d; ring|].
      rewrite Hunit. ring.
    + transitivity (uy - 4 * d * ny
                    + 4 * d * ny * (nx * nx + ny * ny + nz * nz))%R;
        [unfold d; ring|].
      rewrite Hunit. ring.
    + transitivity (uz - 4 * d * nz
                    + 4 * d * nz * (nx * nx + ny * ny + nz * nz))%R;
        [unfold d; ring|].
      rewrite Hunit. ring.
Qed.

Lemma getVirtualDipoleSource_mirror_witness :
  let n0 := mkVector 0 0 1 in
  let u0 := mkVector 0.6 0 (-0.8) in
  let u0_virt := vsub u0 (vscale (2 .* dot n0 u0) n0) in
  (exists a b : real,
     dot n0 u0 = Fin a /\ dot n0 u0_virt = Fin b /\ b = (- a)%R)
  /\ lengthSquared u0_virt = lengthSquared u0
  /\ vsub u0_virt (vscale (2 .* dot n0 u0_virt) n0) = u0.
Proof.
  intros n0 u0 u0_virt.
  apply (getVirtualDipoleSource_mirror (collab := sample_collaborators)
           (mkFwdScat 1 0 1 1) n0 u0 (mkVector 1 0 0) (mkVector 1 0 0)
           (mkVector 1 0 0) (Fin 1) false EUnmodifiedIncoming
           EClassicDiffusion u0_virt
           (vsub (mkVector 1 0 0)
              (vscale (4 .* ((1 .+ 0) ./ (1 .- 0))
                       .* (1 ./ (3 .* (1 .* 1 .+ 0)))) n0))).
  - unfold getVirtualDipoleSource, virtualSourceHeight.
    cbn [effectiveNormal visFinite n0 vx vy vz isfinite andb negb
         sigma_s mu sigma_a m_eta fmul fadd
         fresnelDiffuseReflectance sample_collaborators].
    rewrite feqb_fin_false by lra. reflexivity.
  - reflexivity.
  - unfold lengthSquared, n0. cbn [vx vy vz fmul fadd]. f_equal. ring.
Defined.

Lemma virtualSourceHeight_pos {collab : Collaborators} (self : FwdScat)
    (ss m sa A fdr : real) (zvMode : ZvMode) :
  sigma_s self = Fin ss -> mu self = Fin m -> sigma_a self = Fin sa ->
  (0 < ss)%R -> (0 < m)%R -> (0 <= sa)%R ->
  dEon_A (m_eta self) = Fin A -> (0 < A)%R ->
  fresnelDiffuseReflectance (1 ./ m_eta self) = Fin fdr ->
  (0 <= fdr < 1)%R ->
  zvMode <> EUnknownZvMode ->
  exists zv : real,
    virtualSourceHeight self zvMode = Some (Fin zv) /\ (0 < zv)%R.
Proof.
  intros Hss Hmu Hsa Hs0 Hm0 Ha0 HA HA0 Hfdr Hf0 Hmode.
  unfold virtualSourceHeight. rewrite Hss, Hmu, Hsa, HA, Hfdr.
  cbn [fmul fadd fsub fneg]. unfold square. cbn [fmul].
  assert (Hsp : (0 < ss * m)%R) by (apply Rmult_lt_0_compat; assumption).
  assert (Htp : (0 < ss * m + sa)%R) by lra.
  assert (Htp2 : (0 < (ss * m + sa) * (ss * m + sa))%R)
    by (apply Rmult_lt_0_compat; assumption).
  rewrite !(feqb_fin_false _ 0) by lra. cbn [orb].
  destruct zvMode; [| | |contradiction].
  - rewrite !fdiv_fin by lra.
    assert (Hal : (0 < ss * m / (ss * m + sa))%R)
      by (apply Rdiv_lt_0_compat; assumption).
    rewrite fsqrt_fin by lra.
    assert (Hsq : (0 < sqrt (ss * m / (ss * m + sa)))%R)
      by (apply sqrt_lt_R0; exact Hal).
    cbn [fmul]. rewrite fdiv_fin by lra. cbn [fmul].
    eexists. split; [reflexivity|].
    assert (HD : (0 < 1 / (3 * (ss * m + sa)))%R)
      by (apply Rdiv_lt_0_compat; lra).
    assert (Hde : (0 < 2.131 * (1 / (3 * (ss * m + sa)))
                       / sqrt (ss * m / (ss * m + sa)))%R)
      by (apply Rdiv_lt_0_compat; [nra|exact Hsq]).
    nra.
  - rewrite !fdiv_fin by lra. cbn [fmul].
    eexists. split; [reflexivity|].
    assert (HD : (0 < (2 * sa + ss * m)
                      / (3 * ((ss * m + sa) * (ss * m + sa))))%R)
      by (apply Rdiv_lt_0_compat; lra).
    nra.
  - rewrite !fdiv_fin by lra. cbn [fmul].
    eexists. split; [reflexivity|].
    assert (HA' : (0 < (1 + fdr) / (1 + - fdr))%R)
      by (apply Rdiv_lt_0_compat; lra).
    assert (HD : (0 < 1 / (3 * (ss * m + sa)))%R)
      by (apply Rdiv_lt_0_compat; lra).
    nra.
Qed.

(** X7.  Whenever [getVirtualDipoleSource] succeeds on a medium with
    [sigma_s > 0], [mu > 0], [sigma_a >= 0], a positive [dEon_A] and a
    diffuse Fresnel reflectance in [0, 1), the virtual source is the real
    one displaced against the effective normal by a finite, strictly
    positive height: [R_virt = R - zv n0_effective] with [zv > 0], in
    each of the three [zvMode]s. *)
Theorem getVirtualDipoleSource_height {collab : Collaborators}
    (self : FwdScat) (ss m sa A fdr : real)
    (n0 u0 nL uL R : Vector) (length : Float)
    (rejectInternalIncoming : bool) (tangentMode : TangentPlaneMode)
    (zvMode : ZvMode) (u0_virt R_virt ne : Vector) :
  sigma_s self = Fin ss -> mu self = Fin m -> sigma_a self = Fin sa ->
  (0 < ss)%R -> (0 < m)%R -> (0 <= sa)%R ->
  dEon_A (m_eta self) = Fin A -> (0 < A)%R ->
  fresnelDiffuseReflectance (1 ./ m_eta self) = Fin fdr ->
  (0 <= fdr < 1)%R ->
  getVirtualDipoleSource self n0 u0 nL uL R length rejectInternalIncoming
    tangentMode zvMode = Some (u0_virt, R_virt, ne) ->
  exists zv : real,
    (0 < zv)%R /\ R_virt = vsub R (vscale (Fin zv) ne).
Proof.
  intros Hss Hmu Hsa Hs0 Hm0 Ha0 HA HA0 Hfdr Hf0 Hsrc.
  unfold getVirtualDipoleSource in Hsrc.
  destruct (effectiveNormal n0 nL R tangentMode) as [ne'|];
    [|discriminate Hsrc].
  destruct (negb (visFinite ne')); [discriminate Hsrc|].
  destruct (rejectInternalIncoming && (dot ne' u0 .> 0));
    [discriminate Hsrc|].
  destruct zvMode;
    match type of Hsrc with
    | context [virtualSourceHeight self EUnknownZvMode] =>
        cbv [virtualSourceHeight] in Hsrc; discriminate Hsrc
    | context [virtualSourceHeight self ?mode] =>
        let Hne := fresh "Hne" in
        assert (Hne : mode <> EUnknownZvMode) by discriminate;
        destruct (virtualSourceHeight_pos self ss m sa A fdr mode
                    Hss Hmu Hsa Hs0 Hm0 Ha0 HA HA0 Hfdr Hf0 Hne)
          as (zv & Hzv & Hpos);
        rewrite Hzv in Hsrc; injection Hsrc as _ <- <-;
        exists zv; split; [exact Hpos|reflexivity]
    end.
Qed.

Lemma getVirtualDipoleSource_height_witness :
  let n0 := mkVector 0 0 1 in
  let R := mkVector 1 0 0 in
  exists zv : real,
    (0 < zv)%R
    /\ vsub R (vscale (4 .* ((1 .+ 0) ./ (1 .- 0))
                       .* (1 ./ (3 .* (1 .* 1 .+ 0)))) n0)
       = vsub R (vscale (Fin zv) n0).
Proof.
  intros n0 R.
  apply (getVirtualDipoleSource_height (collab := sample_collaborators)
           (mkFwdScat 1 0 1 1) 1 1 0 1 0 n0 (mkVector 0.6 0 (-0.8))
           (mkVector 1 0 0) (mkVector 1 0 0) R (Fin 1) false
           EUnmodifiedIncoming EClassicDiffusion
           (vsub (mkVector 0.6 0 (-0.8))
              (vscale (2 .* dot n0 (mkVector 0.6 0 (-0.8))) n0)));
    try reflexivity; try lra.
  unfold getVirtualDipoleSource, virtualSourceHeight.
  cbn [effectiveNormal visFinite n0 vx vy vz isfinite andb negb
       sigma_s mu sigma_a m_eta fmul fadd
       fresnelDiffuseReflectance sample_collaborators].
  rewrite feqb_fin_false by lra. reflexivity.
Defined.

(** X8.  [getTentativeIndexMatchedVirtualSourceDisp] is called before the
    entry direction is known and passes NaN for it.  Its outcome agrees
    with the call of [getVirtualDipoleSource] that [evalDipole] makes
    once [u0] is known (for any [u0] and length, with
    [rejectInternalIncoming = false] and [zvMode = EClassicDiffusion]):
    both fail or both succeed, with the same [R_virt] and the same
    effective normal. *)
Theorem getTentativeIndexMatchedVirtualSourceDisp_matches
    {collab : Collaborators} (self : FwdScat)
    (n0 nL uL R u0 : Vector) (s length : Float)
    (tangentMode : TangentPlaneMode) (wantWeight : bool) :
  match getTentativeIndexMatchedVirtualSourceDisp self n0 nL uL R s
          tangentMode wantWeight,
        getVirtualDipoleSource self n0 u0 nL uL R length false
          tangentMode EClassicDiffusion with
  | Some (R_virt, ne, _), Some (_, R_virt', ne') =>
      R_virt = R_virt' /\ ne = ne'
  | None, None => True
  | _, _ => False
  end.
Proof.
  unfold getTentativeIndexMatchedVirtualSourceDisp, getVirtualDipoleSource.
  destruct (effectiveNormal n0 nL R tangentMode) as [ne|]; [|exact I].
  destruct (negb (visFinite ne)); [exact I|].
  cbn [andb].
  destruct (virtualSourceHeight self EClassicDiffusion) as [zv|]; [|exact I].
  destruct (negb wantWeight); split; reflexivity.
Qed.

(** ** Kernel evaluator *)

Lemma fneg_involutive (a : Float) : .- (.- a) = a.
Proof. destruct a; cbn [fneg]; try reflexivity. f_equal. ring. Qed.

Lemma vneg_involutive (v : Vector) : vneg (vneg v) = v.
Proof.
  destruct v as [a b c]. unfold vneg. cbn [vx vy vz].
  rewrite !fneg_involutive. reflexivity.
Qed.

Lemma fmul_one_r (a : Float) (x : real) : x = 1%R -> a .* Fin x = a.
Proof.
  intros ->. destruct a; cbn [fmul]; try reflexivity.
  - f_equal. ring.
  - rewrite Rsgn_pos by lra. reflexivity.
  - rewrite Rsgn_pos by lra. reflexivity.
Qed.

Lemma dot_vneg_fin (a b c x y z : real) :
  dot (vneg (mkVector (Fin a) (Fin b) (Fin c)))
      (mkVector (Fin x) (Fin y) (Fin z))
  = Fin (- (a * x + b * y + c * z)).
Proof.
  unfold dot, vneg. cbn [vx vy vz fneg fmul fadd]. f_equal. ring.
Qed.

Lemma fleb_fin (x y : real) : (Fin x .<= Fin y) = true <-> (x <= y)%R.
Proof.
  unfold fleb. rewrite orb_true_iff, fltb_fin, feqb_fin. lra.
Qed.

Lemma fleb_neg_swap (d : real) : (Fin (- d) .<= 0) = (Fin d .>= 0).
Proof.
  unfold fgeb. apply eq_true_iff_eq. rewrite !fleb_fin. lra.
Qed.

Lemma fgeb_neg_swap (d : real) : (Fin (- d) .>= 0) = (Fin d .<= 0).
Proof.
  unfold fgeb. apply eq_true_iff_eq. rewrite !fleb_fin. lra.
Qed.

(** [evalDipole] in an index-matched medium, with the refractions carried
    out: the internal directions are the external ones and the Fresnel
    transmittance is 1. *)
Lemma evalDipole_body_index_matched {collab : Collaborators}
    (self : FwdScat) (recurse : evalDipoleType)
    (n0 : Normal) (u0_external : Vector) (nL : Normal)
    (uL_external R : Vector) (length : Float)
    (rejectInternalIncoming reciprocal : bool)
    (tangentMode : TangentPlaneMode) (zvMode : ZvMode)
    (dipoleMode : DipoleMode) :
  index_matched self ->
  evalDipole_body self recurse n0 u0_external nL uL_external R length
    rejectInternalIncoming reciprocal tangentMode zvMode false dipoleMode
  = if visFinite nL && (dot uL_external nL .<= 0) then 0
    else if dot u0_external n0 .>= 0 then 0
    else if visZero u0_external || visZero uL_external then 0
    else
      match getVirtualDipoleSource self n0 u0_external nL uL_external R
              length rejectInternalIncoming tangentMode zvMode with
      | None => 0
      | Some (u0_virt, R_virt, _) =>
          let real :=
            if hasReal dipoleMode
            then evalMonopole self u0_external uL_external R length
            else 0 in
          let virt :=
            if hasVirt dipoleMode
            then evalMonopole self u0_virt uL_external R_virt length
            else 0 in
          match match dipoleMode with
                | ERealAndVirt => Some (real .- virt)
                | EReal => Some real
                | EVirt => Some virt
                | EDipoleOther _ _ => None
                end with
          | None => 0
          | Some transport =>
              if reciprocal then
                0.5 .* (transport
                        .+ recurse nL (vneg uL_external) n0
                             (vneg u0_external) (vneg R) length
                             rejectInternalIncoming false tangentMode
                             zvMode false dipoleMode)
                .* ((1 .- 0) .* (1 .- 0))
              else transport .* ((1 .- 0) .* (1 .- 0))
          end
      end.
Proof.
  intros Hrefr. unfold evalDipole_body.
  destruct (Hrefr (vneg u0_external) n0) as [c0 ->].
  destruct (Hrefr uL_external nL) as [cL ->].
  rewrite !vneg_involutive. reflexivity.
Qed.

(** X9.  Reciprocity where it does hold.  In an index-matched medium, for
    finite normals and directions, [evalDipole] with [reciprocal = true]
    (full BSSRDF, any [dipoleMode]) returns the same value on a
    configuration and on its reverse, provided the virtual source exists
    either for both of them or for neither. *)
Theorem evalDipole_reciprocal_symmetric {collab : Collaborators}
    (self : FwdScat) (n0 : Normal) (u0_external : Vector) (nL : Normal)
    (uL_external R : Vector) (length : Float)
    (rejectInternalIncoming : bool)
    (tangentMode : TangentPlaneMode) (zvMode : ZvMode)
    (dipoleMode : DipoleMode) :
  index_matched self ->
  visFinite n0 = true -> visFinite nL = true ->
  visFinite u0_external = true -> visFinite uL_external = true ->
  (getVirtualDipoleSource self n0 u0_external nL uL_external R length
     rejectInternalIncoming tangentMode zvMode = None
   <-> getVirtualDipoleSource self nL (vneg uL_external) n0
         (vneg u0_external) (vneg R) length
         rejectInternalIncoming tangentMode zvMode = None) ->
  evalDipole self n0 u0_external nL uL_external R length
    rejectInternalIncoming true tangentMode zvMode false dipoleMode
  = evalDipole self nL (vneg uL_external) n0 (vneg u0_external) (vneg R)
      length rejectInternalIncoming true tangentMode zvMode false
      dipoleMode.
Proof.
  intros Hrefr Hn0 HnL Hu0 HuL Hboth.
  unfold evalDipole.
  rewrite !(evalDipole_body_index_matched self) by exact Hrefr.
  rewrite !vneg_involutive.
  rewrite !visZero_vneg, Hn0, HnL. cbn [andb].
  destruct (visFinite_inv n0 Hn0) as (a & b & c & ->).
  destruct (visFinite_inv nL HnL) as (a' & b' & c' & ->).
  destruct (visFinite_inv u0_external Hu0) as (ux & uy & uz & Eu0).
  destruct (visFinite_inv uL_external HuL) as (wx & wy & wz & EuL).
  assert (Hd0 : (dot (vneg u0_external) (mkVector (Fin a) (Fin b) (Fin c))
                 .<= 0)
                = (dot u0_external (mkVector (Fin a) (Fin b) (Fin c)) .>= 0)).
  { rewrite Eu0, dot_vneg_fin. apply fleb_neg_swap. }
  assert (HdL : (dot (vneg uL_external)
                   (mkVector (Fin a') (Fin b') (Fin c')) .>= 0)
                = (dot uL_external (mkVector (Fin a') (Fin b') (Fin c'))
                   .<= 0)).
  { rewrite EuL, dot_vneg_fin. apply fgeb_neg_swap. }
  rewrite Hd0, HdL.
  rewrite (orb_comm (visZero uL_external) (visZero u0_external)).
  destruct (dot uL_external _ .<= 0); [destruct (_ .>= _); reflexivity|].
  destruct (dot u0_external _ .>= 0); [reflexivity|].
  destruct (visZero u0_external || visZero uL_external); [reflexivity|].
  change ((1 .- 0) .* (1 .- 0)) with (Fin ((1 + - 0) * (1 + - 0))).
  destruct (getVirtualDipoleSource self _ u0_external _ uL_external R
              length rejectInternalIncoming tangentMode zvMode)
    as [[[u0v Rv] ne]|] eqn:HA;
    destruct (getVirtualDipoleSource self _ (vneg uL_external) _
                (vneg u0_external) (vneg R) length rejectInternalIncoming
                tangentMode zvMode)
      as [[[u0v' Rv'] ne']|] eqn:HB.
  - destruct dipoleMode; cbn [hasReal hasVirt];
      rewrite ?fmul_one_r by lra; try reflexivity;
      f_equal; apply fadd_comm.
  - destruct Hboth as [_ Hboth]. specialize (Hboth eq_refl).
    discriminate Hboth.
  - destruct Hboth as [Hboth _]. specialize (Hboth eq_refl).
    discriminate Hboth.
  - reflexivity.
Qed.

Lemma sample_index_matched :
  index_matched (collab := sample_collaborators) (mkFwdScat 1 0 1 1).
Proof.
  intros wi n. eexists.
  cbn [refract sample_collaborators m_eta]. unfold sample_refract.
  rewrite feqb_refl_fin. reflexivity.
Qed.

Lemma evalDipole_reciprocal_symmetric_witness :
  evalDipole (collab := sample_collaborators) (mkFwdScat 1 0 1 1)
    (mkVector 0 0 1) (mkVector 0.6 0 (-0.8))
    (mkVector 0 0 1) (mkVector 0.6 0 0.8)
    (mkVector 1 0 0) (Fin 1)
    false true EUnmodifiedIncoming EClassicDiffusion false ERealAndVirt
  = evalDipole (collab := sample_collaborators) (mkFwdScat 1 0 1 1)
      (mkVector 0 0 1) (vneg (mkVector 0.6 0 0.8))
      (mkVector 0 0 1) (vneg (mkVector 0.6 0 (-0.8)))
      (vneg (mkVector 1 0 0)) (Fin 1)
      false true EUnmodifiedIncoming EClassicDiffusion false ERealAndVirt.
Proof.
  apply (evalDipole_reciprocal_symmetric (collab := sample_collaborators));
    try reflexivity.
  - exact sample_index_matched.
  - unfold getVirtualDipoleSource, virtualSourceHeight.
    cbn [effectiveNormal visFinite vx vy vz isfinite andb negb
         sigma_s mu sigma_a m_eta fmul fadd].
    rewrite feqb_fin_false by lra.
    split; intros H; discriminate H.
Defined.

(** X10.  [evalMonopole], in exact real arithmetic (no rounding, no
    overflow and no underflow of [exp]): for a medium with [mu] in (0,1],
    [sigma_s > 0]
    and finite [sigma_a], a finite length [s > 0], finite vectors and a
    vector [H = E R - D uL] of non-zero length, the returned value is a
    finite, strictly positive number (the normalization constant times an
    exponential), whether or not [|H|] is regularized and whatever
    [cosTheta] is clamped to. *)
Theorem evalMonopole_positive {collab : Collaborators} (self : FwdScat)
    (m ss sa s k : real) (u0 uL R : Vector) :
  mu self = Fin m -> sigma_s self = Fin ss -> sigma_a self = Fin sa ->
  (0 < m <= 1)%R -> (0 < ss)%R -> (0 < s)%R ->
  MTS_FWDSCAT_DIRECTION_MIN_MU = Fin k -> (0 < k)%R ->
  visFinite u0 = true -> visFinite uL = true -> visFinite R = true ->
  (vlength (vsub (vscale (sp_E (calcValues self (Fin s))) R)
              (vscale (sp_D (calcValues self (Fin s))) uL)) .== 0) = false ->
  exists g : real, evalMonopole self u0 uL R (Fin s) = Fin g /\ (0 < g)%R.
Proof.
  intros Hmu Hss Hsa Hm Hs0 Hs Hk Hk0 Hu0 HuL HR HH.
  destruct (calcValues_pos self m ss s Hmu Hss Hm Hs0 Hs)
    as (c & d & e & f & z & Hv & Hc & Hd & He & Hf & Hz).
  destruct (absorptionAndNormalizationConstant_pos self m ss sa s
              Hmu Hss Hsa Hm Hs0 Hs) as (n & Hn & Hn0).
  destruct (visFinite_inv u0 Hu0) as (ax & ay & az & ->).
  destruct (visFinite_inv uL HuL) as (bx & by' & bz & ->).
  destruct (visFinite_inv R HR) as (rx & ry & rz & ->).
  rewrite Hv in HH. cbn [sp_D sp_E] in HH.
  change (vsub (vscale (Fin e) (mkVector (Fin rx) (Fin ry) (Fin rz)))
            (vscale (Fin d) (mkVector (Fin bx) (Fin by') (Fin bz))))
    with (mkVector (Fin (rx * e + - (bx * d))) (Fin (ry * e + - (by' * d)))
            (Fin (rz * e + - (bz * d)))) in HH.
  rewrite vlength_fin in HH. apply feqb_zero_inv in HH.
  assert (Hq : (0 < (rx * e + - (bx * d)) * (rx * e + - (bx * d))
                    + (ry * e + - (by' * d)) * (ry * e + - (by' * d))
                    + (rz * e + - (bz * d)) * (rz * e + - (bz * d)))%R).
  { match type of HH with sqrt ?q <> _ =>
      destruct (Rle_lt_or_eq_dec 0 q (sumsq_nonneg _ _ _)) as [Hlt|Heq];
        [exact Hlt|]
    end.
    exfalso. apply HH. rewrite <- Heq. apply sqrt_0. }
  destruct (evalMonopole_form self s k n c d e f z ax ay az bx by' bz
              rx ry rz _ _ _ Hv Hn Hk Hk0 eq_refl eq_refl eq_refl Hq)
    as (l & ct & Hval & _).
  rewrite Hval. eexists. split; [reflexivity|].
  apply Rmult_lt_0_compat; [exact Hn0|apply exp_pos].
Qed.

Lemma evalMonopole_positive_witness :
  exists g : real,
    evalMonopole (collab := sample_collaborators) (mkFwdScat 1 0 1 1)
      (mkVector 0 0 1) (mkVector 0 0 1) (mkVector 0 0 (-1)) (Fin 1) = Fin g
    /\ (0 < g)%R.
Proof.
  apply (evalMonopole_positive (collab := sample_collaborators)
           (mkFwdScat 1 0 1 1) 1 1 0 1 1e-4);
    try reflexivity; try lra.
  destruct (calcValues_pos (mkFwdScat 1 0 1 1) 1 1 1)
    as (c & d & e & f & z & Hv & Hc & Hd & He & Hf & Hz);
    try reflexivity; try lra.
  rewrite Hv. cbn [sp_D sp_E].
  change (vsub (vscale (Fin e) (mkVector 0 0 (-1)))
            (vscale (Fin d) (mkVector 0 0 1)))
    with (mkVector (Fin (0 * e + - (0 * d))) (Fin (0 * e + - (0 * d)))
            (Fin (-1 * e + - (1 * d)))).
  rewrite vlength_fin. apply feqb_fin_false.
  intros H. apply sqrt_eq_0 in H; nra.
Defined.

Lemma evalPlaneSource_finite {collab : Collaborators} (self : FwdScat)
    (u0 uL n : Vector) (Rz length : Float) :
  isfinite (evalPlaneSource self u0 uL n Rz length) = true.
Proof.
  unfold evalPlaneSource.
  match goal with
  | |- isfinite (if negb (isfinite ?r) then _ else _) = _ =>
      destruct (isfinite r) eqn:Hr; cbn [negb]; [exact Hr|reflexivity]
  end.
Qed.

Lemma isfinite_inv (a : Float) :
  isfinite a = true -> exists x : real, a = Fin x.
Proof.
  destruct a; intros H; try discriminate H. eexists. reflexivity.
Qed.

(** X11.  With the effective BRDF ([useEffectiveBRDF = true])
    [evalDipole] never returns NaN or an infinity as long as the two
    Fresnel reflectances returned by [refract] are finite:
    [evalPlaneSource] replaces every non-finite value by 0, and the
    result is the Fresnel transmittance times the difference of two such
    values (or 0 on rejection). *)
Theorem evalDipole_effectiveBRDF_finite {collab : Collaborators}
    (self : FwdScat) (n0 : Normal) (u0_external : Vector) (nL : Normal)
    (uL_external R : Vector) (length : Float)
    (rejectInternalIncoming reciprocal : bool)
    (tangentMode : TangentPlaneMode) (zvMode : ZvMode)
    (dipoleMode : DipoleMode) :
  (forall (wi : Vector) (n : Normal),
     isfinite (snd (refract wi n (m_eta self))) = true) ->
  isfinite (evalDipole self n0 u0_external nL uL_external R length
              rejectInternalIncoming reciprocal tangentMode zvMode true
              dipoleMode) = true.
Proof.
  intros Hfin. unfold evalDipole. unfold evalDipole_body at 1.
  destruct (visFinite nL && (dot uL_external nL .<= 0)); [reflexivity|].
  destruct (dot u0_external n0 .>= 0); [reflexivity|].
  pose proof (Hfin (vneg u0_external) n0) as H0.
  pose proof (Hfin uL_external nL) as HL.
  destruct (refract (vneg u0_external) n0 (m_eta self)) as [[r0 c0] F0].
  destruct (refract uL_external nL (m_eta self)) as [[rL cL] FL].
  cbn [snd] in H0, HL.
  destruct (isfinite_inv F0 H0) as [f0 ->].
  destruct (isfinite_inv FL HL) as [fL ->].
  destruct (visZero r0 || visZero (vneg rL)); [reflexivity|].
  destruct (getVirtualDipoleSource self n0 r0 nL (vneg rL) R length
              rejectInternalIncoming tangentMode zvMode)
    as [[[u0v Rv] ne]|]; [|reflexivity].
  destruct (isfinite_inv _ (evalPlaneSource_finite self r0 (vneg rL) nL
                              0 length)) as [p1 ->].
  destruct (isfinite_inv _ (evalPlaneSource_finite self u0v (vneg rL) nL
                              (dot Rv nL) length)) as [p2 ->].
  reflexivity.
Qed.

Lemma evalDipole_effectiveBRDF_finite_witness :
  isfinite (evalDipole (collab := sample_collaborators) (mkFwdScat 1 0 1 1)
              (mkVector 0 0 1) (mkVector 0.6 0 (-0.8))
              (mkVector 0 0 1) (mkVector 0.6 0 0.8)
              (mkVector 0 0 0) (Fin 1)
              false false EUnmodifiedIncoming EClassicDiffusion true
              ERealAndVirt) = true.
Proof.
  apply (evalDipole_effectiveBRDF_finite (collab := sample_collaborators)).
  intros wi n. cbn [refract sample_collaborators m_eta].
  unfold sample_refract. destruct (Fin 1 .== 1); reflexivity.
Defined.

(** ** Length sampler *)

Lemma clamp_fin_value (x lo hi : real) :
  clamp (Fin x) (Fin lo) (Fin hi) = Fin (Rmin hi (Rmax lo x)).
Proof.
  unfold clamp, std_min, std_max.
  assert (Hmax : (if Fin lo .< Fin x then Fin x else Fin lo)
                 = Fin (Rmax lo x)).
  { unfold Rmax. destruct (Rle_dec lo x) as [H|H].
    - destruct (Rlt_dec lo x) as [H'|H'].
      + rewrite fltb_fin_true by exact H'. reflexivity.
      + rewrite fltb_fin_false by lra. f_equal. lra.
    - rewrite fltb_fin_false by lra. reflexivity. }
  rewrite Hmax. unfold Rmin.
  destruct (Rle_dec hi (Rmax lo x)) as [H|H].
  - rewrite fltb_fin_false by exact H. reflexivity.
  - rewrite fltb_fin_true by lra. reflexivity.
Qed.

Lemma dot_fin (a b c x y z : real) :
  dot (mkVector (Fin a) (Fin b) (Fin c)) (mkVector (Fin x) (Fin y) (Fin z))
  = Fin (a * x + b * y + c * z).
Proof. reflexivity. Qed.

(** The fit of [implLengthShortLimitMargOverU0_internal] has no solution
    ([D <= 0]) for [cosTheta] in [-1, 0]: the uniform backup gets weight
    1 and [t_mean], [t_stddev] keep their initial value -1. *)
Lemma shortLimitMargOverU0_fit_backup (r ct : real) (safetyFac : Float) :
  (-1 <= ct <= 0)%R ->
  shortLimitMargOverU0_fit (Fin r) (Fin ct) safetyFac
  = (Fin 1, Fin (-1), Fin (-1)).
Proof.
  intros Hct. unfold shortLimitMargOverU0_fit. cbv zeta.
  match goal with
  | |- (if ?cond then _ else _) = _ =>
      assert (HD : cond = true); [|rewrite HD; reflexivity]
  end.
  cbn [fmul fadd fsub fneg]. rewrite fdiv_fin by lra.
  apply fleb_fin.
  assert (H1 : (25 * ct * (ct + 1) <= 0)%R) by nra.
  assert (H2 : (0 <= r * r)%R) by nra.
  unfold Rdiv. assert (0 < / 225.0)%R by (apply Rinv_0_lt_compat; lra).
  nra.
Qed.

(** Where [uL] makes an angle of 90 degrees or more with [R], the fit of
    [implLengthShortLimitMargOverU0_internal] has no solution ([D <= 0])
    and the uniform backup is used with weight 1. *)
Lemma implLengthShortLimitMargOverU0_internal_backup
    {collab : Collaborators} (self : FwdScat) (ss m : real) (fuel : nat)
    (R uL : Vector) (s : Float) (sampler : option Sampler)
    (safetyFac : Float) :
  sigma_s self = Fin ss -> mu self = Fin m -> (0 < ss)%R -> (0 < m)%R ->
  visFinite R = true -> visFinite uL = true ->
  (vlength R .== 0) = false -> (dot R uL .<= 0) = true ->
  implLengthShortLimitMargOverU0_internal self fuel R uL s sampler safetyFac
  = shortLimitMargOverU0_finish fuel (Fin (0.5 * ss * m)) (Fin 1)
      (Fin (-1)) (Fin (-1)) s sampler.
Proof.
  intros Hss Hmu Hs0 Hm0 HR HuL HlR Hdot.
  destruct (visFinite_inv R HR) as (x & y & z & ->).
  destruct (visFinite_inv uL HuL) as (a & b & c & ->).
  unfold implLengthShortLimitMargOverU0_internal.
  rewrite Hss, Hmu, vlength_fin in *. rewrite dot_fin in *.
  apply feqb_zero_inv in HlR. apply fleb_fin in Hdot.
  assert (HL : (0 < sqrt (x * x + y * y + z * z))%R)
    by (pose proof (sqrt_pos (x * x + y * y + z * z)); lra).
  set (L := sqrt (x * x + y * y + z * z)) in *.
  set (d := (x * a + y * b + z * c)%R) in *.
  cbn [fmul]. set (p := (0.5 * ss * m)%R).
  assert (Hp : (0 < p)%R) by (unfold p; nra).
  assert (Hr : (0 < L * p)%R) by (apply Rmult_lt_0_compat; assumption).
  rewrite (feqb_fin_false (L * p) 0) by lra.
  rewrite fdiv_fin by lra. rewrite clamp_fin_value.
  set (ct := Rmin 1 (Rmax (-1) (d / L))).
  assert (Hct : (-1 <= ct <= 0)%R).
  { assert (Hq : (d / L <= 0)%R).
    { unfold Rdiv. assert (0 < / L)%R by (apply Rinv_0_lt_compat; exact HL).
      nra. }
    unfold ct, Rmin, Rmax.
    destruct (Rle_dec (-1) (d / L)); destruct (Rle_dec 1 _); lra. }
  rewrite shortLimitMargOverU0_fit_backup by exact Hct.
  rewrite fdiv_fin by lra.
  destruct (_ .< meanTailCutoff); reflexivity.
Qed.

(** The pdf evaluated by [shortLimitMargOverU0_finish] without a sampler
    when the uniform backup has weight 1: uniform in [ps] on (0, 2). *)
Lemma shortLimitMargOverU0_finish_backup_pdf {collab : Collaborators}
    (fuel : nat) (p s tm ts : real) :
  (0 < p)%R -> (0 < s)%R ->
  exists x : real,
    shortLimitMargOverU0_finish fuel (Fin p) (Fin 1) (Fin tm) (Fin ts)
      (Fin s) None = Some (Fin s, Fin x, None)
    /\ ((s * p < 2)%R -> x = (p / 2)%R)
    /\ ((2 <= s * p)%R -> x = 0%R).
Proof.
  intros Hp Hs. unfold shortLimitMargOverU0_finish.
  rewrite feqb_refl_fin. cbn [fmul].
  assert (Hps : (0 < s * p)%R) by (apply Rmult_lt_0_compat; assumption).
  rewrite !fpow_fin by exact Hps.
  destruct (Rlt_dec (s * p) 2) as [Hlt|Hge].
  - rewrite fltb_fin_true by exact Hlt.
    rewrite !fdiv_fin by lra. cbn [fmul fadd fsub fneg].
    rewrite !fdiv_fin by lra. cbn [fmul fadd].
    eexists. split; [reflexivity|]. split; intros H; [|lra].
    lra.
  - rewrite fltb_fin_false by lra.
    cbn [fmul fadd fsub fneg]. rewrite !fdiv_fin by lra. cbn [fmul fadd].
    eexists. split; [reflexivity|]. split; intros H; [lra|].
    lra.
Qed.

Lemma pdfLengthShortLimit_backup {collab : Collaborators}
    (self : FwdScat) (ss m : real) (R uL : Vector) (s : real) :
  sigma_s self = Fin ss -> mu self = Fin m -> (0 < ss)%R -> (0 < m)%R ->
  visFinite R = true -> visFinite uL = true ->
  (vlength R .== 0) = false -> (dot R uL .<= 0) = true ->
  (0 < s)%R ->
  exists x : real,
    pdfLengthShortLimit self R None uL (Fin s) = Fin x
    /\ ((0.5 * ss * m * s < 2)%R -> x = (0.5 * ss * m / 2)%R)
    /\ ((2 <= 0.5 * ss * m * s)%R -> x = 0%R).
Proof.
  intros Hss Hmu Hs0 Hm0 HR HuL HlR Hdot Hs.
  assert (Hp : (0 < 0.5 * ss * m)%R) by nra.
  unfold pdfLengthShortLimit, implLengthShortLimit,
    implLengthShortLimitMargOverU0.
  rewrite !(implLengthShortLimitMargOverU0_internal_backup self ss m)
    by assumption.
  destruct (shortLimitMargOverU0_finish_backup_pdf 0 (0.5 * ss * m) s
              (-1) (-1) Hp Hs) as (x & Hx & Hlt & Hge).
  rewrite Hx. cbn [fmul fadd fsub fneg].
  eexists. split; [reflexivity|].
  replace (s * (0.5 * ss * m))%R with (0.5 * ss * m * s)%R in * by ring.
  split; intros H.
  - rewrite (Hlt H). lra.
  - rewrite (Hge H). lra.
Qed.

Lemma sampleLengthShortLimit_backup {collab : Collaborators}
    (self : FwdScat) (ss m : real) (R uL : Vector)
    (fuel : nat) (s0 : Float) (sampler : Sampler) :
  sigma_s self = Fin ss -> mu self = Fin m -> (0 < ss)%R -> (0 < m)%R ->
  visFinite R = true -> visFinite uL = true ->
  (vlength R .== 0) = false -> (dot R uL .<= 0) = true ->
  exists pdf : Float,
    sampleLengthShortLimit self fuel R None uL s0 sampler
    = Some (pdf, (2 .* sampler 1%nat) ./ Fin (0.5 * ss * m),
            fun n => sampler (S (S n))).
Proof.
  intros Hss Hmu Hs0 Hm0 HR HuL HlR Hdot.
  unfold sampleLengthShortLimit, implLengthShortLimit,
    implLengthShortLimitMargOverU0.
  unfold next1D at 1.
  destruct (sampler 0%nat .> Fin 0.3);
    do 2 (rewrite !(implLengthShortLimitMargOverU0_internal_backup
                      self ss m) by assumption;
          unfold shortLimitMargOverU0_finish;
          rewrite !feqb_refl_fin; unfold next1D; cbv beta iota zeta);
    eexists; reflexivity.
Qed.

(** The uniform backup drawing [ps = 2 u] for a random number [u] strictly
    between 0 and 1. *)
Lemma shortLimitMargOverU0_finish_backup_draw {collab : Collaborators}
    (fuel : nat) (p u : real) (tm ts s0 : Float) (smp : Sampler) :
  (0 < p)%R -> smp 0%nat = Fin u -> (0 < u < 1)%R ->
  exists x : real,
    shortLimitMargOverU0_finish fuel (Fin p) (Fin 1) tm ts s0 (Some smp)
    = Some (Fin (2 * u / p), Fin x, Some (fun n => smp (S n)))
    /\ x = (p / 2)%R.
Proof.
  intros Hp Hu Hu01. unfold shortLimitMargOverU0_finish.
  rewrite feqb_refl_fin. unfold next1D. rewrite Hu. cbn [fmul].
  rewrite !fpow_fin by lra.
  rewrite fltb_fin_true by lra.
  rewrite !fdiv_fin by lra. cbn [fmul fadd fsub fneg].
  rewrite !fdiv_fin by lra. cbn [fmul fadd].
  eexists. split; [reflexivity|]. lra.
Qed.

(** The same draw at [u = 0]: the length is 0 and the pdf is NaN, the
    product [0 * pow(0, -7/2)] of the gaussian term. *)
Lemma shortLimitMargOverU0_finish_backup_zero {collab : Collaborators}
    (fuel : nat) (p : real) (tm ts s0 : Float) (smp : Sampler) :
  (0 < p)%R -> smp 0%nat = Fin 0 ->
  shortLimitMargOverU0_finish fuel (Fin p) (Fin 1) tm ts s0 (Some smp)
  = Some (Fin 0, NaN, Some (fun n => smp (S n))).
Proof.
  intros Hp Hu. unfold shortLimitMargOverU0_finish.
  rewrite feqb_refl_fin. unfold next1D. rewrite Hu. cbn [fmul].
  replace (2 * 0)%R with 0%R by ring.
  unfold fpow. rewrite Rsgn_zero.
  destruct (Rlt_dec (-7 / 2) 0) as [_|H]; [|lra].
  destruct (Rlt_dec (-5 / 2) 0) as [_|H]; [|lra].
  rewrite fltb_fin_true by lra.
  rewrite !fdiv_fin by lra. cbn [fmul fadd fsub fneg].
  rewrite !fdiv_fin by lra.
  replace (1 + - (1))%R with 0%R by ring.
  replace (0 * 0 * 5.0 / 2.0)%R with 0%R by (unfold Rdiv; ring).
  cbn [fmul]. rewrite Rsgn_zero. cbn [inf_of_sign fadd fmul].
  do 3 f_equal. f_equal. unfold Rdiv. ring.
Qed.

Lemma shortLimitMargOverU0_finish_backup_pdf_zero {collab : Collaborators}
    (fuel : nat) (p : real) (tm ts : Float) :
  (0 < p)%R ->
  shortLimitMargOverU0_finish fuel (Fin p) (Fin 1) tm ts (Fin 0) None
  = Some (Fin 0, NaN, None).
Proof.
  intros Hp. unfold shortLimitMargOverU0_finish.
  rewrite feqb_refl_fin. cbn [fmul].
  replace (0 * p)%R with 0%R by ring.
  unfold fpow. rewrite Rsgn_zero.
  destruct (Rlt_dec (-7 / 2) 0) as [_|H]; [|lra].
  rewrite fltb_fin_true by lra.
  rewrite !fdiv_fin by lra. cbn [fmul fadd fsub fneg].
  rewrite !fdiv_fin by lra.
  replace (1 + - (1))%R with 0%R by ring.
  replace (0 * 0 * 5.0 / 2.0)%R with 0%R by (unfold Rdiv; ring).
  cbn [fmul]. rewrite Rsgn_zero. reflexivity.
Qed.

Lemma sampleLengthShortLimit_backup_draw {collab : Collaborators}
    (self : FwdScat) (ss m u : real) (R uL : Vector)
    (fuel : nat) (s0 : Float) (sampler : Sampler) :
  sigma_s self = Fin ss -> mu self = Fin m -> (0 < ss)%R -> (0 < m)%R ->
  visFinite R = true -> visFinite uL = true ->
  (vlength R .== 0) = false -> (dot R uL .<= 0) = true ->
  sampler 1%nat = Fin u -> (0 < u < 1)%R ->
  sampleLengthShortLimit self fuel R None uL s0 sampler
  = Some (Fin (0.5 * ss * m / 2), Fin (2 * u / (0.5 * ss * m)),
          fun n => sampler (S (S n))).
Proof.
  intros Hss Hmu Hs0 Hm0 HR HuL HlR Hdot Hu Hu01.
  assert (Hp : (0 < 0.5 * ss * m)%R) by nra.
  set (p := (0.5 * ss * m)%R) in *.
  assert (Hs : (0 < 2 * u / p)%R) by (apply Rdiv_lt_0_compat; lra).
  assert (Hps : (2 * u / p * p < 2)%R).
  { replace (2 * u / p * p)%R with (2 * u)%R by (field; lra). lra. }
  unfold sampleLengthShortLimit, implLengthShortLimit,
    implLengthShortLimitMargOverU0.
  unfold next1D at 1.
  destruct (sampler 0%nat .> Fin 0.3);
    rewrite !(implLengthShortLimitMargOverU0_internal_backup self ss m)
      by assumption;
    fold p;
    destruct (shortLimitMargOverU0_finish_backup_draw fuel p u
                (Fin (-1)) (Fin (-1)) s0 (fun n => sampler (S n))
                Hp Hu Hu01) as (x1 & -> & ->);
    rewrite !(implLengthShortLimitMargOverU0_internal_backup self ss m)
      by assumption;
    fold p;
    destruct (shortLimitMargOverU0_finish_backup_pdf fuel p (2 * u / p)
                (-1) (-1) Hp Hs) as (x2 & -> & Hx2 & _);
    rewrite (Hx2 Hps); cbn [fmul fadd fsub fneg];
    do 3 f_equal; f_equal; lra.
Qed.

Lemma sampleLengthShortLimit_backup_zero {collab : Collaborators}
    (self : FwdScat) (ss m : real) (R uL : Vector)
    (fuel : nat) (s0 : Float) (sampler : Sampler) :
  sigma_s self = Fin ss -> mu self = Fin m -> (0 < ss)%R -> (0 < m)%R ->
  visFinite R = true -> visFinite uL = true ->
  (vlength R .== 0) = false -> (dot R uL .<= 0) = true ->
  sampler 1%nat = Fin 0 ->
  sampleLengthShortLimit self fuel R None uL s0 sampler
  = Some (NaN, Fin 0, fun n => sampler (S (S n))).
Proof.
  intros Hss Hmu Hs0 Hm0 HR HuL HlR Hdot Hu.
  assert (Hp : (0 < 0.5 * ss * m)%R) by nra.
  unfold sampleLengthShortLimit, implLengthShortLimit,
    implLengthShortLimitMargOverU0.
  unfold next1D at 1.
  destruct (sampler 0%nat .> Fin 0.3);
    rewrite !(implLengthShortLimitMargOverU0_internal_backup self ss m)
      by assumption;
    rewrite (shortLimitMargOverU0_finish_backup_zero fuel (0.5 * ss * m)
               (Fin (-1)) (Fin (-1)) s0 (fun n => sampler (S n)) Hp Hu);
    rewrite !(implLengthShortLimitMargOverU0_internal_backup self ss m)
      by assumption;
    rewrite (shortLimitMargOverU0_finish_backup_pdf_zero fuel
               (0.5 * ss * m) (Fin (-1)) (Fin (-1)) Hp);
    reflexivity.
Qed.

Lemma pdfLengthShortLimit_backup_zero {collab : Collaborators}
    (self : FwdScat) (ss m : real) (R uL : Vector) :
  sigma_s self = Fin ss -> mu self = Fin m -> (0 < ss)%R -> (0 < m)%R ->
  visFinite R = true -> visFinite uL = true ->
  (vlength R .== 0) = false -> (dot R uL .<= 0) = true ->
  pdfLengthShortLimit self R None uL (Fin 0) = NaN.
Proof.
  intros Hss Hmu Hs0 Hm0 HR HuL HlR Hdot.
  assert (Hp : (0 < 0.5 * ss * m)%R) by nra.
  unfold pdfLengthShortLimit, implLengthShortLimit,
    implLengthShortLimitMargOverU0.
  rewrite !(implLengthShortLimitMargOverU0_internal_backup self ss m)
    by assumption.
  rewrite (shortLimitMargOverU0_finish_backup_pdf_zero 0
             (0.5 * ss * m) (Fin (-1)) (Fin (-1)) Hp).
  reflexivity.
Qed.

(** X13.  Uniform backup of the ShortLimit strategy, in exact real
    arithmetic (no rounding).  With the entry direction unknown
    ([u0 == NULL]) and an exit direction [uL] that makes an angle of 90
    degrees or more with a finite, non-zero [R], the gaussian fit has no
    solution, and the strategy draws [ps = p s] as [2 u] (with
    [p = 0.5 sigma_s mu]): [sampleLengthShortLimit] consumes two random
    numbers and returns [s = 2 u / p] for the second one, [u]; for
    [0 < u < 1] the pdf it returns is [p/2]; [pdfLengthShortLimit] at a
    length [s > 0] is [p/2] for [ps < 2] and 0 from [ps = 2] on.  At
    [u = 0] the sampler returns the length 0 with a NaN pdf (the product
    [0 * pow(0, -7/2)] of the gaussian term), and [pdfLengthShortLimit]
    at the length 0 is NaN as well. *)
Theorem shortLimit_backup_uniform {collab : Collaborators}
    (self : FwdScat) (ss m : real) (R uL : Vector) :
  sigma_s self = Fin ss -> mu self = Fin m -> (0 < ss)%R -> (0 < m)%R ->
  visFinite R = true -> visFinite uL = true ->
  (vlength R .== 0) = false -> (dot R uL .<= 0) = true ->
  (forall s : real, (0 < s)%R ->
     exists x : real,
       pdfLengthShortLimit self R None uL (Fin s) = Fin x
       /\ ((0.5 * ss * m * s < 2)%R -> x = (0.5 * ss * m / 2)%R)
       /\ ((2 <= 0.5 * ss * m * s)%R -> x = 0%R))
  /\ (forall (fuel : nat) (s0 : Float) (sampler : Sampler),
        exists pdf : Float,
          sampleLengthShortLimit self fuel R None uL s0 sampler
          = Some (pdf, (2 .* sampler 1%nat) ./ Fin (0.5 * ss * m),
                  fun n => sampler (S (S n))))
  /\ (forall (fuel : nat) (s0 : Float) (sampler : Sampler) (u : real),
        sampler 1%nat = Fin u -> (0 < u < 1)%R ->
        sampleLengthShortLimit self fuel R None uL s0 sampler
        = Some (Fin (0.5 * ss * m / 2), Fin (2 * u / (0.5 * ss * m)),
                fun n => sampler (S (S n))))
  /\ (forall (fuel : nat) (s0 : Float) (sampler : Sampler),
        sampler 1%nat = Fin 0 ->
        sampleLengthShortLimit self fuel R None uL s0 sampler
        = Some (NaN, Fin 0, fun n => sampler (S (S n))))
  /\ pdfLengthShortLimit self R None uL (Fin 0) = NaN.
Proof.
  intros Hss Hmu Hs0 Hm0 HR HuL HlR Hdot. repeat split.
  - intros s Hs.
    apply (pdfLengthShortLimit_backup self ss m R uL s); assumption.
  - intros fuel s0 sampler.
    apply (sampleLengthShortLimit_backup self ss m R uL); assumption.
  - intros fuel s0 sampler u Hu Hu01.
    apply (sampleLengthShortLimit_backup_draw self ss m u R uL);
      assumption.
  - intros fuel s0 sampler Hu.
    apply (sampleLengthShortLimit_backup_zero self ss m R uL); assumption.
  - apply (pdfLengthShortLimit_backup_zero self ss m R uL); assumption.
Qed.

Lemma sample_geometry_orthogonal :
  (vlength (mkVector 1 0 0) .== 0) = false
  /\ (dot (mkVector 1 0 0) (mkVector 0 0 1) .<= 0) = true.
Proof.
  split.
  - rewrite vlength_fin. apply feqb_fin_false.
    intros H. apply sqrt_eq_0 in H; lra.
  - rewrite dot_fin. apply fleb_fin. lra.
Qed.

Lemma shortLimit_backup_uniform_witness :
  (forall s : real, (0 < s)%R ->
     exists x : real,
       pdfLengthShortLimit (collab := sample_collaborators)
         (mkFwdScat 1 0 1 1) (mkVector 1 0 0) None (mkVector 0 0 1) (Fin s)
       = Fin x
       /\ ((0.5 * 1 * 1 * s < 2)%R -> x = (0.5 * 1 * 1 / 2)%R)
       /\ ((2 <= 0.5 * 1 * 1 * s)%R -> x = 0%R))
  /\ (forall (fuel : nat) (s0 : Float) (sampler : Sampler),
        exists pdf : Float,
          sampleLengthShortLimit (collab := sample_collaborators)
            (mkFwdScat 1 0 1 1) fuel (mkVector 1 0 0) None (mkVector 0 0 1)
            s0 sampler
          = Some (pdf, (2 .* sampler 1%nat) ./ Fin (0.5 * 1 * 1),
                  fun n => sampler (S (S n))))
  /\ (forall (fuel : nat) (s0 : Float) (sampler : Sampler) (u : real),
        sampler 1%nat = Fin u -> (0 < u < 1)%R ->
        sampleLengthShortLimit (collab := sample_collaborators)
          (mkFwdScat 1 0 1 1) fuel (mkVector 1 0 0) None (mkVector 0 0 1)
          s0 sampler
        = Some (Fin (0.5 * 1 * 1 / 2), Fin (2 * u / (0.5 * 1 * 1)),
                fun n => sampler (S (S n))))
  /\ (forall (fuel : nat) (s0 : Float) (sampler : Sampler),
        sampler 1%nat = Fin 0 ->
        sampleLengthShortLimit (collab := sample_collaborators)
          (mkFwdScat 1 0 1 1) fuel (mkVector 1 0 0) None (mkVector 0 0 1)
          s0 sampler
        = Some (NaN, Fin 0, fun n => sampler (S (S n))))
  /\ pdfLengthShortLimit (collab := sample_collaborators)
       (mkFwdScat 1 0 1 1) (mkVector 1 0 0) None (mkVector 0 0 1) (Fin 0)
     = NaN.
Proof.
  destruct sample_geometry_orthogonal as [H1 H2].
  apply (shortLimit_backup_uniform (collab := sample_collaborators)
           (mkFwdScat 1 0 1 1) 1 1 (mkVector 1 0 0) (mkVector 0 0 1));
    try reflexivity; try lra; assumption.
Defined.

(** IEEE equality of a value with itself fails for NaN only. *)
Lemma feqb_refl_number (a : Float) : a <> NaN -> (a .== a) = true.
Proof.
  destruct a as [x| | |]; intros H;
    [apply feqb_refl_fin|reflexivity|reflexivity|contradiction].
Qed.

(** The two guards of [implLengthShortLimitKnownU0], on the fitted mean
    and on the fitted standard deviation, leave a positive number. *)
Lemma knownU0_guard (x : Float) (f : real) :
  (0 < f)%R ->
  exists v : real,
    (if negb (isfinite x) || (x .<= 0) then Fin f else x) = Fin v
    /\ (0 < v)%R.
Proof.
  intros Hf.
  destruct x as [x| | |]; cbn [isfinite negb orb];
    try (exists f; split; [reflexivity|exact Hf]).
  destruct (Fin x .<= 0) eqn:E.
  - exists f. split; [reflexivity|exact Hf].
  - exists x. split; [reflexivity|].
    destruct (Rle_dec x 0) as [H|H]; [|lra].
    apply fleb_fin in H. rewrite H in E. discriminate E.
Qed.

(** With the sample truncated normal, a positive mean, a positive standard
    deviation and a random number [u >= 0], the first draw
    [t = mean + stddev u] is positive: the loop [do ... while (t == 0)]
    stops at once, with a positive length and a positive pdf. *)
Lemma shortLimitKnownU0_finish_draw
    (fuel : nat) (p mn sd u : real) (s0 : Float) (smp : Sampler) :
  (0 < p)%R -> (0 < mn)%R -> (0 < sd)%R ->
  smp 0%nat = Fin u -> (0 <= u)%R ->
  exists pdf s : real,
    shortLimitKnownU0_finish (collab := sample_collaborators)
      (S fuel) (Fin p) (Fin mn) (Fin sd) s0 (Some smp)
    = Some (Fin s, Fin pdf, Some (fun n => smp (S n)))
    /\ (0 < pdf)%R /\ (0 < s)%R.
Proof.
  intros Hp Hmn Hsd Hu Hu0.
  unfold shortLimitKnownU0_finish.
  cbn [truncnorm_nonzero truncnorm truncnormPdf sample_collaborators].
  unfold sample_truncnorm, sample_truncnormPdf, next1D. rewrite Hu.
  cbn [fmul fadd].
  assert (Ht : (0 < mn + sd * u)%R) by nra.
  set (t := (mn + sd * u)%R) in *.
  unfold clamp, std_max, std_min.
  rewrite (fltb_fin_true 0.0 t) by lra. cbn [fltb].
  rewrite (feqb_fin_false t 0) by lra.
  rewrite fpow_fin by exact Ht.
  assert (Hps : (0 < Rpower t (-1 / 3))%R) by (unfold Rpower; apply exp_pos).
  set (ps := Rpower t (-1 / 3)) in *.
  rewrite (fltb_fin_false t 0.0) by lra. cbn [fgtb fltb orb].
  assert (Hps4 : (0 < ps * ps * ps * ps)%R)
    by (apply Rmult_lt_0_compat;
        [apply Rmult_lt_0_compat; [apply Rmult_lt_0_compat|]|]; exact Hps).
  rewrite !fdiv_fin by lra. cbn [fmul]. rewrite !fdiv_fin by lra.
  cbn [fmul].
  eexists _, _. split; [reflexivity|]. split.
  - apply Rmult_lt_0_compat; [|exact Hp].
    apply Rdiv_lt_0_compat; [|exact Hps4].
    apply Rmult_lt_0_compat; [|lra].
    apply Rdiv_lt_0_compat; lra.
  - apply Rdiv_lt_0_compat; assumption.
Qed.

(** With the entry direction known, a finite [R] of non-zero length and
    the sample truncated normal, the ShortLimit strategy takes its
    gaussian draw and hands back a positive length with a positive pdf. *)
Lemma sampleLengthShortLimit_knownU0_draw
    (self : FwdScat) (ss m u : real) (fuel : nat) (R u0 uL : Vector)
    (s0 : Float) (smp : Sampler) :
  sigma_s self = Fin ss -> mu self = Fin m -> (0 < ss)%R -> (0 < m)%R ->
  visFinite R = true -> (vlength R .== 0) = false ->
  smp 0%nat = Fin u -> (0 <= u)%R ->
  exists pdf s : real,
    sampleLengthShortLimit (collab := sample_collaborators)
      self (S fuel) R (Some u0) uL s0 smp
    = Some (Fin pdf, Fin s, fun n => smp (S n))
    /\ (0 < pdf)%R /\ (0 < s)%R.
Proof.
  intros Hss Hmu Hs0 Hm0 HR HlR Hu Hu0.
  destruct (visFinite_inv R HR) as (x & y & z & ->).
  rewrite vlength_fin in HlR. apply feqb_zero_inv in HlR.
  assert (HL : (0 < sqrt (x * x + y * y + z * z))%R)
    by (pose proof (sqrt_pos (x * x + y * y + z * z)); lra).
  unfold sampleLengthShortLimit, implLengthShortLimit,
    implLengthShortLimitKnownU0.
  rewrite Hss, Hmu, vlength_fin.
  set (L := sqrt (x * x + y * y + z * z)) in *.
  change (Fin 0.5 .* Fin ss .* Fin m) with (Fin (0.5 * ss * m)).
  set (p := (0.5 * ss * m)%R).
  assert (Hp : (0 < p)%R) by (unfold p; nra).
  assert (Hr : (0 < L * p)%R) by (apply Rmult_lt_0_compat; assumption).
  change (Fin L .* Fin p) with (Fin (L * p)).
  set (r := (L * p)%R) in *.
  change (Fin r .* Fin r .* Fin r) with (Fin (r * r * r)).
  rewrite (feqb_fin_false r 0) by lra.
  assert (Hr3 : (0 < r * r * r)%R)
    by (apply Rmult_lt_0_compat; [apply Rmult_lt_0_compat|]; exact Hr).
  rewrite (fdiv_fin 1 (r * r * r)) by lra.
  match goal with
  | |- context [shortLimitKnownU0_mean ?a ?b ?c] =>
      generalize (shortLimitKnownU0_mean a b c); intros mean0
  end.
  destruct (knownU0_guard mean0 (1 / (r * r * r)))
    as (mn & -> & Hmn).
  { apply Rdiv_lt_0_compat; lra. }
  match goal with
  | |- context [Fin 2 .* shortLimitKnownU0_realStddev ?a ?b ?c ?d] =>
      generalize (Fin 2 .* shortLimitKnownU0_realStddev a b c d);
      intros sd0
  end.
  destruct (knownU0_guard sd0 mn Hmn) as (sd & -> & Hsd).
  destruct (shortLimitKnownU0_finish_draw fuel p mn sd u s0 smp
              Hp Hmn Hsd Hu Hu0) as (pdf & s & -> & Hpdf & Hs).
  exists pdf, s. split; [reflexivity|]. split; assumption.
Qed.

Lemma sample_geometry_aligned :
  visFinite (mkVector 0 0 0.5) = true
  /\ (vlength (mkVector 0 0 0.5) .== 0) = false.
Proof.
  split; [reflexivity|].
  rewrite vlength_fin. apply feqb_fin_false.
  intros H. apply sqrt_eq_0 in H; lra.
Qed.

(** X14.  Sample/pdf consistency of the ShortLimit strategy, in exact
    real arithmetic (no rounding: the length [s = ps / p] handed back
    gives [ps] and [t] back exactly when the pdf is recomputed from it):
    whenever [sampleLengthShortLimit] returns a pdf that is not NaN
    together with a sampled length [s] (entry direction known or not,
    gaussian or uniform arm), that pdf is the value [pdfLengthShortLimit]
    computes for that [s], and the two compare equal with [==];
    [sigma_s] and [mu] are positive and [truncnorm] returns no negative
    number.  The NaN pdf of a uniform draw of exactly 0 is left out. *)
Theorem sampleLengthShortLimit_consistent {collab : Collaborators}
    (self : FwdScat) (ss m : real) (fuel : nat) (R : Vector)
    (u0 : option Vector) (uL : Vector)
    (s0 : Float) (smp : Sampler) (pdf s : Float) (smp' : Sampler) :
  sigma_s self = Fin ss -> mu self = Fin m -> (0 < ss)%R -> (0 < m)%R ->
  truncnorm_in_range ->
  sampleLengthShortLimit self fuel R u0 uL s0 smp = Some (pdf, s, smp') ->
  pdf <> NaN ->
  pdf = pdfLengthShortLimit self R u0 uL s
  /\ (pdf .== pdfLengthShortLimit self R u0 uL s) = true.
Proof.
  intros Hss Hmu Hs0 Hm0 Hrange Hcall Hnan.
  pose proof (sampleLengthShortLimit_pdf self ss m fuel R u0 uL s0 smp
                pdf s smp' Hss Hmu Hs0 Hm0 Hrange Hcall) as Heq.
  split; [exact Heq|].
  rewrite <- Heq. apply feqb_refl_number. exact Hnan.
Qed.

Lemma sampleLengthShortLimit_consistent_witness :
  exists pdf s : Float,
    sampleLengthShortLimit (collab := sample_collaborators)
      (mkFwdScat 2 1 1 1) 1 (mkVector 0 0 0.5) (Some (mkVector 0 0 1))
      (mkVector 0 0 1) NaN sample_stream
    = Some (pdf, s, fun n => sample_stream (S n))
    /\ pdf <> NaN
    /\ pdf = pdfLengthShortLimit (collab := sample_collaborators)
               (mkFwdScat 2 1 1 1) (mkVector 0 0 0.5)
               (Some (mkVector 0 0 1)) (mkVector 0 0 1) s
    /\ (pdf .== pdfLengthShortLimit (collab := sample_collaborators)
                  (mkFwdScat 2 1 1 1) (mkVector 0 0 0.5)
                  (Some (mkVector 0 0 1)) (mkVector 0 0 1) s) = true.
Proof.
  destruct sample_geometry_aligned as [H1 H2].
  destruct (sampleLengthShortLimit_knownU0_draw
              (mkFwdScat 2 1 1 1) 2 1 0.25 0 (mkVector 0 0 0.5)
              (mkVector 0 0 1) (mkVector 0 0 1) NaN sample_stream
              eq_refl eq_refl ltac:(lra) ltac:(lra) H1 H2 eq_refl
              ltac:(lra))
    as (pdf & s & Hcall & Hpdf & Hs).
  exists (Fin pdf), (Fin s).
  split; [exact Hcall|]. split; [discriminate|].
  apply (sampleLengthShortLimit_consistent (collab := sample_collaborators)
           (mkFwdScat 2 1 1 1) 2 1 1 (mkVector 0 0 0.5)
           (Some (mkVector 0 0 1)) (mkVector 0 0 1) NaN sample_stream
           (Fin pdf) (Fin s) _ eq_refl eq_refl
           ltac:(lra) ltac:(lra) sample_truncnorm_in_range Hcall).
  discriminate.
Defined.

(** X15.  Sample/pdf consistency of the LongLimit strategy: when
    [sampleLengthLongLimit] returns a non-zero pdf together with a length
    [s] (from the root search, or from the absorption strategy it falls
    back on for [beta <= 0]), that pdf is the value of
    [pdfLengthLongLimit] at [s]. *)
Theorem sampleLengthLongLimit_consistent {collab : Collaborators}
    (self : FwdScat) (fuel : nat) (R uL : Vector)
    (s0 : Float) (smp : Sampler) (pdf s : Float) (smp' : Sampler) :
  sampleLengthLongLimit self fuel R uL s0 smp = Some (pdf, s, smp') ->
  (pdf .== 0) = false ->
  pdf = pdfLengthLongLimit self R uL s.
Proof.
  intros Hcall Hnz.
  destruct (sampleLengthLongLimit_pdf self fuel R uL s0 smp pdf s smp' Hcall)
    as [Hz|Heq]; [|exact Heq].
  rewrite Hz in Hnz. discriminate Hnz.
Qed.

Lemma ln_quarter_neg : (ln 0.25 < 0)%R.
Proof.
  rewrite <- ln_1. apply ln_increasing; lra.
Qed.

Lemma sampleLengthLongLimit_sample_call :
  exists x : real,
    sampleLengthLongLimit (collab := sample_collaborators)
      (mkFwdScat 1 1 1 1) 0 (mkVector 0 0 0) (mkVector 0 0 1) (Fin 1)
      sample_stream
    = Some (Fin x, Fin (- ln 0.25 / 1), fun n => sample_stream (S n))
    /\ (0 < x)%R.
Proof.
  unfold sampleLengthLongLimit, longLimit_beta, sampleLengthAbsorption.
  cbn [sigma_s mu sigma_a fmul fadd fsub fneg vscale dot lengthSquared
       vx vy vz].
  rewrite (feqb_fin_false (0.5 * 1 * 1) 0) by lra.
  match goal with
  | |- context [Fin ?b .<= Fin 0] =>
      assert (Hb : (Fin b .<= Fin 0) = true) by (apply fleb_fin; lra);
      rewrite Hb
  end.
  rewrite (feqb_fin_false 1 0) by lra.
  unfold next1D. cbn [sample_stream].
  unfold flog. rewrite Rsgn_pos by lra. cbn [fneg].
  rewrite fdiv_fin by lra. cbn [fmul fexp].
  eexists. split; [reflexivity|].
  apply Rmult_lt_0_compat; [lra|apply exp_pos].
Qed.

Lemma sampleLengthLongLimit_consistent_witness :
  exists x : real,
    sampleLengthLongLimit (collab := sample_collaborators)
      (mkFwdScat 1 1 1 1) 0 (mkVector 0 0 0) (mkVector 0 0 1) (Fin 1)
      sample_stream
    = Some (Fin x, Fin (- ln 0.25 / 1), fun n => sample_stream (S n))
    /\ Fin x = pdfLengthLongLimit
                 (mkFwdScat 1 1 1 1) (mkVector 0 0 0) (mkVector 0 0 1)
                 (Fin (- ln 0.25 / 1)).
Proof.
  destruct sampleLengthLongLimit_sample_call as (x & Hcall & Hx).
  exists x. split; [exact Hcall|].
  apply (sampleLengthLongLimit_consistent (collab := sample_collaborators)
           (mkFwdScat 1 1 1 1) 0 (mkVector 0 0 0) (mkVector 0 0 1) (Fin 1)
           sample_stream (Fin x) _ _ Hcall).
  apply feqb_fin_false. lra.
Defined.

(** X16.  In exact real arithmetic (no rounding in [log], [exp], the
    product and the quotient), [sampleLengthAbsorption] inverts the
    exponential distribution:
    for [sigma_a > 0] and a random number [u] in (0, 1] it returns the
    length [s = -ln(u)/sigma_a >= 0], for which [exp(-sigma_a s) = u],
    and the pdf [sigma_a u], which is [pdfLengthAbsorption] at [s]; one
    random number is consumed.  For [sigma_a = 0] it returns pdf 0 and
    leaves [s] and the sampler untouched. *)
Theorem sampleLengthAbsorption_inverts
    (self : FwdScat) (sa u : real) (s0 : Float) (sampler : Sampler) :
  sigma_a self = Fin sa -> sampler 0%nat = Fin u -> (0 < u <= 1)%R ->
  ((0 < sa)%R ->
   exists s : real,
     sampleLengthAbsorption self s0 sampler
     = (Fin (sa * u), Fin s, fun n => sampler (S n))
     /\ (0 <= s)%R /\ exp (- sa * s) = u
     /\ pdfLengthAbsorption self (Fin s) = Fin (sa * u))
  /\ (sa = 0%R ->
      sampleLengthAbsorption self s0 sampler = (Fin 0, s0, sampler)).
Proof.
  intros Hsa Hu Hu01.
  unfold sampleLengthAbsorption, pdfLengthAbsorption, next1D.
  rewrite Hsa, Hu. split.
  - intros Hpos. rewrite (feqb_fin_false sa 0) by lra.
    unfold flog. rewrite Rsgn_pos by lra. cbn [fneg].
    rewrite fdiv_fin by lra. cbn [fmul fexp].
    assert (He : exp (- sa * (- ln u / sa)) = u).
    { replace (- sa * (- ln u / sa))%R with (ln u) by (field; lra).
      apply exp_ln. lra. }
    exists (- ln u / sa)%R. cbn [fneg fmul fexp]. rewrite !He.
    split; [reflexivity|]. split; [|split; reflexivity].
    assert (Hln : (ln u <= 0)%R).
    { destruct (Req_dec u 1) as [->|Hne]; [rewrite ln_1; lra|].
      rewrite <- ln_1. left. apply ln_increasing; lra. }
    unfold Rdiv. assert (0 < / sa)%R by (apply Rinv_0_lt_compat; exact Hpos).
    nra.
  - intros ->. rewrite feqb_refl_fin. f_equal. f_equal. f_equal. lra.
Qed.

Lemma sampleLengthAbsorption_inverts_witness :
  ((0 < 2)%R ->
   exists s : real,
     sampleLengthAbsorption
       (mkFwdScat 1 2 1 1) (Fin 1) sample_stream
     = (Fin (2 * 0.25), Fin s, fun n => sample_stream (S n))
     /\ (0 <= s)%R /\ exp (- (2) * s) = 0.25%R
     /\ pdfLengthAbsorption
          (mkFwdScat 1 2 1 1) (Fin s) = Fin (2 * 0.25))
  /\ (2%R = 0%R ->
      sampleLengthAbsorption
        (mkFwdScat 1 2 1 1) (Fin 1) sample_stream
      = (Fin 0, Fin 1, sample_stream)).
Proof.
  apply (sampleLengthAbsorption_inverts
           (mkFwdScat 1 2 1 1) 2 0.25 (Fin 1) sample_stream);
    try reflexivity; lra.
Defined.

Lemma fmul_fin (x y : real) : Fin x .* Fin y = Fin (x * y).
Proof. reflexivity. Qed.

Lemma fadd_fin (x y : real) : Fin x .+ Fin y = Fin (x + y).
Proof. reflexivity. Qed.

Lemma fsub_fin (x y : real) : Fin x .- Fin y = Fin (x + - y).
Proof. reflexivity. Qed.

Lemma fneg_fin (x : real) : .- Fin x = Fin (- x).
Proof. reflexivity. Qed.

Lemma fexp_fin (x : real) : fexp (Fin x) = Fin (exp x).
Proof. reflexivity. Qed.

(** Arithmetic on finite values, carried out where both operands are
    finite. *)
Ltac fin_simpl :=
  repeat (rewrite ?fmul_fin, ?fadd_fin, ?fsub_fin, ?fneg_fin, ?fexp_fin).

(** The value of [pdfLengthLongLimit] at a positive length: the gaussian
    arm is a quotient of square roots times exponentials, the fallback is
    [sigma_a exp(-sigma_a s)]. *)
Lemma pdfLengthLongLimit_fin_nonneg (self : FwdScat)
    (ss m sa s : real) (R uL : Vector) :
  sigma_s self = Fin ss -> mu self = Fin m -> sigma_a self = Fin sa ->
  (0 < ss)%R -> (0 < m)%R -> (0 <= sa)%R -> (0 < s)%R ->
  visFinite R = true -> visFinite uL = true ->
  exists b : real,
    pdfLengthLongLimit self R uL (Fin s) = Fin b /\ (0 <= b)%R.
Proof.
  intros Hss Hmu Hsa Hs0 Hm0 Ha0 Hs HR HuL.
  destruct (visFinite_inv R HR) as (x & y & z & ->).
  destruct (visFinite_inv uL HuL) as (a & b & c & ->).
  unfold pdfLengthLongLimit, pdfLengthAbsorption, fastexp.
  rewrite Hss, Hmu, Hsa.
  unfold vscale, dot, lengthSquared. cbn [vx vy vz]. fin_simpl.
  set (p := (0.5 * ss * m)%R).
  assert (Hp : (0 < p)%R) by (unfold p; nra).
  rewrite (feqb_fin_false p 0) by lra.
  match goal with
  | |- context [Fin ?b0 .<= Fin 0] => set (beta := b0)
  end.
  destruct (Rle_dec beta 0) as [Hb|Hb].
  - assert (Hb' : (Fin beta .<= 0) = true) by (apply fleb_fin; exact Hb).
    rewrite Hb'.
    destruct (Req_EM_T sa 0) as [->|Hne].
    + rewrite feqb_refl_fin. eexists. split; [reflexivity|]. lra.
    + rewrite (feqb_fin_false sa 0) by exact Hne.
      eexists. split; [reflexivity|].
      apply Rmult_le_pos; [exact Ha0|left; apply exp_pos].
  - assert (Hb' : (Fin beta .<= 0) = false).
    { destruct (Fin beta .<= 0) eqn:E; [|reflexivity].
      apply fleb_fin in E. lra. }
    rewrite Hb'.
    assert (HPI : (0 < PI)%R) by apply PI_RGT_0.
    unfold M_PI_DBL.
    assert (Hbp : (0 < beta / PI)%R) by (apply Rdiv_lt_0_compat; lra).
    assert (Hsp : (0 < s * p)%R) by (apply Rmult_lt_0_compat; assumption).
    assert (Hap : (0 <= beta * (sa / p))%R).
    { apply Rmult_le_pos; [lra|]. unfold Rdiv.
      apply Rmult_le_pos; [exact Ha0|].
      left. apply Rinv_0_lt_compat. exact Hp. }
    assert (Hss1 : (0 < sqrt (s * p))%R) by (apply sqrt_lt_R0; exact Hsp).
    assert (Hden : (0 < s * p * sqrt (s * p))%R)
      by (apply Rmult_lt_0_compat; assumption).
    rewrite (fdiv_fin beta PI) by lra.
    rewrite (fdiv_fin sa p) by lra.
    rewrite (fsqrt_fin (beta / PI)) by lra.
    rewrite (fsqrt_fin (s * p)) by lra.
    fin_simpl.
    rewrite (fsqrt_fin (beta * (sa / p))) by exact Hap.
    rewrite !fdiv_fin by lra.
    fin_simpl. cbn [isfinite negb].
    eexists. split; [reflexivity|].
    apply Rmult_le_pos; [|lra].
    apply Rmult_le_pos; [|left; apply exp_pos].
    left. apply Rdiv_lt_0_compat; [apply sqrt_lt_R0; exact Hbp|exact Hden].
Qed.

(** X17.  [pdfLengthLongLimit] returns a finite, nonnegative number for
    a medium with [sigma_s > 0], [mu > 0], [sigma_a >= 0], finite [R] and
    [uL] and a finite length [s > 0], in the gaussian arm ([beta > 0]) as
    in the absorption fallback ([beta <= 0]). *)
Theorem pdfLengthLongLimit_nonneg (self : FwdScat)
    (ss m sa s : real) (R uL : Vector) :
  sigma_s self = Fin ss -> mu self = Fin m -> sigma_a self = Fin sa ->
  (0 < ss)%R -> (0 < m)%R -> (0 <= sa)%R -> (0 < s)%R ->
  visFinite R = true -> visFinite uL = true ->
  exists b : real,
    pdfLengthLongLimit self R uL (Fin s) = Fin b /\ (0 <= b)%R.
Proof.
  intros Hss Hmu Hsa Hs0 Hm0 Ha0 Hs HR HuL.
  exact (pdfLengthLongLimit_fin_nonneg self ss m sa s R uL
           Hss Hmu Hsa Hs0 Hm0 Ha0 Hs HR HuL).
Qed.

Lemma pdfLengthLongLimit_nonneg_witness :
  exists b : real,
    pdfLengthLongLimit (mkFwdScat 1 0.5 1 1) (mkVector 2 0 0)
      (mkVector 0 0 1) (Fin 1) = Fin b
    /\ (0 <= b)%R.
Proof.
  apply (pdfLengthLongLimit_nonneg (mkFwdScat 1 0.5 1 1) 1 1 0.5 1);
    try reflexivity; lra.
Defined.

(** ** Direction sampler: the samplers of the two angles *)

(** X18.  Sample/pdf consistency of the two angle samplers:
    [sampleExpSinCos_dCos] and [sampleExpCos_dPhi], called with a sampler,
    return the pdf that the same function returns when it is called
    without a sampler on the angle it has just drawn (whichever strategy
    was drawn, and also where [sampleExpCos_dPhi] gives up with pdf 0). *)
Theorem angle_samplers_consistent
    {collab : Collaborators} {dcollab : DirectionCollaborators}
    (a b angle0 : Float) (sampler : Sampler) :
  (let '(pdf, cosTheta, _) :=
     sampleExpSinCos_dCos a b angle0 (Some sampler) in
   sampleExpSinCos_dCos a b cosTheta None = (pdf, cosTheta, None))
  /\ (let '(pdf, phi, _) := sampleExpCos_dPhi a angle0 (Some sampler) in
      sampleExpCos_dPhi a phi None = (pdf, phi, None)).
Proof.
  split.
  - unfold sampleExpSinCos_dCos. unfold next1D at 1.
    destruct (sampler 0%nat .< _).
    + destruct (truncnorm _ _ _ _ _) as [c smp']. reflexivity.
    + destruct (sampler 0%nat .< _); reflexivity.
  - unfold sampleExpCos_dPhi. unfold next1D at 1.
    destruct (_ .* _ .== 0); [reflexivity|].
    destruct (a .> 0);
      (destruct (sampler 0%nat .< Fin 0.10);
       [reflexivity|destruct (truncnorm _ _ _ _ _) as [ph smp']; reflexivity]).
Qed.

Lemma clamp_within (x : Float) (lo hi : real) :
  (lo <= hi)%R ->
  exists t : real, clamp x (Fin lo) (Fin hi) = Fin t /\ (lo <= t <= hi)%R.
Proof.
  intros Hle. destruct x as [x| | |].
  - rewrite clamp_fin_value. eexists. split; [reflexivity|].
    unfold Rmin, Rmax.
    destruct (Rle_dec lo x); destruct (Rle_dec hi _); lra.
  - unfold clamp, std_min, std_max. cbn [fltb].
    exists hi. split; [reflexivity|lra].
  - unfold clamp, std_min, std_max. cbn [fltb].
    destruct (Rlt_dec lo hi).
    + exists lo. split; [reflexivity|lra].
    + exists hi. split; [reflexivity|lra].
  - unfold clamp, std_min, std_max. cbn [fltb].
    destruct (Rlt_dec lo hi).
    + exists lo. split; [reflexivity|lra].
    + exists hi. split; [reflexivity|lra].
Qed.

Lemma sample_truncnorm_within :
  truncnorm_within (collab := sample_collaborators).
Proof.
  intros mean stddev lo hi smp Hle.
  cbn [truncnorm sample_collaborators]. unfold sample_truncnorm.
  destruct (next1D smp) as [u smp1]. cbn [fst].
  apply clamp_within. exact Hle.
Qed.

Lemma sample_truncatedExponential_within :
  truncatedExponential_within (dcollab := sample_direction_collaborators).
Proof.
  intros a lo hi u Hle Hu.
  cbn [uniformToTruncatedExponential sample_direction_collaborators].
  apply clamp_within. exact Hle.
Qed.

Lemma sample_stream_in_unit : stream_in_unit sample_stream.
Proof.
  intros [|[|n]]; cbn [sample_stream]; eexists; (split; [reflexivity|lra]).
Qed.

(** X19.  The angles drawn by the two angle samplers stay in their
    range: for a [truncnorm] and a truncated exponential that stay in the
    interval they are given and random numbers in [0, 1],
    [sampleExpSinCos_dCos] returns [cosTheta] in [-1, 0] (an incoming
    direction), whichever of its three strategies is drawn, and
    [sampleExpCos_dPhi] either gives up, returning pdf 0 and leaving
    [phi] as it was handed in, or returns [phi] in [-pi, pi] for [a > 0]
    and in [0, 2 pi] otherwise. *)
Theorem angle_samplers_in_range
    {collab : Collaborators} {dcollab : DirectionCollaborators}
    (a b angle0 : Float) (sampler : Sampler) :
  truncnorm_within -> truncatedExponential_within ->
  stream_in_unit sampler ->
  (let '(_, cosTheta, _) :=
     sampleExpSinCos_dCos a b angle0 (Some sampler) in
   exists c : real, cosTheta = Fin c /\ (-1 <= c <= 0)%R)
  /\ (let '(pdf, phi, _) := sampleExpCos_dPhi a angle0 (Some sampler) in
      (pdf = Fin 0 /\ phi = angle0)
      \/ exists p : real,
           phi = Fin p
           /\ (if a .> 0 then (- PI <= p <= PI)%R
               else (0 <= p <= 2 * PI)%R)).
Proof.
  intros Htn Hexp Hunit.
  assert (HPI : (0 < PI)%R) by apply PI_RGT_0.
  split.
  - unfold sampleExpSinCos_dCos. unfold next1D.
    destruct (sampler 0%nat .< _).
    + match goal with
      | |- context [truncnorm ?mean ?sd _ _ ?smp] =>
          destruct (Htn mean sd (-1.0)%R 0.0%R smp ltac:(lra))
            as (t & Ht & Hr);
          destruct (truncnorm mean sd (Fin (-1.0)) (Fin 0.0) smp)
            as [c smp']
      end.
      cbn [fst] in Ht. subst c. exists t. split; [reflexivity|lra].
    + destruct (Hunit 1%nat) as (u & Hu & Hu01).
      destruct (sampler 0%nat .< _).
      * rewrite Hu.
        destruct (Hexp b (-1.0)%R 0.0%R u ltac:(lra) Hu01)
          as (t & Ht & Hr).
        rewrite Ht. exists t. split; [reflexivity|lra].
      * rewrite Hu. exists (- u)%R. split; [reflexivity|lra].
  - unfold sampleExpCos_dPhi. unfold next1D.
    destruct (_ .* _ .== 0); [left; split; reflexivity|].
    unfold M_PI_DBL, TWO_PI_DBL.
    destruct (a .> 0); cbn [fneg].
    + destruct (sampler 0%nat .< Fin 0.10).
      * destruct (Hunit 1%nat) as (u & Hu & Hu01). rewrite Hu.
        right. eexists. split; [reflexivity|]. nra.
      * match goal with
        | |- context [truncnorm ?mean ?sd _ _ ?smp] =>
            destruct (Htn mean sd (- PI)%R PI smp ltac:(lra))
              as (t & Ht & Hr);
            destruct (truncnorm mean sd (Fin (- PI)) (Fin PI) smp)
              as [c smp']
        end.
        cbn [fst] in Ht. subst c. right. exists t.
        split; [reflexivity|lra].
    + destruct (sampler 0%nat .< Fin 0.10).
      * destruct (Hunit 1%nat) as (u & Hu & Hu01). rewrite Hu.
        right. eexists. split; [reflexivity|]. nra.
      * match goal with
        | |- context [truncnorm ?mean ?sd _ _ ?smp] =>
            destruct (Htn mean sd 0%R (2 * PI)%R smp ltac:(lra))
              as (t & Ht & Hr);
            destruct (truncnorm mean sd (Fin 0) (Fin (2 * PI)) smp)
              as [c smp']
        end.
        cbn [fst] in Ht. subst c. right. exists t.
        split; [reflexivity|lra].
Qed.

Lemma angle_samplers_in_range_witness :
  (let '(_, cosTheta, _) :=
     sampleExpSinCos_dCos (collab := sample_collaborators)
       (dcollab := sample_direction_collaborators)
       (Fin 1) (Fin 1) NaN (Some sample_stream) in
   exists c : real, cosTheta = Fin c /\ (-1 <= c <= 0)%R)
  /\ (let '(pdf, phi, _) :=
        sampleExpCos_dPhi (collab := sample_collaborators)
          (Fin 1) NaN (Some sample_stream) in
      (pdf = Fin 0 /\ phi = NaN)
      \/ exists p : real,
           phi = Fin p
           /\ (if Fin 1 .> 0 then (- PI <= p <= PI)%R
               else (0 <= p <= 2 * PI)%R)).
Proof.
  apply (angle_samplers_in_range (collab := sample_collaborators)
           (dcollab := sample_direction_collaborators)
           (Fin 1) (Fin 1) NaN sample_stream
           sample_truncnorm_within sample_truncatedExponential_within
           sample_stream_in_unit).
Defined.

(** ** Direction sampler: the monopole samplers *)

Lemma sane_pdf_zero : sane_pdf (Fin 0).
Proof. exists 0%R. split; [reflexivity|lra]. Qed.

(** The guard [if (!std::isfinite(thePdf) || thePdf < 0) return;]. *)
Lemma sane_pdf_guard (thePdf : Float) :
  (negb (isfinite thePdf) || (thePdf .< 0)) = false -> sane_pdf thePdf.
Proof.
  destruct thePdf as [p| | |]; cbn [isfinite negb orb]; try discriminate.
  intros H. exists p. split; [reflexivity|].
  destruct (Rlt_dec p 0) as [Hlt|Hge]; [|lra].
  rewrite fltb_fin_true in H by exact Hlt. discriminate H.
Qed.

(** X20.  The monopole samplers [implDirectionBoundaryAwareMonopole_bis]
    and [implDirectionBoundaryAwareMonopole_BRDF] never hand out a
    negative pdf, a NaN or an infinity: whatever the inputs and whether
    they sample or evaluate, the pdf they write is a finite number
    [>= 0] (0 on each of their early returns). *)
Theorem monopole_impl_pdf_sane
    {collab : Collaborators} {dcollab : DirectionCollaborators}
    (self : FwdScat) (u0 n0 uL R : Vector) (s : Float)
    (sampler : option Sampler) :
  sane_pdf (fst (fst (implDirectionBoundaryAwareMonopole_bis
                        self u0 n0 uL R s sampler)))
  /\ sane_pdf (fst (fst (implDirectionBoundaryAwareMonopole_BRDF
                           self u0 n0 uL R s sampler))).
Proof.
  split.
  - unfold implDirectionBoundaryAwareMonopole_bis. cbv zeta.
    destruct (match sampler with
              | Some _ => sampleExpSinCos_dCos _ _ NaN sampler
              | None => _
              end) as [[cosThetaPdf cosTheta] smp1].
    destruct (match smp1 with
              | Some _ => sampleExpCos_dPhi _ NaN smp1
              | None => _
              end) as [[phiPdf phi] smp2].
    destruct (phiPdf .== 0); [apply sane_pdf_zero|].
    destruct (negb (isfinite (cosThetaPdf .* phiPdf))
              || (cosThetaPdf .* phiPdf .< 0)) eqn:Hg;
      [apply sane_pdf_zero|].
    cbn [fst]. apply sane_pdf_guard. exact Hg.
  - unfold implDirectionBoundaryAwareMonopole_BRDF. cbv zeta.
    destruct (_ .== 0); [apply sane_pdf_zero|].
    destruct (match sampler with
              | Some smp => _
              | None => _
              end) as [cosTheta smp1].
    destruct (_ .== 0); [apply sane_pdf_zero|].
    destruct (if _ .> 0 then _ else _) as [[phiMean phiLo] phiHi].
    destruct (match smp1 with
              | Some smp => _
              | None => _
              end) as [phi smp2].
    match goal with
    | |- context [negb (isfinite ?p) || (?p .< Fin 0)] =>
        destruct (negb (isfinite p) || (p .< Fin 0)) eqn:Hg;
          [apply sane_pdf_zero|]
    end.
    cbn [fst]. apply sane_pdf_guard. exact Hg.
Qed.


(** ** Direction sampler: the exact collaborators *)

Lemma Ratan2_polar (r phi : R) :
  (0 < r)%R -> (- PI < phi <= PI)%R ->
  Ratan2 (r * sin phi) (r * cos phi) = phi.
Proof.
  intros Hr Hphi. pose proof PI_RGT_0 as Hpi. unfold Ratan2.
  assert (Hratio : forall psi, cos psi <> 0%R ->
            (r * sin psi / (r * cos psi) = tan psi)%R).
  { intros psi Hc. unfold tan. field. split; [exact Hc | lra]. }
  destruct (Rlt_dec 0 (r * cos phi)) as [Hx | Hx].
  - assert (Hc : (0 < cos phi)%R) by nra.
    assert (Hrange : (- PI / 2 < phi < PI / 2)%R).
    { split.
      - destruct (Rlt_dec (- PI / 2) phi) as [|Hn]; [assumption|].
        exfalso.
        assert (Hle : (cos (- phi) <= 0)%R) by (apply cos_le_0; lra).
        rewrite cos_neg in Hle. lra.
      - destruct (Rlt_dec phi (PI / 2)) as [|Hn]; [assumption|].
        exfalso.
        assert (Hle : (cos phi <= 0)%R) by (apply cos_le_0; lra). lra. }
    rewrite Hratio by lra. apply atan_tan. lra.
  - destruct (Rlt_dec (r * cos phi) 0) as [Hx' | Hx'].
    + assert (Hc : (cos phi < 0)%R) by nra.
      destruct (Rle_dec 0 (r * sin phi)) as [Hy | Hy].
      * assert (Hs : (0 <= sin phi)%R) by nra.
        assert (Hrange : (PI / 2 < phi)%R).
        { destruct (Rlt_dec (PI / 2) phi) as [|Hn]; [assumption|].
          exfalso.
          destruct (Rle_dec (- PI / 2) phi) as [Hge | Hlt].
          - assert (0 <= cos phi)%R by (apply cos_ge_0; lra). lra.
          - assert (sin (- phi) > 0)%R.
            { apply sin_gt_0; lra. }
            rewrite sin_neg in H. lra. }
        rewrite Hratio by lra.
        replace (tan phi) with (tan (phi - PI)).
        { rewrite atan_tan by lra. lra. }
        unfold tan.
        replace (phi - PI)%R with (- (PI - phi))%R by lra.
        rewrite sin_neg, cos_neg.
        replace (PI - phi)%R with (- phi + PI)%R by lra.
        rewrite neg_sin, neg_cos, sin_neg, cos_neg. field. lra.
      * assert (Hs : (sin phi < 0)%R) by nra.
        assert (Hrange : (phi < - PI / 2)%R).
        { destruct (Rlt_dec phi (- PI / 2)) as [|Hn]; [assumption|].
          exfalso.
          destruct (Rle_dec phi (PI / 2)) as [Hle | Hgt].
          - assert (0 <= cos phi)%R by (apply cos_ge_0; lra). lra.
          - assert (0 <= sin phi)%R by (apply sin_ge_0; lra). lra. }
        rewrite Hratio by lra.
        replace (tan phi) with (tan (phi + PI)).
        { rewrite atan_tan by lra. lra. }
        unfold tan. rewrite neg_sin, neg_cos. field. lra.
    + assert (Hc : cos phi = 0%R) by nra.
      pose proof (sin2_cos2 phi) as Hsc. rewrite Hc in Hsc.
      unfold Rsqr in Hsc.
      destruct (Rlt_dec 0 (r * sin phi)) as [Hy | Hy].
      * assert (Hs : (0 < sin phi)%R) by nra.
        destruct (Rle_dec 0 phi) as [Hp | Hp].
        -- destruct (Rtotal_order phi (PI / 2)) as [Hlt | [Heq | Hgt]].
           ++ assert (0 < cos phi)%R by (apply cos_gt_0; lra). lra.
           ++ lra.
           ++ destruct (Req_dec phi PI) as [Hpi' | Hpi'].
              ** rewrite Hpi', sin_PI in Hs. lra.
              ** assert (cos phi < 0)%R by (apply cos_lt_0; lra). lra.
        -- assert (sin (- phi) > 0)%R by (apply sin_gt_0; lra).
           rewrite sin_neg in H. lra.
      * destruct (Rlt_dec (r * sin phi) 0) as [Hy' | Hy'].
        -- assert (Hs : (sin phi < 0)%R) by nra.
           destruct (Rle_dec phi 0) as [Hp | Hp].
           ++ destruct (Rtotal_order phi (- PI / 2)) as [Hlt | [Heq | Hgt]].
              ** assert (cos (- phi) < 0)%R by (apply cos_lt_0; lra).
                 rewrite cos_neg in H. lra.
              ** lra.
              ** assert (0 < cos phi)%R by (apply cos_gt_0; lra). lra.
           ++ assert (0 <= sin phi)%R by (apply sin_ge_0; lra). lra.
        -- assert (Hs : sin phi = 0%R) by nra. rewrite Hs in Hsc. lra.
Qed.

Lemma exact_atan2_exact : atan2_exact (dcollab := exact_direction_collaborators).
Proof.
  intros r phi Hr Hphi. cbn. f_equal. apply Ratan2_polar; assumption.
Qed.

Lemma sample_safe_sqrt_exact (v : R) :
  (0 <= v)%R -> sample_safe_sqrt (Fin v) = Fin (sqrt v).
Proof.
  intros Hv. unfold sample_safe_sqrt, std_max. cbn.
  destruct (Rlt_dec 0 v) as [Hlt | Hnlt]; cbn.
  - destruct (Rlt_dec v 0); [lra | reflexivity].
  - destruct (Rlt_dec 0 0); [lra |]. f_equal. f_equal. lra.
Qed.

Lemma exact_safe_sqrt_exact :
  safe_sqrt_exact (dcollab := exact_direction_collaborators).
Proof. intros v Hv. apply sample_safe_sqrt_exact. exact Hv. Qed.

Lemma midpoint_truncnorm_strictly_within :
  truncnorm_strictly_within (collab := midpoint_collaborators).
Proof.
  intros mean stddev lo hi smp Hlt. cbn.
  exists ((lo + hi) * 0.5)%R. split; [reflexivity | lra].
Qed.

Lemma exact_frame_tangent_ok :
  frame_tangent_ok (dcollab := exact_direction_collaborators).
Proof.
  intros n (a & b & c & -> & Hu).
  cbn [frame_s exact_direction_collaborators].
  unfold exact_frame_s. cbn [vx vy vz fabs]. unfold fgtb.
  destruct (Fin (Rabs b) .< Fin (Rabs a)) eqn:Hcmp.
  - apply fltb_fin in Hcmp.
    assert (Ha : a <> 0%R).
    { intros ->. rewrite Rabs_R0 in Hcmp. pose proof (Rabs_pos b). lra. }
    assert (Hq : (0 < a * a + c * c)%R) by nra.
    fin_simpl. rewrite fsqrt_fin by lra.
    pose proof (sqrt_lt_R0 _ Hq) as Hs.
    rewrite fdiv_fin by lra. fin_simpl.
    eexists _, _, _. split; [reflexivity|]. split.
    + rewrite dot_fin. f_equal. ring.
    + pose proof (sqrt_sqr_eq (a * a + c * c) ltac:(lra)) as Hsq.
      set (k := sqrt (a * a + c * c)) in *.
      assert (Hk : (0 < 1 / k)%R) by (apply Rdiv_lt_0_compat; lra).
      match goal with
      | |- (0 < ?e)%R =>
          replace e with ((a * a + c * c) * (1 / k * (1 / k)))%R by ring
      end.
      apply Rmult_lt_0_compat; nra.
  - assert (Hle : (Rabs a <= Rabs b)%R).
    { destruct (Rle_dec (Rabs a) (Rabs b)) as [H|H]; [exact H|].
      rewrite fltb_fin_true in Hcmp by lra. discriminate Hcmp. }
    assert (Hq : (0 < b * b + c * c)%R).
    { destruct (Req_dec b 0) as [-> | Hb].
      - rewrite Rabs_R0 in Hle. pose proof (Rabs_pos a).
        assert (a = 0%R).
        { destruct (Req_dec a 0) as [E|E]; [exact E|].
          pose proof (Rabs_pos_lt a E). lra. }
        subst a. nra.
      - nra. }
    fin_simpl. rewrite fsqrt_fin by lra.
    pose proof (sqrt_lt_R0 _ Hq) as Hs.
    rewrite fdiv_fin by lra. fin_simpl.
    eexists _, _, _. split; [reflexivity|]. split.
    + rewrite dot_fin. f_equal. ring.
    + pose proof (sqrt_sqr_eq (b * b + c * c) ltac:(lra)) as Hsq.
      set (k := sqrt (b * b + c * c)) in *.
      assert (Hk : (0 < 1 / k)%R) by (apply Rdiv_lt_0_compat; lra).
      match goal with
      | |- (0 < ?e)%R =>
          replace e with ((b * b + c * c) * (1 / k * (1 / k)))%R by ring
      end.
      apply Rmult_lt_0_compat; nra.
Qed.

(** Normalising a finite vector that is not zero gives a unit vector
    with the same direction. *)
Lemma normalize_fin (w1 w2 w3 : R) :
  (0 < w1 * w1 + w2 * w2 + w3 * w3)%R ->
  exists k : R,
    (0 < k)%R
    /\ normalize (mkVector (Fin w1) (Fin w2) (Fin w3))
       = mkVector (Fin (w1 * k)) (Fin (w2 * k)) (Fin (w3 * k))
    /\ (w1 * k * (w1 * k) + w2 * k * (w2 * k) + w3 * k * (w3 * k) = 1)%R.
Proof.
  intros Hq. unfold normalize. rewrite vlength_fin.
  pose proof (sqrt_lt_R0 _ Hq) as Hs.
  rewrite vdivf_fin by lra.
  exists (1 / sqrt (w1 * w1 + w2 * w2 + w3 * w3))%R.
  split; [apply Rdiv_lt_0_compat; lra|]. split; [reflexivity|].
  pose proof (sqrt_sqr_eq (w1 * w1 + w2 * w2 + w3 * w3) ltac:(lra)) as Hsq.
  set (l := sqrt (w1 * w1 + w2 * w2 + w3 * w3)) in *.
  transitivity ((w1 * w1 + w2 * w2 + w3 * w3) / (l * l))%R.
  - field. lra.
  - rewrite Hsq. field. lra.
Qed.

(** The first axis of the frame the "_BRDF" and "_bis" samplers build
    around the normal, from a vector [uL] and a threshold [thr]: a unit
    vector orthogonal to the normal. *)
Lemma frame_axis_spec {dcollab : DirectionCollaborators}
    (uL : Vector) (thr : Float) (z1 z2 z3 : R) :
  frame_tangent_ok -> (Fin 0 .<= thr) = true ->
  (z1 * z1 + z2 * z2 + z3 * z3 = 1)%R -> finite_vector uL ->
  let z := mkVector (Fin z1) (Fin z2) (Fin z3) in
  let x_unnorm := vsub uL (vscale (dot z uL) z) in
  let x_unnorm :=
    if vlength x_unnorm .<= thr then frame_s z else x_unnorm in
  exists x1 x2 x3 : R,
    normalize x_unnorm = mkVector (Fin x1) (Fin x2) (Fin x3)
    /\ (x1 * x1 + x2 * x2 + x3 * x3 = 1)%R
    /\ (x1 * z1 + x2 * z2 + x3 * z3 = 0)%R.
Proof.
  intros Hframe Heps Hz (l1 & l2 & l3 & ->). cbv zeta.
  assert (Hw : exists w1 w2 w3 : R,
             (if vlength (vsub (mkVector (Fin l1) (Fin l2) (Fin l3))
                            (vscale (dot (mkVector (Fin z1) (Fin z2) (Fin z3))
                                         (mkVector (Fin l1) (Fin l2) (Fin l3)))
                                    (mkVector (Fin z1) (Fin z2) (Fin z3))))
                   .<= thr
              then frame_s (mkVector (Fin z1) (Fin z2) (Fin z3))
              else vsub (mkVector (Fin l1) (Fin l2) (Fin l3))
                     (vscale (dot (mkVector (Fin z1) (Fin z2) (Fin z3))
                                  (mkVector (Fin l1) (Fin l2) (Fin l3)))
                             (mkVector (Fin z1) (Fin z2) (Fin z3))))
             = mkVector (Fin w1) (Fin w2) (Fin w3)
             /\ (0 < w1 * w1 + w2 * w2 + w3 * w3)%R
             /\ (w1 * z1 + w2 * z2 + w3 * z3 = 0)%R).
  { rewrite dot_fin. unfold vscale, vsub. cbn [vx vy vz]. fin_simpl.
    rewrite vlength_fin.
    match goal with
    | |- context [Fin (sqrt ?q) .<= thr] =>
        destruct (Fin (sqrt q) .<= thr) eqn:Hcmp
    end.
    - destruct (Hframe (mkVector (Fin z1) (Fin z2) (Fin z3)))
        as (a & b & c & Hs & Hd & Hpos).
      { exists z1, z2, z3. split; [reflexivity | exact Hz]. }
      exists a, b, c. split; [exact Hs|]. split; [exact Hpos|].
      rewrite Hs, dot_fin in Hd. injection Hd as Hd. exact Hd.
    - eexists _, _, _. split; [reflexivity|].
      destruct thr as [e| | |]; try discriminate Heps.
      + apply fleb_fin in Heps.
        match type of Hcmp with
        | (Fin (sqrt ?q) .<= _) = false =>
            assert (Hq : (e < sqrt q)%R)
        end.
        { match goal with
          | |- (e < ?v)%R => destruct (Rlt_dec e v) as [H|H]; [exact H|]
          end.
          exfalso.
          match type of Hcmp with
          | (?l .<= ?r) = false =>
              assert (Ht : (l .<= r) = true) by (apply fleb_fin; lra)
          end.
          rewrite Ht in Hcmp. discriminate Hcmp. }
        split.
        * match type of Hq with
          | (e < sqrt ?q)%R =>
              destruct (Rlt_dec 0 q) as [Hp|Hp]; [exact Hp|];
              rewrite (sqrt_neg_0 q) in Hq by lra; lra
          end.
        * transitivity ((z1 * l1 + z2 * l2 + z3 * l3)
                        * (1 - (z1 * z1 + z2 * z2 + z3 * z3)))%R;
            [ring | rewrite Hz; ring].
      + unfold fleb, fltb in Hcmp. cbn in Hcmp. discriminate Hcmp. }
  destruct Hw as (w1 & w2 & w3 & -> & Hpos & Horth).
  destruct (normalize_fin w1 w2 w3 Hpos) as (k & Hk & -> & Hunit).
  eexists _, _, _. split; [reflexivity|]. split; [exact Hunit|]. nra.
Qed.

(** Combining the axes of an orthonormal frame [x], [cross x z], [z]. *)
Lemma frame_combination (x1 x2 x3 z1 z2 z3 p q r : R) :
  (x1 * x1 + x2 * x2 + x3 * x3 = 1)%R ->
  (z1 * z1 + z2 * z2 + z3 * z3 = 1)%R ->
  (x1 * z1 + x2 * z2 + x3 * z3 = 0)%R ->
  let y1 := (x2 * z3 + - (x3 * z2))%R in
  let y2 := (x3 * z1 + - (x1 * z3))%R in
  let y3 := (x1 * z2 + - (x2 * z1))%R in
  let u1 := (x1 * p + y1 * q + z1 * r)%R in
  let u2 := (x2 * p + y2 * q + z2 * r)%R in
  let u3 := (x3 * p + y3 * q + z3 * r)%R in
  (u1 * u1 + u2 * u2 + u3 * u3 = p * p + q * q + r * r)%R
  /\ (u1 * z1 + u2 * z2 + u3 * z3 = r)%R
  /\ (u1 * x1 + u2 * x2 + u3 * x3 = p)%R
  /\ (u1 * y1 + u2 * y2 + u3 * y3 = q)%R.
Proof.
  intros Hxx Hzz Hxz y1 y2 y3 u1 u2 u3.
  set (xx := (x1 * x1 + x2 * x2 + x3 * x3)%R) in *.
  set (zz := (z1 * z1 + z2 * z2 + z3 * z3)%R) in *.
  set (xz := (x1 * z1 + x2 * z2 + x3 * z3)%R) in *.
  assert (Hyy : (y1 * y1 + y2 * y2 + y3 * y3 = xx * zz - xz * xz)%R)
    by (subst y1 y2 y3 xx zz xz; ring).
  assert (Hxy : (x1 * y1 + x2 * y2 + x3 * y3 = 0)%R)
    by (subst y1 y2 y3; ring).
  assert (Hyz : (y1 * z1 + y2 * z2 + y3 * z3 = 0)%R)
    by (subst y1 y2 y3; ring).
  rewrite Hxx, Hzz, Hxz in Hyy.
  repeat split.
  - transitivity (p * p * xx + q * q * (y1 * y1 + y2 * y2 + y3 * y3)
                  + r * r * zz
                  + 2 * p * q * (x1 * y1 + x2 * y2 + x3 * y3)
                  + 2 * p * r * xz
                  + 2 * q * r * (y1 * z1 + y2 * z2 + y3 * z3))%R.
    + subst u1 u2 u3 xx zz xz. ring.
    + rewrite Hyy, Hxy, Hyz, Hxx, Hzz, Hxz. ring.
  - transitivity (p * xz + q * (y1 * z1 + y2 * z2 + y3 * z3) + r * zz)%R.
    + subst u1 u2 u3 xx zz xz. ring.
    + rewrite Hyz, Hzz, Hxz. ring.
  - transitivity (p * xx + q * (x1 * y1 + x2 * y2 + x3 * y3) + r * xz)%R.
    + subst u1 u2 u3 xx zz xz. ring.
    + rewrite Hxy, Hxx, Hxz. ring.
  - transitivity (p * (x1 * y1 + x2 * y2 + x3 * y3)
                  + q * (y1 * y1 + y2 * y2 + y3 * y3)
                  + r * (y1 * z1 + y2 * z2 + y3 * z3))%R.
    + subst u1 u2 u3. ring.
    + rewrite Hyy, Hxy, Hyz. ring.
Qed.

(** What the pdf side of the effective-BRDF sampler reads back from a
    direction at azimuth [phi]: [phi] itself, in both ranges of the
    azimuth. *)
Lemma atan2_recovers {dcollab : DirectionCollaborators} (lo phi r : R) :
  atan2_exact -> (0 < r)%R -> (lo = - PI \/ lo = 0)%R ->
  (lo < phi < lo + 2 * PI)%R ->
  (if atan2 (Fin (r * sin phi)) (Fin (r * cos phi)) .< Fin lo
   then atan2 (Fin (r * sin phi)) (Fin (r * cos phi)) .+ Fin (2 * PI)
   else atan2 (Fin (r * sin phi)) (Fin (r * cos phi))) = Fin phi.
Proof.
  intros Hat Hr Hlo Hphi. pose proof PI_RGT_0 as Hpi.
  destruct Hlo as [-> | ->].
  - rewrite (Hat r phi Hr) by lra.
    rewrite fltb_fin_false by lra. reflexivity.
  - destruct (Rle_dec phi PI) as [Hle | Hgt].
    + rewrite (Hat r phi Hr) by lra.
      rewrite fltb_fin_false by lra. reflexivity.
    + assert (Hs : sin phi = sin (phi - 2 * PI)).
      { replace phi with (phi - 2 * PI + PI + PI)%R at 1 by lra.
        rewrite !neg_sin. lra. }
      assert (Hc : cos phi = cos (phi - 2 * PI)).
      { replace phi with (phi - 2 * PI + PI + PI)%R at 1 by lra.
        rewrite !neg_cos. lra. }
      rewrite Hs, Hc. rewrite (Hat r (phi - 2 * PI)%R Hr) by lra.
      rewrite fltb_fin_true by lra. rewrite fadd_fin. f_equal. lra.
Qed.

Lemma impl_BRDF_sample_spec
    {collab : Collaborators} {dcollab : DirectionCollaborators}
    (self : FwdScat) (u0 n0 uL R : Vector) (s : Float) (smp : Sampler) :
  truncnorm_strictly_within -> atan2_exact -> safe_sqrt_exact ->
  frame_tangent_ok -> (Fin 0 .<= Epsilon) = true ->
  unit_vector n0 -> finite_vector uL ->
  forall (pdf : Float) (u0' : Vector) (smp' : option Sampler),
    implDirectionBoundaryAwareMonopole_BRDF self u0 n0 uL R s (Some smp)
    = (pdf, u0', smp') ->
    (pdf .== 0) = true
    \/ (unit_vector u0' /\ (dot u0' n0 .< 0) = true
        /\ fst (fst (implDirectionBoundaryAwareMonopole_BRDF
                       self u0' n0 uL R s None)) = pdf).
Proof.
  intros Htn Hat Hsq Hfr Heps (z1 & z2 & z3 & -> & Hz) HuL pdf u0' smp'.
  destruct (frame_axis_spec uL Epsilon z1 z2 z3 Hfr Heps Hz HuL)
    as (x1 & x2 & x3 & Hx & Hxx & Hxz).
  cbv zeta in Hx.
  unfold implDirectionBoundaryAwareMonopole_BRDF. cbv beta zeta.
  rewrite !Hx. rewrite !cross_fin. clear Hx.
  match goal with
  | |- context [fabs (if ?c then ?p else ?q)] =>
      set (a := if c then p else q)
  end.
  match goal with
  | |- context [Fin 1 ./ fsqrt (?e .+ fabs a)] =>
      set (sd := Fin 1 ./ fsqrt (e .+ fabs a))
  end.
  match goal with
  | |- context [truncnorm ?m sd _ _ _] => set (mean := m)
  end.
  clearbody a sd mean.
  destruct (sd .== 0) eqn:Hsd.
  { intros H. injection H as <- _ _. left. apply feqb_fin. reflexivity. }
  destruct (Htn mean sd (-1.0)%R 0.0%R smp ltac:(lra)) as (t & Ht & Htr).
  destruct (truncnorm mean sd (-1.0) 0.0 smp) as [ct smp1].
  cbn [fst] in Ht. subst ct. cbv beta iota.
  unfold square. fin_simpl.
  assert (Hst : (0 < 1 + - (t * t))%R) by nra.
  rewrite (Hsq _ (Rlt_le _ _ Hst)).
  pose proof (sqrt_lt_R0 _ Hst) as Hsth.
  pose proof (sqrt_sqr_eq _ (Rlt_le _ _ Hst)) as Hsth2.
  set (sth := sqrt (1 + - (t * t))) in *.
  pose proof PI_RGT_0 as Hpi.
  destruct (_ ./ fsqrt (fabs a .* Fin sth) .== 0) eqn:Hpsd.
  { intros H. injection H as <- _ _. left. apply feqb_fin. reflexivity. }
  set (psd := _ ./ fsqrt (fabs a .* Fin sth)) in *.
  unfold M_PI_DBL, TWO_PI_DBL.
  destruct (a .> 0) eqn:Ha; cbv beta iota; fin_simpl;
    [ destruct (Htn (Fin 0) psd (- PI)%R PI smp1 ltac:(lra))
        as (phi & Hphi & Hphir)
    | destruct (Htn (Fin PI) psd 0%R (2 * PI)%R smp1 ltac:(lra))
        as (phi & Hphi & Hphir) ];
    (destruct (truncnorm _ psd _ _ smp1) as [ph smp2];
     cbn [fst] in Hphi; subst ph; cbv beta iota;
     intros H;
     match type of H with
     | (if ?g then _ else _) = _ => destruct g eqn:Hg
     end;
     [ injection H as <- _ _; left; apply feqb_fin; reflexivity |];
     injection H as <- <- _; right;
     match goal with
     | |- unit_vector ?V /\ _ => remember V as U eqn:HU
     end;
     unfold vscale, vadd in HU; cbn [vx vy vz fcos fsin fmul fadd] in HU;
     pose proof (frame_combination x1 x2 x3 z1 z2 z3
                   (sth * cos phi) (sth * sin phi) t Hxx Hz Hxz) as Hcomb;
     cbv zeta in Hcomb;
     destruct Hcomb as (Hc1 & Hc2 & Hc3 & Hc4);
     assert (Hdz : dot U (mkVector (Fin z1) (Fin z2) (Fin z3)) = Fin t)
       by (rewrite HU, dot_fin; f_equal;
           etransitivity; [|exact Hc2]; ring);
     assert (Hdx : dot U (mkVector (Fin x1) (Fin x2) (Fin x3))
                   = Fin (sth * cos phi))
       by (rewrite HU, dot_fin; f_equal;
           etransitivity; [|exact Hc3]; ring);
     assert (Hdy : dot U (mkVector (Fin (x2 * z3 + - (x3 * z2)))
                                   (Fin (x3 * z1 + - (x1 * z3)))
                                   (Fin (x1 * z2 + - (x2 * z1))))
                   = Fin (sth * sin phi))
       by (rewrite HU, dot_fin; f_equal;
           etransitivity; [|exact Hc4]; ring);
     assert (Hunit : unit_vector U)
       by (rewrite HU; eexists _, _, _; split; [reflexivity|];
           etransitivity; [etransitivity; [|exact Hc1]; ring|];
           pose proof (sin2_cos2 phi) as Hsc; unfold Rsqr in Hsc;
           transitivity (sth * sth * (sin phi * sin phi + cos phi * cos phi)
                         + t * t)%R; [ring|];
           rewrite Hsc, Hsth2; ring);
     clear HU Hc1 Hc2 Hc3 Hc4;
     rewrite Hdz, Hdx, Hdy;
     split; [exact Hunit|];
     split; [apply fltb_fin_true; lra|];
     rewrite clamp_fin_value;
     match goal with
     | |- context [Rmin ?h (Rmax ?l t)] =>
         replace (Rmin h (Rmax l t)) with t
           by (unfold Rmin, Rmax; repeat destruct (Rle_dec _ _); lra)
     end;
     fin_simpl; rewrite (Hsq _ (Rlt_le _ _ Hst)); fold sth; fold psd;
     rewrite Hpsd;
     rewrite (atan2_recovers _ phi sth Hat Hsth)
       by first [lra | left; reflexivity | right; reflexivity];
     rewrite Hg; reflexivity).
Qed.

(** The same for the entry points [sampleDirectionBoundaryAwareMonopole_BRDF]
    and [pdfDirectionBoundaryAwareMonopole_BRDF]. *)
Lemma sample_BRDF_spec
    {collab : Collaborators} {dcollab : DirectionCollaborators}
    (self : FwdScat) (u0 n0 uL R : Vector) (s : Float) (smp : Sampler) :
  truncnorm_strictly_within -> atan2_exact -> safe_sqrt_exact ->
  frame_tangent_ok -> (Fin 0 .<= Epsilon) = true ->
  unit_vector n0 -> finite_vector uL ->
  forall (pdf : Float) (u0' : Vector) (smp' : Sampler),
    sampleDirectionBoundaryAwareMonopole_BRDF self u0 n0 uL R s smp
    = (pdf, u0', smp') ->
    (pdf .== 0) = true
    \/ (unit_vector u0' /\ (dot u0' n0 .< 0) = true
        /\ pdfDirectionBoundaryAwareMonopole_BRDF self u0' n0 uL R s = pdf).
Proof.
  intros Htn Hat Hsq Hfr Heps Hn HuL pdf u0' smp' Hs.
  unfold sampleDirectionBoundaryAwareMonopole_BRDF in Hs.
  destruct (implDirectionBoundaryAwareMonopole_BRDF self u0 n0 uL R s
              (Some smp)) as [[p u] os] eqn:Himpl.
  assert (Hpu : p = pdf /\ u = u0').
  { destruct os; injection Hs as <- <- _; split; reflexivity. }
  destruct Hpu as [-> ->].
  destruct (impl_BRDF_sample_spec self u0 n0 uL R s smp
              Htn Hat Hsq Hfr Heps Hn HuL _ _ _ Himpl)
    as [Hz | (Hu & Hin & Hpdf)]; [left; exact Hz|].
  right. split; [exact Hu|]. split; [exact Hin|].
  unfold pdfDirectionBoundaryAwareMonopole_BRDF.
  destruct (implDirectionBoundaryAwareMonopole_BRDF self u0' n0 uL R s None)
    as [[p' u'] os']. exact Hpdf.
Qed.

(** X22.  Sample/pdf consistency of the monopole direction sampler of
    the effective BRDF, and where its directions lie.  For a unit normal
    [n0] and a finite [uL], with a [truncnorm] that returns numbers
    strictly inside its interval and exact [atan2], [safe_sqrt] and
    [Frame]: whenever [sampleDirectionBoundaryAwareMonopole_BRDF] returns
    a non-zero pdf, the direction it has written is a unit vector with
    [dot(u0, n0) < 0], and [pdfDirectionBoundaryAwareMonopole_BRDF]
    returns the same pdf for that direction. *)
Theorem sampleDirection_BRDF_consistent
    {collab : Collaborators} {dcollab : DirectionCollaborators}
    (self : FwdScat) (u0 n0 uL R : Vector) (s : Float) (sampler : Sampler) :
  truncnorm_strictly_within -> atan2_exact -> safe_sqrt_exact ->
  frame_tangent_ok -> (Fin 0 .<= Epsilon) = true ->
  unit_vector n0 -> finite_vector uL ->
  let '(pdf, u0', _) :=
    sampleDirectionBoundaryAwareMonopole_BRDF self u0 n0 uL R s sampler in
  (pdf .== 0) = true
  \/ (unit_vector u0' /\ (dot u0' n0 .< 0) = true
      /\ pdfDirectionBoundaryAwareMonopole_BRDF self u0' n0 uL R s = pdf).
Proof.
  intros Htn Hat Hsq Hfr Heps Hn HuL.
  destruct (sampleDirectionBoundaryAwareMonopole_BRDF self u0 n0 uL R s
              sampler) as [[pdf u0'] smp'] eqn:Hs.
  exact (sample_BRDF_spec self u0 n0 uL R s sampler
           Htn Hat Hsq Hfr Heps Hn HuL _ _ _ Hs).
Qed.

Lemma exact_Epsilon_nonneg :
  (Fin 0 .<= Epsilon (DirectionCollaborators := exact_direction_collaborators))
  = true.
Proof. apply fleb_fin. cbn. lra. Qed.

Lemma unit_vector_z : unit_vector (mkVector 0 0 1).
Proof. exists 0%R, 0%R, 1%R. split; [reflexivity | ring]. Qed.

Lemma finite_vector_uL : finite_vector (mkVector 0.6 0 0.8).
Proof. exists 0.6%R, 0%R, 0.8%R. reflexivity. Qed.

Lemma sampleDirection_BRDF_consistent_witness :
  let '(pdf, u0', _) :=
    sampleDirectionBoundaryAwareMonopole_BRDF
      (collab := midpoint_collaborators)
      (dcollab := exact_direction_collaborators)
      (mkFwdScat 1 0.5 1 1) (mkVector 0 0 1) (mkVector 0 0 1)
      (mkVector 0.6 0 0.8) (mkVector 0 0 0) (Fin 1) sample_stream in
  (pdf .== 0) = true
  \/ (unit_vector u0' /\ (dot u0' (mkVector 0 0 1) .< 0) = true
      /\ pdfDirectionBoundaryAwareMonopole_BRDF
           (collab := midpoint_collaborators)
           (dcollab := exact_direction_collaborators)
           (mkFwdScat 1 0.5 1 1) u0' (mkVector 0 0 1) (mkVector 0.6 0 0.8)
           (mkVector 0 0 0) (Fin 1) = pdf).
Proof.
  apply (sampleDirection_BRDF_consistent
           (collab := midpoint_collaborators)
           (dcollab := exact_direction_collaborators)
           (mkFwdScat 1 0.5 1 1) (mkVector 0 0 1) (mkVector 0 0 1)
           (mkVector 0.6 0 0.8) (mkVector 0 0 0) (Fin 1) sample_stream
           midpoint_truncnorm_strictly_within exact_atan2_exact
           exact_safe_sqrt_exact exact_frame_tangent_ok
           exact_Epsilon_nonneg unit_vector_z finite_vector_uL).
Defined.

(** ** Direction sampler: the dipole *)

(** Mirroring in the plane of a unit normal keeps unit vectors unit, and
    is its own inverse. *)
Lemma mirror_unit (e n : Vector) :
  unit_vector e -> unit_vector n ->
  unit_vector (vsub n (vscale (2 .* dot e n) e)).
Proof.
  intros (e1 & e2 & e3 & -> & He) (n1 & n2 & n3 & -> & Hn).
  rewrite dot_fin. unfold vscale, vsub. cbn [vx vy vz]. fin_simpl.
  eexists _, _, _. split; [reflexivity|].
  set (d := (e1 * n1 + e2 * n2 + e3 * n3)%R).
  transitivity ((n1 * n1 + n2 * n2 + n3 * n3)
                - 4 * d * d
                + 4 * d * d * (e1 * e1 + e2 * e2 + e3 * e3))%R.
  - subst d. ring.
  - rewrite He, Hn. ring.
Qed.

Lemma mirror_involutive (e u : Vector) :
  unit_vector e -> finite_vector u ->
  vsub (vsub u (vscale (2 .* dot e u) e))
       (vscale (2 .* dot e (vsub u (vscale (2 .* dot e u) e))) e)
  = u.
Proof.
  intros (e1 & e2 & e3 & -> & He) (u1 & u2 & u3 & ->).
  rewrite dot_fin. unfold vscale, vsub. cbn [vx vy vz]. fin_simpl.
  rewrite dot_fin. cbn [vx vy vz]. fin_simpl.
  set (d := (e1 * u1 + e2 * u2 + e3 * u3)%R).
  apply mkVector_fin_ext.
  - transitivity (u1 + 4 * d * e1 * ((e1 * e1 + e2 * e2 + e3 * e3) - 1))%R.
    + subst d. ring.
    + rewrite He. ring.
  - transitivity (u2 + 4 * d * e2 * ((e1 * e1 + e2 * e2 + e3 * e3) - 1))%R.
    + subst d. ring.
    + rewrite He. ring.
  - transitivity (u3 + 4 * d * e3 * ((e1 * e1 + e2 * e2 + e3 * e3) - 1))%R.
    + subst d. ring.
    + rewrite He. ring.
Qed.

Lemma unit_vector_finite (v : Vector) : unit_vector v -> finite_vector v.
Proof. intros (a & b & c & -> & _). exists a, b, c. reflexivity. Qed.

Lemma feqb_sentinel : (Fin (-1) .== (-1)) = true.
Proof. apply feqb_fin. reflexivity. Qed.

(** X23.  Sample/pdf consistency of the dipole direction sampler with the
    effective BRDF.  For unit normals [n0] and [n0_effective] and a finite
    [uL], with a [truncnorm] that returns numbers strictly inside its
    interval and exact [atan2], [safe_sqrt] and [Frame]:
    [sampleDirectionDipole(..., useEffectiveBRDF = true, ...)] returns 0
    or the value of [pdfDirectionDipole] at the direction it has written,
    whichever of its three strategies (real source, mirrored virtual
    source, cosine hemisphere) was drawn. *)
Theorem sampleDirectionDipole_BRDF_consistent
    {collab : Collaborators} {dcollab : DirectionCollaborators}
    (self : FwdScat) (u0 n0 uL nL R : Vector) (s : Float)
    (tangentMode : TangentPlaneMode) (sampler : Sampler) :
  truncnorm_strictly_within -> atan2_exact -> safe_sqrt_exact ->
  frame_tangent_ok -> (Fin 0 .<= Epsilon) = true ->
  unit_vector n0 -> finite_vector uL ->
  (forall R_virt n0_effective weight,
     getTentativeIndexMatchedVirtualSourceDisp self n0 nL uL R s
       tangentMode true = Some (R_virt, n0_effective, weight) ->
     unit_vector n0_effective) ->
  let '(pdf, u0', _) :=
    sampleDirectionDipole self u0 n0 uL nL R s tangentMode true sampler in
  (pdf .== 0) = true
  \/ pdf = pdfDirectionDipole self u0' n0 uL nL R s tangentMode true.
Proof.
  intros Htn Hat Hsq Hfr Heps Hn HuL Hne.
  unfold sampleDirectionDipole, pdfDirectionDipole.
  destruct (getTentativeIndexMatchedVirtualSourceDisp self n0 nL uL R s
              tangentMode true) as [[[Rv ne] w]|] eqn:Hsrc.
  2:{ left. apply feqb_zero_lit. }
  specialize (Hne _ _ _ eq_refl).
  set (rw := match w with Some w0 => w0 | None => NaN end).
  unfold next1D. cbv beta iota zeta.
  set (smp1 := fun n : nat => sampler (S n)).
  unfold sampleDirectionBoundaryAwareMonopole,
    pdfDirectionBoundaryAwareMonopole.
  destruct (sampler 0%nat .<= _ .* rw).
  - (* the real source *)
    destruct (sampleDirectionBoundaryAwareMonopole_BRDF self u0 n0 uL R s
                smp1) as [[pReal u0r] smp2] eqn:Hs.
    destruct (sample_BRDF_spec self u0 n0 uL R s smp1
                Htn Hat Hsq Hfr Heps Hn HuL _ _ _ Hs)
      as [Hz | (_ & _ & Hpdf)].
    + rewrite Hz. left. apply feqb_zero_lit.
    + destruct (pReal .== 0); [left; apply feqb_zero_lit|].
      right. rewrite feqb_sentinel.
      destruct (pReal .== (-1)); rewrite ?Hpdf; reflexivity.
  - destruct (sampler 0%nat .<= _).
    + (* the virtual source *)
      set (n0v := vsub n0 (vscale (2 .* dot ne n0) ne)).
      assert (Hnv : unit_vector n0v) by (apply mirror_unit; assumption).
      destruct (sampleDirectionBoundaryAwareMonopole_BRDF self (vconst NaN)
                  n0v uL Rv s smp1) as [[pVirt u0v] smp2] eqn:Hs.
      destruct (sample_BRDF_spec self (vconst NaN) n0v uL Rv s smp1
                  Htn Hat Hsq Hfr Heps Hnv HuL _ _ _ Hs)
        as [Hz | (Hu & _ & Hpdf)].
      * rewrite Hz. left. apply feqb_zero_lit.
      * destruct (pVirt .== 0); [left; apply feqb_zero_lit|].
        right. rewrite feqb_sentinel.
        rewrite (mirror_involutive ne u0v Hne (unit_vector_finite _ Hu)).
        rewrite Hpdf.
        destruct (pVirt .== (-1)); reflexivity.
    + (* the cosine hemisphere *)
      destruct (_sampleHemisphere n0 smp1) as [[ph u0h] smp2].
      right. rewrite feqb_sentinel. reflexivity.
Qed.

(** With [tangentMode = EUnmodifiedIncoming] the effective normal is the
    incoming normal. *)
Lemma tentative_unmodified_incoming {collab : Collaborators}
    (self : FwdScat) (n0 nL uL R : Vector) (s : Float)
    (R_virt n0_effective : Vector) (weight : option Float) :
  getTentativeIndexMatchedVirtualSourceDisp self n0 nL uL R s
    EUnmodifiedIncoming true = Some (R_virt, n0_effective, weight) ->
  n0_effective = n0.
Proof.
  unfold getTentativeIndexMatchedVirtualSourceDisp, getVirtualDipoleSource.
  cbn [effectiveNormal].
  destruct (negb (visFinite n0)); [discriminate|].
  cbn [andb].
  destruct (virtualSourceHeight self EClassicDiffusion); [|discriminate].
  cbn [negb]. intros H. injection H as _ H _. symmetry. exact H.
Qed.

Lemma sampleDirectionDipole_BRDF_consistent_witness :
  let '(pdf, u0', _) :=
    sampleDirectionDipole (collab := midpoint_collaborators)
      (dcollab := exact_direction_collaborators)
      (mkFwdScat 1 0.5 1 1) (mkVector 0 0 1) (mkVector 0 0 1)
      (mkVector 0.6 0 0.8) (mkVector 0 0 1) (mkVector 2 0 0) (Fin 1)
      EUnmodifiedIncoming true sample_stream in
  (pdf .== 0) = true
  \/ pdf = pdfDirectionDipole (collab := midpoint_collaborators)
             (dcollab := exact_direction_collaborators)
             (mkFwdScat 1 0.5 1 1) u0' (mkVector 0 0 1)
             (mkVector 0.6 0 0.8) (mkVector 0 0 1) (mkVector 2 0 0) (Fin 1)
             EUnmodifiedIncoming true.
Proof.
  apply (sampleDirectionDipole_BRDF_consistent
           (collab := midpoint_collaborators)
           (dcollab := exact_direction_collaborators)
           (mkFwdScat 1 0.5 1 1) (mkVector 0 0 1) (mkVector 0 0 1)
           (mkVector 0.6 0 0.8) (mkVector 0 0 1) (mkVector 2 0 0) (Fin 1)
           EUnmodifiedIncoming sample_stream
           midpoint_truncnorm_strictly_within exact_atan2_exact
           exact_safe_sqrt_exact exact_frame_tangent_ok
           exact_Epsilon_nonneg unit_vector_z finite_vector_uL).
  intros R_virt n0_effective weight Hsrc.
  rewrite (tentative_unmodified_incoming _ _ _ _ _ _ _ _ _ Hsrc).
  exact unit_vector_z.
Defined.

(** ** Direction sampler: the "_orig" monopole sampler *)

(** Clamping to an interval of numbers gives a number of the interval,
    whatever is clamped. *)
Lemma clamp_any_within (x : Float) (lo hi : R) :
  (lo <= hi)%R ->
  exists r : R, clamp x (Fin lo) (Fin hi) = Fin r /\ (lo <= r <= hi)%R.
Proof.
  intros Hle. unfold clamp, std_min, std_max.
  destruct x as [v| | |]; cbn [fltb].
  - destruct (Rlt_dec lo v) as [H1|H1].
    + unfold fltb. destruct (Rlt_dec v hi) as [H2|H2].
      * exists v. split; [reflexivity|lra].
      * exists hi. split; [reflexivity|lra].
    + unfold fltb. destruct (Rlt_dec lo hi) as [H2|H2].
      * exists lo. split; [reflexivity|lra].
      * exists hi. split; [reflexivity|lra].
  - exists hi. split; [reflexivity|lra].
  - unfold fltb. destruct (Rlt_dec lo hi) as [H2|H2].
    + exists lo. split; [reflexivity|lra].
    + exists hi. split; [reflexivity|lra].
  - unfold fltb. destruct (Rlt_dec lo hi) as [H2|H2].
    + exists lo. split; [reflexivity|lra].
    + exists hi. split; [reflexivity|lra].
Qed.

Lemma clamp_fin_id (x lo hi : R) :
  (lo <= x <= hi)%R -> clamp (Fin x) (Fin lo) (Fin hi) = Fin x.
Proof.
  intros Hx. rewrite clamp_fin_value. f_equal.
  unfold Rmin, Rmax. repeat destruct (Rle_dec _ _); lra.
Qed.

(** [Hnorm] is a unit vector when [H] is finite and not zero. *)
Lemma orig_H_unit {collab : Collaborators}
    (self : FwdScat) (uL R : Vector) (s : Float) :
  nonzero_vector (vsub (vscale (sp_E (calcValues self s)) R)
                       (vscale (sp_D (calcValues self s)) uL)) ->
  unit_vector (snd (orig_H self uL R s)).
Proof.
  intros (a & b & c & HH & Hpos). unfold orig_H. cbv zeta. cbn [snd].
  rewrite HH.
  destruct (normalize_fin a b c Hpos) as (k & _ & Hn & Hunit).
  unfold normalize in Hn. rewrite Hn.
  eexists _, _, _. split; [reflexivity | exact Hunit].
Qed.

(** The bounds on [cosTheta] are numbers with [-1 <= min <= max <= 1]. *)
Lemma orig_bounds_spec {dcollab : DirectionCollaborators}
    (n0 Hnorm : Vector) :
  exists (m M : R) (slope : Float),
    orig_bounds n0 Hnorm
    = (Fin m, Fin M, slope,
       if orig_badlyConditioned n0 Hnorm then n0 else Hnorm)
    /\ (-1 <= m <= M)%R /\ (M <= 1)%R.
Proof.
  unfold orig_bounds.
  destruct (orig_badlyConditioned n0 Hnorm).
  - exists (-1)%R, 0%R, NaN. split; [reflexivity|lra].
  - cbv zeta. unfold roundCosThetaForStability,
      roundCosThetaBoundsForStability, _reducePrecisionForCosTheta.
    destruct (clamp_any_within
                (safe_sqrt (1 .- square (dot n0 Hnorm))) (-1) 1 ltac:(lra))
      as (c0 & Hc0 & Hr).
    rewrite Hc0.
    destruct (dot Hnorm n0 .< 0).
    + eexists (- c0)%R, 1.0%R, _. split; [reflexivity|lra].
    + eexists (-1.0)%R, c0, _. split; [reflexivity|lra].
Qed.

(** The draw of [cosTheta] lands between the bounds, in the three arms. *)
Lemma orig_sampleCosTheta_within {dcollab : DirectionCollaborators}
    (lHl : Float) (m M : R) (sampler : Sampler) :
  (m <= M)%R ->
  exists c : R,
    orig_sampleCosTheta lHl (Fin m) (Fin M) sampler
    = (Fin c, fun n => sampler (S n))
    /\ (m <= c <= M)%R.
Proof.
  intros Hle. unfold orig_sampleCosTheta, roundCosThetaForStability, next1D.
  destruct (lHl .< Epsilon).
  - cbv zeta.
    match goal with
    | |- context [clamp ?x (Fin m) (Fin M)] =>
        destruct (clamp_any_within x m M Hle) as (c & Hc & Hr);
        rewrite Hc
    end.
    exists c. split; [reflexivity | exact Hr].
  - destruct (lHl .> _).
    + cbv zeta.
      match goal with
      | |- context [clamp ?x (Fin m) (Fin M) .< Fin m] =>
          destruct (clamp_any_within x m M Hle) as (c & Hc & Hr);
          rewrite Hc
      end.
      destruct (Fin c .< Fin m).
      * destruct (clamp_any_within (Fin m) m M Hle) as (c' & Hc' & Hr').
        rewrite Hc'. exists c'. split; [reflexivity | exact Hr'].
      * exists c. split; [reflexivity | exact Hr].
    + cbv zeta.
      match goal with
      | |- context [clamp ?x (Fin m) (Fin M)] =>
          destruct (clamp_any_within x m M Hle) as (c & Hc & Hr);
          rewrite Hc
      end.
      exists c. split; [reflexivity | exact Hr].
Qed.

(** The bounds on [phi] are numbers. *)
Lemma orig_phiBounds_finite {dcollab : DirectionCollaborators}
    (badlyConditioned : bool) (phiCutoffSlope cosTheta sinTheta : Float) :
  safe_asin_finite ->
  exists lo hi : R,
    orig_phiBounds badlyConditioned phiCutoffSlope cosTheta sinTheta
    = (Fin lo, Fin hi).
Proof.
  intros Hasin. unfold orig_phiBounds.
  destruct badlyConditioned.
  - unfold HALF_PI, M_PI. eexists _, _. reflexivity.
  - cbv zeta.
    match goal with
    | |- context [safe_asin ?x] => destruct (Hasin x) as (r & ->)
    end.
    unfold M_PI. eexists _, _. reflexivity.
Qed.

(** Away from the badly conditioned case, [upDir] is a finite vector
    orthogonal to [Hnorm]. *)
Lemma orig_upDir_spec {dcollab : DirectionCollaborators}
    (n1 n2 n3 h1 h2 h3 : R) :
  (Fin 0 .< Epsilon) = true ->
  (n1 * n1 + n2 * n2 + n3 * n3 = 1)%R ->
  (h1 * h1 + h2 * h2 + h3 * h3 = 1)%R ->
  orig_badlyConditioned (mkVector (Fin n1) (Fin n2) (Fin n3))
    (mkVector (Fin h1) (Fin h2) (Fin h3)) = false ->
  exists a1 a2 a3 : R,
    vneg (normalize
            (vsub (mkVector (Fin n1) (Fin n2) (Fin n3))
               (vscale (dot (mkVector (Fin n1) (Fin n2) (Fin n3))
                            (mkVector (Fin h1) (Fin h2) (Fin h3)))
                       (mkVector (Fin h1) (Fin h2) (Fin h3)))))
    = mkVector (Fin a1) (Fin a2) (Fin a3)
    /\ (a1 * h1 + a2 * h2 + a3 * h3 = 0)%R.
Proof.
  intros Heps Hn Hh Hbad.
  unfold orig_badlyConditioned in Hbad. rewrite dot_fin in Hbad.
  cbn [fabs] in Hbad.
  set (d := (n1 * h1 + n2 * h2 + n3 * h3)%R) in *.
  assert (Hd : (Rabs d < 1)%R).
  { destruct Epsilon as [e| | |]; try discriminate Heps.
    - apply fltb_fin in Heps. rewrite fsub_fin in Hbad. unfold fgtb in Hbad.
      destruct (Rlt_dec (1 + - e) (Rabs d)) as [H|H].
      + rewrite fltb_fin_true in Hbad by exact H. discriminate Hbad.
      + lra.
    - cbn in Hbad. discriminate Hbad. }
  assert (Hd2 : (d * d < 1)%R).
  { pose proof (Rabs_pos d) as Hp.
    assert (Hsq : (d * d = Rabs d * Rabs d)%R).
    { unfold Rabs. destruct (Rcase_abs d); ring. }
    rewrite Hsq. nra. }
  rewrite dot_fin. fold d. unfold vscale, vsub. cbn [vx vy vz]. fin_simpl.
  assert (Hpos : (0 < (n1 + - (h1 * d)) * (n1 + - (h1 * d))
                    + (n2 + - (h2 * d)) * (n2 + - (h2 * d))
                    + (n3 + - (h3 * d)) * (n3 + - (h3 * d)))%R).
  { match goal with
    | |- (0 < ?e)%R =>
        replace e with ((n1 * n1 + n2 * n2 + n3 * n3) - 2 * d * d
                        + d * d * (h1 * h1 + h2 * h2 + h3 * h3))%R
          by (subst d; ring)
    end.
    rewrite Hn, Hh. lra. }
  destruct (normalize_fin _ _ _ Hpos) as (k & Hk & -> & _).
  rewrite vneg_fin. eexists _, _, _. split; [reflexivity|].
  transitivity (- k * (d - d * (h1 * h1 + h2 * h2 + h3 * h3)))%R.
  - subst d. ring.
  - rewrite Hh. ring.
Qed.

(** For finite vectors, a failed test [dot(u, n) >= 0] means
    [dot(u, n) < 0]. *)
Lemma fgeb_false_lt (u n : Vector) :
  finite_vector u -> finite_vector n ->
  (dot u n .>= Fin 0) = false -> (dot u n .< 0) = true.
Proof.
  intros (u1 & u2 & u3 & ->) (n1 & n2 & n3 & ->). rewrite dot_fin.
  set (d := (u1 * n1 + u2 * n2 + u3 * n3)%R).
  intros H. apply fltb_fin_true.
  destruct (Rlt_dec d 0) as [Hlt|Hge]; [exact Hlt|].
  exfalso.
  assert (Ht : (Fin d .>= Fin 0) = true)
    by (unfold fgeb; apply fleb_fin; lra).
  rewrite Ht in H. discriminate H.
Qed.

(** What [sampleDirectionBoundaryAwareMonopole_orig] returns is 0 or what
    [pdfDirectionBoundaryAwareMonopole_orig] computes for the direction
    it has written. *)
Lemma sample_orig_spec
    {collab : Collaborators} {dcollab : DirectionCollaborators}
    (self : FwdScat) (u0 n0 uL R : Vector) (s : Float) (smp : Sampler) :
  safe_sqrt_exact -> safe_asin_finite ->
  frame_tangent_ok -> frame_bitangent_ok -> (Fin 0 .< Epsilon) = true ->
  unit_vector n0 ->
  nonzero_vector (vsub (vscale (sp_E (calcValues self s)) R)
                       (vscale (sp_D (calcValues self s)) uL)) ->
  stream_in_unit smp ->
  forall (pdf : Float) (u0' : Vector) (smp' : Sampler),
    sampleDirectionBoundaryAwareMonopole_orig self u0 n0 uL R s smp
    = (pdf, u0', smp') ->
    (pdf .== 0) = true
    \/ (finite_vector u0'
        /\ smp' = (fun n => smp (S (S n)))
        /\ (dot u0' n0 .< 0) = true
        /\ pdfDirectionBoundaryAwareMonopole_orig self u0' n0 uL R s = pdf).
Proof.
  intros Hsq Hasin Hfs Hft Heps Hn0 HH Hstream pdf u0' smp'.
  pose proof (orig_H_unit self uL R s HH) as Hh.
  unfold sampleDirectionBoundaryAwareMonopole_orig,
    pdfDirectionBoundaryAwareMonopole_orig.
  destruct (orig_H self uL R s) as [lHl h]. cbn [snd] in Hh.
  destruct (orig_bounds_spec n0 h) as (m & M & slope & -> & Hm & HM).
  destruct (orig_sampleCosTheta_within lHl m M smp ltac:(lra))
    as (c & -> & Hcr).
  fin_simpl.
  assert (Hc2 : (0 <= 1 + - (c * c))%R) by nra.
  rewrite (Hsq _ Hc2).
  set (sth := sqrt (1 + - (c * c))).
  destruct (orig_phiBounds_finite (orig_badlyConditioned n0 h) slope
              (Fin c) (Fin sth) Hasin) as (lo & hi & Hpb).
  rewrite Hpb. unfold next1D.
  destruct (Hstream 1%nat) as (u & Hu & _). rewrite Hu. fin_simpl.
  destruct (Fin hi .== Fin lo).
  { intros H. injection H as <- _ _. left. apply feqb_zero_lit. }
  cbn [fsin fcos].
  (* the frame: projectionDir, upDir, zeroPhiDir *)
  assert (Hframe :
    exists p1 p2 p3 a1 a2 a3 b1 b2 b3 : Stdlib.Reals.Rdefinitions.R,
      (if orig_badlyConditioned n0 h then n0 else h)
      = mkVector (Fin p1) (Fin p2) (Fin p3)
      /\ (if orig_badlyConditioned n0 h
          then (frame_s (if orig_badlyConditioned n0 h then n0 else h),
                frame_t (if orig_badlyConditioned n0 h then n0 else h))
          else
            (vneg (normalize (vsub n0 (vscale (dot n0 h) h))),
             cross (vneg (normalize (vsub n0 (vscale (dot n0 h) h)))) h))
         = (mkVector (Fin a1) (Fin a2) (Fin a3),
            mkVector (Fin b1) (Fin b2) (Fin b3))
      /\ (p1 * p1 + p2 * p2 + p3 * p3 = 1)%R
      /\ (a1 * p1 + a2 * p2 + a3 * p3 = 0)%R
      /\ (b1 * p1 + b2 * p2 + b3 * p3 = 0)%R).
  { destruct (orig_badlyConditioned n0 h) eqn:Hbad.
    - destruct (Hfs n0 Hn0) as (a1 & a2 & a3 & Hs & Hds & _).
      destruct (Hft n0 Hn0) as (b1 & b2 & b3 & Ht & Hdt).
      destruct Hn0 as (n1 & n2 & n3 & -> & Hn).
      rewrite Hs, dot_fin in Hds. rewrite Ht, dot_fin in Hdt.
      injection Hds as Hds. injection Hdt as Hdt.
      exists n1, n2, n3, a1, a2, a3, b1, b2, b3.
      rewrite Hs, Ht. repeat split; assumption.
    - destruct Hn0 as (n1 & n2 & n3 & -> & Hn).
      destruct Hh as (h1 & h2 & h3 & -> & Hh).
      destruct (orig_upDir_spec n1 n2 n3 h1 h2 h3 Heps Hn Hh Hbad)
        as (a1 & a2 & a3 & Hup & Horth).
      rewrite Hup, cross_fin.
      eexists h1, h2, h3, a1, a2, a3, _, _, _.
      split; [reflexivity|]. split; [reflexivity|].
      split; [exact Hh|]. split; [exact Horth|]. ring. }
  destruct Hframe
    as (p1 & p2 & p3 & a1 & a2 & a3 & b1 & b2 & b3
        & Hp & Hfr & Hpp & Hap & Hbp).
  rewrite Hfr, Hp.
  unfold vscale, vadd. cbn [vx vy vz]. fin_simpl.
  match goal with
  | |- context [dot ?V n0 .>= Fin 0] => set (U := V)
  end.
  assert (HdU : dot (mkVector (Fin p1) (Fin p2) (Fin p3)) U = Fin c).
  { subst U. rewrite dot_fin. f_equal.
    match goal with
    | |- (?e = c)%R =>
        transitivity
          (sth * (sin (lo + (hi + - lo) * u) * (a1 * p1 + a2 * p2 + a3 * p3)
                  + cos (lo + (hi + - lo) * u)
                    * (b1 * p1 + b2 * p2 + b3 * p3))
           + c * (p1 * p1 + p2 * p2 + p3 * p3))%R
    end.
    - ring.
    - rewrite Hap, Hbp, Hpp. ring. }
  assert (HfU : finite_vector U)
    by (subst U; eexists _, _, _; reflexivity).
  clearbody U.
  destruct (dot U n0 .>= Fin 0) eqn:Hd.
  { intros H. injection H as <- _ _. left. apply feqb_zero_lit. }
  match goal with
  | |- context [if ?p .== Fin 0 then _ else _] => destruct (p .== Fin 0)
  end.
  { intros H. injection H as <- _ _. left. apply feqb_zero_lit. }
  intros H. injection H as <- <- <-. right.
  split; [exact HfU|]. split; [reflexivity|].
  split; [exact (fgeb_false_lt _ _ HfU (unit_vector_finite _ Hn0) Hd)|].
  rewrite Hd. unfold roundCosThetaForStability.
  rewrite HdU. rewrite (clamp_fin_id c (-1) 1) by lra.
  fin_simpl. rewrite (Hsq _ Hc2). fold sth. rewrite Hpb. reflexivity.
Qed.

(** X24.  Sample/pdf consistency of the "_orig" monopole direction
    sampler, in exact arithmetic.  For a unit normal [n0], a vector
    [H = E R - D uL] that is finite and not zero, random numbers in
    [0, 1], a positive [Epsilon], an exact [safe_sqrt], a [safe_asin] that
    returns numbers and [Frame] tangents orthogonal to the normal:
    whatever [sampleDirectionBoundaryAwareMonopole_orig] returns is 0 or
    the value of [pdfDirectionBoundaryAwareMonopole_orig] at the
    direction it has written -- badly conditioned or not, and in each of
    the three arms of the draw of [cosTheta]. *)
Theorem sampleDirection_orig_consistent
    {collab : Collaborators} {dcollab : DirectionCollaborators}
    (self : FwdScat) (u0 n0 uL R : Vector) (s : Float) (sampler : Sampler) :
  safe_sqrt_exact -> safe_asin_finite ->
  frame_tangent_ok -> frame_bitangent_ok -> (Fin 0 .< Epsilon) = true ->
  unit_vector n0 ->
  nonzero_vector (vsub (vscale (sp_E (calcValues self s)) R)
                       (vscale (sp_D (calcValues self s)) uL)) ->
  stream_in_unit sampler ->
  let '(pdf, u0', _) :=
    sampleDirectionBoundaryAwareMonopole_orig self u0 n0 uL R s sampler in
  (pdf .== 0) = true
  \/ pdfDirectionBoundaryAwareMonopole_orig self u0' n0 uL R s = pdf.
Proof.
  intros Hsq Hasin Hfs Hft Heps Hn0 HH Hstream.
  destruct (sampleDirectionBoundaryAwareMonopole_orig self u0 n0 uL R s
              sampler) as [[pdf u0'] smp'] eqn:Hs.
  destruct (sample_orig_spec self u0 n0 uL R s sampler
              Hsq Hasin Hfs Hft Heps Hn0 HH Hstream _ _ _ Hs)
    as [Hz | (_ & _ & _ & Hpdf)]; [left; exact Hz | right; exact Hpdf].
Qed.

Lemma sample_safe_asin_finite (x : Float) :
  exists r : R, sample_safe_asin x = Fin r.
Proof.
  unfold sample_safe_asin.
  destruct (clamp_any_within x (-1) 1 ltac:(lra)) as (c & Hc & _).
  rewrite Hc. eexists. reflexivity.
Qed.

Lemma exact_safe_asin_finite :
  safe_asin_finite (dcollab := exact_direction_collaborators).
Proof. intros x. apply sample_safe_asin_finite. Qed.

Lemma exact_frame_bitangent_ok :
  frame_bitangent_ok (dcollab := exact_direction_collaborators).
Proof.
  intros n Hn.
  destruct (exact_frame_tangent_ok n Hn) as (a & b & c & Hs & _ & _).
  cbn [frame_s exact_direction_collaborators] in Hs.
  cbn [frame_t exact_direction_collaborators].
  destruct Hn as (n1 & n2 & n3 & -> & _).
  rewrite Hs, cross_fin. eexists _, _, _. split; [reflexivity|].
  rewrite dot_fin. f_equal. ring.
Qed.

Lemma exact_Epsilon_pos :
  (Fin 0 .< Epsilon (DirectionCollaborators := exact_direction_collaborators))
  = true.
Proof. apply fltb_fin. cbn. lra. Qed.

(** [H = E R - D uL] for the medium, the direction and the displacement
    used to exhibit concrete inputs. *)
Lemma sample_H_nonzero :
  nonzero_vector
    (vsub (vscale (sp_E (calcValues (mkFwdScat 1 0.5 1 1) (Fin 1)))
                  (mkVector 0 0 0))
          (vscale (sp_D (calcValues (mkFwdScat 1 0.5 1 1) (Fin 1)))
                  (mkVector 0.6 0 0.8))).
Proof.
  destruct (calcValues_pos (mkFwdScat 1 0.5 1 1) 1 1 1
              eq_refl eq_refl ltac:(lra) ltac:(lra) ltac:(lra))
    as (c & d & e & f & z & Hv & _ & Hd & _).
  rewrite Hv. cbn [sp_E sp_D]. unfold vscale, vsub. cbn [vx vy vz].
  fin_simpl. eexists _, _, _. split; [reflexivity|]. nra.
Qed.

Lemma sampleDirection_orig_consistent_witness :
  let '(pdf, u0', _) :=
    sampleDirectionBoundaryAwareMonopole_orig
      (collab := sample_collaborators)
      (dcollab := exact_direction_collaborators)
      (mkFwdScat 1 0.5 1 1) (mkVector 0 0 1) (mkVector 0 0 1)
      (mkVector 0.6 0 0.8) (mkVector 0 0 0) (Fin 1) sample_stream in
  (pdf .== 0) = true
  \/ pdfDirectionBoundaryAwareMonopole_orig
       (collab := sample_collaborators)
       (dcollab := exact_direction_collaborators)
       (mkFwdScat 1 0.5 1 1) u0' (mkVector 0 0 1) (mkVector 0.6 0 0.8)
       (mkVector 0 0 0) (Fin 1) = pdf.
Proof.
  apply (sampleDirection_orig_consistent
           (collab := sample_collaborators)
           (dcollab := exact_direction_collaborators)
           (mkFwdScat 1 0.5 1 1) (mkVector 0 0 1) (mkVector 0 0 1)
           (mkVector 0.6 0 0.8) (mkVector 0 0 0) (Fin 1) sample_stream
           exact_safe_sqrt_exact exact_safe_asin_finite
           exact_frame_tangent_ok exact_frame_bitangent_ok
           exact_Epsilon_pos unit_vector_z sample_H_nonzero
           sample_stream_in_unit).
Defined.

(** ** Direction sampler: the "_bis" monopole sampler *)

Lemma stream_shift (sampler : Sampler) :
  stream_strictly_in_unit sampler ->
  stream_strictly_in_unit (fun n => sampler (S n)).
Proof. intros H n. apply H. Qed.

(** The draw of [cosTheta]: a number strictly between -1 and 0, with the
    pdf that the function returns for it without a sampler. *)
Lemma sampleExpSinCos_dCos_spec
    {collab : Collaborators} {dcollab : DirectionCollaborators}
    (a b angle0 : Float) (smp : Sampler) :
  truncnorm_well_behaved -> truncatedExponential_strictly_within ->
  stream_strictly_in_unit smp ->
  exists (cpdf : Float) (t : R) (smp1 : Sampler),
    sampleExpSinCos_dCos a b angle0 (Some smp) = (cpdf, Fin t, Some smp1)
    /\ (-1 < t < 0)%R
    /\ stream_strictly_in_unit smp1
    /\ sampleExpSinCos_dCos a b (Fin t) None = (cpdf, Fin t, None).
Proof.
  intros Htn Hexp Hstream.
  unfold sampleExpSinCos_dCos. unfold next1D.
  destruct (smp 0%nat .< _).
  - match goal with
    | |- context [truncnorm ?mean ?sd _ _ ?s1] =>
        destruct (Htn mean sd (-1.0)%R 0.0%R s1 ltac:(lra)
                    (stream_shift _ Hstream))
          as (t & smp1 & Ht & Hr & Hs1)
    end.
    rewrite Ht. eexists _, t, smp1.
    split; [reflexivity|]. split; [lra|]. split; [exact Hs1 | reflexivity].
  - destruct (Hstream 1%nat) as (u & Hu & Hu01).
    destruct (smp 0%nat .< _).
    + rewrite Hu.
      destruct (Hexp b (-1.0)%R 0.0%R u ltac:(lra) Hu01) as (t & Ht & Hr).
      rewrite Ht. eexists _, t, _.
      split; [reflexivity|]. split; [lra|].
      split; [|reflexivity].
      intros n. apply Hstream.
    + rewrite Hu. rewrite fneg_fin. eexists _, (- u)%R, _.
      split; [reflexivity|]. split; [lra|].
      split; [|reflexivity].
      intros n. apply Hstream.
Qed.

(** [sampleExpCos_dPhi] without a sampler hands no sampler back. *)
Lemma sampleExpCos_dPhi_None {collab : Collaborators} (a x : Float) :
  snd (sampleExpCos_dPhi a x None) = None.
Proof.
  unfold sampleExpCos_dPhi. cbv zeta.
  destruct (_ .== 0); [reflexivity|].
  destruct (a .> 0); reflexivity.
Qed.

(** The draw of [phi]: the function gives up with pdf 0, or it draws a
    number strictly inside the range of the azimuth, with the pdf that
    the function returns without a sampler for any angle that it reads
    back as that number. *)
Lemma sampleExpCos_dPhi_spec {collab : Collaborators}
    (a angle0 : Float) (smp : Sampler) :
  truncnorm_well_behaved -> stream_strictly_in_unit smp ->
  exists (ppdf ph : Float) (smp2 : Sampler),
    sampleExpCos_dPhi a angle0 (Some smp) = (ppdf, ph, Some smp2)
    /\ ((ppdf .== 0) = true
        \/ exists phi lo : R,
             ph = Fin phi /\ (lo = - PI \/ lo = 0)%R
             /\ (lo < phi < lo + 2 * PI)%R
             /\ forall x : Float,
                  (if x .< Fin lo then x .+ Fin (2 * PI) else x) = Fin phi ->
                  fst (fst (sampleExpCos_dPhi a x None)) = ppdf).
Proof.
  intros Htn Hstream. pose proof PI_RGT_0 as Hpi.
  unfold sampleExpCos_dPhi. unfold next1D. cbv zeta.
  match goal with
  | |- context [if ?sd .== Fin 0 then _ else _] => set (psd := sd)
  end.
  destruct (psd .== Fin 0).
  { eexists _, _, _. split; [reflexivity|]. left. apply feqb_fin. reflexivity. }
  unfold M_PI_DBL, TWO_PI_DBL.
  destruct (a .> 0); cbv beta iota; fin_simpl.
  - destruct (smp 0%nat .< _).
    + destruct (Hstream 1%nat) as (u & Hu & Hu01). rewrite Hu. fin_simpl.
      eexists _, _, _. split; [reflexivity|]. right.
      eexists _, (- PI)%R. split; [reflexivity|].
      split; [left; reflexivity|].
      assert (Hr : (- PI < - PI + u * (PI + - - PI) < - PI + 2 * PI)%R)
        by nra.
      split; [exact Hr|].
      intros x Hx. cbn [fst]. rewrite Hx.
      rewrite fltb_fin_false by lra. reflexivity.
    + destruct (Htn (Fin 0) psd (- PI)%R PI (fun n => smp (S n))
                  ltac:(lra) (stream_shift _ Hstream))
        as (phi & smp2 & Ht & Hr & _).
      rewrite Ht. eexists _, _, _. split; [reflexivity|]. right.
      exists phi, (- PI)%R. split; [reflexivity|].
      split; [left; reflexivity|]. split; [lra|].
      intros x Hx. cbn [fst]. rewrite Hx.
      rewrite fltb_fin_false by lra. reflexivity.
  - destruct (smp 0%nat .< _).
    + destruct (Hstream 1%nat) as (u & Hu & Hu01). rewrite Hu. fin_simpl.
      eexists _, _, _. split; [reflexivity|]. right.
      eexists _, 0%R. split; [reflexivity|].
      split; [right; reflexivity|].
      assert (Hr : (0 < 0 + u * (2 * PI + - 0) < 0 + 2 * PI)%R) by nra.
      split; [exact Hr|].
      intros x Hx. cbn [fst]. rewrite Hx.
      rewrite fltb_fin_false by lra. reflexivity.
    + destruct (Htn (Fin PI) psd 0%R (2 * PI)%R (fun n => smp (S n))
                  ltac:(lra) (stream_shift _ Hstream))
        as (phi & smp2 & Ht & Hr & _).
      rewrite Ht. eexists _, _, _. split; [reflexivity|]. right.
      exists phi, 0%R. split; [reflexivity|].
      split; [right; reflexivity|]. split; [lra|].
      intros x Hx. cbn [fst]. rewrite Hx.
      rewrite fltb_fin_false by lra. reflexivity.
Qed.

(** The regularized [H] is a finite vector when [H] is. *)
Lemma regularize_finite {collab : Collaborators} (H0 : Vector) :
  finite_vector H0 -> (Fin 0 .< MTS_FWDSCAT_DIRECTION_MIN_MU) = true ->
  finite_vector
    (if vlength H0 .> 1 ./ MTS_FWDSCAT_DIRECTION_MIN_MU
     then vscale (1 ./ MTS_FWDSCAT_DIRECTION_MIN_MU ./ vlength H0) H0
     else H0).
Proof.
  intros (h1 & h2 & h3 & ->) Hmu. rewrite vlength_fin.
  set (l := sqrt (h1 * h1 + h2 * h2 + h3 * h3)).
  destruct MTS_FWDSCAT_DIRECTION_MIN_MU as [m| | |]; try discriminate Hmu.
  - apply fltb_fin in Hmu. rewrite fdiv_fin by lra.
    unfold fgtb. destruct (Fin (1 / m) .< Fin l) eqn:Hcmp.
    + apply fltb_fin in Hcmp.
      assert (0 < 1 / m)%R by (apply Rdiv_lt_0_compat; lra).
      rewrite fdiv_fin by lra.
      unfold vscale. cbn [vx vy vz]. fin_simpl.
      eexists _, _, _. reflexivity.
    + eexists _, _, _. reflexivity.
  - change (Fin 1 ./ PInf) with (Fin 0).
    unfold fgtb. destruct (Fin 0 .< Fin l) eqn:Hcmp.
    + apply fltb_fin in Hcmp. rewrite fdiv_fin by lra.
      unfold vscale. cbn [vx vy vz]. fin_simpl.
      eexists _, _, _. reflexivity.
    + eexists _, _, _. reflexivity.
Qed.

(** What [implDirectionBoundaryAwareMonopole_bis] writes when it samples:
    pdf 0, or a unit incoming direction together with the pdf that the
    function writes for that direction when it evaluates. *)
Lemma impl_bis_sample_spec
    {collab : Collaborators} {dcollab : DirectionCollaborators}
    (self : FwdScat) (u0 n0 uL R : Vector) (s : Float) (smp : Sampler) :
  truncnorm_well_behaved -> truncatedExponential_strictly_within ->
  atan2_exact -> safe_sqrt_exact -> frame_tangent_ok ->
  (Fin 0 .<= Epsilon) = true -> isfinite Epsilon = true ->
  (Fin 0 .< MTS_FWDSCAT_DIRECTION_MIN_MU) = true ->
  unit_vector n0 ->
  finite_vector (vsub (vscale (sp_E (calcValues self s)) R)
                      (vscale (sp_D (calcValues self s)) uL)) ->
  stream_strictly_in_unit smp ->
  forall (pdf : Float) (u0' : Vector) (smp' : option Sampler),
    implDirectionBoundaryAwareMonopole_bis self u0 n0 uL R s (Some smp)
    = (pdf, u0', smp') ->
    (pdf .== 0) = true
    \/ (unit_vector u0' /\ (dot u0' n0 .< 0) = true
        /\ fst (fst (implDirectionBoundaryAwareMonopole_bis
                       self u0' n0 uL R s None)) = pdf).
Proof.
  intros Htn Hexp Hat Hsq Hfr Heps Hepsfin Hmu (z1 & z2 & z3 & -> & Hz)
    HH Hstream pdf u0' smp'.
  pose proof (regularize_finite _ HH Hmu) as Hreg.
  unfold implDirectionBoundaryAwareMonopole_bis. cbv beta zeta.
  match type of Hreg with
  | finite_vector ?H => set (Hr := H) in *
  end.
  assert (Hthr : (Fin 0 .<= Epsilon .* vlength Hr) = true).
  { destruct Hreg as (g1 & g2 & g3 & ->). rewrite vlength_fin.
    destruct (isfinite_inv _ Hepsfin) as (e & He). rewrite He in *.
    apply fleb_fin in Heps. rewrite fmul_fin. apply fleb_fin.
    apply Rmult_le_pos; [exact Heps | apply sqrt_pos]. }
  destruct (frame_axis_spec Hr (Epsilon .* vlength Hr) z1 z2 z3
              Hfr Hthr Hz Hreg) as (x1 & x2 & x3 & Hx & Hxx & Hxz).
  cbv zeta in Hx. rewrite !Hx. rewrite !cross_fin. clear Hx.
  match goal with
  | |- context [sampleExpSinCos_dCos ?a0 ?b0 NaN _] =>
      set (a := a0); set (b := b0)
  end.
  clearbody a b. clear Hthr Hreg. clearbody Hr.
  destruct (sampleExpSinCos_dCos_spec a b NaN smp Htn Hexp Hstream)
    as (cpdf & t & smp1 & Hc & Htr & Hs1 & Hcn).
  rewrite Hc. cbv beta iota.
  unfold square. fin_simpl.
  assert (Hst : (0 < 1 + - (t * t))%R) by nra.
  rewrite (Hsq _ (Rlt_le _ _ Hst)).
  pose proof (sqrt_lt_R0 _ Hst) as Hsth.
  pose proof (sqrt_sqr_eq _ (Rlt_le _ _ Hst)) as Hsth2.
  set (sth := sqrt (1 + - (t * t))) in *.
  set (pc := fabs a .* Fin sth).
  destruct (sampleExpCos_dPhi_spec pc NaN smp1 Htn Hs1)
    as (ppdf & ph & smp2 & Hp & Hcase).
  rewrite Hp. cbv beta iota.
  destruct (ppdf .== Fin 0) eqn:Hpz.
  { intros H. injection H as <- _ _. left. apply feqb_fin. reflexivity. }
  destruct Hcase as [Hzero | (phi & lo & -> & Hlo & Hphir & Hcons)].
  { discriminate Hzero. }
  cbn [fsin fcos].
  intros H.
  match type of H with
  | (if ?g then _ else _) = _ => destruct g eqn:Hg
  end.
  { injection H as <- _ _. left. apply feqb_fin. reflexivity. }
  injection H as <- <- _. right.
  match goal with
  | |- unit_vector ?V /\ _ => remember V as U eqn:HU
  end.
  unfold vscale, vadd in HU. cbn [vx vy vz fmul fadd] in HU.
  pose proof (frame_combination x1 x2 x3 z1 z2 z3
                (sth * cos phi) (sth * sin phi) t Hxx Hz Hxz) as Hcomb.
  cbv zeta in Hcomb.
  destruct Hcomb as (Hc1 & Hc2 & Hc3 & Hc4).
  assert (Hdz : dot U (mkVector (Fin z1) (Fin z2) (Fin z3)) = Fin t)
    by (rewrite HU, dot_fin; f_equal; etransitivity; [|exact Hc2]; ring).
  assert (Hdx : dot U (mkVector (Fin x1) (Fin x2) (Fin x3))
                = Fin (sth * cos phi))
    by (rewrite HU, dot_fin; f_equal; etransitivity; [|exact Hc3]; ring).
  assert (Hdy : dot U (mkVector (Fin (x2 * z3 + - (x3 * z2)))
                                (Fin (x3 * z1 + - (x1 * z3)))
                                (Fin (x1 * z2 + - (x2 * z1))))
                = Fin (sth * sin phi))
    by (rewrite HU, dot_fin; f_equal; etransitivity; [|exact Hc4]; ring).
  assert (Hunit : unit_vector U).
  { rewrite HU. eexists _, _, _. split; [reflexivity|].
    etransitivity; [etransitivity; [|exact Hc1]; ring|].
    pose proof (sin2_cos2 phi) as Hsc. unfold Rsqr in Hsc.
    transitivity (sth * sth * (sin phi * sin phi + cos phi * cos phi)
                  + t * t)%R; [ring|].
    rewrite Hsc, Hsth2. ring. }
  clear HU Hc1 Hc2 Hc3 Hc4.
  rewrite Hdz, Hdx, Hdy.
  split; [exact Hunit|].
  split; [apply fltb_fin_true; lra|].
  rewrite (clamp_fin_id t) by lra.
  rewrite Hcn. cbv beta iota.
  fin_simpl. rewrite (Hsq _ (Rlt_le _ _ Hst)). fold sth. fold pc.
  pose proof (Hcons _ (atan2_recovers lo phi sth Hat Hsth Hlo Hphir))
    as Hpp.
  pose proof (sampleExpCos_dPhi_None pc
                (atan2 (Fin (sth * sin phi)) (Fin (sth * cos phi))))
    as Hnone.
  destruct (sampleExpCos_dPhi pc
              (atan2 (Fin (sth * sin phi)) (Fin (sth * cos phi))) None)
    as [[pp ph'] os].
  cbn [fst] in Hpp. cbn [snd] in Hnone. subst pp os.
  rewrite Hpz. rewrite Hg. reflexivity.
Qed.

(** The same for the entry points [sampleDirectionBoundaryAwareMonopole_bis]
    and [pdfDirectionBoundaryAwareMonopole_bis]. *)
Lemma sample_bis_spec
    {collab : Collaborators} {dcollab : DirectionCollaborators}
    (self : FwdScat) (u0 n0 uL R : Vector) (s : Float) (smp : Sampler) :
  truncnorm_well_behaved -> truncatedExponential_strictly_within ->
  atan2_exact -> safe_sqrt_exact -> frame_tangent_ok ->
  (Fin 0 .<= Epsilon) = true -> isfinite Epsilon = true ->
  (Fin 0 .< MTS_FWDSCAT_DIRECTION_MIN_MU) = true ->
  unit_vector n0 ->
  finite_vector (vsub (vscale (sp_E (calcValues self s)) R)
                      (vscale (sp_D (calcValues self s)) uL)) ->
  stream_strictly_in_unit smp ->
  forall (pdf : Float) (u0' : Vector) (smp' : Sampler),
    sampleDirectionBoundaryAwareMonopole_bis self u0 n0 uL R s smp
    = (pdf, u0', smp') ->
    (pdf .== 0) = true
    \/ (unit_vector u0' /\ (dot u0' n0 .< 0) = true
        /\ pdfDirectionBoundaryAwareMonopole_bis self u0' n0 uL R s = pdf).
Proof.
  intros Htn Hexp Hat Hsq Hfr Heps Hepsfin Hmu Hn HH Hstream
    pdf u0' smp' Hs.
  unfold sampleDirectionBoundaryAwareMonopole_bis in Hs.
  destruct (implDirectionBoundaryAwareMonopole_bis self u0 n0 uL R s
              (Some smp)) as [[p u] os] eqn:Himpl.
  assert (Hpu : p = pdf /\ u = u0').
  { destruct os; injection Hs as <- <- _; split; reflexivity. }
  destruct Hpu as [-> ->].
  destruct (impl_bis_sample_spec self u0 n0 uL R s smp
              Htn Hexp Hat Hsq Hfr Heps Hepsfin Hmu Hn HH Hstream
              _ _ _ Himpl)
    as [Hz | (Hu & Hin & Hpdf)]; [left; exact Hz|].
  right. split; [exact Hu|]. split; [exact Hin|].
  unfold pdfDirectionBoundaryAwareMonopole_bis.
  destruct (implDirectionBoundaryAwareMonopole_bis self u0' n0 uL R s None)
    as [[p' u'] os']. exact Hpdf.
Qed.

(** X25.  Sample/pdf consistency of the "_bis" monopole direction
    sampler, and where its directions lie, in exact arithmetic.  For a
    unit normal [n0], a finite [H = E R - D uL], random numbers strictly
    between 0 and 1, a [truncnorm] and a truncated exponential that
    return numbers strictly inside their interval, exact [atan2],
    [safe_sqrt] and [Frame], a finite [Epsilon >= 0] and
    [MTS_FWDSCAT_DIRECTION_MIN_MU > 0]: whenever
    [sampleDirectionBoundaryAwareMonopole_bis] returns a non-zero pdf,
    the direction it has written is a unit vector with [dot(u0, n0) < 0]
    and [pdfDirectionBoundaryAwareMonopole_bis] returns the same pdf for
    it, whichever strategies the two angle samplers drew. *)
Theorem sampleDirection_bis_consistent
    {collab : Collaborators} {dcollab : DirectionCollaborators}
    (self : FwdScat) (u0 n0 uL R : Vector) (s : Float) (sampler : Sampler) :
  truncnorm_well_behaved -> truncatedExponential_strictly_within ->
  atan2_exact -> safe_sqrt_exact -> frame_tangent_ok ->
  (Fin 0 .<= Epsilon) = true -> isfinite Epsilon = true ->
  (Fin 0 .< MTS_FWDSCAT_DIRECTION_MIN_MU) = true ->
  unit_vector n0 ->
  finite_vector (vsub (vscale (sp_E (calcValues self s)) R)
                      (vscale (sp_D (calcValues self s)) uL)) ->
  stream_strictly_in_unit sampler ->
  let '(pdf, u0', _) :=
    sampleDirectionBoundaryAwareMonopole_bis self u0 n0 uL R s sampler in
  (pdf .== 0) = true
  \/ (unit_vector u0' /\ (dot u0' n0 .< 0) = true
      /\ pdfDirectionBoundaryAwareMonopole_bis self u0' n0 uL R s = pdf).
Proof.
  intros Htn Hexp Hat Hsq Hfr Heps Hepsfin Hmu Hn HH Hstream.
  destruct (sampleDirectionBoundaryAwareMonopole_bis self u0 n0 uL R s
              sampler) as [[pdf u0'] smp'] eqn:Hs.
  exact (sample_bis_spec self u0 n0 uL R s sampler
           Htn Hexp Hat Hsq Hfr Heps Hepsfin Hmu Hn HH Hstream _ _ _ Hs).
Qed.

Lemma midpoint_truncnorm_well_behaved :
  truncnorm_well_behaved (collab := midpoint_collaborators).
Proof.
  intros mean stddev lo hi smp Hlt Hstream. cbn.
  eexists ((lo + hi) * 0.5)%R, _. split; [reflexivity|].
  split; [lra|]. intros n. apply Hstream.
Qed.

Lemma exact_truncatedExponential_strictly_within :
  truncatedExponential_strictly_within
    (dcollab := exact_direction_collaborators).
Proof.
  intros a lo hi u Hlt Hu. cbn. fin_simpl.
  exists (lo + u * (hi + - lo))%R.
  split; [apply clamp_fin_id; nra | nra].
Qed.

Lemma sample_stream_strictly_in_unit : stream_strictly_in_unit sample_stream.
Proof.
  intros [|[|n]]; cbn [sample_stream]; eexists; (split; [reflexivity|lra]).
Qed.

Lemma midpoint_MIN_MU_pos :
  (Fin 0 .< MTS_FWDSCAT_DIRECTION_MIN_MU (Collaborators := midpoint_collaborators))
  = true.
Proof. apply fltb_fin. cbn. lra. Qed.

Lemma nonzero_vector_finite (v : Vector) : nonzero_vector v -> finite_vector v.
Proof. intros (a & b & c & -> & _). exists a, b, c. reflexivity. Qed.

Lemma sampleDirection_bis_consistent_witness :
  let '(pdf, u0', _) :=
    sampleDirectionBoundaryAwareMonopole_bis
      (collab := midpoint_collaborators)
      (dcollab := exact_direction_collaborators)
      (mkFwdScat 1 0.5 1 1) (mkVector 0 0 1) (mkVector 0 0 1)
      (mkVector 0.6 0 0.8) (mkVector 0 0 0) (Fin 1) sample_stream in
  (pdf .== 0) = true
  \/ (unit_vector u0' /\ (dot u0' (mkVector 0 0 1) .< 0) = true
      /\ pdfDirectionBoundaryAwareMonopole_bis
           (collab := midpoint_collaborators)
           (dcollab := exact_direction_collaborators)
           (mkFwdScat 1 0.5 1 1) u0' (mkVector 0 0 1) (mkVector 0.6 0 0.8)
           (mkVector 0 0 0) (Fin 1) = pdf).
Proof.
  apply (sampleDirection_bis_consistent
           (collab := midpoint_collaborators)
           (dcollab := exact_direction_collaborators)
           (mkFwdScat 1 0.5 1 1) (mkVector 0 0 1) (mkVector 0 0 1)
           (mkVector 0.6 0 0.8) (mkVector 0 0 0) (Fin 1) sample_stream
           midpoint_truncnorm_well_behaved
           exact_truncatedExponential_strictly_within
           exact_atan2_exact exact_safe_sqrt_exact exact_frame_tangent_ok
           exact_Epsilon_nonneg eq_refl midpoint_MIN_MU_pos
           unit_vector_z (nonzero_vector_finite _ sample_H_nonzero)
           sample_stream_strictly_in_unit).
Defined.

(** ** Direction sampler: the mixture of "_orig" and "_bis" *)

Lemma stream_strict_in_unit (sampler : Sampler) :
  stream_strictly_in_unit sampler -> stream_in_unit sampler.
Proof.
  intros H n. destruct (H n) as (u & Hu & Hr).
  exists u. split; [exact Hu | lra].
Qed.

Lemma fltb_fleb (a b : Float) : (a .< b) = true -> (a .<= b) = true.
Proof. intros H. unfold fleb. rewrite H. reflexivity. Qed.

(** What [sampleDirectionBoundaryAwareMonopole] without the effective
    BRDF returns is 0 or the mixture pdf of the direction it has
    written. *)
Lemma sample_mixture_spec
    {collab : Collaborators} {dcollab : DirectionCollaborators}
    (self : FwdScat) (u0 n0 uL R : Vector) (s : Float) (smp : Sampler) :
  truncnorm_well_behaved -> truncatedExponential_strictly_within ->
  atan2_exact -> safe_sqrt_exact -> safe_asin_finite ->
  frame_tangent_ok -> frame_bitangent_ok ->
  (Fin 0 .< Epsilon) = true -> isfinite Epsilon = true ->
  (Fin 0 .< MTS_FWDSCAT_DIRECTION_MIN_MU) = true ->
  unit_vector n0 ->
  nonzero_vector (vsub (vscale (sp_E (calcValues self s)) R)
                       (vscale (sp_D (calcValues self s)) uL)) ->
  stream_strictly_in_unit smp ->
  forall (pdf : Float) (u0' : Vector) (smp' : Sampler),
    sampleDirectionBoundaryAwareMonopole self u0 n0 uL R s false smp
    = (pdf, u0', smp') ->
    (pdf .== 0) = true
    \/ (finite_vector u0' /\ (dot u0' n0 .< 0) = true
        /\ pdfDirectionBoundaryAwareMonopole self u0' n0 uL R s false = pdf).
Proof.
  intros Htn Hexp Hat Hsq Hasin Hfs Hft Heps Hepsfin Hmu Hn HH Hstream
    pdf u0' smp'.
  unfold sampleDirectionBoundaryAwareMonopole,
    pdfDirectionBoundaryAwareMonopole, next1D.
  pose proof (stream_shift _ Hstream) as Hs1.
  set (smp1 := fun n : nat => smp (S n)) in *.
  destruct (smp 0%nat .< directionSampler_origWeight).
  - destruct (sampleDirectionBoundaryAwareMonopole_orig self u0 n0 uL R s
                smp1) as [[p1 u1] s1] eqn:Hs.
    destruct (sample_orig_spec self u0 n0 uL R s smp1
                Hsq Hasin Hfs Hft Heps Hn HH (stream_strict_in_unit _ Hs1)
                _ _ _ Hs) as [Hz | (Hfin & _ & Hin & Hpdf)].
    + rewrite Hz. intros H. injection H as <- _ _. left.
      apply feqb_fin. reflexivity.
    + destruct (p1 .== 0).
      * intros H. injection H as <- _ _. left. apply feqb_fin. reflexivity.
      * intros H. injection H as <- <- _. right.
        split; [exact Hfin|]. split; [exact Hin|].
        rewrite Hpdf. reflexivity.
  - destruct (sampleDirectionBoundaryAwareMonopole_bis self u0 n0 uL R s
                smp1) as [[p2 u2] s2] eqn:Hs.
    destruct (sample_bis_spec self u0 n0 uL R s smp1
                Htn Hexp Hat Hsq Hfs (fltb_fleb _ _ Heps) Hepsfin Hmu Hn
                (nonzero_vector_finite _ HH) Hs1 _ _ _ Hs)
      as [Hz | (Hu & Hin & Hpdf)].
    + rewrite Hz. intros H. injection H as <- _ _. left.
      apply feqb_fin. reflexivity.
    + destruct (p2 .== 0).
      * intros H. injection H as <- _ _. left. apply feqb_fin. reflexivity.
      * intros H. injection H as <- <- _. right.
        split; [exact (unit_vector_finite _ Hu)|]. split; [exact Hin|].
        rewrite Hpdf. reflexivity.
Qed.

(** X26.  Sample/pdf consistency of the mixture of the two monopole
    direction samplers, in exact arithmetic.  Under the assumptions of
    the "_orig" and of the "_bis" sampler together (unit [n0], finite
    non-zero [H = E R - D uL], random numbers strictly between 0 and 1,
    well-behaved collaborators), [sampleDirectionBoundaryAwareMonopole]
    without the effective BRDF returns 0 or the value of
    [pdfDirectionBoundaryAwareMonopole] at the direction it has written:
    the pdf of the strategy that drew the direction and the pdf of the
    other one, weighted by [directionSampler_origWeight]. *)
Theorem sampleDirectionMonopole_mixture_consistent
    {collab : Collaborators} {dcollab : DirectionCollaborators}
    (self : FwdScat) (u0 n0 uL R : Vector) (s : Float) (sampler : Sampler) :
  truncnorm_well_behaved -> truncatedExponential_strictly_within ->
  atan2_exact -> safe_sqrt_exact -> safe_asin_finite ->
  frame_tangent_ok -> frame_bitangent_ok ->
  (Fin 0 .< Epsilon) = true -> isfinite Epsilon = true ->
  (Fin 0 .< MTS_FWDSCAT_DIRECTION_MIN_MU) = true ->
  unit_vector n0 ->
  nonzero_vector (vsub (vscale (sp_E (calcValues self s)) R)
                       (vscale (sp_D (calcValues self s)) uL)) ->
  stream_strictly_in_unit sampler ->
  let '(pdf, u0', _) :=
    sampleDirectionBoundaryAwareMonopole self u0 n0 uL R s false sampler in
  (pdf .== 0) = true
  \/ pdfDirectionBoundaryAwareMonopole self u0' n0 uL R s false = pdf.
Proof.
  intros Htn Hexp Hat Hsq Hasin Hfs Hft Heps Hepsfin Hmu Hn HH Hstream.
  destruct (sampleDirectionBoundaryAwareMonopole self u0 n0 uL R s false
              sampler) as [[pdf u0'] smp'] eqn:Hs.
  destruct (sample_mixture_spec self u0 n0 uL R s sampler
              Htn Hexp Hat Hsq Hasin Hfs Hft Heps Hepsfin Hmu Hn HH Hstream
              _ _ _ Hs) as [Hz | (_ & _ & Hpdf)];
    [left; exact Hz | right; exact Hpdf].
Qed.

Lemma sampleDirectionMonopole_mixture_consistent_witness :
  let '(pdf, u0', _) :=
    sampleDirectionBoundaryAwareMonopole
      (collab := midpoint_collaborators)
      (dcollab := exact_direction_collaborators)
      (mkFwdScat 1 0.5 1 1) (mkVector 0 0 1) (mkVector 0 0 1)
      (mkVector 0.6 0 0.8) (mkVector 0 0 0) (Fin 1) false sample_stream in
  (pdf .== 0) = true
  \/ pdfDirectionBoundaryAwareMonopole
       (collab := midpoint_collaborators)
       (dcollab := exact_direction_collaborators)
       (mkFwdScat 1 0.5 1 1) u0' (mkVector 0 0 1) (mkVector 0.6 0 0.8)
       (mkVector 0 0 0) (Fin 1) false = pdf.
Proof.
  apply (sampleDirectionMonopole_mixture_consistent
           (collab := midpoint_collaborators)
           (dcollab := exact_direction_collaborators)
           (mkFwdScat 1 0.5 1 1) (mkVector 0 0 1) (mkVector 0 0 1)
           (mkVector 0.6 0 0.8) (mkVector 0 0 0) (Fin 1) sample_stream
           midpoint_truncnorm_well_behaved
           exact_truncatedExponential_strictly_within
           exact_atan2_exact exact_safe_sqrt_exact exact_safe_asin_finite
           exact_frame_tangent_ok exact_frame_bitangent_ok
           exact_Epsilon_pos eq_refl midpoint_MIN_MU_pos
           unit_vector_z sample_H_nonzero sample_stream_strictly_in_unit).
Defined.

(** With [tangentMode = EUnmodifiedIncoming] the virtual source lies
    below the real one along the incoming normal. *)
Lemma tentative_unmodified_incoming_Rvirt {collab : Collaborators}
    (self : FwdScat) (n0 nL uL R : Vector) (s : Float)
    (R_virt n0_effective : Vector) (weight : option Float) :
  getTentativeIndexMatchedVirtualSourceDisp self n0 nL uL R s
    EUnmodifiedIncoming true = Some (R_virt, n0_effective, weight) ->
  exists zv : Float,
    virtualSourceHeight self EClassicDiffusion = Some zv
    /\ R_virt = vsub R (vscale zv n0).
Proof.
  unfold getTentativeIndexMatchedVirtualSourceDisp, getVirtualDipoleSource.
  cbn [effectiveNormal].
  destruct (negb (visFinite n0)); [discriminate|].
  cbn [andb].
  destruct (virtualSourceHeight self EClassicDiffusion) as [zv|];
    [|discriminate].
  cbn [negb]. intros H. injection H as H _ _.
  exists zv. split; [reflexivity | symmetry; exact H].
Qed.

(** X27.  Sample/pdf consistency of the dipole direction sampler without
    the effective BRDF, in exact arithmetic.  Under the assumptions of
    the two monopole samplers, for unit [n0] and effective normal and
    vectors [H = E R - D uL] and [E R_virt - D uL] that are finite and
    not zero, [sampleDirectionDipole(..., useEffectiveBRDF = false, ...)]
    returns 0 or the value of [pdfDirectionDipole] at the direction it
    has written, whichever of its three strategies (real source, mirrored
    virtual source, cosine hemisphere) was drawn. *)
Theorem sampleDirectionDipole_consistent
    {collab : Collaborators} {dcollab : DirectionCollaborators}
    (self : FwdScat) (u0 n0 uL nL R : Vector) (s : Float)
    (tangentMode : TangentPlaneMode) (sampler : Sampler) :
  truncnorm_well_behaved -> truncatedExponential_strictly_within ->
  atan2_exact -> safe_sqrt_exact -> safe_asin_finite ->
  frame_tangent_ok -> frame_bitangent_ok ->
  (Fin 0 .< Epsilon) = true -> isfinite Epsilon = true ->
  (Fin 0 .< MTS_FWDSCAT_DIRECTION_MIN_MU) = true ->
  unit_vector n0 ->
  nonzero_vector (vsub (vscale (sp_E (calcValues self s)) R)
                       (vscale (sp_D (calcValues self s)) uL)) ->
  (forall R_virt n0_effective weight,
     getTentativeIndexMatchedVirtualSourceDisp self n0 nL uL R s
       tangentMode true = Some (R_virt, n0_effective, weight) ->
     unit_vector n0_effective
     /\ nonzero_vector (vsub (vscale (sp_E (calcValues self s)) R_virt)
                             (vscale (sp_D (calcValues self s)) uL))) ->
  stream_strictly_in_unit sampler ->
  let '(pdf, u0', _) :=
    sampleDirectionDipole self u0 n0 uL nL R s tangentMode false sampler in
  (pdf .== 0) = true
  \/ pdf = pdfDirectionDipole self u0' n0 uL nL R s tangentMode false.
Proof.
  intros Htn Hexp Hat Hsq Hasin Hfs Hft Heps Hepsfin Hmu Hn HH Hvirt
    Hstream.
  unfold sampleDirectionDipole, pdfDirectionDipole.
  destruct (getTentativeIndexMatchedVirtualSourceDisp self n0 nL uL R s
              tangentMode true) as [[[Rv ne] w]|] eqn:Hsrc.
  2:{ left. apply feqb_zero_lit. }
  destruct (Hvirt _ _ _ eq_refl) as [Hne HHv]. clear Hvirt.
  set (rw := match w with Some w0 => w0 | None => NaN end).
  unfold next1D. cbv beta iota zeta.
  pose proof (stream_shift _ Hstream) as Hs1.
  set (smp1 := fun n : nat => sampler (S n)) in *.
  destruct (sampler 0%nat .<= _ .* rw).
  - (* the real source *)
    destruct (sampleDirectionBoundaryAwareMonopole self u0 n0 uL R s false
                smp1) as [[pReal u0r] smp2] eqn:Hs.
    destruct (sample_mixture_spec self u0 n0 uL R s smp1
                Htn Hexp Hat Hsq Hasin Hfs Hft Heps Hepsfin Hmu Hn HH Hs1
                _ _ _ Hs) as [Hz | (_ & _ & Hpdf)].
    + rewrite Hz. left. apply feqb_zero_lit.
    + destruct (pReal .== 0); [left; apply feqb_zero_lit|].
      right. rewrite feqb_sentinel.
      destruct (pReal .== (-1)); rewrite ?Hpdf; reflexivity.
  - destruct (sampler 0%nat .<= _).
    + (* the virtual source *)
      set (n0v := vsub n0 (vscale (2 .* dot ne n0) ne)).
      assert (Hnv : unit_vector n0v) by (apply mirror_unit; assumption).
      destruct (sampleDirectionBoundaryAwareMonopole self (vconst NaN)
                  n0v uL Rv s false smp1) as [[pVirt u0v] smp2] eqn:Hs.
      destruct (sample_mixture_spec self (vconst NaN) n0v uL Rv s smp1
                  Htn Hexp Hat Hsq Hasin Hfs Hft Heps Hepsfin Hmu Hnv HHv
                  Hs1 _ _ _ Hs) as [Hz | (Hu & _ & Hpdf)].
      * rewrite Hz. left. apply feqb_zero_lit.
      * destruct (pVirt .== 0); [left; apply feqb_zero_lit|].
        right. rewrite feqb_sentinel.
        rewrite (mirror_involutive ne u0v Hne Hu).
        rewrite Hpdf.
        destruct (pVirt .== (-1)); reflexivity.
    + (* the cosine hemisphere *)
      destruct (_sampleHemisphere n0 smp1) as [[ph u0h] smp2].
      right. rewrite feqb_sentinel. reflexivity.
Qed.

(** [E R_virt - D uL] for the inputs used to exhibit the theorem. *)
Lemma sample_Hvirt_nonzero (R_virt n0_effective : Vector)
    (weight : option Float) :
  getTentativeIndexMatchedVirtualSourceDisp
    (collab := midpoint_collaborators) (mkFwdScat 1 0.5 1 1)
    (mkVector 0 0 1) (mkVector 0 0 1) (mkVector 0.6 0 0.8) (mkVector 0 0 0)
    (Fin 1) EUnmodifiedIncoming true = Some (R_virt, n0_effective, weight) ->
  unit_vector n0_effective
  /\ nonzero_vector
       (vsub (vscale (sp_E (calcValues (mkFwdScat 1 0.5 1 1) (Fin 1))) R_virt)
             (vscale (sp_D (calcValues (mkFwdScat 1 0.5 1 1) (Fin 1)))
                     (mkVector 0.6 0 0.8))).
Proof.
  intros Hsrc. split.
  - rewrite (tentative_unmodified_incoming _ _ _ _ _ _ _ _ _ Hsrc).
    exact unit_vector_z.
  - destruct (tentative_unmodified_incoming_Rvirt _ _ _ _ _ _ _ _ _ Hsrc)
      as (zv & Hzv & ->).
    destruct (virtualSourceHeight_pos (collab := midpoint_collaborators)
                (mkFwdScat 1 0.5 1 1) 1 1 0.5 1 0 EClassicDiffusion
                eq_refl eq_refl eq_refl ltac:(lra) ltac:(lra) ltac:(lra)
                eq_refl ltac:(lra) eq_refl ltac:(lra) ltac:(discriminate))
      as (z & Hz & Hzpos).
    rewrite Hz in Hzv. injection Hzv as <-.
    destruct (calcValues_pos (mkFwdScat 1 0.5 1 1) 1 1 1
                eq_refl eq_refl ltac:(lra) ltac:(lra) ltac:(lra))
      as (c & d & e & f & zz & Hv & _ & Hd & He & _).
    rewrite Hv. cbn [sp_E sp_D]. unfold vscale, vsub. cbn [vx vy vz].
    fin_simpl. eexists _, _, _. split; [reflexivity|].
    assert (H3 : ((0 + - (1 * z)) * e + - (0.8 * d) < 0)%R) by nra.
    nra.
Qed.

Lemma sampleDirectionDipole_consistent_witness :
  let '(pdf, u0', _) :=
    sampleDirectionDipole (collab := midpoint_collaborators)
      (dcollab := exact_direction_collaborators)
      (mkFwdScat 1 0.5 1 1) (mkVector 0 0 1) (mkVector 0 0 1)
      (mkVector 0.6 0 0.8) (mkVector 0 0 1) (mkVector 0 0 0) (Fin 1)
      EUnmodifiedIncoming false sample_stream in
  (pdf .== 0) = true
  \/ pdf = pdfDirectionDipole (collab := midpoint_collaborators)
             (dcollab := exact_direction_collaborators)
             (mkFwdScat 1 0.5 1 1) u0' (mkVector 0 0 1)
             (mkVector 0.6 0 0.8) (mkVector 0 0 1) (mkVector 0 0 0) (Fin 1)
             EUnmodifiedIncoming false.
Proof.
  apply (sampleDirectionDipole_consistent
           (collab := midpoint_collaborators)
           (dcollab := exact_direction_collaborators)
           (mkFwdScat 1 0.5 1 1) (mkVector 0 0 1) (mkVector 0 0 1)
           (mkVector 0.6 0 0.8) (mkVector 0 0 1) (mkVector 0 0 0) (Fin 1)
           EUnmodifiedIncoming sample_stream
           midpoint_truncnorm_well_behaved
           exact_truncatedExponential_strictly_within
           exact_atan2_exact exact_safe_sqrt_exact exact_safe_asin_finite
           exact_frame_tangent_ok exact_frame_bitangent_ok
           exact_Epsilon_pos eq_refl midpoint_MIN_MU_pos
           unit_vector_z sample_H_nonzero sample_Hvirt_nonzero
           sample_stream_strictly_in_unit).
Defined.

(** Mirroring one factor of a dot product or the other gives the same
    number. *)
Lemma mirror_dot_swap (e u n : Vector) :
  finite_vector e -> finite_vector u -> finite_vector n ->
  dot (vsub u (vscale (2 .* dot e u) e)) n
  = dot u (vsub n (vscale (2 .* dot e n) e)).
Proof.
  intros (e1 & e2 & e3 & ->) (u1 & u2 & u3 & ->) (n1 & n2 & n3 & ->).
  rewrite !dot_fin. unfold vscale, vsub. cbn [vx vy vz]. fin_simpl.
  rewrite !dot_fin. f_equal. ring.
Qed.

(** X28.  The directions that [sampleDirectionDipole] draws from the real
    or from the mirrored virtual source come in from outside: under the
    assumptions of the monopole samplers, when the first random number
    does not select the cosine hemisphere
    ([u <= 1 - directionSampler_dipoleHemiWeight]), the pdf returned is 0
    or the direction written satisfies [dot(u0, n0) < 0] -- also after
    the direction sampled around the mirrored normal [n0_virt] has been
    mirrored back. *)
Theorem sampleDirectionDipole_incoming
    {collab : Collaborators} {dcollab : DirectionCollaborators}
    (self : FwdScat) (u0 n0 uL nL R : Vector) (s : Float)
    (tangentMode : TangentPlaneMode) (useEffectiveBRDF : bool)
    (sampler : Sampler) :
  truncnorm_strictly_within -> truncnorm_well_behaved ->
  truncatedExponential_strictly_within ->
  atan2_exact -> safe_sqrt_exact -> safe_asin_finite ->
  frame_tangent_ok -> frame_bitangent_ok ->
  (Fin 0 .< Epsilon) = true -> isfinite Epsilon = true ->
  (Fin 0 .< MTS_FWDSCAT_DIRECTION_MIN_MU) = true ->
  unit_vector n0 -> finite_vector uL ->
  nonzero_vector (vsub (vscale (sp_E (calcValues self s)) R)
                       (vscale (sp_D (calcValues self s)) uL)) ->
  (forall R_virt n0_effective weight,
     getTentativeIndexMatchedVirtualSourceDisp self n0 nL uL R s
       tangentMode true = Some (R_virt, n0_effective, weight) ->
     unit_vector n0_effective
     /\ nonzero_vector (vsub (vscale (sp_E (calcValues self s)) R_virt)
                             (vscale (sp_D (calcValues self s)) uL))) ->
  stream_strictly_in_unit sampler ->
  (sampler 0%nat .<= 1 .- directionSampler_dipoleHemiWeight) = true ->
  let '(pdf, u0', _) :=
    sampleDirectionDipole self u0 n0 uL nL R s tangentMode useEffectiveBRDF
      sampler in
  (pdf .== 0) = true \/ (dot u0' n0 .< 0) = true.
Proof.
  intros Htw Htn Hexp Hat Hsq Hasin Hfs Hft Heps Hepsfin Hmu Hn HuL HH
    Hvirt Hstream Hu.
  unfold sampleDirectionDipole.
  destruct (getTentativeIndexMatchedVirtualSourceDisp self n0 nL uL R s
              tangentMode true) as [[[Rv ne] w]|] eqn:Hsrc.
  2:{ left. apply feqb_zero_lit. }
  destruct (Hvirt _ _ _ eq_refl) as [Hne HHv]. clear Hvirt.
  set (rw := match w with Some w0 => w0 | None => NaN end).
  unfold next1D. cbv beta iota zeta.
  pose proof (stream_shift _ Hstream) as Hs1.
  set (smp1 := fun n : nat => sampler (S n)) in *.
  assert (Hmono : forall (v n : Vector) (Rx : Vector),
            unit_vector n ->
            nonzero_vector (vsub (vscale (sp_E (calcValues self s)) Rx)
                                 (vscale (sp_D (calcValues self s)) uL)) ->
            forall pdf u0' smp',
              sampleDirectionBoundaryAwareMonopole self v n uL Rx s
                useEffectiveBRDF smp1 = (pdf, u0', smp') ->
              (pdf .== 0) = true
              \/ (finite_vector u0' /\ (dot u0' n .< 0) = true)).
  { intros v n Rx Hnn HHx pdf u0' smp' Hs.
    destruct useEffectiveBRDF.
    - unfold sampleDirectionBoundaryAwareMonopole in Hs.
      destruct (sample_BRDF_spec self v n uL Rx s smp1
                  Htw Hat Hsq Hfs (fltb_fleb _ _ Heps) Hnn HuL _ _ _ Hs)
        as [Hz | (Hun & Hin & _)]; [left; exact Hz|].
      right. split; [exact (unit_vector_finite _ Hun) | exact Hin].
    - destruct (sample_mixture_spec self v n uL Rx s smp1
                  Htn Hexp Hat Hsq Hasin Hfs Hft Heps Hepsfin Hmu Hnn HHx
                  Hs1 _ _ _ Hs) as [Hz | (Hfin & Hin & _)];
        [left; exact Hz|].
      right. split; assumption. }
  destruct (sampler 0%nat .<= _ .* rw).
  - (* the real source *)
    destruct (sampleDirectionBoundaryAwareMonopole self u0 n0 uL R s
                useEffectiveBRDF smp1) as [[pReal u0r] smp2] eqn:Hs.
    destruct (Hmono _ _ _ Hn HH _ _ _ Hs) as [Hz | (_ & Hin)].
    + rewrite Hz. left. apply feqb_zero_lit.
    + destruct (pReal .== 0); [left; apply feqb_zero_lit|].
      right. exact Hin.
  - rewrite Hu.
    (* the virtual source *)
    set (n0v := vsub n0 (vscale (2 .* dot ne n0) ne)).
    assert (Hnv : unit_vector n0v) by (apply mirror_unit; assumption).
    destruct (sampleDirectionBoundaryAwareMonopole self (vconst NaN)
                n0v uL Rv s useEffectiveBRDF smp1)
      as [[pVirt u0v] smp2] eqn:Hs.
    destruct (Hmono _ _ _ Hnv HHv _ _ _ Hs) as [Hz | (Hfin & Hin)].
    + rewrite Hz. left. apply feqb_zero_lit.
    + destruct (pVirt .== 0); [left; apply feqb_zero_lit|].
      right.
      rewrite (mirror_dot_swap ne u0v n0 (unit_vector_finite _ Hne) Hfin
                 (unit_vector_finite _ Hn)).
      exact Hin.
Qed.

Lemma sample_stream_first :
  (sample_stream 0%nat .<= 1 .- directionSampler_dipoleHemiWeight) = true.
Proof.
  cbn [sample_stream]. unfold directionSampler_dipoleHemiWeight.
  rewrite fsub_fin. apply fleb_fin. lra.
Qed.

Lemma sampleDirectionDipole_incoming_witness :
  let '(pdf, u0', _) :=
    sampleDirectionDipole (collab := midpoint_collaborators)
      (dcollab := exact_direction_collaborators)
      (mkFwdScat 1 0.5 1 1) (mkVector 0 0 1) (mkVector 0 0 1)
      (mkVector 0.6 0 0.8) (mkVector 0 0 1) (mkVector 0 0 0) (Fin 1)
      EUnmodifiedIncoming false sample_stream in
  (pdf .== 0) = true \/ (dot u0' (mkVector 0 0 1) .< 0) = true.
Proof.
  apply (sampleDirectionDipole_incoming
           (collab := midpoint_collaborators)
           (dcollab := exact_direction_collaborators)
           (mkFwdScat 1 0.5 1 1) (mkVector 0 0 1) (mkVector 0 0 1)
           (mkVector 0.6 0 0.8) (mkVector 0 0 1) (mkVector 0 0 0) (Fin 1)
           EUnmodifiedIncoming false sample_stream
           midpoint_truncnorm_strictly_within
           midpoint_truncnorm_well_behaved
           exact_truncatedExponential_strictly_within
           exact_atan2_exact exact_safe_sqrt_exact exact_safe_asin_finite
           exact_frame_tangent_ok exact_frame_bitangent_ok
           exact_Epsilon_pos eq_refl midpoint_MIN_MU_pos
           unit_vector_z finite_vector_uL sample_H_nonzero
           sample_Hvirt_nonzero sample_stream_strictly_in_unit
           sample_stream_first).
Defined.

(** ** Length sampler: the weight of [sampleLengthDipole] *)

(** The tentative virtual source for the unmodified incoming normal, with
    the sample collaborators (diffuse Fresnel reflectance 0): it lies at
    [R - zv n0] for a height [zv] that is a number. *)
Lemma tentative_unmodified_call
    (self : FwdScat) (ss m sa : real) (n0 nL uL R : Vector) (s : Float) :
  sigma_s self = Fin ss -> mu self = Fin m -> sigma_a self = Fin sa ->
  (0 < ss)%R -> (0 < m)%R -> (0 <= sa)%R ->
  visFinite n0 = true ->
  exists zv : real,
    getTentativeIndexMatchedVirtualSourceDisp (collab := sample_collaborators)
      self n0 nL uL R s EUnmodifiedIncoming false
    = Some (vsub R (vscale (Fin zv) n0), n0, None).
Proof.
  intros Hss Hmu Hsa Hs0 Hm0 Ha0 Hn0.
  unfold getTentativeIndexMatchedVirtualSourceDisp, getVirtualDipoleSource,
    effectiveNormal, virtualSourceHeight.
  rewrite Hn0, Hss, Hmu, Hsa.
  cbn [negb andb fmul fadd fsub fneg fresnelDiffuseReflectance
       sample_collaborators].
  assert (Hp : (0 < ss * m)%R) by (apply Rmult_lt_0_compat; assumption).
  rewrite (feqb_fin_false (ss * m + sa) 0) by lra.
  rewrite !fdiv_fin by lra. cbn [fmul].
  eexists. reflexivity.
Qed.

Lemma vsub_vscale_finite (zv : real) (R n0 : Vector) :
  visFinite R = true -> visFinite n0 = true ->
  visFinite (vsub R (vscale (Fin zv) n0)) = true.
Proof.
  intros HR Hn.
  destruct (visFinite_inv R HR) as (x & y & z & ->).
  destruct (visFinite_inv n0 Hn) as (a & b & c & ->).
  reflexivity.
Qed.
(** A run of [sampleLengthDipole] through the gaussian draw of the
    ShortLimit strategy: entry direction known, finite [R] of non-zero
    length, second random number below [lengthSample_w1], third one
    [>= 0].  The weight handed back is a positive number. *)
Lemma sampleLengthDipole_knownU0_call
    (self : FwdScat) (ss m sa u2 u3 : real) (fuel : nat)
    (uL nL R u0 n0 : Vector) (s0 : Float) (smp : Sampler) :
  sigma_s self = Fin ss -> mu self = Fin m -> sigma_a self = Fin sa ->
  (0 < ss)%R -> (0 < m)%R -> (0 <= sa)%R ->
  visFinite n0 = true -> visFinite uL = true ->
  visFinite R = true -> (vlength R .== 0) = false ->
  smp 1%nat = Fin u2 -> (u2 < 0.5)%R ->
  smp 2%nat = Fin u3 -> (0 <= u3)%R ->
  exists w s : real,
    sampleLengthDipole (collab := sample_collaborators) self (S fuel)
      uL nL R (Some u0) n0 EUnmodifiedIncoming s0 smp
    = Some (Fin w, Fin s, fun n => smp (S (S (S n))))
    /\ (0 < w)%R /\ (0 < s)%R.
Proof.
  intros Hss Hmu Hsa Hs0 Hm0 Ha0 Hn0 HuL HR HlR Hu2 Hu2' Hu3 Hu3'.
  destruct lengthSample_weights as (Hw1 & Hw2 & Hw3 & Hw2').
  destruct (tentative_unmodified_call self ss m sa n0 nL uL R NaN
              Hss Hmu Hsa Hs0 Hm0 Ha0 Hn0) as (zv & Hsrc).
  pose proof (vsub_vscale_finite zv R n0 HR Hn0) as HRv.
  destruct (sampleLengthShortLimit_knownU0_draw self ss m u3 fuel R u0 uL
              s0 (fun n => smp (S (S n))) Hss Hmu Hs0 Hm0 HR HlR Hu3 Hu3')
    as (pdf & s & Hdraw & Hpdf & Hs).
  destruct (pdfLengthLongLimit_fin_nonneg self ss m sa s R uL
              Hss Hmu Hsa Hs0 Hm0 Ha0 Hs HR HuL) as (b1 & Hb1 & Hb1').
  destruct (pdfLengthLongLimit_fin_nonneg self ss m sa s
              (vsub R (vscale (Fin zv) n0)) uL
              Hss Hmu Hsa Hs0 Hm0 Ha0 Hs HRv HuL) as (b2 & Hb2 & Hb2').
  unfold sampleLengthDipole. rewrite Hsrc.
  unfold next1D. cbv beta iota zeta. rewrite Hu2.
  unfold lengthSample_w1 at 1. rewrite (fltb_fin_true u2 0.5) by exact Hu2'.
  rewrite Hdraw.
  rewrite (feqb_fin_false pdf 0) by lra.
  rewrite (feqb_fin_false pdf (-1)) by lra.
  rewrite !feqb_refl_fin, Hw2, Hw3, Hw2'.
  assert (Hsum : exists b : real,
             (let '(R_effective, R_other) :=
                if smp 0%nat .< 0.5
                then (R, vsub R (vscale (Fin zv) n0))
                else (vsub R (vscale (Fin zv) n0), R) in
              pdfLengthLongLimit self R_effective uL (Fin s)
              .+ pdfLengthLongLimit self R_other uL (Fin s)) = Fin b
             /\ (0 <= b)%R).
  { destruct (smp 0%nat .< 0.5); rewrite Hb1, Hb2; cbn [fadd];
      eexists; (split; [reflexivity|lra]). }
  destruct Hsum as (b & Hb & Hb').
  destruct (smp 0%nat .< 0.5); rewrite Hb;
    unfold lengthSample_w1, lengthSample_w2, lengthSample_w3;
    cbn [fmul fadd];
    (rewrite fdiv_fin by nra);
    (eexists _, _; split; [reflexivity|]; split; [|exact Hs];
     apply Rdiv_lt_0_compat; nra).
Qed.


